(** * Klondike solitaire core (packages/core): a shallow embedding

    The development follows the layout of the TypeScript package:
    [types.ts], [deck.ts], [rules.ts], [scoring.ts] and [game.ts].  The
    reducer of the React hook that drives the engine ([useGame.ts] of
    packages/react) comes last.

    Modelling conventions.
    - JavaScript numbers that the engine uses as counters, indices, ranks,
      card counts and scores are integers and are modelled in [Z].
    - An array read outside the array gives [None] (JavaScript's
      [undefined]); reading a property of [undefined] raises [TypeError],
      which the [Exc] monad records.
    - The 4-tuple of foundations and the 7-tuple of tableau columns are
      records of that many piles, indexed by a number.
    - Every operation deep-copies its input before mutating the copy, so
      states are values; the piles of the copy are addressed by location
      ([getPile]/[setPile]), which keeps the aliasing of a source and a
      destination that name the same pile.
    - The wall clock ([Date.now()]) is an explicit argument [now].
    - The numbers of the shuffle are IEEE-754 doubles ([JsNum]): a seed is
      any number, and the generator is computed with the rounding, the
      overflow and the [NaN] of doubles.  The array the shuffle works on is
      an array object ([JsArray]): an entry can be [undefined], and an
      assignment under a name that is not an index adds a property to the
      object.
    - [Math.random()] is an explicit sequence of numbers. *)

From Stdlib Require Import String DecimalString.
From Stdlib Require Import ZArith List Bool Lia Permutation Sorted.
Import ListNotations.
Open Scope Z_scope.

(** [length] is the length of a list throughout (not of a string). *)
Abbreviation length := Datatypes.length.

(* ================================================================== *)
(** ** JavaScript values: exceptions and arrays *)

Inductive JsError : Type := TypeError.

Inductive Exc (A : Type) : Type :=
| Ret (a : A)
| Throw (e : JsError).
Arguments Ret {A} a.
Arguments Throw {A} e.

Definition bind {A B : Type} (m : Exc A) (k : A -> Exc B) : Exc B :=
  match m with
  | Ret a => k a
  | Throw e => Throw e
  end.

Notation "x <- m ;; k" := (bind m (fun x => k))
  (at level 61, m at next level, right associativity).

Module Js.

(** [arr.length] *)
Definition len {A : Type} (l : list A) : Z := Z.of_nat (length l).

(** [arr[i]]: [undefined] outside [0, length) *)
Definition index {A : Type} (l : list A) (i : Z) : option A :=
  if i <? 0 then None else nth_error l (Z.to_nat i).

(** [arr.at(-1)] *)
Definition at_last {A : Type} (l : list A) : option A :=
  index l (len l - 1).

(** [arr.push(...xs)] *)
Definition push {A : Type} (l xs : list A) : list A := l ++ xs.

(** [arr.pop()]: the removed element (if any) and the remaining array *)
Definition pop {A : Type} (l : list A) : option A * list A :=
  (at_last l, removelast l).

(** [arr[i] = x] for an index inside the array *)
Fixpoint set_nth {A : Type} (l : list A) (i : nat) (x : A) : list A :=
  match l, i with
  | [], _ => []
  | _ :: t, O => x :: t
  | h :: t, S i' => h :: set_nth t i' x
  end.

(** The relative-index clamping of [slice] and [splice] *)
Definition clamp_index (n i : Z) : Z :=
  if i <? 0 then Z.max (n + i) 0 else Z.min i n.

(** [arr.slice(0, e)] *)
Definition slice0 {A : Type} (l : list A) (e : Z) : list A :=
  firstn (Z.to_nat (clamp_index (len l) e)) l.

(** [arr.splice(start, deleteCount)]: the removed elements and the array
    that is left *)
Definition splice {A : Type} (l : list A) (start deleteCount : Z)
  : list A * list A :=
  let s := clamp_index (len l) start in
  let d := Z.min (Z.max deleteCount 0) (len l - s) in
  (firstn (Z.to_nat d) (skipn (Z.to_nat s) l),
   firstn (Z.to_nat s) l ++ skipn (Z.to_nat (s + d)) l).

(** [arr.shift()] *)
Definition shift {A : Type} (l : list A) : list A := tl l.

End Js.

(* ================================================================== *)
(** ** JavaScript numbers *)

(** A number is an IEEE-754 double: [Fin m e] is the finite value
    [m * 2^e].  Minus zero is not told from zero: the arithmetic below
    gives the same values on both. *)
Inductive JsNum : Type :=
| NaN
| PosInf
| NegInf
| Fin (m e : Z).

(** The value of [Math.floor]: an integer, or what it was given when that
    is [NaN] or infinite.  As the name of a property ([result[j]]) two of
    them are the same name exactly when they are equal. *)
Inductive Floor : Type :=
| F_int (z : Z)
| F_NaN
| F_PosInf
| F_NegInf.

Module Num.

Definition ofZ (z : Z) : JsNum := Fin z 0.

Definition inf (negative : bool) : JsNum :=
  if negative then NegInf else PosInf.

Definition isNeg (x : JsNum) : bool :=
  match x with
  | NegInf => true
  | Fin m _ => m <? 0
  | _ => false
  end.

Definition isZero (x : JsNum) : bool :=
  match x with
  | Fin m _ => m =? 0
  | _ => false
  end.

(** [n / 2^d] rounded to the nearest integer, a tie to the even one *)
Definition nearest (n d : Z) : Z :=
  let q := n / 2 ^ d in
  let r := n mod 2 ^ d in
  let half := 2 ^ (d - 1) in
  if r <? half then q
  else if half <? r then q + 1
  else if Z.even q then q else q + 1.

(** The double nearest to [m * 2^e]: 53 significant bits, no exponent
    below -1074, and an infinity from [2^1024] on *)
Definition round (x : JsNum) : JsNum :=
  match x with
  | Fin m e =>
      let d := Z.max (Z.log2 (Z.abs m) - 52) (-1074 - e) in
      let q := if 0 <? d then nearest (Z.abs m) d else Z.abs m in
      let e' := if 0 <? d then e + d else e in
      if (0 <? q) && (1024 <=? Z.log2 q + e') then inf (m <? 0)
      else Fin (Z.sgn m * q) e'
  | _ => x
  end.

(** [x * y] *)
Definition mul (x y : JsNum) : JsNum :=
  match x, y with
  | NaN, _ | _, NaN => NaN
  | Fin m1 e1, Fin m2 e2 => round (Fin (m1 * m2) (e1 + e2))
  | _, _ =>
      if isZero x || isZero y then NaN else inf (xorb (isNeg x) (isNeg y))
  end.

(** [x + y] *)
Definition add (x y : JsNum) : JsNum :=
  match x, y with
  | NaN, _ | _, NaN => NaN
  | Fin m1 e1, Fin m2 e2 =>
      let e := Z.min e1 e2 in
      round (Fin (m1 * 2 ^ (e1 - e) + m2 * 2 ^ (e2 - e)) e)
  | PosInf, NegInf | NegInf, PosInf => NaN
  | PosInf, _ | _, PosInf => PosInf
  | NegInf, _ | _, NegInf => NegInf
  end.

(** [x % y]: the remainder has the sign of [x] and is exact *)
Definition rem (x y : JsNum) : JsNum :=
  match x, y with
  | Fin m1 e1, Fin m2 e2 =>
      if m2 =? 0 then NaN
      else
        let e := Z.min e1 e2 in
        Fin (Z.rem (m1 * 2 ^ (e1 - e)) (m2 * 2 ^ (e2 - e))) e
  | Fin _ _, (PosInf | NegInf) => x
  | _, _ => NaN
  end.

(** [x / 2 ** k] *)
Definition divPow2 (x : JsNum) (k : Z) : JsNum :=
  match x with
  | Fin m e => round (Fin m (e - k))
  | _ => x
  end.

(** [Math.floor(x)] *)
Definition floor (x : JsNum) : Floor :=
  match x with
  | NaN => F_NaN
  | PosInf => F_PosInf
  | NegInf => F_NegInf
  | Fin m e => F_int (if 0 <=? e then m * 2 ^ e else m / 2 ^ (- e))
  end.

End Num.

Coercion Num.ofZ : Z >-> JsNum.

Definition Floor_eqb (a b : Floor) : bool :=
  match a, b with
  | F_int x, F_int y => x =? y
  | F_NaN, F_NaN | F_PosInf, F_PosInf | F_NegInf, F_NegInf => true
  | _, _ => false
  end.

(* ================================================================== *)
(** ** JavaScript arrays with [undefined] entries *)

(** An array object: the entries at the indices below [length], where
    [None] is [undefined] (or a hole, which reads as [undefined]), and the
    properties the object has under other names. *)
Record JsArray (T : Type) : Type := mkArray {
  elems : list (option T);
  props : list (Floor * option T)
}.
Arguments mkArray {T}.
Arguments elems {T}.
Arguments props {T}.

Module Arr.

(** [[...array]] *)
Definition ofList {T : Type} (array : list T) : JsArray T :=
  mkArray (map Some array) [].

(** A property name is an array index when it is an integer in
    [0, 2^32 - 1) *)
Definition asIndex (j : Floor) : option nat :=
  match j with
  | F_int z => if (0 <=? z) && (z <? 2 ^ 32 - 1) then Some (Z.to_nat z) else None
  | _ => None
  end.

(** [a[n]] for an index [n]: [undefined] from [length] on *)
Definition entry {T : Type} (a : JsArray T) (n : nat) : option T :=
  match nth_error (elems a) n with
  | Some v => v
  | None => None
  end.

(** [a[j]] *)
Definition get {T : Type} (a : JsArray T) (j : Floor) : option T :=
  match asIndex j with
  | Some n => entry a n
  | None =>
      match find (fun p => Floor_eqb (fst p) j) (props a) with
      | Some p => snd p
      | None => None
      end
  end.

Fixpoint setProp {T : Type} (j : Floor) (v : option T)
  (ps : list (Floor * option T)) : list (Floor * option T) :=
  match ps with
  | [] => [(j, v)]
  | p :: ps' =>
      if Floor_eqb (fst p) j then (j, v) :: ps' else p :: setProp j v ps'
  end.

(** An assignment at an index from [length] on lengthens the array and
    leaves holes below the index *)
Definition setElem {T : Type} (l : list (option T)) (n : nat) (v : option T)
  : list (option T) :=
  if (n <? length l)%nat then Js.set_nth l n v
  else l ++ repeat None (n - length l) ++ [v].

(** [a[j] = v] *)
Definition set {T : Type} (a : JsArray T) (j : Floor) (v : option T)
  : JsArray T :=
  match asIndex j with
  | Some n => mkArray (setElem (elems a) n v) (props a)
  | None => mkArray (elems a) (setProp j v (props a))
  end.

(** The entries of an array, when none is [undefined] *)
Fixpoint allDefined {T : Type} (l : list (option T)) : option (list T) :=
  match l with
  | [] => Some []
  | Some x :: l' => option_map (cons x) (allDefined l')
  | None :: _ => None
  end.

End Arr.

(** Fixed-length tuples [[Pile, Pile, Pile, Pile]] and the 7-tuple of the
    tableau, indexed by a JavaScript number. *)

Record Tuple4 (A : Type) : Type := T4 { t4_0 : A; t4_1 : A; t4_2 : A; t4_3 : A }.
Arguments T4 {A}.
Arguments t4_0 {A}. Arguments t4_1 {A}. Arguments t4_2 {A}. Arguments t4_3 {A}.

Record Tuple7 (A : Type) : Type :=
  T7 { t7_0 : A; t7_1 : A; t7_2 : A; t7_3 : A; t7_4 : A; t7_5 : A; t7_6 : A }.
Arguments T7 {A}.
Arguments t7_0 {A}. Arguments t7_1 {A}. Arguments t7_2 {A}. Arguments t7_3 {A}.
Arguments t7_4 {A}. Arguments t7_5 {A}. Arguments t7_6 {A}.

Definition t4_list {A : Type} (t : Tuple4 A) : list A :=
  [t4_0 t; t4_1 t; t4_2 t; t4_3 t].

Definition t4_get {A : Type} (t : Tuple4 A) (i : Z) : option A :=
  if i =? 0 then Some (t4_0 t) else
  if i =? 1 then Some (t4_1 t) else
  if i =? 2 then Some (t4_2 t) else
  if i =? 3 then Some (t4_3 t) else None.

Definition t4_set {A : Type} (t : Tuple4 A) (i : Z) (x : A) : Tuple4 A :=
  if i =? 0 then T4 x (t4_1 t) (t4_2 t) (t4_3 t) else
  if i =? 1 then T4 (t4_0 t) x (t4_2 t) (t4_3 t) else
  if i =? 2 then T4 (t4_0 t) (t4_1 t) x (t4_3 t) else
  if i =? 3 then T4 (t4_0 t) (t4_1 t) (t4_2 t) x else t.

Definition t4_map {A B : Type} (f : A -> B) (t : Tuple4 A) : Tuple4 B :=
  T4 (f (t4_0 t)) (f (t4_1 t)) (f (t4_2 t)) (f (t4_3 t)).

Definition t7_list {A : Type} (t : Tuple7 A) : list A :=
  [t7_0 t; t7_1 t; t7_2 t; t7_3 t; t7_4 t; t7_5 t; t7_6 t].

Definition t7_get {A : Type} (t : Tuple7 A) (i : Z) : option A :=
  if i =? 0 then Some (t7_0 t) else
  if i =? 1 then Some (t7_1 t) else
  if i =? 2 then Some (t7_2 t) else
  if i =? 3 then Some (t7_3 t) else
  if i =? 4 then Some (t7_4 t) else
  if i =? 5 then Some (t7_5 t) else
  if i =? 6 then Some (t7_6 t) else None.

Definition t7_set {A : Type} (t : Tuple7 A) (i : Z) (x : A) : Tuple7 A :=
  if i =? 0 then T7 x (t7_1 t) (t7_2 t) (t7_3 t) (t7_4 t) (t7_5 t) (t7_6 t) else
  if i =? 1 then T7 (t7_0 t) x (t7_2 t) (t7_3 t) (t7_4 t) (t7_5 t) (t7_6 t) else
  if i =? 2 then T7 (t7_0 t) (t7_1 t) x (t7_3 t) (t7_4 t) (t7_5 t) (t7_6 t) else
  if i =? 3 then T7 (t7_0 t) (t7_1 t) (t7_2 t) x (t7_4 t) (t7_5 t) (t7_6 t) else
  if i =? 4 then T7 (t7_0 t) (t7_1 t) (t7_2 t) (t7_3 t) x (t7_5 t) (t7_6 t) else
  if i =? 5 then T7 (t7_0 t) (t7_1 t) (t7_2 t) (t7_3 t) (t7_4 t) x (t7_6 t) else
  if i =? 6 then T7 (t7_0 t) (t7_1 t) (t7_2 t) (t7_3 t) (t7_4 t) (t7_5 t) x else t.

Definition t7_map {A B : Type} (f : A -> B) (t : Tuple7 A) : Tuple7 B :=
  T7 (f (t7_0 t)) (f (t7_1 t)) (f (t7_2 t)) (f (t7_3 t))
     (f (t7_4 t)) (f (t7_5 t)) (f (t7_6 t)).

(* ================================================================== *)
(** ** types.ts *)

Inductive Suit : Type := hearts | diamonds | clubs | spades.

Inductive Colour : Type := red | black.

(** [Rank] is a number at run time; the values 1..13 are the ranks of a deck. *)
Definition Rank : Type := Z.

Record Card : Type := mkCard {
  id : string;
  suit : Suit;
  rank : Rank;
  faceUp : bool
}.

Inductive PileType : Type := stock_t | waste_t | foundation_t | tableau_t.

Record Pile : Type := mkPile {
  pile_id : string;
  type : PileType;
  cards : list Card;
  tableauIndex : option Z;
  foundationSuit : option Suit
}.

Inductive DrawMode : Type := draw_one | draw_three.

Inductive ScoringMode : Type := standard | vegas | none.

Record GameConfig : Type := mkConfig {
  drawMode : DrawMode;
  scoringMode : ScoringMode;
  unlimitedPasses : bool;
  autoFlipTableau : bool
}.

Record GameState : Type := mkState {
  stock : Pile;
  waste : Pile;
  foundations : Tuple4 Pile;
  tableau : Tuple7 Pile;
  score : Z;
  moves : Z;
  startTime : option Z;
  endTime : option Z;
  isWon : bool;
  stockPasses : Z;
  config : GameConfig
}.

Record CardLocation : Type := mkLoc {
  pileType : PileType;
  pileIndex : Z;
  cardIndex : Z
}.

Record Move : Type := mkMove {
  move_from : CardLocation;
  move_to : CardLocation;
  cardCount : Z;
  flippedCard : bool;
  scoreChange : Z
}.

Record HistoryEntry : Type := mkEntry {
  entry_move : Move;
  previousState : GameState
}.

Record MoveResult : Type := mkResult {
  success : bool;
  result_state : option GameState;
  error : option string;
  result_move : option Move
}.

(** [SUIT_INFO[card.suit].colour] *)
Definition suit_colour (s : Suit) : Colour :=
  match s with
  | hearts => red
  | diamonds => red
  | clubs => black
  | spades => black
  end.

Definition getCardColour (card : Card) : Colour := suit_colour (suit card).

Definition Suit_eqb (a b : Suit) : bool :=
  match a, b with
  | hearts, hearts | diamonds, diamonds | clubs, clubs | spades, spades => true
  | _, _ => false
  end.

Definition Colour_eqb (a b : Colour) : bool :=
  match a, b with
  | red, red | black, black => true
  | _, _ => false
  end.

Definition PileType_eqb (a b : PileType) : bool :=
  match a, b with
  | stock_t, stock_t | waste_t, waste_t
  | foundation_t, foundation_t | tableau_t, tableau_t => true
  | _, _ => false
  end.

(** Field updates of the mutable records ([pile.cards = ...], [state.score = ...]). *)
Definition set_cards (p : Pile) (cs : list Card) : Pile :=
  mkPile (pile_id p) (type p) cs (tableauIndex p) (foundationSuit p).

Definition set_stock (s : GameState) (p : Pile) : GameState :=
  mkState p (waste s) (foundations s) (tableau s) (score s) (moves s)
          (startTime s) (endTime s) (isWon s) (stockPasses s) (config s).

Definition set_waste (s : GameState) (p : Pile) : GameState :=
  mkState (stock s) p (foundations s) (tableau s) (score s) (moves s)
          (startTime s) (endTime s) (isWon s) (stockPasses s) (config s).

Definition set_foundations (s : GameState) (f : Tuple4 Pile) : GameState :=
  mkState (stock s) (waste s) f (tableau s) (score s) (moves s)
          (startTime s) (endTime s) (isWon s) (stockPasses s) (config s).

Definition set_tableau (s : GameState) (t : Tuple7 Pile) : GameState :=
  mkState (stock s) (waste s) (foundations s) t (score s) (moves s)
          (startTime s) (endTime s) (isWon s) (stockPasses s) (config s).

Definition set_score (s : GameState) (v : Z) : GameState :=
  mkState (stock s) (waste s) (foundations s) (tableau s) v (moves s)
          (startTime s) (endTime s) (isWon s) (stockPasses s) (config s).

Definition set_moves (s : GameState) (v : Z) : GameState :=
  mkState (stock s) (waste s) (foundations s) (tableau s) (score s) v
          (startTime s) (endTime s) (isWon s) (stockPasses s) (config s).

Definition set_startTime (s : GameState) (v : option Z) : GameState :=
  mkState (stock s) (waste s) (foundations s) (tableau s) (score s) (moves s)
          v (endTime s) (isWon s) (stockPasses s) (config s).

Definition set_endTime (s : GameState) (v : option Z) : GameState :=
  mkState (stock s) (waste s) (foundations s) (tableau s) (score s) (moves s)
          (startTime s) v (isWon s) (stockPasses s) (config s).

Definition set_isWon (s : GameState) (v : bool) : GameState :=
  mkState (stock s) (waste s) (foundations s) (tableau s) (score s) (moves s)
          (startTime s) (endTime s) v (stockPasses s) (config s).

Definition set_stockPasses (s : GameState) (v : Z) : GameState :=
  mkState (stock s) (waste s) (foundations s) (tableau s) (score s) (moves s)
          (startTime s) (endTime s) (isWon s) v (config s).

(** [if (newState.startTime === null) newState.startTime = Date.now()] *)
Definition startTimer (now : Z) (s : GameState) : GameState :=
  match startTime s with
  | None => set_startTime s (Some now)
  | Some _ => s
  end.

(* ================================================================== *)
(** ** deck.ts *)

Definition SUITS : list Suit := [hearts; diamonds; clubs; spades].

Definition RANKS : list Rank := [1; 2; 3; 4; 5; 6; 7; 8; 9; 10; 11; 12; 13].

Definition suit_name (s : Suit) : string :=
  match s with
  | hearts => "hearts"
  | diamonds => "diamonds"
  | clubs => "clubs"
  | spades => "spades"
  end%string.

(** The decimal rendering of an integer inside a template literal *)
Definition number_toString (z : Z) : string :=
  DecimalString.NilZero.string_of_int (Z.to_int z).

(** [`${suit}-${rank}`] *)
Definition createCardId (s : Suit) (r : Rank) : string :=
  String.append (suit_name s) (String.append "-" (number_toString r)).

Definition createCard (s : Suit) (r : Rank) (up : bool) : Card :=
  mkCard (createCardId s r) s r up.

(** The two nested [for ... of] loops, suit-major and rank-minor *)
Definition createDeck : list Card :=
  flat_map (fun s => map (fun r => createCard s r false) RANKS) SUITS.

Definition lcg_a : Z := 1103515245.
Definition lcg_c : Z := 12345.

(** [current = (a * current + c) % m], where [m] is [2 ** 31] *)
Definition lcg_next (current : JsNum) : JsNum :=
  Num.rem (Num.add (Num.mul lcg_a current) lcg_c) (2 ^ 31).

(** [[result[i], result[j]] = [result[j], result[i]]]: the right-hand side
    reads [result[j]] and then [result[i]]; then [result[i]] and
    [result[j]] are assigned in this order *)
Definition swap {T : Type} (result : JsArray T) (i : nat) (j : Floor)
  : JsArray T :=
  let rj := Arr.get result j in
  let ri := Arr.get result (F_int (Z.of_nat i)) in
  Arr.set (Arr.set result (F_int (Z.of_nat i)) rj) j ri.

(** The loop [for (let i = result.length - 1; i > 0; i--)] of
    [shuffleWithSeed], with the generator state [current] threaded
    through; [seededRandom()] returns [current / m] *)
Fixpoint seededLoop {T : Type} (i : nat) (current : JsNum)
  (result : JsArray T) : JsArray T :=
  match i with
  | O => result
  | S i' =>
      let current' := lcg_next current in
      let j := Num.floor (Num.mul (Num.divPow2 current' 31)
                                  (Z.of_nat i + 1)) in
      seededLoop i' current' (swap result i j)
  end.

(** [shuffleWithSeed(array, seed)]; a seed that is not a double stands for
    the double nearest to it, as a numeric literal does *)
Definition shuffleWithSeed {T : Type} (array : list T) (seed : JsNum)
  : JsArray T :=
  seededLoop (length array - 1) (Num.round seed) (Arr.ofList array).

(** The same loop of [shuffle]; [random k] is what the call number [k] of
    [Math.random()] returns *)
Fixpoint randomLoop {T : Type} (i : nat) (random : nat -> JsNum) (k : nat)
  (result : JsArray T) : JsArray T :=
  match i with
  | O => result
  | S i' =>
      let j := Num.floor (Num.mul (random k) (Z.of_nat i + 1)) in
      randomLoop i' random (S k) (swap result i j)
  end.

Definition shuffle {T : Type} (random : nat -> JsNum) (array : list T)
  : JsArray T :=
  randomLoop (length array - 1) random 0 (Arr.ofList array).

(** The optional parameter [seed?: number]: a number, or no seed, and then
    the values [Math.random()] returns come with it *)
Inductive Seed : Type :=
| Seeded (seed : JsNum)
| Unseeded (random : nat -> JsNum).

Coercion Seeded : JsNum >-> Seed.

(** A numeral where a seed is expected is an integer *)
Bind Scope Z_scope with Seed.

(** [createShuffledDeck(seed)]: [shuffleWithSeed] when a seed is given
    ([seed !== undefined]), [shuffle] otherwise *)
Definition createShuffledDeck (seed : Seed) : JsArray Card :=
  match seed with
  | Seeded seed => shuffleWithSeed createDeck seed
  | Unseeded random => shuffle random createDeck
  end.

(** *** Notions for the statements about the shuffle *)

(** The values an array object holds: its defined entries, and the defined
    values of its other properties *)
Definition defined {T : Type} (l : list (option T)) : list T :=
  flat_map (fun v => match v with Some x => [x] | None => [] end) l.

Definition held {T : Type} (a : JsArray T) : list T :=
  defined (elems a) ++ defined (map snd (props a)).

(** [x] is the double whose value is the natural number [n] *)
Definition natural (x : JsNum) (n : Z) : Prop :=
  exists q e, x = Fin q e /\ 0 <= q /\ 0 <= e /\ n = q * 2 ^ e.

(** [x] is a double in [0, 1), which is what [Math.random()] returns *)
Definition unitDouble (x : JsNum) : Prop :=
  exists m e, x = Fin m e /\ 0 <= m < 2 ^ 53 /\ -1074 <= e <= 0
              /\ m < 2 ^ (- e).

(** *** Cards *)

Definition flipCard (card : Card) (up : bool) : Card :=
  if Bool.eqb (faceUp card) up then card
  else mkCard (id card) (suit card) (rank card) up.

Definition isSameCard (a b : Card) : bool := String.eqb (id a) (id b).

(* ================================================================== *)
(** ** rules.ts *)

Definition canPlaceOnFoundation (card : Card) (foundation : Pile) : bool :=
  match Js.at_last (cards foundation) with
  | None => rank card =? 1
  | Some topCard =>
      Suit_eqb (suit card) (suit topCard) && (rank card =? rank topCard + 1)
  end.

Definition canPlaceOnTableau (card : Card) (column : Pile) : bool :=
  match Js.at_last (cards column) with
  | None => rank card =? 13
  | Some topCard =>
      if negb (faceUp topCard) then false
      else
        let cardColour := getCardColour card in
        let topCardColour := getCardColour topCard in
        negb (Colour_eqb cardColour topCardColour)
        && (rank card =? rank topCard - 1)
  end.

Definition getPile (state : GameState) (location : CardLocation)
  : option Pile :=
  match pileType location with
  | stock_t => Some (stock state)
  | waste_t => Some (waste state)
  | foundation_t => t4_get (foundations state) (pileIndex location)
  | tableau_t => t7_get (tableau state) (pileIndex location)
  end.

Definition getCardAt (state : GameState) (location : CardLocation)
  : option Card :=
  match getPile state location with
  | None => None
  | Some pile => Js.index (cards pile) (cardIndex location)
  end.

(** [for (let i = from; i < cards.length; i++) if (!cards[i].faceUp) return false;
    return true], the loop shared by [canPickUpCards], [canAutoMove] and
    [autoMoveToFoundation].  Each iteration either stops or moves [i] one
    step towards [cards.length]; [fuel] bounds the iterations. *)
Fixpoint allFaceUpLoop (fuel : nat) (cs : list Card) (i : Z) : Exc bool :=
  match fuel with
  | O => Ret true
  | S fuel' =>
      if i <? Js.len cs then
        match Js.index cs i with
        | None => Throw TypeError
        | Some c => if negb (faceUp c) then Ret false
                    else allFaceUpLoop fuel' cs (i + 1)
        end
      else Ret true
  end.

Definition allFaceUpFrom (cs : list Card) (i : Z) : Exc bool :=
  allFaceUpLoop (S (length cs)) cs i.

Definition canPickUpCards (pile : Pile) (fromIndex : Z) : Exc bool :=
  match type pile with
  | stock_t => Ret false
  | waste_t => Ret (fromIndex =? Js.len (cards pile) - 1)
  | foundation_t => Ret (fromIndex =? Js.len (cards pile) - 1)
  | tableau_t => allFaceUpFrom (cards pile) fromIndex
  end.

Definition isValidMove (state : GameState) (from to : CardLocation)
  (cardCount : Z) : Exc bool :=
  match getPile state from, getPile state to with
  | Some sourcePile, Some destPile =>
      pickable <- canPickUpCards sourcePile (cardIndex from) ;;
      if negb pickable then Ret false else
      let availableCards := Js.len (cards sourcePile) - cardIndex from in
      if cardCount >? availableCards then Ret false else
      match Js.index (cards sourcePile) (cardIndex from) with
      | None => Ret false
      | Some movingCard =>
          match type destPile with
          | stock_t => Ret false
          | waste_t => Ret false
          | foundation_t =>
              if negb (cardCount =? 1) then Ret false
              else Ret (canPlaceOnFoundation movingCard destPile)
          | tableau_t => Ret (canPlaceOnTableau movingCard destPile)
          end
      end
  | _, _ => Ret false
  end.

Definition checkWinCondition (state : GameState) : bool :=
  let totalOnFoundations :=
    fold_left (fun sum foundation => sum + Js.len (cards foundation))
              (t4_list (foundations state)) 0 in
  totalOnFoundations =? 52.

(** The inner loop of [findAutoCompleteMove]: foundations 0..3 in order *)
Fixpoint findFoundationFor (topCard : Card) (fs : list Pile) (j : Z)
  : option CardLocation :=
  match fs with
  | [] => None
  | foundation :: rest =>
      if canPlaceOnFoundation topCard foundation
      then Some (mkLoc foundation_t j (Js.len (cards foundation)))
      else findFoundationFor topCard rest (j + 1)
  end.

(** The outer loop of [findAutoCompleteMove]: columns 0..6 in order *)
Fixpoint findAutoCompleteLoop (state : GameState) (ts : list Pile) (i : Z)
  : option (CardLocation * CardLocation) :=
  match ts with
  | [] => None
  | column :: rest =>
      match Js.at_last (cards column) with
      | None => findAutoCompleteLoop state rest (i + 1)
      | Some topCard =>
          let from := mkLoc tableau_t i (Js.len (cards column) - 1) in
          match findFoundationFor topCard (t4_list (foundations state)) 0 with
          | Some to => Some (from, to)
          | None => findAutoCompleteLoop state rest (i + 1)
          end
      end
  end.

Definition findAutoCompleteMove (state : GameState)
  : option (CardLocation * CardLocation) :=
  findAutoCompleteLoop state (t7_list (tableau state)) 0.

(* ================================================================== *)
(** ** scoring.ts *)

Definition STANDARD_wasteToTableau : Z := 5.
Definition STANDARD_wasteToFoundation : Z := 10.
Definition STANDARD_tableauToFoundation : Z := 10.
Definition STANDARD_turnOverTableauCard : Z := 5.
Definition STANDARD_foundationToTableau : Z := -15.
Definition STANDARD_recycleWaste : Z := -20.

Definition VEGAS_initialCost : Z := -52.
Definition VEGAS_cardToFoundation : Z := 5.
Definition VEGAS_foundationToTableau : Z := -5.

Definition calculateStandardScore (move : Move) (_state : GameState) : Z :=
  let from := pileType (move_from move) in
  let to := pileType (move_to move) in
  let score := 0 in
  let score :=
    if PileType_eqb from waste_t && PileType_eqb to tableau_t
    then score + STANDARD_wasteToTableau else score in
  let score :=
    if PileType_eqb from waste_t && PileType_eqb to foundation_t
    then score + STANDARD_wasteToFoundation else score in
  let score :=
    if PileType_eqb from tableau_t && PileType_eqb to foundation_t
    then score + STANDARD_tableauToFoundation else score in
  let score :=
    if PileType_eqb from foundation_t && PileType_eqb to tableau_t
    then score + STANDARD_foundationToTableau else score in
  let score :=
    if flippedCard move
    then score + STANDARD_turnOverTableauCard else score in
  score.

Definition calculateVegasScore (move : Move) (_state : GameState) : Z :=
  let from := pileType (move_from move) in
  let to := pileType (move_to move) in
  let score := 0 in
  let score :=
    if PileType_eqb to foundation_t
    then score + VEGAS_cardToFoundation else score in
  let score :=
    if PileType_eqb from foundation_t && PileType_eqb to tableau_t
    then score + VEGAS_foundationToTableau else score in
  score.

Definition calculateMoveScore (move : Move) (state : GameState) : Z :=
  match scoringMode (config state) with
  | standard => calculateStandardScore move state
  | vegas => calculateVegasScore move state
  | none => 0
  end.

Definition getInitialScore (mode : ScoringMode) : Z :=
  match mode with
  | vegas => VEGAS_initialCost
  | standard => 0
  | none => 0
  end.

Definition getRecycleWastePenalty (state : GameState) : Z :=
  match scoringMode (config state) with
  | standard =>
      match drawMode (config state) with
      | draw_three => STANDARD_recycleWaste
      | draw_one => 0
      end
  | _ => 0
  end.

(** [elapsedSeconds] ranges over the non-negative integers; on them
    [Math.floor(700000 / elapsedSeconds)] is the integer quotient. *)
Definition calculateTimeBonus (elapsedSeconds : Z) : Z :=
  if elapsedSeconds <=? 30 then 0
  else
    let bonus := 700000 / elapsedSeconds in
    Z.max 0 (Z.min bonus 700000).

(* ================================================================== *)
(** ** game.ts *)

Definition DEFAULT_CONFIG : GameConfig :=
  mkConfig draw_one standard true false.

(** [Partial<GameConfig>] *)
Record PartialConfig : Type := mkPartial {
  p_drawMode : option DrawMode;
  p_scoringMode : option ScoringMode;
  p_unlimitedPasses : option bool;
  p_autoFlipTableau : option bool
}.

Definition or_default {A : Type} (o : option A) (d : A) : A :=
  match o with
  | Some a => a
  | None => d
  end.

(** [{ ...DEFAULT_CONFIG, ...config }] *)
Definition mergeConfig (c : PartialConfig) : GameConfig :=
  mkConfig (or_default (p_drawMode c) (drawMode DEFAULT_CONFIG))
           (or_default (p_scoringMode c) (scoringMode DEFAULT_CONFIG))
           (or_default (p_unlimitedPasses c) (unlimitedPasses DEFAULT_CONFIG))
           (or_default (p_autoFlipTableau c) (autoFlipTableau DEFAULT_CONFIG)).

Definition pileType_name (t : PileType) : string :=
  match t with
  | stock_t => "stock"
  | waste_t => "waste"
  | foundation_t => "foundation"
  | tableau_t => "tableau"
  end%string.

Definition createPile (t : PileType) (index : Z) : Pile :=
  let pid :=
    match t with
    | tableau_t | foundation_t =>
        String.append (pileType_name t)
                      (String.append "-" (number_toString index))
    | _ => pileType_name t
    end in
  mkPile pid t []
         (match t with tableau_t => Some index | _ => None end)
         None.

(** [tableau[row].cards.push(card)]; [row] is a loop counter in [0, 7) *)
Definition pushToColumn (tab : Tuple7 Pile) (row : Z) (card : Card)
  : Exc (Tuple7 Pile) :=
  match t7_get tab row with
  | None => Throw TypeError
  | Some p => Ret (t7_set tab row (set_cards p (Js.push (cards p) [card])))
  end.

(** One iteration of the inner deal loop: [deck[cardIndex++]] goes to
    column [row], face-up exactly when [row === col]; [flipCard] reads
    [card.faceUp], which raises when the entry is [undefined] *)
Definition dealOne (deck : JsArray Card) (col : Z)
  (acc : Exc (nat * Tuple7 Pile)) (row : Z) : Exc (nat * Tuple7 Pile) :=
  st <- acc ;;
  match Arr.entry deck (fst st) with
  | None => Throw TypeError
  | Some card =>
      tab <- pushToColumn (snd st) row (flipCard card (row =? col)) ;;
      Ret (S (fst st), tab)
  end.

(** [for (let row = col; row < 7; row++)] *)
Definition dealRow (deck : JsArray Card) (acc : Exc (nat * Tuple7 Pile))
  (col : nat) : Exc (nat * Tuple7 Pile) :=
  fold_left (dealOne deck (Z.of_nat col))
            (map Z.of_nat (seq col (7 - col))) acc.

(** [for (let col = 0; col < 7; col++)] *)
Definition dealTableau (deck : JsArray Card) (tab : Tuple7 Pile)
  : Exc (nat * Tuple7 Pile) :=
  fold_left (dealRow deck) (seq 0 7) (Ret (O, tab)).

(** What [createInitialState] returns.  The stock takes the entries that
    are left of the deck as they are, so it holds [undefined] where the
    deck does, and then the table is no [GameState]: [Spoiled entries s] is
    the table [s] with [entries] in the place of the cards of its stock. *)
Inductive Deal : Type :=
| Proper (s : GameState)
| Spoiled (entries : list (option Card)) (s : GameState).

Definition createInitialState (cfg : PartialConfig) (seed : Seed)
  : Exc Deal :=
  let fullConfig := mergeConfig cfg in
  let deck := createShuffledDeck seed in
  let stock := createPile stock_t 0 in
  let waste := createPile waste_t 0 in
  let foundations :=
    T4 (createPile foundation_t 0) (createPile foundation_t 1)
       (createPile foundation_t 2) (createPile foundation_t 3) in
  let tableau :=
    T7 (createPile tableau_t 0) (createPile tableau_t 1)
       (createPile tableau_t 2) (createPile tableau_t 3)
       (createPile tableau_t 4) (createPile tableau_t 5)
       (createPile tableau_t 6) in
  dealt <- dealTableau deck tableau ;;
  (* while (cardIndex < deck.length) stock.cards.push(deck[cardIndex++]) *)
  let entries := skipn (fst dealt) (elems deck) in
  let state (stockCards : list Card) :=
    mkState (set_cards stock (Js.push (cards stock) stockCards))
            waste foundations (snd dealt)
            (getInitialScore (scoringMode fullConfig))
            0 None None false 0 fullConfig in
  Ret (match Arr.allDefined entries with
       | Some stockCards => Proper (state stockCards)
       | None => Spoiled entries (state [])
       end).

Definition cloneCard (c : Card) : Card :=
  mkCard (id c) (suit c) (rank c) (faceUp c).

Definition clonePile (p : Pile) : Pile :=
  mkPile (pile_id p) (type p) (map cloneCard (cards p))
         (tableauIndex p) (foundationSuit p).

Definition cloneConfig (c : GameConfig) : GameConfig :=
  mkConfig (drawMode c) (scoringMode c) (unlimitedPasses c) (autoFlipTableau c).

Definition cloneState (state : GameState) : GameState :=
  mkState (clonePile (stock state)) (clonePile (waste state))
          (t4_map clonePile (foundations state))
          (t7_map clonePile (tableau state))
          (score state) (moves state) (startTime state) (endTime state)
          (isWon state) (stockPasses state) (cloneConfig (config state)).

(** [for (let i = 0; i < cardsToMove; i++)]: pop the stock, push the card
    face-up on the waste *)
Fixpoint drawLoop (n : nat) (s : GameState) : GameState :=
  match n with
  | O => s
  | S n' =>
      match Js.pop (cards (stock s)) with
      | (Some card, rest) =>
          let s1 := set_stock s (set_cards (stock s) rest) in
          let s2 := set_waste s1 (set_cards (waste s1)
                      (Js.push (cards (waste s1)) [flipCard card true])) in
          drawLoop n' s2
      | (None, _) => s
      end
  end.

Definition drawFromStock (now : Z) (state : GameState) : GameState :=
  if Js.len (cards (stock state)) =? 0 then state
  else
    let newState := cloneState state in
    let drawCount :=
      match drawMode (config state) with draw_three => 3 | draw_one => 1 end in
    let cardsToMove := Z.min drawCount (Js.len (cards (stock newState))) in
    let newState := drawLoop (Z.to_nat cardsToMove) newState in
    let newState := startTimer now newState in
    set_moves newState (moves newState + 1).

(** [while (newState.waste.cards.length > 0)]: pop the waste, push the card
    face-down on the stock; one iteration per waste card *)
Fixpoint resetLoop (fuel : nat) (s : GameState) : GameState :=
  match fuel with
  | O => s
  | S fuel' =>
      if Js.len (cards (waste s)) >? 0 then
        match Js.pop (cards (waste s)) with
        | (Some card, rest) =>
            let s1 := set_waste s (set_cards (waste s) rest) in
            let s2 := set_stock s1 (set_cards (stock s1)
                        (Js.push (cards (stock s1)) [flipCard card false])) in
            resetLoop fuel' s2
        | (None, _) => s
        end
      else s
  end.

Definition resetStock (state : GameState) : GameState :=
  if Js.len (cards (waste state)) =? 0 then state
  else if match scoringMode (config state) with vegas => true | _ => false end
          && negb (unlimitedPasses (config state))
          && (stockPasses state >=? 3)
  then state
  else
    let newState := cloneState state in
    let newState := resetLoop (length (cards (waste newState))) newState in
    let newState := set_stockPasses newState (stockPasses newState + 1) in
    let newState := set_moves newState (moves newState + 1) in
    let penalty := getRecycleWastePenalty newState in
    set_score newState (Z.max 0 (score newState + penalty)).

(** The pile object that [getPile(newState, location)] refers to is mutated
    in place; [setPile] writes the store at that location.  A source and a
    destination that name the same pile therefore share one array. *)
Definition setPile (state : GameState) (location : CardLocation) (p : Pile)
  : GameState :=
  match pileType location with
  | stock_t => set_stock state p
  | waste_t => set_waste state p
  | foundation_t =>
      set_foundations state (t4_set (foundations state) (pileIndex location) p)
  | tableau_t =>
      set_tableau state (t7_set (tableau state) (pileIndex location) p)
  end.

Definition failure (msg : string) : MoveResult :=
  mkResult false None (Some msg) None.

(** The non-null assertion [getPile(newState, location)!] followed by a
    property read *)
Definition getPile_nonnull (state : GameState) (location : CardLocation)
  : Exc Pile :=
  match getPile state location with
  | Some p => Ret p
  | None => Throw TypeError
  end.

(** The auto-flip of the exposed source card; returns the new store and
    [flippedCard] *)
Definition autoFlip (newState : GameState) (from : CardLocation)
  (sourcePile : Pile) : GameState * bool :=
  if PileType_eqb (type sourcePile) tableau_t
     && (Js.len (cards sourcePile) >? 0)
     && autoFlipTableau (config newState)
  then
    match Js.at_last (cards sourcePile) with
    | Some topCard =>
        if negb (faceUp topCard) then
          (setPile newState from
             (set_cards sourcePile
                (Js.set_nth (cards sourcePile)
                            (Z.to_nat (Js.len (cards sourcePile) - 1))
                            (flipCard topCard true))),
           true)
        else (newState, false)
    | None => (newState, false)
    end
  else (newState, false).

(** [Date.now()] is read as [now] for both the start and the end time. *)
Definition executeMove (now : Z) (state : GameState) (from to : CardLocation)
  (cardCount : Z) : Exc MoveResult :=
  valid <- isValidMove state from to cardCount ;;
  if negb valid then Ret (failure "Invalid move")
  else
    let newState := cloneState state in
    sourcePile <- getPile_nonnull newState from ;;
    _destPile <- getPile_nonnull newState to ;;
    (* sourcePile.cards.splice(from.cardIndex, cardCount) *)
    let '(movedCards, rest) :=
      Js.splice (cards sourcePile) (cardIndex from) cardCount in
    let newState := setPile newState from (set_cards sourcePile rest) in
    (* destPile.cards.push(...movedCards), on the array as it now is *)
    destPile <- getPile_nonnull newState to ;;
    let newState :=
      setPile newState to
              (set_cards destPile (Js.push (cards destPile) movedCards)) in
    sourcePile <- getPile_nonnull newState from ;;
    let '(newState, flipped) := autoFlip newState from sourcePile in
    let newState := startTimer now newState in
    let move := mkMove from to cardCount flipped 0 in
    let change := calculateMoveScore move newState in
    let move := mkMove from to cardCount flipped change in
    let newState := set_score newState (score newState + change) in
    let newState := set_moves newState (moves newState + 1) in
    let newState :=
      if checkWinCondition newState
      then set_endTime (set_isWon newState true) (Some now)
      else newState in
    Ret (mkResult true (Some newState) None (Some move)).

Definition flipTableauCard (now : Z) (state : GameState) (tableauIndex : Z)
  : Exc MoveResult :=
  if (tableauIndex <? 0) || (tableauIndex >=? 7)
  then Ret (failure "Invalid tableau index")
  else
    match t7_get (tableau state) tableauIndex with
    | None => Throw TypeError
    | Some column =>
        if Js.len (cards column) =? 0 then Ret (failure "Tableau is empty")
        else
          match Js.at_last (cards column) with
          | None => Throw TypeError
          | Some topCard =>
              if faceUp topCard then Ret (failure "Card is already face up")
              else
                let newState := cloneState state in
                match t7_get (tableau newState) tableauIndex with
                | None => Throw TypeError
                | Some newTableau =>
                    let newTableau :=
                      set_cards newTableau
                        (Js.set_nth (cards newTableau)
                           (Z.to_nat (Js.len (cards newTableau) - 1))
                           (flipCard topCard true)) in
                    let newState :=
                      set_tableau newState
                        (t7_set (tableau newState) tableauIndex newTableau) in
                    let newState := startTimer now newState in
                    Ret (mkResult true (Some newState) None None)
                end
          end
    end.

(** [for (let i = 0; i < 4; i++)]: the first foundation for which
    [isValidMove(state, from, to, 1)] holds *)
Fixpoint firstValidFoundation (state : GameState) (from : CardLocation)
  (fs : list Pile) (i : Z) : Exc (option CardLocation) :=
  match fs with
  | [] => Ret None
  | f :: rest =>
      let to := mkLoc foundation_t i (Js.len (cards f)) in
      valid <- isValidMove state from to 1 ;;
      if valid then Ret (Some to)
      else firstValidFoundation state from rest (i + 1)
  end.

(** [for (let i = 0; i < 7; i++)]: the first empty tableau column *)
Fixpoint firstEmptyTableau (ts : list Pile) (i : Z) : option CardLocation :=
  match ts with
  | [] => None
  | t :: rest =>
      if Js.len (cards t) =? 0 then Some (mkLoc tableau_t i 0)
      else firstEmptyTableau rest (i + 1)
  end.

Definition canAutoMove (state : GameState) (from : CardLocation)
  : Exc (option CardLocation) :=
  match getPile state from with
  | None => Ret None
  | Some sourcePile =>
      match Js.index (cards sourcePile) (cardIndex from) with
      | None => Ret None
      | Some card =>
          if negb (faceUp card) then Ret None
          else if cardIndex from =? Js.len (cards sourcePile) - 1 then
            found <- firstValidFoundation state from
                       (t4_list (foundations state)) 0 ;;
            match found with
            | Some to => Ret (Some to)
            | None =>
                if rank card =? 13
                then Ret (firstEmptyTableau (t7_list (tableau state)) 0)
                else Ret None
            end
          else if rank card =? 13 then
            allUp <- allFaceUpFrom (cards sourcePile) (cardIndex from) ;;
            if negb allUp then Ret None
            else Ret (firstEmptyTableau (t7_list (tableau state)) 0)
          else Ret None
      end
  end.

Definition autoMoveToFoundation (now : Z) (state : GameState)
  (from : CardLocation) : Exc MoveResult :=
  match getPile state from with
  | None => Ret (failure "Invalid source pile")
  | Some sourcePile =>
      if negb (cardIndex from =? Js.len (cards sourcePile) - 1) then
        let notAllowed :=
          failure "Can only auto-move top card or Kings to empty columns" in
        match Js.index (cards sourcePile) (cardIndex from) with
        | Some card =>
            if faceUp card && (rank card =? 13) then
              canMoveStack <-
                allFaceUpFrom (cards sourcePile) (cardIndex from) ;;
              if canMoveStack then
                match firstEmptyTableau (t7_list (tableau state)) 0 with
                | Some to =>
                    let cardCount :=
                      Js.len (cards sourcePile) - cardIndex from in
                    executeMove now state from to cardCount
                | None => Ret notAllowed
                end
              else Ret notAllowed
            else Ret notAllowed
        | None => Ret notAllowed
        end
      else
        match Js.index (cards sourcePile) (cardIndex from) with
        | None => Ret (failure "Card not available")
        | Some card =>
            if negb (faceUp card) then Ret (failure "Card not available")
            else
              found <- firstValidFoundation state from
                         (t4_list (foundations state)) 0 ;;
              match found with
              | Some to => executeMove now state from to 1
              | None =>
                  let noMove := failure "No valid move for this card" in
                  if rank card =? 13 then
                    match firstEmptyTableau (t7_list (tableau state)) 0 with
                    | Some to => executeMove now state from to 1
                    | None => Ret noMove
                    end
                  else Ret noMove
              end
        end
  end.

Definition autoCompleteStep (now : Z) (state : GameState)
  : Exc (option GameState) :=
  match findAutoCompleteMove state with
  | None => Ret None
  | Some (from, to) =>
      result <- executeMove now state from to 1 ;;
      Ret (if success result then result_state result else None)
  end.

Definition getAllCards (state : GameState) : list Card :=
  cards (stock state) ++ cards (waste state)
  ++ flat_map cards (t4_list (foundations state))
  ++ flat_map cards (t7_list (tableau state)).

(** *** class GameHistory *)

Record GameHistory : Type := mkHistory {
  history : list HistoryEntry;
  currentIndex : Z
}.

Definition maxHistory : Z := 100.

(** [new GameHistory()] *)
Definition newHistory : GameHistory := mkHistory [] (-1).

Definition push (h : GameHistory) (entry : HistoryEntry) : GameHistory :=
  let hist := Js.slice0 (history h) (currentIndex h + 1) in
  let hist := Js.push hist [entry] in
  let idx := currentIndex h + 1 in
  if Js.len hist >? maxHistory
  then mkHistory (Js.shift hist) (idx - 1)
  else mkHistory hist idx.

Definition canUndo (h : GameHistory) : bool := currentIndex h >=? 0.

Definition canRedo (h : GameHistory) : bool :=
  currentIndex h <? Js.len (history h) - 1.

(** [undo()]: the returned snapshot (or [null]) and the object afterwards *)
Definition undo (h : GameHistory) : Exc (option GameState * GameHistory) :=
  if negb (canUndo h) then Ret (None, h)
  else
    match Js.index (history h) (currentIndex h) with
    | None => Throw TypeError
    | Some entry =>
        Ret (Some (previousState entry),
             mkHistory (history h) (currentIndex h - 1))
    end.

(** [redo()]: the returned entry (or [null]/[undefined]) and the object
    afterwards *)
Definition redo (h : GameHistory) : option HistoryEntry * GameHistory :=
  if negb (canRedo h) then (None, h)
  else
    let h' := mkHistory (history h) (currentIndex h + 1) in
    (Js.index (history h') (currentIndex h'), h').

Definition clear (h : GameHistory) : GameHistory := mkHistory [] (-1).

Definition size (h : GameHistory) : Z := Js.len (history h).

(* ================================================================== *)
(** ** Play sequences *)

(** The states a caller can hold: the deal of [createInitialState(config,
    seed)], when it is a table of 52 cards ([Proper]), followed by any
    sequence of the six state transitions, each with the clock value it
    read.  The seed is any number, or none. *)
Inductive reachable (cfg : PartialConfig) (seed : Seed) : GameState -> Prop :=
| reach_init s :
    createInitialState cfg seed = Ret (Proper s) -> reachable cfg seed s
| reach_draw now s :
    reachable cfg seed s -> reachable cfg seed (drawFromStock now s)
| reach_reset s :
    reachable cfg seed s -> reachable cfg seed (resetStock s)
| reach_move now s from to n r s' :
    reachable cfg seed s ->
    executeMove now s from to n = Ret r -> result_state r = Some s' ->
    reachable cfg seed s'
| reach_flip now s i r s' :
    reachable cfg seed s ->
    flipTableauCard now s i = Ret r -> result_state r = Some s' ->
    reachable cfg seed s'
| reach_autoMove now s from r s' :
    reachable cfg seed s ->
    autoMoveToFoundation now s from = Ret r -> result_state r = Some s' ->
    reachable cfg seed s'
| reach_autoStep now s s' :
    reachable cfg seed s ->
    autoCompleteStep now s = Ret (Some s') ->
    reachable cfg seed s'.

(** [while (state.stock.cards.length > 0) state = drawFromStock(state)]:
    the caller's loop that draws the whole stock; the [k]-th remaining
    iteration reads the clock value [clock k]. *)
Fixpoint drawUntilEmpty (fuel : nat) (clock : nat -> Z) (state : GameState)
  : GameState :=
  match fuel with
  | O => state
  | S fuel' =>
      if Js.len (cards (stock state)) >? 0
      then drawUntilEmpty fuel' clock (drawFromStock (clock fuel') state)
      else state
  end.

(** [for (let i = 0; i < n; i++) state = drawFromStock(state)] *)
Fixpoint drawTimes (n : nat) (now : Z) (state : GameState) : GameState :=
  match n with
  | O => state
  | S n' => drawTimes n' now (drawFromStock now state)
  end.

(** One full pass: draw the whole stock, then recycle *)
Definition fullPass (clock : nat -> Z) (state : GameState) : GameState :=
  resetStock (drawUntilEmpty (length (cards (stock state))) clock state).

(** The objects a caller can hold: [new GameHistory()] followed by any
    sequence of its methods. *)
Inductive hist_reachable : GameHistory -> Prop :=
| hist_new : hist_reachable newHistory
| hist_push h entry : hist_reachable h -> hist_reachable (push h entry)
| hist_undo h r h' :
    hist_reachable h -> undo h = Ret (r, h') -> hist_reachable h'
| hist_redo h : hist_reachable h -> hist_reachable (snd (redo h))
| hist_clear h : hist_reachable h -> hist_reachable (clear h).

(** Configurations used in the examples *)
Definition defaultPartial : PartialConfig := mkPartial None None None None.

Definition vegasPartial : PartialConfig :=
  mkPartial None (Some vegas) None None.

Definition vegasLimitedPartial : PartialConfig :=
  mkPartial None (Some vegas) (Some false) None.

(** The two flips the engine performs *)
Definition faceUpCard (c : Card) : Card := flipCard c true.
Definition faceDownCard (c : Card) : Card := flipCard c false.

(** The negation of the guard under which [resetStock] refuses to recycle *)
Definition resetPermitted (s : GameState) : bool :=
  negb (match scoringMode (config s) with vegas => true | _ => false end
        && negb (unlimitedPasses (config s))
        && (stockPasses s >=? 3)).

(** A table with no cards on it, and the deal as a plain state: [dealt] is
    the table [createInitialState] returns when that is a table of cards *)
Definition blankState (cfg : GameConfig) : GameState :=
  mkState (createPile stock_t 0) (createPile waste_t 0)
          (T4 (createPile foundation_t 0) (createPile foundation_t 1)
              (createPile foundation_t 2) (createPile foundation_t 3))
          (T7 (createPile tableau_t 0) (createPile tableau_t 1)
              (createPile tableau_t 2) (createPile tableau_t 3)
              (createPile tableau_t 4) (createPile tableau_t 5)
              (createPile tableau_t 6))
          (getInitialScore (scoringMode cfg)) 0 None None false 0 cfg.

Definition dealt (cfg : PartialConfig) (seed : Seed) : GameState :=
  match createInitialState cfg seed with
  | Ret (Proper s) => s
  | _ => blankState (mergeConfig cfg)
  end.

(** The number of cards one [drawFromStock] moves *)
Definition drawCountOf (s : GameState) : Z :=
  Z.min (match drawMode (config s) with draw_three => 3 | draw_one => 1 end)
        (Js.len (cards (stock s))).

(** The class invariant of [GameHistory]: the cursor addresses an entry (or
    is -1) and the log holds at most [maxHistory] entries. *)
Definition hist_inv (h : GameHistory) : Prop :=
  -1 <= currentIndex h < Js.len (history h)
  /\ Js.len (history h) <= maxHistory.

(** The entry the history example records: a draw, with the table before it *)
Definition sampleEntry : HistoryEntry :=
  mkEntry (mkMove (mkLoc stock_t 0 0) (mkLoc waste_t 0 0) 1 false 0)
          (blankState DEFAULT_CONFIG).

(** The thirteen piles of a table, in the order [getAllCards] lists them *)
Definition allPiles (s : GameState) : list Pile :=
  stock s :: waste s :: t4_list (foundations s) ++ t7_list (tableau s).

(** The card identities on the table *)
Definition cardIds (s : GameState) : list string := map id (getAllCards s).

(* ================================================================== *)
(** ** rules.ts, continued *)

(** [for (let i = 0; i < 4; i++)] of [findValidMoves]: the foundations that
    accept the single card, in order *)
Fixpoint validFoundations (state : GameState) (from : CardLocation)
  (fs : list Pile) (i : Z) : Exc (list CardLocation) :=
  match fs with
  | [] => Ret []
  | f :: rest =>
      let to := mkLoc foundation_t i (Js.len (cards f)) in
      valid <- isValidMove state from to 1 ;;
      more <- validFoundations state from rest (i + 1) ;;
      Ret (if valid then to :: more else more)
  end.

(** [for (let i = 0; i < 7; i++)] of [findValidMoves]: the columns that
    accept the stack, in order *)
Fixpoint validTableaus (state : GameState) (from : CardLocation)
  (cardCount : Z) (ts : list Pile) (i : Z) : Exc (list CardLocation) :=
  match ts with
  | [] => Ret []
  | t :: rest =>
      let to := mkLoc tableau_t i (Js.len (cards t)) in
      valid <- isValidMove state from to cardCount ;;
      more <- validTableaus state from cardCount rest (i + 1) ;;
      Ret (if valid then to :: more else more)
  end.

Definition findValidMoves (state : GameState) (from : CardLocation)
  : Exc (list CardLocation) :=
  match getPile state from with
  | None => Ret []
  | Some sourcePile =>
      let cardCount := Js.len (cards sourcePile) - cardIndex from in
      toFoundations <-
        (if cardCount =? 1
         then validFoundations state from (t4_list (foundations state)) 0
         else Ret []) ;;
      toTableaus <-
        validTableaus state from cardCount (t7_list (tableau state)) 0 ;;
      Ret (toFoundations ++ toTableaus)
  end.

(** The inner loop of [hasValidMoves] over the cards of column [i], from
    card index [j]: whether some face-up card has a valid destination *)
Fixpoint columnHasMove (state : GameState) (i : Z) (cs : list Card) (j : Z)
  : Exc bool :=
  match cs with
  | [] => Ret false
  | c :: rest =>
      if faceUp c then
        dests <- findValidMoves state (mkLoc tableau_t i j) ;;
        if Js.len dests >? 0 then Ret true
        else columnHasMove state i rest (j + 1)
      else columnHasMove state i rest (j + 1)
  end.

(** The outer loop of [hasValidMoves] over the columns *)
Fixpoint tableauHasMove (state : GameState) (ts : list Pile) (i : Z)
  : Exc bool :=
  match ts with
  | [] => Ret false
  | t :: rest =>
      found <- columnHasMove state i (cards t) 0 ;;
      if found then Ret true else tableauHasMove state rest (i + 1)
  end.

Definition hasValidMoves (state : GameState) : Exc bool :=
  fromWaste <-
    (if Js.len (cards (waste state)) >? 0 then
       dests <- findValidMoves state
                  (mkLoc waste_t 0 (Js.len (cards (waste state)) - 1)) ;;
       Ret (Js.len dests >? 0)
     else Ret false) ;;
  if fromWaste then Ret true
  else
    fromTableau <- tableauHasMove state (t7_list (tableau state)) 0 ;;
    if fromTableau then Ret true
    else if Js.len (cards (stock state)) >? 0 then Ret true
    else if Js.len (cards (waste state)) >? 0 then
      if unlimitedPasses (config state) then Ret true
      else if match scoringMode (config state) with
              | vegas => true
              | _ => false
              end && (stockPasses state <? 3)
      then Ret true
      else Ret false
    else Ret false.

(** The two nested [for ... of] loops return [false] at the first face-down
    card *)
Definition canAutoComplete (state : GameState) : bool :=
  if negb (forallb (fun column => forallb faceUp (cards column))
                   (t7_list (tableau state)))
  then false
  else if Js.len (cards (stock state)) >? 0 then false
  else if Js.len (cards (waste state)) >? 0 then false
  else true.

(* ================================================================== *)
(** ** deck.ts and game.ts, continued *)

(** [cards.find(card => card.id === id)] *)
Definition findCard (cs : list Card) (cid : string) : option Card :=
  find (fun card => String.eqb (id card) cid) cs.

(** The duplicate check of [validateState]: [seen] is the [Set] of the ids
    met so far *)
Fixpoint duplicateErrors (seen : list string) (cs : list Card)
  : list string :=
  match cs with
  | [] => []
  | card :: rest =>
      (if existsb (String.eqb (id card)) seen
       then [String.append "Duplicate card: " (id card)]
       else [])
      ++ duplicateErrors (id card :: seen) rest
  end.

(** The checks of [validateState] on the card at index [j] of foundation
    [i]; [prev] is the card below it ([None] exactly when [j = 0]) *)
Definition foundationCardErrors (i : Z) (prev : option Card) (card : Card)
  : list string :=
  match prev with
  | None =>
      if negb (rank card =? 1)
      then [String.append "Foundation "
              (String.append (number_toString i)
                 (String.append " first card should be Ace, found rank "
                    (number_toString (rank card))))]
      else []
  | Some prevCard =>
      (if negb (Suit_eqb (suit card) (suit prevCard))
       then [String.append "Foundation "
               (String.append (number_toString i) " has mixed suits")]
       else [])
      ++ (if negb (rank card =? rank prevCard + 1)
          then [String.append "Foundation "
                  (String.append (number_toString i) " cards not in sequence")]
          else [])
  end.

(** [for (let j = 0; j < foundation.cards.length; j++)] *)
Fixpoint foundationErrors (i : Z) (prev : option Card) (cs : list Card)
  : list string :=
  match cs with
  | [] => []
  | card :: rest =>
      foundationCardErrors i prev card ++ foundationErrors i (Some card) rest
  end.

(** [for (let i = 0; i < 4; i++)] *)
Fixpoint allFoundationErrors (fs : list Pile) (i : Z) : list string :=
  match fs with
  | [] => []
  | f :: rest =>
      foundationErrors i None (cards f) ++ allFoundationErrors rest (i + 1)
  end.

(** [validateState(state)]: the pair [(valid, errors)] *)
Definition validateState (state : GameState) : bool * list string :=
  let allCards := getAllCards state in
  let errors :=
    (if negb (Js.len allCards =? 52)
     then [String.append "Expected 52 cards, found "
             (number_toString (Js.len allCards))]
     else [])
    ++ duplicateErrors [] allCards
    ++ allFoundationErrors (t4_list (foundations state)) 0 in
  (Js.len errors =? 0, errors).

(** The object literal of one foundation of [createWonState] *)
Definition wonFoundation (s : Suit) (index : Z) : Pile :=
  mkPile (String.append "foundation-" (number_toString index)) foundation_t
         (map (fun r => mkCard (createCardId s (r + 1)) s (r + 1) true)
              [0; 1; 2; 3; 4; 5; 6; 7; 8; 9; 10; 11; 12])
         None None.

(** [createWonState(config)]; the two reads of the clock return [now1] and
    [now2] *)
Definition createWonState (now1 now2 : Z) (cfg : PartialConfig) : GameState :=
  let fullConfig := mergeConfig cfg in
  let emptyColumn (i : Z) :=
    mkPile (String.append "tableau-" (number_toString i)) tableau_t []
           None None in
  mkState (mkPile "stock" stock_t [] None None)
          (mkPile "waste" waste_t [] None None)
          (T4 (wonFoundation hearts 0) (wonFoundation diamonds 1)
              (wonFoundation clubs 2) (wonFoundation spades 3))
          (T7 (emptyColumn 0) (emptyColumn 1) (emptyColumn 2) (emptyColumn 3)
              (emptyColumn 4) (emptyColumn 5) (emptyColumn 6))
          (match scoringMode fullConfig with vegas => 260 | _ => 3000 end)
          150 (Some (now1 - 180 * 1000)) (Some now2) true 0 fullConfig.

(** [autoCompleteStep] called up to [fuel] times in a row, each call on the
    state the call before returned, until a call returns [null]; the [k]-th
    remaining call reads the clock value [clock k].  The board component
    drives auto-complete this way, one step per timer tick. *)
Fixpoint autoCompleteRun (fuel : nat) (clock : nat -> Z) (state : GameState)
  : Exc GameState :=
  match fuel with
  | O => Ret state
  | S fuel' =>
      next <- autoCompleteStep (clock fuel') state ;;
      match next with
      | None => Ret state
      | Some state' => autoCompleteRun fuel' clock state'
      end
  end.

(* ================================================================== *)
(** ** Vocabulary for the statements about moves *)

(** Two locations address the same pile object *)
Definition samePile (a b : CardLocation) : bool :=
  match pileType a, pileType b with
  | stock_t, stock_t => true
  | waste_t, waste_t => true
  | foundation_t, foundation_t => pileIndex a =? pileIndex b
  | tableau_t, tableau_t => pileIndex a =? pileIndex b
  | _, _ => false
  end.

(** A column with its last card turned face-up (the column itself when it is
    empty or its last card is face-up already) *)
Definition topFaceUp (cs : list Card) : list Card :=
  match Js.at_last cs with
  | Some top =>
      if faceUp top then cs
      else Js.set_nth cs (Z.to_nat (Js.len cs - 1)) (flipCard top true)
  | None => cs
  end.

(** Whether [executeMove] auto-flips the source pile left with cards [cs] *)
Definition autoFlips (cfg : GameConfig) (t : PileType) (cs : list Card)
  : bool :=
  PileType_eqb t tableau_t && autoFlipTableau cfg
  && match Js.at_last cs with
     | Some top => negb (faceUp top)
     | None => false
     end.

(** The cards a valid move takes, and the cards it leaves in the source *)
Definition movedCards (cs : list Card) (index n : Z) : list Card :=
  firstn (Z.to_nat n) (skipn (Z.to_nat index) cs).

Definition leftCards (cs : list Card) (index n : Z) : list Card :=
  firstn (Z.to_nat index) cs ++ skipn (Z.to_nat n) (skipn (Z.to_nat index) cs).

(** The bookkeeping that ends [executeMove], once the cards have moved and
    the source has been auto-flipped ([flipped]): timer, move record, score,
    move counter and win check *)
Definition finishMove (now : Z) (from to : CardLocation) (n : Z)
  (moved : GameState) (flipped : bool) : MoveResult :=
  let newState := startTimer now moved in
  let change := calculateMoveScore (mkMove from to n flipped 0) newState in
  let move := mkMove from to n flipped change in
  let newState := set_score newState (score newState + change) in
  let newState := set_moves newState (moves newState + 1) in
  let newState :=
    if checkWinCondition newState
    then set_endTime (set_isWon newState true) (Some now)
    else newState in
  mkResult true (Some newState) None (Some move).

(* ================================================================== *)
(** ** Well-formed tables *)

(** A deck card, whichever side is up *)
Definition deckCard (c : Card) : Prop := In (faceDownCard c) createDeck.

(** Cards of one suit with ranks [r], [r + 1], ... from the bottom up *)
Fixpoint risingFrom (su : Suit) (r : Z) (cs : list Card) : Prop :=
  match cs with
  | [] => True
  | c :: rest => suit c = su /\ rank c = r /\ risingFrom su (r + 1) rest
  end.

(** A foundation in order: one suit, Ace first, ranks rising by one *)
Definition foundationOrdered (cs : list Card) : Prop :=
  match cs with
  | [] => True
  | c :: _ => risingFrom (suit c) 1 cs
  end.

(** Ranks strictly falling from the bottom up *)
Definition fallingRanks (cs : list Card) : Prop :=
  StronglySorted (fun a b => rank b < rank a) cs.

(** A tableau column: face-down cards below, then face-up cards of falling
    rank *)
Definition columnOrdered (cs : list Card) : Prop :=
  exists down up,
    cs = down ++ up
    /\ Forall (fun c => faceUp c = false) down
    /\ Forall (fun c => faceUp c = true) up
    /\ fallingRanks up.

(** What a pile at a location of type [t] looks like in play *)
Definition pileOK (t : PileType) (p : Pile) : Prop :=
  type p = t
  /\ Forall deckCard (cards p)
  /\ match t with
     | stock_t => Forall (fun c => faceUp c = false) (cards p)
     | waste_t => Forall (fun c => faceUp c = true) (cards p)
     | foundation_t =>
         Forall (fun c => faceUp c = true) (cards p)
         /\ foundationOrdered (cards p)
     | tableau_t => columnOrdered (cards p)
     end.

Definition pilesOK (s : GameState) : Prop :=
  forall loc p, getPile s loc = Some p -> pileOK (pileType loc) p.

(** A table in order: every pile looks as its place demands, and the table
    holds the 52 cards of the deck *)
Definition wellFormed (s : GameState) : Prop :=
  pilesOK s /\ Permutation (cardIds s) (map id createDeck).

(** What [isValidMove] demands of the source pile: the pick-up check of
    [canPickUpCards] at an index that addresses a card *)
Definition pickUpOK (sp : Pile) (i : Z) : Prop :=
  match type sp with
  | stock_t => False
  | waste_t | foundation_t => i = Js.len (cards sp) - 1
  | tableau_t =>
      Forall (fun c => faceUp c = true) (skipn (Z.to_nat i) (cards sp))
  end.

(** The bookkeeping of a game in configuration [cfg] *)
Definition booked (cfg : PartialConfig) (s : GameState) : Prop :=
  config s = mergeConfig cfg
  /\ 0 <= stockPasses s
  /\ 0 <= moves s
  /\ (scoringMode (config s) = vegas -> unlimitedPasses (config s) = false ->
      stockPasses s <= 3)
  /\ (isWon s = true <-> endTime s <> None).

(** The number of cards on the foundations *)
Definition foundationCount (s : GameState) : Z :=
  Js.len (flat_map cards (t4_list (foundations s))).

(** Configurations and tables of the examples *)
Definition limitedPartial : PartialConfig :=
  mkPartial None None (Some false) None.

(* ================================================================== *)
(** ** useGame.ts: the reducer *)

(** The actions of [gameReducer] that work on the table the reducer
    holds.  The [NEW_GAME] action replaces it by a fresh deal, which need
    not be a [GameState] ([Deal]): it is [newGame] below. *)
Inductive GameAction : Type :=
| DRAW
| RESET_STOCK
| MOVE (from to : CardLocation) (cardCount : Z)
| AUTO_MOVE (from : CardLocation)
| AUTO_COMPLETE_STEP
| FLIP_CARD (tableauIndex : Z)
| UNDO
| SET_STATE (state : GameState)
| TRIGGER_WIN (config : PartialConfig).

(** [GameReducerState]; the field [history] of the source is [r_history]
    here.  The reducer mutates the history object it is given and returns
    it in the new wrapper: the model threads it. *)
Record GameReducerState : Type := mkReducerState {
  game : GameState;
  r_history : GameHistory;
  lastMoveResult : option MoveResult
}.

(** [{ success: true, state: newGame }] *)
Definition moved (newGame : GameState) : MoveResult :=
  mkResult true (Some newGame) None None.

(** The case [NEW_GAME] of [gameReducer]: the new [game], [history] and
    [lastMoveResult] *)
Definition newGame (config : PartialConfig) (seed : Seed)
  : Exc (Deal * GameHistory * option MoveResult) :=
  newGame <- createInitialState config seed ;;
  Ret (newGame, newHistory, None).

(** [gameReducer(state, action)]; the core transition reads the clock as
    [now], and [createWonState] reads it as [now] and then [now2] *)
Definition gameReducer (now now2 : Z) (state : GameReducerState)
  (action : GameAction) : Exc GameReducerState :=
  match action with
  | DRAW =>
      if Js.len (cards (stock (game state))) =? 0 then Ret state
      else
        let previousState := cloneState (game state) in
        let newGame := drawFromStock now (game state) in
        let entry :=
          mkEntry
            (mkMove
               (mkLoc stock_t 0 (Js.len (cards (stock (game state))) - 1))
               (mkLoc waste_t 0 (Js.len (cards (waste (game state)))))
               (match drawMode (config (game state)) with
                | draw_three => 3
                | draw_one => 1
                end)
               false 0)
            previousState in
        Ret (mkReducerState newGame (push (r_history state) entry)
                            (Some (moved newGame)))
  | RESET_STOCK =>
      if Js.len (cards (waste (game state))) =? 0 then Ret state
      else
        let previousState := cloneState (game state) in
        let newGame := resetStock (game state) in
        let entry :=
          mkEntry
            (mkMove (mkLoc waste_t 0 0) (mkLoc stock_t 0 0)
                    (Js.len (cards (waste (game state)))) false 0)
            previousState in
        Ret (mkReducerState newGame (push (r_history state) entry)
                            (Some (moved newGame)))
  | MOVE from to cardCount =>
      let previousState := cloneState (game state) in
      result <- executeMove now (game state) from to cardCount ;;
      match success result, result_state result, result_move result with
      | true, Some newGame, Some move =>
          Ret (mkReducerState newGame
                 (push (r_history state) (mkEntry move previousState))
                 (Some result))
      | _, _, _ =>
          Ret (mkReducerState (game state) (r_history state) (Some result))
      end
  | AUTO_MOVE from =>
      let previousState := cloneState (game state) in
      result <- autoMoveToFoundation now (game state) from ;;
      match success result, result_state result, result_move result with
      | true, Some newGame, Some move =>
          Ret (mkReducerState newGame
                 (push (r_history state) (mkEntry move previousState))
                 (Some result))
      | _, _, _ =>
          Ret (mkReducerState (game state) (r_history state) (Some result))
      end
  | AUTO_COMPLETE_STEP =>
      newGame <- autoCompleteStep now (game state) ;;
      match newGame with
      | Some newGame =>
          Ret (mkReducerState newGame (r_history state)
                              (Some (moved newGame)))
      | None => Ret state
      end
  | FLIP_CARD tableauIndex =>
      let previousState := cloneState (game state) in
      result <- flipTableauCard now (game state) tableauIndex ;;
      match success result, result_state result with
      | true, Some newGame =>
          match t7_get (tableau (game state)) tableauIndex with
          | None => Throw TypeError
          | Some column =>
              let at_top :=
                mkLoc tableau_t tableauIndex (Js.len (cards column) - 1) in
              let entry :=
                mkEntry (mkMove at_top at_top 0 true 5) previousState in
              Ret (mkReducerState newGame (push (r_history state) entry)
                                  (Some result))
          end
      | _, _ =>
          Ret (mkReducerState (game state) (r_history state) (Some result))
      end
  | UNDO =>
      undone <- undo (r_history state) ;;
      match undone with
      | (Some previousState, h) => Ret (mkReducerState previousState h None)
      | (None, h) => Ret (mkReducerState (game state) h (lastMoveResult state))
      end
  | SET_STATE newState =>
      Ret (mkReducerState newState (r_history state) None)
  | TRIGGER_WIN config =>
      Ret (mkReducerState (createWonState now now2 config) newHistory None)
  end.

(** The actions the reducer records in the history when they change the
    game *)
Definition recorded (action : GameAction) : bool :=
  match action with
  | DRAW | RESET_STOCK | MOVE _ _ _ | AUTO_MOVE _ | FLIP_CARD _ => true
  | _ => false
  end.


(** One call of a state transition, with the clock value it reads *)
Inductive Action : Type :=
| act_draw (now : Z)
| act_reset
| act_move (now : Z) (from to : CardLocation) (cardCount : Z)
| act_flip (now : Z) (tableauIndex : Z).

(** The state one call leaves; [None] when [executeMove] or
    [flipTableauCard] refuses or raises *)
Definition act (a : Action) (s : GameState) : option GameState :=
  match a with
  | act_draw now => Some (drawFromStock now s)
  | act_reset => Some (resetStock s)
  | act_move now from to n =>
      match executeMove now s from to n with
      | Ret r => result_state r
      | Throw _ => None
      end
  | act_flip now i =>
      match flipTableauCard now s i with
      | Ret r => result_state r
      | Throw _ => None
      end
  end.

(** A sequence of calls, each on the state the call before returned *)
Fixpoint play (acts : list Action) (s : GameState) : option GameState :=
  match acts with
  | [] => Some s
  | a :: rest =>
      match act a s with
      | Some s' => play rest s'
      | None => None
      end
  end.

(** A line of play on the default deal of seed 42 that turns every card
    face-up and empties stock and waste *)
Definition line42 : list Action :=
  [act_move 1000 (mkLoc tableau_t 6 6) (mkLoc tableau_t 4 5) 1;
   act_flip 1000 6;
   act_move 1000 (mkLoc tableau_t 0 0) (mkLoc tableau_t 4 6) 1;
   act_move 1000 (mkLoc tableau_t 6 5) (mkLoc tableau_t 0 0) 1;
   act_flip 1000 6; act_draw 1000; act_draw 1000;
   act_move 1000 (mkLoc waste_t 0 1) (mkLoc foundation_t 0 0) 1;
   act_draw 1000; act_move 1000 (mkLoc waste_t 0 1) (mkLoc tableau_t 5 6) 1;
   act_draw 1000; act_move 1000 (mkLoc waste_t 0 1) (mkLoc tableau_t 3 4) 1;
   act_move 1000 (mkLoc tableau_t 2 2) (mkLoc tableau_t 3 5) 1;
   act_flip 1000 2;
   act_move 1000 (mkLoc tableau_t 2 1) (mkLoc tableau_t 0 1) 1;
   act_flip 1000 2;
   act_move 1000 (mkLoc tableau_t 2 0) (mkLoc tableau_t 1 2) 1;
   act_draw 1000; act_move 1000 (mkLoc waste_t 0 1) (mkLoc tableau_t 0 2) 1;
   act_move 1000 (mkLoc tableau_t 3 3) (mkLoc tableau_t 0 3) 3;
   act_flip 1000 3;
   act_move 1000 (mkLoc tableau_t 3 2) (mkLoc tableau_t 6 5) 1;
   act_flip 1000 3; act_draw 1000;
   act_move 1000 (mkLoc waste_t 0 1) (mkLoc tableau_t 0 6) 1; act_draw 1000;
   act_draw 1000; act_move 1000 (mkLoc waste_t 0 2) (mkLoc tableau_t 4 7) 1;
   act_move 1000 (mkLoc tableau_t 1 1) (mkLoc tableau_t 4 8) 2;
   act_flip 1000 1;
   act_move 1000 (mkLoc waste_t 0 1) (mkLoc tableau_t 1 1) 1;
   act_move 1000 (mkLoc tableau_t 4 4) (mkLoc tableau_t 1 2) 6;
   act_flip 1000 4; act_draw 1000; act_draw 1000; act_draw 1000;
   act_move 1000 (mkLoc waste_t 0 3) (mkLoc tableau_t 2 0) 1;
   act_move 1000 (mkLoc tableau_t 1 0) (mkLoc tableau_t 2 1) 8;
   act_move 1000 (mkLoc tableau_t 2 3) (mkLoc tableau_t 4 4) 6;
   act_draw 1000; act_draw 1000;
   act_move 1000 (mkLoc waste_t 0 4) (mkLoc tableau_t 6 6) 1;
   act_move 1000 (mkLoc tableau_t 4 4) (mkLoc tableau_t 2 3) 6;
   act_draw 1000; act_draw 1000;
   act_move 1000 (mkLoc waste_t 0 5) (mkLoc foundation_t 1 0) 1;
   act_draw 1000; act_move 1000 (mkLoc waste_t 0 5) (mkLoc tableau_t 2 9) 1;
   act_draw 1000; act_draw 1000; act_draw 1000;
   act_move 1000 (mkLoc waste_t 0 7) (mkLoc foundation_t 2 0) 1;
   act_draw 1000;
   act_move 1000 (mkLoc waste_t 0 7) (mkLoc foundation_t 0 1) 1;
   act_move 1000 (mkLoc tableau_t 6 6) (mkLoc foundation_t 0 2) 1;
   act_draw 1000;
   act_move 1000 (mkLoc waste_t 0 7) (mkLoc foundation_t 1 1) 1;
   act_move 1000 (mkLoc tableau_t 0 2) (mkLoc tableau_t 3 2) 5;
   act_move 1000 (mkLoc tableau_t 2 3) (mkLoc tableau_t 4 4) 7;
   act_draw 1000; act_draw 1000;
   act_move 1000 (mkLoc waste_t 0 8) (mkLoc tableau_t 1 0) 1; act_draw 1000;
   act_move 1000 (mkLoc tableau_t 3 2) (mkLoc tableau_t 0 2) 5;
   act_move 1000 (mkLoc tableau_t 4 4) (mkLoc tableau_t 2 3) 7; act_reset;
   act_draw 1000; act_draw 1000;
   act_move 1000 (mkLoc waste_t 0 1) (mkLoc tableau_t 2 10) 1; act_draw 1000;
   act_move 1000 (mkLoc tableau_t 2 1) (mkLoc tableau_t 1 1) 10;
   act_draw 1000;
   act_move 1000 (mkLoc waste_t 0 2) (mkLoc foundation_t 2 1) 1;
   act_move 1000 (mkLoc tableau_t 1 3) (mkLoc tableau_t 4 4) 8;
   act_move 1000 (mkLoc tableau_t 0 2) (mkLoc tableau_t 3 2) 5;
   act_draw 1000; act_move 1000 (mkLoc waste_t 0 2) (mkLoc tableau_t 2 1) 1;
   act_move 1000 (mkLoc tableau_t 4 3) (mkLoc tableau_t 2 2) 9;
   act_flip 1000 4;
   act_move 1000 (mkLoc tableau_t 4 2) (mkLoc foundation_t 3 0) 1;
   act_flip 1000 4;
   act_move 1000 (mkLoc tableau_t 5 5) (mkLoc tableau_t 4 2) 2;
   act_flip 1000 5;
   act_move 1000 (mkLoc tableau_t 3 1) (mkLoc tableau_t 5 5) 6;
   act_flip 1000 3;
   act_move 1000 (mkLoc tableau_t 3 0) (mkLoc tableau_t 1 3) 1;
   act_move 1000 (mkLoc tableau_t 5 4) (mkLoc tableau_t 3 0) 7;
   act_flip 1000 5;
   act_move 1000 (mkLoc tableau_t 5 3) (mkLoc tableau_t 4 4) 1;
   act_flip 1000 5;
   act_move 1000 (mkLoc tableau_t 5 2) (mkLoc tableau_t 0 2) 1;
   act_flip 1000 5;
   act_move 1000 (mkLoc tableau_t 5 1) (mkLoc foundation_t 2 2) 1;
   act_flip 1000 5;
   act_move 1000 (mkLoc tableau_t 5 0) (mkLoc foundation_t 0 3) 1;
   act_move 1000 (mkLoc tableau_t 6 4) (mkLoc tableau_t 4 5) 2;
   act_flip 1000 6;
   act_move 1000 (mkLoc waste_t 0 1) (mkLoc tableau_t 0 3) 1;
   act_move 1000 (mkLoc waste_t 0 0) (mkLoc foundation_t 0 4) 1;
   act_move 1000 (mkLoc tableau_t 4 1) (mkLoc tableau_t 0 4) 6;
   act_flip 1000 4;
   act_move 1000 (mkLoc tableau_t 4 0) (mkLoc foundation_t 1 2) 1;
   act_move 1000 (mkLoc tableau_t 0 9) (mkLoc foundation_t 1 3) 1;
   act_draw 1000; act_move 1000 (mkLoc waste_t 0 0) (mkLoc tableau_t 0 9) 1;
   act_draw 1000;
   act_move 1000 (mkLoc waste_t 0 0) (mkLoc foundation_t 0 5) 1;
   act_move 1000 (mkLoc tableau_t 3 6) (mkLoc foundation_t 0 6) 1;
   act_move 1000 (mkLoc tableau_t 6 3) (mkLoc foundation_t 0 7) 1;
   act_flip 1000 6; act_draw 1000;
   act_move 1000 (mkLoc waste_t 0 0) (mkLoc tableau_t 1 4) 1;
   act_move 1000 (mkLoc tableau_t 2 5) (mkLoc tableau_t 1 5) 6;
   act_move 1000 (mkLoc tableau_t 1 9) (mkLoc tableau_t 6 3) 2;
   act_move 1000 (mkLoc tableau_t 1 8) (mkLoc foundation_t 1 4) 1;
   act_move 1000 (mkLoc tableau_t 6 2) (mkLoc tableau_t 1 8) 3;
   act_flip 1000 6;
   act_move 1000 (mkLoc tableau_t 6 1) (mkLoc foundation_t 1 5) 1;
   act_flip 1000 6;
   act_move 1000 (mkLoc tableau_t 6 0) (mkLoc foundation_t 1 6) 1;
   act_move 1000 (mkLoc tableau_t 0 6) (mkLoc tableau_t 3 6) 4;
   act_move 1000 (mkLoc tableau_t 0 5) (mkLoc foundation_t 1 7) 1;
   act_move 1000 (mkLoc tableau_t 2 4) (mkLoc foundation_t 1 8) 1;
   act_draw 1000;
   act_move 1000 (mkLoc waste_t 0 0) (mkLoc foundation_t 3 1) 1].

Definition played42 : GameState :=
  match play line42 (dealt defaultPartial 42) with
  | Some s => s
  | None => dealt defaultPartial 42
  end.

(** [AUTO_COMPLETE_STEP] dispatched [n] times in a row; the [k]-th
    remaining dispatch reads the clock value [clock k] *)
Fixpoint autoCompleteSteps (n : nat) (clock : nat -> Z)
  (state : GameReducerState) : Exc GameReducerState :=
  match n with
  | O => Ret state
  | S n' =>
      next <- gameReducer (clock n') (clock n') state AUTO_COMPLETE_STEP ;;
      autoCompleteSteps n' clock next
  end.

(** The tables and objects of the examples: the won table the line of play
    and auto-complete reach, a history with one entry, and the reducer state
    the hook starts from *)
Definition won42 : GameState :=
  match autoCompleteRun 52 (fun _ => 1000) played42 with
  | Ret s => s
  | Throw _ => played42
  end.

Definition initial42 : GameReducerState :=
  mkReducerState (dealt defaultPartial 42) newHistory None.

Definition drawn42 : GameReducerState :=
  match gameReducer 1000 1000 initial42 DRAW with
  | Ret st => st
  | Throw _ => initial42
  end.

(* ================================================================== *)
(** * Properties *)

(** ** Arrays *)

Section ArrayFacts.
Context {A : Type}.
Implicit Types (l : list A) (x : A) (i : Z).

Lemma len_nonneg l : 0 <= Js.len l.
Proof. unfold Js.len. lia. Qed.

Lemma len_nil : Js.len (@nil A) = 0.
Proof. reflexivity. Qed.

Lemma len_app l1 l2 : Js.len (l1 ++ l2) = Js.len l1 + Js.len l2.
Proof. unfold Js.len. rewrite length_app. lia. Qed.

Lemma len_cons x l : Js.len (x :: l) = 1 + Js.len l.
Proof. unfold Js.len. cbn [Datatypes.length]. lia. Qed.

Lemma len_tl l : 0 < Js.len l -> Js.len (tl l) = Js.len l - 1.
Proof. destruct l; [rewrite len_nil; lia | rewrite len_cons; cbn [tl]; lia]. Qed.

Lemma len_zero_nil l : Js.len l = 0 -> l = [].
Proof. destruct l; [reflexivity | unfold Js.len; simpl; lia]. Qed.

Lemma index_range l i x : Js.index l i = Some x -> 0 <= i < Js.len l.
Proof.
  unfold Js.index, Js.len. destruct (Z.ltb_spec i 0); [discriminate |].
  intros H0. assert (Z.to_nat i < length l)%nat.
  { apply nth_error_Some. congruence. }
  lia.
Qed.

Lemma index_neg l i : i < 0 -> Js.index l i = None.
Proof. unfold Js.index. intros. destruct (Z.ltb_spec i 0); [reflexivity | lia]. Qed.

Lemma index_beyond l i : Js.len l <= i -> Js.index l i = None.
Proof.
  unfold Js.index, Js.len. intros. destruct (Z.ltb_spec i 0); [reflexivity |].
  apply nth_error_None. lia.
Qed.

Lemma index_in_range l i : 0 <= i < Js.len l -> exists x, Js.index l i = Some x.
Proof.
  unfold Js.index, Js.len. intros. destruct (Z.ltb_spec i 0); [lia |].
  destruct (nth_error l (Z.to_nat i)) eqn:E; [eauto |].
  apply nth_error_None in E. lia.
Qed.

Lemma index_app_mid l1 l2 x : Js.index (l1 ++ x :: l2) (Js.len l1) = Some x.
Proof.
  unfold Js.index, Js.len. destruct (Z.ltb_spec (Z.of_nat (length l1)) 0); [lia |].
  rewrite Nat2Z.id. rewrite nth_error_app2 by lia.
  rewrite Nat.sub_diag. reflexivity.
Qed.

Lemma index_split l i x :
  Js.index l i = Some x ->
  l = firstn (Z.to_nat i) l ++ x :: skipn (S (Z.to_nat i)) l.
Proof.
  unfold Js.index. destruct (Z.ltb_spec i 0); [discriminate |].
  generalize (Z.to_nat i). clear. intros n. revert l.
  induction n as [| n IH]; intros [| a l] E; simpl in *; try discriminate.
  - injection E as ->. reflexivity.
  - f_equal. exact (IH _ E).
Qed.

Lemma at_last_nil : Js.at_last (@nil A) = None.
Proof. reflexivity. Qed.

Lemma at_last_snoc l x : Js.at_last (l ++ [x]) = Some x.
Proof.
  unfold Js.at_last. rewrite len_app.
  replace (Js.len l + Js.len [x] - 1) with (Js.len l) by (unfold Js.len; simpl; lia).
  apply index_app_mid.
Qed.

Lemma snoc_cases l : l = [] \/ exists l' x, l = l' ++ [x].
Proof.
  destruct l as [| a l]; [left; reflexivity | right].
  exists (removelast (a :: l)), (last (a :: l) a).
  apply app_removelast_last. discriminate.
Qed.

Lemma at_last_None l : Js.at_last l = None -> l = [].
Proof.
  destruct (snoc_cases l) as [-> | (l' & x & ->)]; [reflexivity |].
  rewrite at_last_snoc. discriminate.
Qed.

Lemma at_last_Some l x : Js.at_last l = Some x -> exists l', l = l' ++ [x].
Proof.
  destruct (snoc_cases l) as [-> | (l' & y & ->)]; [discriminate |].
  rewrite at_last_snoc. intros [= ->]. eauto.
Qed.

Lemma pop_snoc l x : Js.pop (l ++ [x]) = (Some x, l).
Proof. unfold Js.pop. rewrite at_last_snoc, removelast_last. reflexivity. Qed.

Lemma set_nth_mid l1 l2 x y :
  Js.set_nth (l1 ++ x :: l2) (length l1) y = l1 ++ y :: l2.
Proof. induction l1 as [| a l1 IH]; simpl; [reflexivity | now rewrite IH]. Qed.

Lemma set_last_snoc l x y :
  Js.set_nth (l ++ [x]) (Z.to_nat (Js.len (l ++ [x]) - 1)) y = l ++ [y].
Proof.
  rewrite len_app.
  replace (Z.to_nat (Js.len l + Js.len [x] - 1)) with (length l)
    by (unfold Js.len; simpl; lia).
  apply set_nth_mid.
Qed.

Lemma set_nth_length l n y : length (Js.set_nth l n y) = length l.
Proof.
  revert n. induction l as [| a l IH]; intros [| n]; simpl; auto.
Qed.

End ArrayFacts.

(** ** Deep copies are equal to their originals *)

Lemma cloneCard_id c : cloneCard c = c.
Proof. destruct c; reflexivity. Qed.

Lemma clonePile_id p : clonePile p = p.
Proof.
  destruct p as [i t cs ti fs]. unfold clonePile; simpl. f_equal.
  induction cs as [| c cs IH]; simpl; [reflexivity |].
  now rewrite cloneCard_id, IH.
Qed.

Lemma cloneState_id s : cloneState s = s.
Proof.
  destruct s as [st wa [f0 f1 f2 f3] [c0 c1 c2 c3 c4 c5 c6] sc mv t0 t1 w sp [d m u a]].
  unfold cloneState, t4_map, t7_map; simpl.
  now rewrite !clonePile_id.
Qed.

(** ** Scoring *)

Lemma calculateTimeBonus_quotient e :
  30 < e -> calculateTimeBonus e = 700000 / e.
Proof.
  intros H. unfold calculateTimeBonus.
  destruct (Z.leb_spec e 30); [lia |].
  assert (0 <= 700000 / e) by (apply Z.div_pos; lia).
  assert (700000 / e <= 700000 / 1) by (apply Z.div_le_compat_l; lia).
  rewrite Z.div_1_r in *. lia.
Qed.

(** C4, as stated: at exactly 30 seconds the bonus would be 23333. It is 0. *)
Lemma C4_counterexample :
  700000 / 30 = 23333 /\ calculateTimeBonus 30 <> 700000 / 30.
Proof. split; [reflexivity | vm_compute; discriminate]. Qed.

(** C4, amended: for every non-negative integer [elapsedSeconds],
    [calculateTimeBonus] returns 0 when [elapsedSeconds] is at most 30
    (30 itself included) and otherwise returns [floor(700000 / elapsedSeconds)],
    a value that never reaches the cap of 700000. *)
Theorem C4_calculateTimeBonus (elapsedSeconds : Z) :
  0 <= elapsedSeconds ->
  (elapsedSeconds <= 30 -> calculateTimeBonus elapsedSeconds = 0)
  /\ (30 < elapsedSeconds ->
      calculateTimeBonus elapsedSeconds = 700000 / elapsedSeconds
      /\ calculateTimeBonus elapsedSeconds = Z.min (700000 / elapsedSeconds) 700000
      /\ calculateTimeBonus elapsedSeconds <= 22580).
Proof.
  intros Hnn. split.
  - intros H. unfold calculateTimeBonus.
    destruct (Z.leb_spec elapsedSeconds 30); [reflexivity | lia].
  - intros H. rewrite (calculateTimeBonus_quotient _ H).
    assert (700000 / elapsedSeconds <= 700000 / 31)
      by (apply Z.div_le_compat_l; lia).
    change (700000 / 31) with 22580 in *.
    repeat split; lia.
Qed.

Lemma C4_calculateTimeBonus_witness :
  0 <= 60
  /\ (60 <= 30 -> calculateTimeBonus 60 = 0)
  /\ (30 < 60 ->
      calculateTimeBonus 60 = 700000 / 60
      /\ calculateTimeBonus 60 = Z.min (700000 / 60) 700000
      /\ calculateTimeBonus 60 <= 22580).
Proof. split; [lia | apply (C4_calculateTimeBonus 60); lia]. Defined.


(** ** Evaluation on concrete games *)

Ltac conj_vm :=
  repeat (match goal with
          | |- _ /\ _ => split; [vm_compute; reflexivity |]
          end);
  vm_compute; reflexivity.

(** C10: [isValidMove] does not require [cardCount >= 1].  In the default
    (standard, draw-one) game dealt from seed 42, after three draws the waste
    top is the seven of spades and column 2 shows the eight of hearts:
    [isValidMove(state, waste top, column 2, 0)] is true, and [executeMove]
    with [cardCount = 0] succeeds, leaves every pile as it was, yet adds one
    to [moves] and 5 to [score] (the waste-to-tableau score). *)
Theorem C10_zero_card_move :
  exists s0 s from to r s' m,
    createInitialState defaultPartial 42 = Ret (Proper s0)
    /\ s = drawTimes 3 1000 s0
    /\ from = mkLoc waste_t 0 2
    /\ to = mkLoc tableau_t 2 3
    /\ scoringMode (config s) = standard
    /\ getCardAt s from = Some (createCard spades 7 true)
    /\ isValidMove s from to 0 = Ret true
    /\ executeMove 2000 s from to 0 = Ret r
    /\ success r = true
    /\ result_state r = Some s'
    /\ result_move r = Some m
    /\ stock s' = stock s /\ waste s' = waste s
    /\ foundations s' = foundations s /\ tableau s' = tableau s
    /\ moves s' = moves s + 1
    /\ cardCount m = 0
    /\ scoreChange m = 5
    /\ score s' = score s + 5.
Proof. do 7 eexists. conj_vm. Qed.

(** C1 (the code departs from the specification): in the vegas game dealt from
    seed 42, one draw followed by [resetStock] recycles one card with a
    recycle penalty of 0, and the score goes from the buy-in of -52 to 0
    instead of staying at -52. *)
Theorem C1_resetStock_vegas_score :
  exists s0 s1 s2,
    createInitialState vegasPartial 42 = Ret (Proper s0)
    /\ s1 = drawFromStock 1000 s0
    /\ s2 = resetStock s1
    /\ scoringMode (config s1) = vegas
    /\ Js.len (cards (waste s1)) = 1
    /\ stockPasses s2 = stockPasses s1 + 1
    /\ Js.len (cards (waste s2)) = 0
    /\ getRecycleWastePenalty s1 = 0
    /\ score s1 = -52
    /\ score s2 = 0.
Proof. do 3 eexists. conj_vm. Qed.

(** ** Drawing and recycling *)

Lemma flipCard_id c b : id (flipCard c b) = id c.
Proof. unfold flipCard. destruct (Bool.eqb (faceUp c) b); reflexivity. Qed.

Lemma flipCard_faceUp c b : faceUp (flipCard c b) = b.
Proof.
  unfold flipCard. destruct (Bool.eqb (faceUp c) b) eqn:E; [| reflexivity].
  now apply Bool.eqb_prop in E.
Qed.

Lemma flipCard_suit c b : suit (flipCard c b) = suit c.
Proof. unfold flipCard. destruct (Bool.eqb (faceUp c) b); reflexivity. Qed.

Lemma flipCard_rank c b : rank (flipCard c b) = rank c.
Proof. unfold flipCard. destruct (Bool.eqb (faceUp c) b); reflexivity. Qed.

Lemma map_id_flip b cs : map id (map (fun c => flipCard c b) cs) = map id cs.
Proof.
  rewrite map_map. apply map_ext. intros c. apply flipCard_id.
Qed.

Ltac unfold_setters :=
  cbv [set_cards set_stock set_waste set_foundations set_tableau set_score
       set_moves set_startTime set_endTime set_isWon set_stockPasses
       startTimer Js.push] in *.

Ltac destruct_state s :=
  let st := fresh "st" in
  let wa := fresh "wa" in
  destruct s as [st wa ? ? ? ? ? ? ? ? ?]; destruct st, wa;
  unfold_setters; simpl in *.

(** [drawLoop] run for as many iterations as [top] has cards moves exactly
    the cards [top] (listed from the stock's top downwards) to the waste. *)
Lemma drawLoop_spec top : forall s base,
  cards (stock s) = base ++ rev top ->
  drawLoop (length top) s =
  set_waste (set_stock s (set_cards (stock s) base))
            (set_cards (waste s) (cards (waste s) ++ map faceUpCard top)).
Proof.
  induction top as [| x top IH]; intros s base E.
  - simpl in *. rewrite app_nil_r in *. subst base.
    destruct_state s. reflexivity.
  - simpl in E. rewrite app_assoc in E. cbn [drawLoop Datatypes.length].
    rewrite E, pop_snoc.
    rewrite (IH _ base) by reflexivity.
    destruct_state s. now rewrite <- app_assoc.
Qed.

(** [resetLoop] with one unit of fuel per waste card moves the whole waste
    (listed from its top downwards as [top]) face-down onto the stock. *)
Lemma resetLoop_spec top : forall s fuel,
  cards (waste s) = rev top ->
  (length top <= fuel)%nat ->
  resetLoop fuel s =
  set_stock (set_waste s (set_cards (waste s) []))
            (set_cards (stock s) (cards (stock s) ++ map faceDownCard top)).
Proof.
  induction top as [| x top IH]; intros s fuel E Hf.
  - simpl in E. destruct fuel; simpl.
    + destruct_state s. subst. now rewrite ?app_nil_r.
    + rewrite E. simpl. destruct_state s. subst. now rewrite ?app_nil_r.
  - destruct fuel as [| fuel]; [simpl in Hf; lia |].
    simpl in E. cbn [resetLoop]. rewrite E.
    replace (Js.len (rev top ++ [x]) >? 0) with true
      by (symmetry; apply Z.gtb_lt; rewrite len_app; generalize (len_nonneg (rev top));
          unfold Js.len; simpl; lia).
    rewrite pop_snoc.
    rewrite IH; [| reflexivity | simpl in *; lia].
    destruct_state s. now rewrite <- app_assoc.
Qed.

(** What [resetStock] does when it recycles. *)
Lemma resetStock_recycles s :
  cards (waste s) <> [] -> resetPermitted s = true ->
  resetStock s =
  mkState (set_cards (stock s)
             (cards (stock s) ++ map faceDownCard (rev (cards (waste s)))))
          (set_cards (waste s) [])
          (foundations s) (tableau s)
          (Z.max 0 (score s + getRecycleWastePenalty s))
          (moves s + 1) (startTime s) (endTime s) (isWon s)
          (stockPasses s + 1) (config s).
Proof.
  intros Hw Hp. unfold resetStock.
  destruct (Z.eqb_spec (Js.len (cards (waste s))) 0) as [E | _].
  { apply len_zero_nil in E. contradiction. }
  unfold resetPermitted in Hp. apply negb_true_iff in Hp. rewrite Hp.
  rewrite cloneState_id.
  rewrite (resetLoop_spec (rev (cards (waste s))))
    by (rewrite ?rev_involutive, ?length_rev; auto).
  destruct_state s. reflexivity.
Qed.

(** [resetStock] is a no-op when the waste is empty or the passes are used up. *)
Lemma resetStock_noop s :
  cards (waste s) = [] \/ resetPermitted s = false -> resetStock s = s.
Proof.
  intros [E | Hp]; unfold resetStock.
  - now rewrite E.
  - destruct (Js.len (cards (waste s)) =? 0); [reflexivity |].
    unfold resetPermitted in Hp. apply negb_false_iff in Hp. now rewrite Hp.
Qed.

(** The score after a recycle is the penalised score floored at 0; with a
    penalty of 0 a non-negative score is kept and a negative one becomes 0. *)
Lemma resetStock_score s :
  cards (waste s) <> [] -> resetPermitted s = true ->
  score (resetStock s) = Z.max 0 (score s + getRecycleWastePenalty s).
Proof. intros Hw Hp. now rewrite resetStock_recycles. Qed.

Lemma resetStock_score_no_penalty s :
  cards (waste s) <> [] -> resetPermitted s = true ->
  getRecycleWastePenalty s = 0 ->
  (0 <= score s -> score (resetStock s) = score s)
  /\ (score s < 0 -> score (resetStock s) = 0).
Proof.
  intros Hw Hp H0. rewrite resetStock_score, H0 by assumption. lia.
Qed.

Lemma drawFromStock_noop now s :
  cards (stock s) = [] -> drawFromStock now s = s.
Proof. intros E. unfold drawFromStock. now rewrite E. Qed.

(** What [drawFromStock] does on a non-empty stock: the top
    [min(drawCount, stock size)] cards, [top], go face-up to the waste. *)
Lemma drawFromStock_draws now s :
  cards (stock s) <> [] ->
  exists base top,
    top <> []
    /\ Js.len top = drawCountOf s
    /\ cards (stock s) = base ++ rev top
    /\ drawFromStock now s =
       mkState (set_cards (stock s) base)
               (set_cards (waste s) (cards (waste s) ++ map faceUpCard top))
               (foundations s) (tableau s) (score s) (moves s + 1)
               (match startTime s with None => Some now | Some t => Some t end)
               (endTime s) (isWon s) (stockPasses s) (config s).
Proof.
  intros Hne. unfold drawFromStock.
  destruct (Z.eqb_spec (Js.len (cards (stock s))) 0) as [E | Hlen].
  { apply len_zero_nil in E. contradiction. }
  rewrite cloneState_id.
  set (dc := match drawMode (config s) with draw_three => 3 | draw_one => 1 end).
  assert (Hdc : 1 <= dc) by (subst dc; destruct (drawMode (config s)); lia).
  pose proof (len_nonneg (cards (stock s))) as Hnn.
  set (n := Z.to_nat (Z.min dc (Js.len (cards (stock s))))).
  set (m := (length (cards (stock s)) - n)%nat).
  exists (firstn m (cards (stock s))), (rev (skipn m (cards (stock s)))).
  assert (Hn : (1 <= n <= length (cards (stock s)))%nat)
    by (subst n; unfold Js.len in *; lia).
  assert (Hlt : length (rev (skipn m (cards (stock s)))) = n)
    by (rewrite length_rev, length_skipn; subst m; lia).
  repeat split.
  - intros E. rewrite E in Hlt. simpl in Hlt. lia.
  - unfold drawCountOf. fold dc. unfold Js.len at 1. rewrite Hlt. subst n. lia.
  - rewrite rev_involutive. symmetry. apply firstn_skipn.
  - rewrite <- Hlt.
    rewrite (drawLoop_spec _ s (firstn m (cards (stock s))))
      by (rewrite rev_involutive; symmetry; apply firstn_skipn).
    destruct_state s. destruct startTime0; reflexivity.
Qed.

(** Drawing until the stock is empty terminates within one draw per stock
    card and turns the whole stock over onto the waste. *)
Lemma drawUntilEmpty_spec fuel : forall clock s,
  (length (cards (stock s)) <= fuel)%nat ->
  cards (stock (drawUntilEmpty fuel clock s)) = []
  /\ cards (waste (drawUntilEmpty fuel clock s)) =
     cards (waste s) ++ map faceUpCard (rev (cards (stock s)))
  /\ foundations (drawUntilEmpty fuel clock s) = foundations s
  /\ tableau (drawUntilEmpty fuel clock s) = tableau s
  /\ score (drawUntilEmpty fuel clock s) = score s
  /\ stockPasses (drawUntilEmpty fuel clock s) = stockPasses s
  /\ config (drawUntilEmpty fuel clock s) = config s
  /\ set_cards (stock (drawUntilEmpty fuel clock s)) [] = set_cards (stock s) [].
Proof.
  induction fuel as [| fuel IH]; intros clock s Hf.
  - assert (E : cards (stock s) = [])
      by (destruct (cards (stock s)); [reflexivity | simpl in Hf; lia]).
    simpl. rewrite E. simpl. rewrite app_nil_r. repeat split; reflexivity.
  - cbn [drawUntilEmpty].
    destruct (Z.gtb_spec (Js.len (cards (stock s))) 0) as [Hpos | Hz].
    + assert (Hne : cards (stock s) <> [])
        by (intros E; rewrite E in Hpos; unfold Js.len in Hpos; simpl in Hpos; lia).
      destruct (drawFromStock_draws (clock fuel) s Hne)
        as (base & top & Htop & _ & Hst & Hdraw).
      assert (Hb : (length base <= fuel)%nat).
      { rewrite Hst, length_app, length_rev in Hf.
        destruct top; [contradiction | simpl in Hf; lia]. }
      specialize (IH clock (drawFromStock (clock fuel) s)).
      rewrite Hdraw in IH |- *. simpl in IH.
      destruct (IH Hb) as (I1 & I2 & I3 & I4 & I5 & I6 & I7 & I8).
      repeat split; try assumption.
      rewrite I2, Hst, rev_app_distr, rev_involutive, map_app.
      now rewrite app_assoc.
    + pose proof (len_nonneg (cards (stock s))).
      assert (E : cards (stock s) = []) by (apply len_zero_nil; lia).
      rewrite E. simpl. rewrite app_nil_r. repeat split; reflexivity.
Qed.

Lemma faceDown_faceUp c : faceDownCard (faceUpCard c) = faceDownCard c.
Proof. destruct c as [i s r []]; reflexivity. Qed.

Lemma resetPermitted_ext s s' :
  config s' = config s -> stockPasses s' = stockPasses s ->
  resetPermitted s' = resetPermitted s.
Proof. unfold resetPermitted. now intros -> ->. Qed.

(** C7, as stated, fails when the recycle is refused: in a vegas game with
    limited passes, after three full passes the stock holds 24 cards and the
    waste none; drawing the whole stock and calling [resetStock] then leaves
    the stock empty, the 24 cards on the waste and [stockPasses] at 3. *)
Lemma C7_counterexample :
  exists s0 s s',
    createInitialState vegasLimitedPartial 42 = Ret (Proper s0)
    /\ s = fullPass (fun _ => 1000) (fullPass (fun _ => 1000) (fullPass (fun _ => 1000) s0))
    /\ s' = resetStock (drawUntilEmpty 24 (fun _ => 1000) s)
    /\ Js.len (cards (stock s)) = 24
    /\ cards (waste s) = []
    /\ stockPasses s = 3
    /\ cards (stock s') = []
    /\ Js.len (cards (waste s')) = 24
    /\ stockPasses s' = 3.
Proof. do 3 eexists. conj_vm. Qed.

(** C7, amended: for every GameState with a non-empty stock and an empty
    waste on which the recycle is permitted (not a vegas game with limited
    passes and three passes used): drawing until the stock is empty (which
    takes at most one draw per stock card) and then calling [resetStock]
    gives a stock with the same cards in the same order by identity, all
    face-down, an empty waste, and [stockPasses] one higher. *)
Theorem C7_draw_all_then_reset (fuel : nat) (clock : nat -> Z) (s : GameState) :
  cards (stock s) <> [] ->
  cards (waste s) = [] ->
  resetPermitted s = true ->
  (length (cards (stock s)) <= fuel)%nat ->
  cards (stock (drawUntilEmpty fuel clock s)) = []
  /\ map id (cards (stock (resetStock (drawUntilEmpty fuel clock s))))
     = map id (cards (stock s))
  /\ Forall (fun c => faceUp c = false)
            (cards (stock (resetStock (drawUntilEmpty fuel clock s))))
  /\ cards (stock (resetStock (drawUntilEmpty fuel clock s)))
     = map faceDownCard (cards (stock s))
  /\ cards (waste (resetStock (drawUntilEmpty fuel clock s))) = []
  /\ stockPasses (resetStock (drawUntilEmpty fuel clock s)) = stockPasses s + 1.
Proof.
  intros Hne Hw Hp Hf.
  destruct (drawUntilEmpty_spec fuel clock s Hf)
    as (D1 & D2 & _ & _ & _ & D6 & D7 & _).
  set (d := drawUntilEmpty fuel clock s) in *.
  rewrite Hw in D2. simpl in D2.
  assert (Hdw : cards (waste d) <> []).
  { rewrite D2. intros E. apply map_eq_nil in E.
    apply (f_equal (@rev Card)) in E. rewrite rev_involutive in E. contradiction. }
  assert (Hdp : resetPermitted d = true)
    by (rewrite (resetPermitted_ext s d); assumption).
  rewrite (resetStock_recycles d Hdw Hdp).
  unfold set_cards; cbn [stock waste stockPasses cards].
  rewrite D1, D2, D6. cbn [app].
  rewrite <- map_rev, rev_involutive.
  assert (E : map faceDownCard (map faceUpCard (cards (stock s)))
              = map faceDownCard (cards (stock s)))
    by (rewrite map_map; apply map_ext; intros; apply faceDown_faceUp).
  rewrite E. repeat split.
  - unfold faceDownCard. apply map_id_flip.
  - apply Forall_map, Forall_forall. intros c _. apply flipCard_faceUp.
Qed.

Lemma C7_draw_all_then_reset_witness :
  cards (stock (dealt defaultPartial 42)) <> []
  /\ cards (waste (dealt defaultPartial 42)) = []
  /\ resetPermitted (dealt defaultPartial 42) = true
  /\ (length (cards (stock (dealt defaultPartial 42))) <= 24)%nat
  /\ cards (stock (drawUntilEmpty 24 (fun _ => 1000)
                     (dealt defaultPartial 42))) = []
  /\ map id (cards (stock (resetStock (drawUntilEmpty 24 (fun _ => 1000)
                                         (dealt defaultPartial 42)))))
     = map id (cards (stock (dealt defaultPartial 42)))
  /\ Forall (fun c => faceUp c = false)
            (cards (stock (resetStock (drawUntilEmpty 24 (fun _ => 1000)
                                         (dealt defaultPartial 42)))))
  /\ cards (stock (resetStock (drawUntilEmpty 24 (fun _ => 1000)
                                 (dealt defaultPartial 42))))
     = map faceDownCard (cards (stock (dealt defaultPartial 42)))
  /\ cards (waste (resetStock (drawUntilEmpty 24 (fun _ => 1000)
                                 (dealt defaultPartial 42)))) = []
  /\ stockPasses (resetStock (drawUntilEmpty 24 (fun _ => 1000)
                                (dealt defaultPartial 42)))
     = stockPasses (dealt defaultPartial 42) + 1.
Proof.
  assert (H1 : cards (stock (dealt defaultPartial 42)) <> [])
    by (vm_compute; discriminate).
  assert (H2 : cards (waste (dealt defaultPartial 42)) = [])
    by (vm_compute; reflexivity).
  assert (H3 : resetPermitted (dealt defaultPartial 42) = true)
    by (vm_compute; reflexivity).
  assert (H4 : (length (cards (stock (dealt defaultPartial 42))) <= 24)%nat)
    by (vm_compute; repeat constructor).
  split; [exact H1 |]. split; [exact H2 |].
  split; [exact H3 |]. split; [exact H4 |].
  exact (C7_draw_all_then_reset 24 (fun _ => 1000) (dealt defaultPartial 42)
           H1 H2 H3 H4).
Defined.

(** ** GameHistory *)

Lemma slice0_prefix {A : Type} (l : list A) (e : Z) :
  0 <= e <= Js.len l ->
  Js.slice0 l e = firstn (Z.to_nat e) l /\ Js.len (Js.slice0 l e) = e.
Proof.
  intros H. unfold Js.slice0, Js.clamp_index.
  destruct (Z.ltb_spec e 0); [lia |].
  rewrite Z.min_l by lia. split; [reflexivity |].
  unfold Js.len in *. rewrite length_firstn. lia.
Qed.

(** [push] keeps the entries up to the cursor, appends, and evicts the
    oldest entry exactly when the log was full with the cursor at its end. *)
Lemma push_spec h entry :
  hist_inv h ->
  (currentIndex h + 1 < maxHistory ->
   push h entry =
   mkHistory (firstn (Z.to_nat (currentIndex h + 1)) (history h) ++ [entry])
             (currentIndex h + 1))
  /\ (currentIndex h + 1 = maxHistory ->
      push h entry = mkHistory (tl (history h) ++ [entry]) (currentIndex h)).
Proof.
  intros [Hc Hl]. unfold push.
  destruct (slice0_prefix (history h) (currentIndex h + 1)) as [Es El]; [lia |].
  unfold Js.push. rewrite len_app, El. change (Js.len [entry]) with 1.
  split; intros H.
  - destruct (Z.gtb_spec (currentIndex h + 1 + 1) maxHistory); [lia |].
    now rewrite Es.
  - destruct (Z.gtb_spec (currentIndex h + 1 + 1) maxHistory); [| lia].
    rewrite Es. f_equal; [| lia].
    assert (Hlen : Js.len (history h) = currentIndex h + 1) by lia.
    rewrite firstn_all2 by (unfold Js.len in Hlen; lia).
    unfold Js.shift. destruct (history h); [| reflexivity].
    rewrite len_nil in *. unfold maxHistory in *. lia.
Qed.

Lemma push_inv h entry : hist_inv h -> hist_inv (push h entry).
Proof.
  intros Hi. pose proof Hi as [Hc Hl].
  destruct (push_spec h entry Hi) as [P1 P2].
  destruct (Z.lt_ge_cases (currentIndex h + 1) maxHistory) as [Hlt | Hge].
  - rewrite (P1 Hlt). unfold hist_inv; simpl.
    rewrite len_app. change (Js.len [entry]) with 1.
    unfold Js.len in *. rewrite length_firstn. lia.
  - assert (E : currentIndex h + 1 = maxHistory) by lia.
    rewrite (P2 E). unfold hist_inv; simpl.
    rewrite len_app. change (Js.len [entry]) with 1.
    unfold maxHistory in *. rewrite len_tl by lia. lia.
Qed.

(** After any [push] the new entry is the one under the cursor, and nothing
    lies beyond it. *)
Lemma push_cursor h entry :
  hist_inv h ->
  0 <= currentIndex (push h entry)
  /\ Js.index (history (push h entry)) (currentIndex (push h entry)) = Some entry
  /\ currentIndex (push h entry) = Js.len (history (push h entry)) - 1.
Proof.
  intros Hi. pose proof Hi as [Hc Hl].
  destruct (push_spec h entry Hi) as [P1 P2].
  destruct (Z.lt_ge_cases (currentIndex h + 1) maxHistory) as [Hlt | Hge].
  - rewrite (P1 Hlt); simpl.
    set (kept := firstn (Z.to_nat (currentIndex h + 1)) (history h)).
    assert (Hk : Js.len kept = currentIndex h + 1).
    { subst kept. unfold Js.len in *. rewrite length_firstn. lia. }
    rewrite <- Hk. split; [apply len_nonneg |]. split.
    + apply index_app_mid.
    + rewrite len_app. change (Js.len [entry]) with 1. lia.
  - assert (E : currentIndex h + 1 = maxHistory) by lia.
    rewrite (P2 E); simpl.
    assert (Hk : Js.len (tl (history h)) = currentIndex h)
      by (unfold maxHistory in *; rewrite len_tl by lia; lia).
    rewrite <- Hk at 1 2. split; [apply len_nonneg |]. split.
    + apply index_app_mid.
    + rewrite len_app. change (Js.len [entry]) with 1. lia.
Qed.

Lemma undo_inv h r h' : hist_inv h -> undo h = Ret (r, h') -> hist_inv h'.
Proof.
  intros [Hc Hl]. unfold undo, canUndo.
  destruct (Z.geb_spec (currentIndex h) 0); simpl.
  - destruct (Js.index (history h) (currentIndex h)); [| discriminate].
    intros [= <- <-]. unfold hist_inv; simpl. lia.
  - intros [= <- <-]. split; assumption.
Qed.

Lemma redo_inv h : hist_inv h -> hist_inv (snd (redo h)).
Proof.
  intros [Hc Hl]. unfold redo, canRedo.
  destruct (Z.ltb_spec (currentIndex h) (Js.len (history h) - 1)); simpl.
  - unfold hist_inv; simpl. lia.
  - split; assumption.
Qed.

Lemma hist_reachable_inv h : hist_reachable h -> hist_inv h.
Proof.
  induction 1 as [| h e _ IH | h r h' _ IH E | h _ IH | h _ IH].
  - unfold hist_inv, newHistory, maxHistory, Js.len; simpl. lia.
  - now apply push_inv.
  - exact (undo_inv h r h' IH E).
  - now apply redo_inv.
  - unfold hist_inv, clear, maxHistory, Js.len; simpl. lia.
Qed.

(** [undo] never raises on a history a caller can hold. *)
Lemma undo_returns h :
  hist_inv h -> exists r h', undo h = Ret (r, h').
Proof.
  intros [Hc Hl]. unfold undo, canUndo.
  destruct (Z.geb_spec (currentIndex h) 0); simpl; [| eauto].
  destruct (index_in_range (history h) (currentIndex h)) as [x ->]; [lia |].
  eauto.
Qed.

(** C8: for every GameHistory obtained from [new GameHistory()] by any
    sequence of [push], [undo], [redo] and [clear]:
    (1) right after [push(entry)], [undo()] returns exactly
        [entry.previousState];
    (2) after an [undo] followed by a [push], [canRedo()] is false, the log
        is the entries before the undone one followed by the new entry,
        and [size()] is the old cursor position plus one;
    (3) [size()] never exceeds 100; a push on a full log whose cursor is at
        the end evicts the oldest entry and leaves the cursor at 99. *)
Theorem C8_history (h : GameHistory) :
  hist_reachable h ->
  (forall entry,
      exists h', undo (push h entry) = Ret (Some (previousState entry), h'))
  /\ (forall entry, canRedo (push h entry) = false)
  /\ (forall snapshot h1 entry,
         undo h = Ret (Some snapshot, h1) ->
         canRedo (push h1 entry) = false
         /\ history (push h1 entry)
            = firstn (Z.to_nat (currentIndex h)) (history h) ++ [entry]
         /\ size (push h1 entry) = currentIndex h + 1
         /\ size (push h1 entry) <= size h)
  /\ size h <= 100
  /\ (forall entry,
         size h = 100 -> currentIndex h = 99 ->
         history (push h entry) = tl (history h) ++ [entry]
         /\ currentIndex (push h entry) = 99
         /\ size (push h entry) = 100).
Proof.
  intros Hr. pose proof (hist_reachable_inv h Hr) as Hi.
  pose proof Hi as [Hc Hl].
  assert (Hredo : forall g entry, hist_inv g -> canRedo (push g entry) = false).
  { intros g entry Hg. destruct (push_cursor g entry Hg) as (_ & _ & E).
    unfold canRedo. apply Z.ltb_ge. lia. }
  split; [| split; [| split; [| split]]].
  - intros entry. destruct (push_cursor h entry Hi) as (H0 & Hidx & _).
    unfold undo, canUndo.
    destruct (Z.geb_spec (currentIndex (push h entry)) 0); [| lia]. simpl.
    rewrite Hidx. eauto.
  - intros entry. now apply Hredo.
  - intros snapshot h1 entry Hu.
    pose proof (undo_inv h _ h1 Hi Hu) as Hi1.
    unfold undo, canUndo in Hu.
    destruct (Z.geb_spec (currentIndex h) 0); simpl in Hu; [| discriminate].
    destruct (Js.index (history h) (currentIndex h)); [| discriminate].
    injection Hu as _ <-.
    split; [now apply Hredo |].
    destruct (push_spec _ entry Hi1) as [P1 _]. simpl in P1.
    unfold maxHistory in *.
    rewrite P1 by lia. simpl.
    replace (currentIndex h - 1 + 1) with (currentIndex h) by lia.
    split; [reflexivity |].
    unfold size; simpl. rewrite len_app. change (Js.len [entry]) with 1.
    unfold Js.len in *. rewrite length_firstn. lia.
  - exact Hl.
  - intros entry Hs Hcur. destruct (push_spec h entry Hi) as [_ P2].
    unfold maxHistory in *. rewrite P2 by lia. simpl.
    split; [reflexivity |]. split; [assumption |].
    unfold size in *; simpl. rewrite len_app. change (Js.len [entry]) with 1.
    rewrite len_tl by lia. lia.
Qed.

Lemma C8_history_witness :
  hist_reachable (push newHistory sampleEntry)
  /\ (exists h', undo (push (push newHistory sampleEntry) sampleEntry)
                 = Ret (Some (previousState sampleEntry), h'))
  /\ size (push newHistory sampleEntry) <= 100.
Proof.
  assert (Hr : hist_reachable (push newHistory sampleEntry))
    by (apply hist_push, hist_new).
  split; [exact Hr |].
  pose proof (C8_history (push newHistory sampleEntry) Hr) as (H1 & _ & _ & H4 & _).
  split; [apply H1 | exact H4].
Defined.

(** ** Tuples *)

Ltac eqb_cases :=
  repeat match goal with
         | |- context [?a =? ?b] => destruct (Z.eqb_spec a b)
         | H : context [?a =? ?b] |- _ => destruct (Z.eqb_spec a b)
         end.

Section TupleFacts.
Context {A : Type}.

Lemma t4_get_range (t : Tuple4 A) i p : t4_get t i = Some p -> 0 <= i < 4.
Proof. unfold t4_get. eqb_cases; (discriminate || lia). Qed.

Lemma t4_get_in_range (t : Tuple4 A) i : 0 <= i < 4 -> exists p, t4_get t i = Some p.
Proof. intros H. unfold t4_get. eqb_cases; eauto. lia. Qed.

Lemma t4_get_set_same (t : Tuple4 A) i x :
  0 <= i < 4 -> t4_get (t4_set t i x) i = Some x.
Proof. intros H. unfold t4_get, t4_set. eqb_cases; try reflexivity; lia. Qed.

Lemma t4_get_set_other (t : Tuple4 A) i j x :
  i <> j -> t4_get (t4_set t i x) j = t4_get t j.
Proof. intros H. unfold t4_get, t4_set. eqb_cases; try reflexivity; lia. Qed.

Lemma t4_set_out (t : Tuple4 A) i x : ~ 0 <= i < 4 -> t4_set t i x = t.
Proof. intros H. unfold t4_set. eqb_cases; try reflexivity; lia. Qed.

Lemma t7_get_range (t : Tuple7 A) i p : t7_get t i = Some p -> 0 <= i < 7.
Proof. unfold t7_get. eqb_cases; (discriminate || lia). Qed.

Lemma t7_get_in_range (t : Tuple7 A) i : 0 <= i < 7 -> exists p, t7_get t i = Some p.
Proof. intros H. unfold t7_get. eqb_cases; eauto. lia. Qed.

Lemma t7_get_set_same (t : Tuple7 A) i x :
  0 <= i < 7 -> t7_get (t7_set t i x) i = Some x.
Proof. intros H. unfold t7_get, t7_set. eqb_cases; try reflexivity; lia. Qed.

Lemma t7_get_set_other (t : Tuple7 A) i j x :
  i <> j -> t7_get (t7_set t i x) j = t7_get t j.
Proof. intros H. unfold t7_get, t7_set. eqb_cases; try reflexivity; lia. Qed.

Lemma t7_set_out (t : Tuple7 A) i x : ~ 0 <= i < 7 -> t7_set t i x = t.
Proof. intros H. unfold t7_set. eqb_cases; try reflexivity; lia. Qed.

End TupleFacts.

(** ** flipTableauCard *)

Lemma flipCard_up_facedown c :
  faceUp c = false -> flipCard c true = mkCard (id c) (suit c) (rank c) true.
Proof. intros H. unfold flipCard. now rewrite H. Qed.

(** The complete behaviour of [flipTableauCard]. *)
Lemma flipTableauCard_spec (now : Z) (s : GameState) (i : Z) :
  exists r,
    flipTableauCard now s i = Ret r
    /\ (success r = false <->
        (i < 0 \/ 7 <= i
         \/ (exists col, t7_get (tableau s) i = Some col /\ cards col = [])
         \/ (exists col top, t7_get (tableau s) i = Some col
                             /\ Js.at_last (cards col) = Some top
                             /\ faceUp top = true)))
    /\ (success r = false -> result_state r = None /\ error r <> None)
    /\ (success r = true ->
        exists col front top,
          t7_get (tableau s) i = Some col
          /\ cards col = front ++ [top]
          /\ faceUp top = false
          /\ result_state r =
             Some (mkState (stock s) (waste s) (foundations s)
                     (t7_set (tableau s) i
                        (set_cards col
                           (front ++ [mkCard (id top) (suit top) (rank top) true])))
                     (score s) (moves s)
                     (match startTime s with
                      | None => Some now
                      | Some t => Some t
                      end)
                     (endTime s) (isWon s) (stockPasses s) (config s))
          /\ (forall j, j <> i ->
                t7_get (t7_set (tableau s) i
                          (set_cards col
                             (front ++ [mkCard (id top) (suit top) (rank top) true]))) j
                = t7_get (tableau s) j)).
Proof.
  unfold flipTableauCard. rewrite cloneState_id.
  destruct (Z.ltb_spec i 0) as [Hneg | Hnn]; simpl.
  { eexists. split; [reflexivity |]. simpl. repeat split; auto; discriminate. }
  destruct (Z.geb_spec i 7) as [Hbig | Hlt]; simpl.
  { eexists. split; [reflexivity |]. simpl.
    repeat split; auto; try discriminate; try (intros _; right; left; lia). }
  destruct (t7_get_in_range (tableau s) i) as [col Hcol]; [lia |].
  rewrite Hcol.
  destruct (snoc_cases (cards col)) as [Hnil | (front & top & Hcs)].
  { rewrite Hnil. simpl. eexists. split; [reflexivity |]. simpl.
    repeat split; auto; try discriminate;
      try (intros _; right; right; left; eauto). }
  rewrite Hcs.
  destruct (Z.eqb_spec (Js.len (front ++ [top])) 0) as [E | _].
  { rewrite len_app in E. pose proof (len_nonneg front).
    change (Js.len [top]) with 1 in E. lia. }
  rewrite at_last_snoc.
  destruct (faceUp top) eqn:Hup.
  { eexists. split; [reflexivity |]. simpl.
    repeat split; auto; try discriminate;
      try (intros _; right; right; right;
           exists col, top; rewrite Hcs, at_last_snoc; auto). }
  rewrite set_last_snoc, (flipCard_up_facedown top Hup).
  eexists. split; [reflexivity |]. simpl. split; [| split].
  - split; [discriminate |].
    intros [H | [H | [(c & Hc & Hn) | (c & t & Hc & Hl & Hu)]]]; try lia.
    + injection Hc as <-. rewrite Hcs in Hn.
      destruct front; discriminate.
    + injection Hc as <-.
      rewrite Hcs, at_last_snoc in Hl. injection Hl as <-. congruence.
  - discriminate.
  - intros _. exists col, front, top.
    repeat split; auto.
    + destruct_state s. destruct startTime0; reflexivity.
    + intros j Hj. apply t7_get_set_other. congruence.
Qed.


(** ** Rules: picking up and validating *)

Lemma index_skipn (cs : list Card) i c :
  Js.index cs i = Some c ->
  skipn (Z.to_nat i) cs = c :: skipn (Z.to_nat (i + 1)) cs.
Proof.
  intros H. pose proof (index_range _ _ _ H) as Hr.
  pose proof (index_split _ _ _ H) as Hs.
  replace (Z.to_nat (i + 1)) with (S (Z.to_nat i)) by lia.
  rewrite Hs at 1.
  rewrite skipn_app, skipn_firstn_comm, Nat.sub_diag. simpl.
  rewrite length_firstn.
  replace (Z.to_nat i - Nat.min (Z.to_nat i) (length cs))%nat with O
    by (unfold Js.len in Hr; lia).
  reflexivity.
Qed.

Lemma allFaceUpLoop_spec fuel : forall cs i,
  0 <= i -> Js.len cs - i < Z.of_nat fuel ->
  allFaceUpLoop fuel cs i = Ret (forallb faceUp (skipn (Z.to_nat i) cs)).
Proof.
  induction fuel as [| fuel IH]; intros cs i Hi Hf.
  - pose proof (len_nonneg cs). simpl in Hf.
    cbn [allFaceUpLoop]. rewrite skipn_all2 by (unfold Js.len in *; lia).
    reflexivity.
  - cbn [allFaceUpLoop].
    destruct (Z.ltb_spec i (Js.len cs)) as [Hlt | Hge].
    + destruct (index_in_range cs i) as [c Hc]; [lia |].
      rewrite Hc, (index_skipn _ _ _ Hc). cbn [forallb].
      destruct (faceUp c); simpl; [| reflexivity].
      apply IH; lia.
    + rewrite skipn_all2 by (unfold Js.len in *; lia). reflexivity.
Qed.

Lemma allFaceUpFrom_nonneg cs i :
  0 <= i -> allFaceUpFrom cs i = Ret (forallb faceUp (skipn (Z.to_nat i) cs)).
Proof.
  intros H. apply allFaceUpLoop_spec; [assumption |].
  unfold Js.len. lia.
Qed.

Lemma allFaceUpFrom_neg cs i : i < 0 -> allFaceUpFrom cs i = Throw TypeError.
Proof.
  intros H. unfold allFaceUpFrom. cbn [allFaceUpLoop].
  pose proof (len_nonneg cs).
  destruct (Z.ltb_spec i (Js.len cs)); [| lia].
  now rewrite index_neg.
Qed.

Lemma canPickUpCards_nonneg p i : 0 <= i -> exists b, canPickUpCards p i = Ret b.
Proof.
  intros H. unfold canPickUpCards. destruct (type p); eauto.
  rewrite allFaceUpFrom_nonneg by assumption. eauto.
Qed.

Lemma canPickUpCards_throws p i e :
  canPickUpCards p i = Throw e -> type p = tableau_t /\ i < 0.
Proof.
  unfold canPickUpCards. destruct (type p); try discriminate.
  destruct (Z.lt_ge_cases i 0); [auto |].
  rewrite allFaceUpFrom_nonneg by lia. discriminate.
Qed.

(** [isValidMove] answers whenever the card index is not negative, and it
    raises exactly when the source pile is a tableau pile addressed with a
    negative card index (both piles existing). *)
Lemma isValidMove_returns s from to n :
  0 <= cardIndex from -> exists b, isValidMove s from to n = Ret b.
Proof.
  intros H. unfold isValidMove.
  destruct (getPile s from) as [sp |]; [| eauto].
  destruct (getPile s to) as [dp |]; [| eauto].
  destruct (canPickUpCards_nonneg sp (cardIndex from) H) as [b ->]. simpl.
  destruct b; simpl; [| eauto].
  destruct (n >? _); [eauto |].
  destruct (Js.index _ _); [| eauto].
  destruct (type dp); eauto. destruct (n =? 1); simpl; eauto.
Qed.

Lemma isValidMove_throws_iff s from to n :
  isValidMove s from to n = Throw TypeError <->
  exists sp dp, getPile s from = Some sp /\ getPile s to = Some dp
                /\ type sp = tableau_t /\ cardIndex from < 0.
Proof.
  unfold isValidMove. split.
  - destruct (getPile s from) as [sp |]; [| discriminate].
    destruct (getPile s to) as [dp |]; [| discriminate].
    destruct (canPickUpCards sp (cardIndex from)) as [b | e] eqn:E; simpl.
    + destruct b; simpl; [| discriminate].
      destruct (n >? _); [discriminate |].
      destruct (Js.index _ _); [| discriminate].
      destruct (type dp); try discriminate. destruct (n =? 1); discriminate.
    + intros _. apply canPickUpCards_throws in E. exists sp, dp. tauto.
  - intros (sp & dp & -> & -> & Ht & Hneg).
    unfold canPickUpCards. rewrite Ht, allFaceUpFrom_neg by assumption.
    reflexivity.
Qed.

(** What a [true] answer of [isValidMove] implies. *)
Lemma isValidMove_true_inv s from to n :
  isValidMove s from to n = Ret true ->
  exists sp dp movingCard,
    getPile s from = Some sp /\ getPile s to = Some dp
    /\ canPickUpCards sp (cardIndex from) = Ret true
    /\ n <= Js.len (cards sp) - cardIndex from
    /\ Js.index (cards sp) (cardIndex from) = Some movingCard
    /\ ((type dp = foundation_t /\ n = 1
         /\ canPlaceOnFoundation movingCard dp = true)
        \/ (type dp = tableau_t /\ canPlaceOnTableau movingCard dp = true)).
Proof.
  unfold isValidMove.
  destruct (getPile s from) as [sp |]; [| discriminate].
  destruct (getPile s to) as [dp |]; [| discriminate].
  destruct (canPickUpCards sp (cardIndex from)) as [b | e] eqn:E; simpl;
    [| discriminate].
  destruct b; simpl; [| discriminate].
  destruct (Z.gtb_spec n (Js.len (cards sp) - cardIndex from)); [discriminate |].
  destruct (Js.index (cards sp) (cardIndex from)) as [mc |] eqn:Hmc;
    [| discriminate].
  destruct (type dp) eqn:Ht; try discriminate.
  - destruct (Z.eqb_spec n 1); simpl; [| discriminate].
    intros [= Hp]. exists sp, dp, mc. repeat split; auto; lia.
  - intros [= Hp]. exists sp, dp, mc. repeat split; auto; lia.
Qed.

Lemma Colour_eqb_eq a b : Colour_eqb a b = true <-> a = b.
Proof. destruct a, b; simpl; split; (reflexivity || discriminate). Qed.

Lemma Suit_eqb_eq a b : Suit_eqb a b = true <-> a = b.
Proof. destruct a, b; simpl; split; (reflexivity || discriminate). Qed.

Lemma PileType_eqb_eq a b : PileType_eqb a b = true <-> a = b.
Proof. destruct a, b; simpl; split; (reflexivity || discriminate). Qed.

(** An evaluation of [isValidMove] that is not [true] and does not raise
    is [false]. *)
Lemma isValidMove_false s from to n :
  isValidMove s from to n <> Ret true ->
  (forall sp, getPile s from = Some sp -> type sp = tableau_t ->
              0 <= cardIndex from) ->
  isValidMove s from to n = Ret false.
Proof.
  intros Hv Hidx.
  destruct (isValidMove s from to n) as [[|] | []] eqn:E;
    [contradiction | reflexivity |].
  apply isValidMove_throws_iff in E.
  destruct E as (sp & dp & Hsp & _ & Ht & Hneg).
  specialize (Hidx sp Hsp Ht). lia.
Qed.

Lemma getCardAt_index s from c sp :
  getCardAt s from = Some c -> getPile s from = Some sp ->
  0 <= cardIndex from.
Proof.
  intros Hc Hsp. unfold getCardAt in Hc. rewrite Hsp in Hc.
  apply index_range in Hc. lia.
Qed.

(** C5 (the code departs from the specification): on the table dealt from
    seed 42, a move from card index -1 of tableau column 0 to the stock, to
    the waste or -- with two cards -- to a foundation is not answered with
    [false]: [isValidMove] raises a TypeError, because [canPickUpCards]
    reads [pile.cards[-1].faceUp] before the destination is looked at.
    This is the only way the five rejections of the claim fail.
    [isValidMove] raises exactly when both piles exist, the source pile is
    a tableau column and the card index is negative; wherever it does not,
    it answers [false] for
    (1) any move whose destination pile is stock or waste (by the pile's own
        type tag, and hence by location on a table whose stock and waste
        carry their tags);
    (2) any move to a foundation with [cardCount > 1];
    and wherever the moved card exists it answers [false] for
    (3) a non-Ace card placed on an empty foundation;
    (4) a non-King card placed on an empty tableau column;
    (5) a card placed on a tableau column whose top card has the same colour
        or is not exactly one rank higher. *)
Theorem C5_isValidMove_raises_for_negative_index :
  (exists s0,
     createInitialState defaultPartial 42 = Ret (Proper s0)
     /\ isValidMove s0 (mkLoc tableau_t 0 (-1)) (mkLoc stock_t 0 0) 1
        = Throw TypeError
     /\ isValidMove s0 (mkLoc tableau_t 0 (-1)) (mkLoc waste_t 0 0) 1
        = Throw TypeError
     /\ isValidMove s0 (mkLoc tableau_t 0 (-1)) (mkLoc foundation_t 0 0) 2
        = Throw TypeError)
  /\ (forall s from to n,
        isValidMove s from to n = Throw TypeError <->
        exists sp dp, getPile s from = Some sp /\ getPile s to = Some dp
                      /\ type sp = tableau_t /\ cardIndex from < 0)
  /\ (forall s from to n,
        (forall sp, getPile s from = Some sp -> type sp = tableau_t ->
                    0 <= cardIndex from) ->
        (forall dp, getPile s to = Some dp ->
                    type dp = stock_t \/ type dp = waste_t ->
                    isValidMove s from to n = Ret false)
        /\ (type (stock s) = stock_t -> pileType to = stock_t ->
            isValidMove s from to n = Ret false)
        /\ (type (waste s) = waste_t -> pileType to = waste_t ->
            isValidMove s from to n = Ret false)
        /\ (forall dp, getPile s to = Some dp -> type dp = foundation_t ->
                       1 < n -> isValidMove s from to n = Ret false))
  /\ (forall s from to n,
        (forall dp c, getPile s to = Some dp -> type dp = foundation_t ->
                      cards dp = [] ->
                      getCardAt s from = Some c -> rank c <> 1 ->
                      isValidMove s from to n = Ret false)
        /\ (forall dp c, getPile s to = Some dp -> type dp = tableau_t ->
                         cards dp = [] ->
                         getCardAt s from = Some c -> rank c <> 13 ->
                         isValidMove s from to n = Ret false)
        /\ (forall dp c top, getPile s to = Some dp -> type dp = tableau_t ->
                             Js.at_last (cards dp) = Some top ->
                             getCardAt s from = Some c ->
                             getCardColour c = getCardColour top
                             \/ rank top <> rank c + 1 ->
                             isValidMove s from to n = Ret false)).
Proof.
  split; [eexists; conj_vm |].
  split; [exact isValidMove_throws_iff |].
  split.
  - intros s from to n Hidx.
    assert (Hdest : forall dp, getPile s to = Some dp ->
                      type dp = stock_t \/ type dp = waste_t ->
                      isValidMove s from to n = Ret false).
    { intros dp Hdp Ht. apply isValidMove_false; [| exact Hidx]. intros Hv.
      apply isValidMove_true_inv in Hv.
      destruct Hv as (sp & dp' & mc & _ & Hdp' & _ & _ & _ & Hplace).
      rewrite Hdp in Hdp'. injection Hdp' as <-.
      destruct Ht as [Ht | Ht], Hplace as [(Ht' & _) | (Ht' & _)]; congruence. }
    split; [exact Hdest |]. split; [| split].
    + intros Ht Hl. apply (Hdest (stock s)); [| auto].
      unfold getPile. now rewrite Hl.
    + intros Ht Hl. apply (Hdest (waste s)); [| auto].
      unfold getPile. now rewrite Hl.
    + intros dp Hdp Ht Hn. apply isValidMove_false; [| exact Hidx]. intros Hv.
      apply isValidMove_true_inv in Hv.
      destruct Hv as (sp & dp' & mc & _ & Hdp' & _ & _ & _ & Hplace).
      rewrite Hdp in Hdp'. injection Hdp' as <-.
      destruct Hplace as [(_ & H1 & _) | (Ht' & _)]; [lia | congruence].
  - intros s from to n.
    assert (Hcard : forall c, getCardAt s from = Some c ->
                      isValidMove s from to n = Ret true ->
                      exists dp, getPile s to = Some dp
                        /\ ((type dp = foundation_t /\ n = 1
                             /\ canPlaceOnFoundation c dp = true)
                            \/ (type dp = tableau_t
                                /\ canPlaceOnTableau c dp = true))).
    { intros c Hc Hv. apply isValidMove_true_inv in Hv.
      destruct Hv as (sp & dp & mc & Hsp & Hdp & _ & _ & Hmc & Hplace).
      unfold getCardAt in Hc. rewrite Hsp, Hmc in Hc. injection Hc as ->.
      eauto. }
    split; [| split].
    + intros dp c Hdp Ht Hnil Hc Hr.
      apply isValidMove_false;
        [| intros sp Hsp _; exact (getCardAt_index s from c sp Hc Hsp)].
      intros Hv. destruct (Hcard c Hc Hv) as (dp' & Hdp' & Hplace).
      rewrite Hdp in Hdp'. injection Hdp' as <-.
      destruct Hplace as [(_ & _ & Hp) | (Ht' & _)]; [| congruence].
      unfold canPlaceOnFoundation in Hp. rewrite Hnil, at_last_nil in Hp.
      apply Z.eqb_eq in Hp. contradiction.
    + intros dp c Hdp Ht Hnil Hc Hr.
      apply isValidMove_false;
        [| intros sp Hsp _; exact (getCardAt_index s from c sp Hc Hsp)].
      intros Hv. destruct (Hcard c Hc Hv) as (dp' & Hdp' & Hplace).
      rewrite Hdp in Hdp'. injection Hdp' as <-.
      destruct Hplace as [(Ht' & _) | (_ & Hp)]; [congruence |].
      unfold canPlaceOnTableau in Hp. rewrite Hnil, at_last_nil in Hp.
      apply Z.eqb_eq in Hp. contradiction.
    + intros dp c top Hdp Ht Htop Hc Hbad.
      apply isValidMove_false;
        [| intros sp Hsp _; exact (getCardAt_index s from c sp Hc Hsp)].
      intros Hv. destruct (Hcard c Hc Hv) as (dp' & Hdp' & Hplace).
      rewrite Hdp in Hdp'. injection Hdp' as <-.
      destruct Hplace as [(Ht' & _) | (_ & Hp)]; [congruence |].
      unfold canPlaceOnTableau in Hp. rewrite Htop in Hp.
      destruct (faceUp top); simpl in Hp; [| discriminate].
      apply andb_true_iff in Hp. destruct Hp as [Hcol Hrk].
      apply Z.eqb_eq in Hrk. apply negb_true_iff in Hcol.
      destruct Hbad as [Hsame | Hrank]; [| lia].
      apply Colour_eqb_eq in Hsame. congruence.
Qed.

(** ** The table as a store of piles *)

Lemma getAllCards_allPiles s : getAllCards s = flat_map cards (allPiles s).
Proof.
  unfold getAllCards, allPiles. cbn [flat_map]. now rewrite flat_map_app.
Qed.

Ltac split_piles_at s k :=
  exists (firstn k (allPiles s)), (skipn (S k) (allPiles s));
  split; [reflexivity | intros; reflexivity].

(** Writing a pile at an existing location replaces that one pile and leaves
    the twelve others where they are. *)
Lemma setPile_allPiles s loc p :
  getPile s loc = Some p ->
  exists P1 P2,
    allPiles s = P1 ++ p :: P2
    /\ forall p', allPiles (setPile s loc p') = P1 ++ p' :: P2.
Proof.
  unfold getPile, setPile.
  destruct s as [st wa [f0 f1 f2 f3] [c0 c1 c2 c3 c4 c5 c6] sc mv t0 t1 w sp cf].
  set (s := mkState st wa (T4 f0 f1 f2 f3) (T7 c0 c1 c2 c3 c4 c5 c6)
                    sc mv t0 t1 w sp cf).
  destruct (pileType loc); cbn [stock waste foundations tableau].
  - intros [= <-]. split_piles_at s 0%nat.
  - intros [= <-]. split_piles_at s 1%nat.
  - unfold t4_get, t4_set. cbn [t4_0 t4_1 t4_2 t4_3].
    eqb_cases; intros [= <-];
      [ split_piles_at s 2%nat | split_piles_at s 3%nat
      | split_piles_at s 4%nat | split_piles_at s 5%nat ].
  - unfold t7_get, t7_set. cbn [t7_0 t7_1 t7_2 t7_3 t7_4 t7_5 t7_6].
    eqb_cases; intros [= <-];
      [ split_piles_at s 6%nat | split_piles_at s 7%nat
      | split_piles_at s 8%nat | split_piles_at s 9%nat
      | split_piles_at s 10%nat | split_piles_at s 11%nat
      | split_piles_at s 12%nat ].
Qed.

(** The same, read on the cards: replacing the cards of the pile at a
    location by a rearrangement of them rearranges the cards of the table. *)
Lemma setPile_cards s loc p :
  getPile s loc = Some p ->
  exists X Y,
    getAllCards s = X ++ cards p ++ Y
    /\ forall p', getAllCards (setPile s loc p') = X ++ cards p' ++ Y.
Proof.
  intros H. destruct (setPile_allPiles s loc p H) as (P1 & P2 & E & E').
  exists (flat_map cards P1), (flat_map cards P2). split.
  - rewrite getAllCards_allPiles, E, flat_map_app. reflexivity.
  - intros p'. rewrite getAllCards_allPiles, E', flat_map_app. reflexivity.
Qed.

Lemma getPile_setPile_defined s loc p' loc2 q :
  getPile s loc2 = Some q ->
  exists q', getPile (setPile s loc p') loc2 = Some q'.
Proof.
  unfold getPile, setPile.
  destruct (pileType loc2), (pileType loc); simpl; eauto.
  - intros H. apply t4_get_range in H. apply t4_get_in_range. assumption.
  - intros H. apply t7_get_range in H. apply t7_get_in_range. assumption.
Qed.

Lemma setPile_frame s loc p :
  score (setPile s loc p) = score s
  /\ moves (setPile s loc p) = moves s
  /\ startTime (setPile s loc p) = startTime s
  /\ endTime (setPile s loc p) = endTime s
  /\ isWon (setPile s loc p) = isWon s
  /\ stockPasses (setPile s loc p) = stockPasses s
  /\ config (setPile s loc p) = config s.
Proof. unfold setPile. destruct (pileType loc); repeat split; reflexivity. Qed.

(** [splice] hands back every element exactly once. *)
Lemma splice_perm {A : Type} (l : list A) start count :
  Permutation l (fst (Js.splice l start count) ++ snd (Js.splice l start count)).
Proof.
  unfold Js.splice. cbn [fst snd].
  set (s := Js.clamp_index (Js.len l) start).
  set (d := Z.min (Z.max count 0) (Js.len l - s)).
  pose proof (len_nonneg l) as Hl.
  assert (Hs : 0 <= s <= Js.len l).
  { subst s. unfold Js.clamp_index. destruct (start <? 0) eqn:E; lia. }
  assert (Hd : 0 <= d) by (subst d; lia).
  replace (Z.to_nat (s + d)) with (Z.to_nat d + Z.to_nat s)%nat by lia.
  rewrite <- skipn_skipn.
  rewrite Permutation_app_swap_app, firstn_skipn, firstn_skipn.
  reflexivity.
Qed.

(** For a valid move the spliced cards are the [n] cards from the card
    index on, in their order (all of them when [n] is not positive: none). *)
Lemma splice_in_range {A : Type} (l : list A) start count :
  0 <= start <= Js.len l ->
  Js.splice l start count =
  (firstn (Z.to_nat count) (skipn (Z.to_nat start) l),
   firstn (Z.to_nat start) l
   ++ skipn (Z.to_nat count) (skipn (Z.to_nat start) l)).
Proof.
  intros H. unfold Js.splice, Js.clamp_index.
  destruct (Z.ltb_spec start 0); [lia |].
  replace (Z.min start (Js.len l)) with start by lia.
  set (d := Z.min (Z.max count 0) (Js.len l - start)).
  assert (Hlen : length (skipn (Z.to_nat start) l)
                 = Z.to_nat (Js.len l - start))
    by (rewrite length_skipn; unfold Js.len; lia).
  assert (E1 : firstn (Z.to_nat d) (skipn (Z.to_nat start) l)
               = firstn (Z.to_nat count) (skipn (Z.to_nat start) l)).
  { subst d. destruct (Z.le_gt_cases count (Js.len l - start)).
    - f_equal. lia.
    - rewrite !firstn_all2 by lia. reflexivity. }
  assert (E2 : skipn (Z.to_nat (start + d)) l
               = skipn (Z.to_nat count) (skipn (Z.to_nat start) l)).
  { rewrite skipn_skipn. subst d.
    destruct (Z.le_gt_cases count (Js.len l - start)).
    - f_equal. lia.
    - rewrite !skipn_all2 by (unfold Js.len in *; lia). reflexivity. }
  now rewrite E1, E2.
Qed.

(** ** executeMove *)

Lemma cardIds_setPile_perm s loc p p' :
  getPile s loc = Some p ->
  Permutation (map id (cards p')) (map id (cards p)) ->
  Permutation (cardIds (setPile s loc p')) (cardIds s).
Proof.
  intros H Hp. destruct (setPile_cards s loc p H) as (X & Y & E & E').
  unfold cardIds. rewrite E, E', !map_app.
  apply Permutation_app_head, Permutation_app_tail. exact Hp.
Qed.

Lemma autoFlip_cardIds s from sp :
  getPile s from = Some sp ->
  cardIds (fst (autoFlip s from sp)) = cardIds s
  /\ config (fst (autoFlip s from sp)) = config s
  /\ score (fst (autoFlip s from sp)) = score s
  /\ moves (fst (autoFlip s from sp)) = moves s
  /\ stockPasses (fst (autoFlip s from sp)) = stockPasses s.
Proof.
  intros H. unfold autoFlip.
  destruct (PileType_eqb (type sp) tableau_t && (Js.len (cards sp) >? 0)
            && autoFlipTableau (config s)); [| repeat split; reflexivity].
  destruct (Js.at_last (cards sp)) as [top |] eqn:Htop;
    [| repeat split; reflexivity].
  destruct (faceUp top); simpl; [repeat split; reflexivity |].
  split; [| match goal with
            | |- context [setPile s from ?p] =>
                destruct (setPile_frame s from p) as (? & ? & _ & _ & _ & ? & ?)
            end; repeat split; assumption].
  destruct (setPile_cards s from sp H) as (X & Y & E & E').
  unfold cardIds. rewrite E, E', !map_app. do 2 f_equal.
  apply at_last_Some in Htop. destruct Htop as (front & ->).
  unfold set_cards. cbn [cards].
  rewrite set_last_snoc, !map_app. cbn [map]. now rewrite flipCard_id.
Qed.

Lemma executeMove_invalid now s from to n :
  isValidMove s from to n = Ret false ->
  executeMove now s from to n = Ret (failure "Invalid move").
Proof. intros H. unfold executeMove. now rewrite H. Qed.

Lemma executeMove_raises now s from to n e :
  isValidMove s from to n = Throw e ->
  executeMove now s from to n = Throw e.
Proof. intros H. unfold executeMove. now rewrite H. Qed.

(** A valid move is committed: [executeMove] returns a success whose state
    holds the same card identities, with one more move counted and the
    move's score change added. *)
Lemma executeMove_valid now s from to n :
  isValidMove s from to n = Ret true ->
  exists s' m,
    executeMove now s from to n = Ret (mkResult true (Some s') None (Some m))
    /\ Permutation (cardIds s') (cardIds s)
    /\ config s' = config s
    /\ stockPasses s' = stockPasses s
    /\ moves s' = moves s + 1
    /\ score s' = score s + scoreChange m
    /\ move_from m = from /\ move_to m = to /\ cardCount m = n.
Proof.
  intros Hv. unfold executeMove. rewrite Hv. cbn [bind negb]. rewrite cloneState_id.
  apply isValidMove_true_inv in Hv.
  destruct Hv as (sp & dp & mc & Hsp & Hdp & _ & _ & _ & _).
  unfold getPile_nonnull at 1 2. rewrite Hsp, Hdp. cbn [bind].
  pose proof (splice_perm (cards sp) (cardIndex from) n) as Hperm.
  destruct (Js.splice (cards sp) (cardIndex from) n) as [moved rest].
  cbn [fst snd] in Hperm.
  set (s1 := setPile s from (set_cards sp rest)).
  destruct (getPile_setPile_defined s from (set_cards sp rest) to dp Hdp)
    as [dp1 Hdp1].
  fold s1 in Hdp1. unfold getPile_nonnull at 1. rewrite Hdp1. cbn [bind].
  set (s2 := setPile s1 to (set_cards dp1 (Js.push (cards dp1) moved))).
  assert (Hsp1 : exists sp1, getPile s1 from = Some sp1)
    by (apply (getPile_setPile_defined s from _ from sp Hsp)).
  destruct Hsp1 as [sp1 Hsp1].
  destruct (getPile_setPile_defined s1 to (set_cards dp1 (Js.push (cards dp1) moved))
              from sp1 Hsp1) as [sp2 Hsp2].
  fold s2 in Hsp2. unfold getPile_nonnull. rewrite Hsp2. cbn [bind].
  (* the card identities of the intermediate stores *)
  assert (H2 : Permutation (cardIds s2) (cardIds s)).
  { destruct (setPile_cards s from sp Hsp) as (X & Y & E & E').
    destruct (setPile_cards s1 to dp1 Hdp1) as (X1 & Y1 & E1 & E1').
    unfold cardIds. subst s2. rewrite E1'. unfold set_cards at 1. cbn [cards].
    unfold Js.push.
    transitivity (map id (moved ++ getAllCards s1)).
    - apply Permutation_map. rewrite E1.
      rewrite (Permutation_app_swap_app moved X1).
      apply Permutation_app_head. rewrite <- app_assoc.
      apply Permutation_app_swap_app.
    - apply Permutation_map. subst s1. rewrite E', E.
      unfold set_cards. cbn [cards].
      rewrite (Permutation_app_swap_app moved X).
      apply Permutation_app_head. rewrite app_assoc.
      apply Permutation_app_tail. symmetry. exact Hperm. }
  destruct (autoFlip_cardIds s2 from sp2 Hsp2) as (F1 & F2 & F3 & F4 & F5).
  destruct (autoFlip s2 from sp2) as [s3 flipped]. cbn [fst] in *.
  assert (Hf2 : config s2 = config s /\ score s2 = score s
                /\ moves s2 = moves s /\ stockPasses s2 = stockPasses s).
  { subst s2 s1.
    destruct (setPile_frame (setPile s from (set_cards sp rest)) to
                (set_cards dp1 (Js.push (cards dp1) moved)))
      as (A1 & A2 & _ & _ & _ & A6 & A7).
    destruct (setPile_frame s from (set_cards sp rest))
      as (B1 & B2 & _ & _ & _ & B6 & B7).
    repeat split; congruence. }
  destruct Hf2 as (G1 & G2 & G3 & G4).
  eexists. eexists. split; [reflexivity |].
  assert (Hids : forall x, cardIds x = cardIds s3 -> Permutation (cardIds x) (cardIds s))
    by (intros x ->; rewrite F1; exact H2).
  destruct (checkWinCondition _); unfold startTimer; destruct (startTime s3);
    (split; [apply Hids; reflexivity |]); cbn; repeat split; congruence.
Qed.

(** [executeMove] fails exactly when [isValidMove] answers [false], and a
    failure carries no state. *)
Lemma executeMove_failure_iff now s from to n r :
  executeMove now s from to n = Ret r ->
  (success r = false <-> isValidMove s from to n = Ret false)
  /\ (success r = false -> r = failure "Invalid move").
Proof.
  intros H. destruct (isValidMove s from to n) as [[|] | e] eqn:E.
  - destruct (executeMove_valid now s from to n E) as (s' & m & Hr & _).
    rewrite Hr in H. injection H as <-. simpl.
    split; [split |]; discriminate.
  - rewrite (executeMove_invalid now s from to n E) in H. injection H as <-.
    simpl. split; [split |]; auto.
  - rewrite (executeMove_raises now s from to n e E) in H. discriminate.
Qed.

(** [executeMove] raises exactly when the source is a tableau pile
    addressed with a negative card index (both piles existing). *)
Lemma executeMove_raises_iff now s from to n :
  executeMove now s from to n = Throw TypeError <->
  exists sp dp, getPile s from = Some sp /\ getPile s to = Some dp
                /\ type sp = tableau_t /\ cardIndex from < 0.
Proof.
  rewrite <- (isValidMove_throws_iff s from to n). split.
  - intros H. destruct (isValidMove s from to n) as [[|] | []] eqn:E.
    + destruct (executeMove_valid now s from to n E) as (s' & m & Hr & _).
      rewrite Hr in H. discriminate.
    + rewrite (executeMove_invalid now s from to n E) in H. discriminate.
    + reflexivity.
  - apply executeMove_raises.
Qed.

(** C6 (the code departs from the specification): on the table dealt from seed 42,
    the move of one card from column 0 at card index -1 to column 1 is not
    valid, yet [isValidMove] does not answer [false] and [executeMove] does
    not return a failure result: both raise a TypeError. *)
Theorem C6_executeMove_negative_index_raises :
  exists s0,
    createInitialState defaultPartial 42 = Ret (Proper s0)
    /\ getCardAt s0 (mkLoc tableau_t 0 (-1)) = None
    /\ isValidMove s0 (mkLoc tableau_t 0 (-1)) (mkLoc tableau_t 1 2) 1
       = Throw TypeError
    /\ executeMove 1000 s0 (mkLoc tableau_t 0 (-1)) (mkLoc tableau_t 1 2) 1
       = Throw TypeError.
Proof. eexists. conj_vm. Qed.

(** A success of [executeMove] records the requested move. *)
Lemma executeMove_success_move now s from to n r :
  executeMove now s from to n = Ret r -> success r = true ->
  isValidMove s from to n = Ret true
  /\ exists m, result_move r = Some m
               /\ move_from m = from /\ move_to m = to /\ cardCount m = n.
Proof.
  intros Hr Hs. destruct (isValidMove s from to n) as [[|] | e] eqn:E.
  - destruct (executeMove_valid now s from to n E)
      as (s' & m & Hr' & _ & _ & _ & _ & _ & M1 & M2 & M3).
    rewrite Hr in Hr'. injection Hr' as ->. simpl. eauto 6.
  - rewrite (executeMove_invalid now s from to n E) in Hr.
    injection Hr as <-. discriminate.
  - rewrite (executeMove_raises now s from to n e E) in Hr. discriminate.
Qed.

(** The half of the agreement that holds: whenever the action form
    succeeds, the query form returns the destination of the committed
    move. *)
Lemma autoMove_success_canAutoMove now s from r :
  autoMoveToFoundation now s from = Ret r -> success r = true ->
  exists m, result_move r = Some m
            /\ canAutoMove s from = Ret (Some (move_to m)).
Proof.
  unfold autoMoveToFoundation, canAutoMove.
  destruct (getPile s from) as [sp |]; [| intros [= <-]; discriminate].
  destruct (Z.eqb_spec (cardIndex from) (Js.len (cards sp) - 1)) as [Etop | Ntop];
    cbn [negb].
  - destruct (Js.index (cards sp) (cardIndex from)) as [card |];
      [| intros [= <-]; discriminate].
    destruct (faceUp card); cbn [negb]; [| intros [= <-]; discriminate].
    destruct (firstValidFoundation s from (t4_list (foundations s)) 0)
      as [[to |] | e]; cbn [bind]; [| | discriminate].
    + intros Hr Hs.
      destruct (executeMove_success_move _ _ _ _ _ _ Hr Hs)
        as (_ & m & Hm & _ & <- & _). eauto.
    + destruct (rank card =? 13); [| intros [= <-]; discriminate].
      destruct (firstEmptyTableau (t7_list (tableau s)) 0) as [to |];
        [| intros [= <-]; discriminate].
      intros Hr Hs.
      destruct (executeMove_success_move _ _ _ _ _ _ Hr Hs)
        as (_ & m & Hm & _ & <- & _). eauto.
  - destruct (Js.index (cards sp) (cardIndex from)) as [card |];
      [| intros [= <-]; discriminate].
    destruct (faceUp card); cbn [negb andb]; [| intros [= <-]; discriminate].
    destruct (rank card =? 13); [| intros [= <-]; discriminate].
    destruct (allFaceUpFrom (cards sp) (cardIndex from)) as [[|] | e];
      cbn [bind negb]; [| intros [= <-]; discriminate | discriminate].
    destruct (firstEmptyTableau (t7_list (tableau s)) 0) as [to |];
      [| intros [= <-]; discriminate].
    intros Hr Hs.
    destruct (executeMove_success_move _ _ _ _ _ _ Hr Hs)
      as (_ & m & Hm & _ & <- & _). eauto.
Qed.

(** C3 (the code departs from the specification): play the deal of seed 42 (default
    configuration) by moving the eight of spades from column 0 onto the nine
    of diamonds of column 6 and drawing twelve times.  Column 0 is then
    empty and the king of hearts lies in the waste under the two of spades.
    For that king [canAutoMove] returns column 0 as destination, while
    [autoMoveToFoundation] returns the failure "Invalid move". *)
Theorem C3_canAutoMove_autoMove_disagree :
  exists s0 r1 s1 s from dest r,
    createInitialState defaultPartial 42 = Ret (Proper s0)
    /\ executeMove 1000 s0 (mkLoc tableau_t 0 0) (mkLoc tableau_t 6 7) 1 = Ret r1
    /\ result_state r1 = Some s1
    /\ s = drawTimes 12 2000 s1
    /\ reachable defaultPartial 42 s
    /\ from = mkLoc waste_t 0 10
    /\ getCardAt s from = Some (createCard hearts 13 true)
    /\ Js.len (cards (waste s)) = 12
    /\ canAutoMove s from = Ret (Some dest)
    /\ dest = mkLoc tableau_t 0 0
    /\ autoMoveToFoundation 3000 s from = Ret r
    /\ success r = false
    /\ r = failure "Invalid move".
Proof.
  do 7 eexists.
  split; [vm_compute; reflexivity |].
  split; [vm_compute; reflexivity |].
  split; [vm_compute; reflexivity |].
  split; [reflexivity |].
  split.
  { cbn [drawTimes]. do 12 apply reach_draw.
    eapply reach_move with (now := 1000) (from := mkLoc tableau_t 0 0)
                           (to := mkLoc tableau_t 6 7) (n := 1).
    - apply reach_init. vm_compute. reflexivity.
    - vm_compute. reflexivity.
    - vm_compute. reflexivity. }
  conj_vm.
Qed.

(** ** Numbers and array objects *)

Lemma Floor_eqb_eq a b : Floor_eqb a b = true <-> a = b.
Proof.
  destruct a, b; cbn; split; try congruence; try discriminate.
  - intros H. apply Z.eqb_eq in H. now subst.
  - intros [= ->]. apply Z.eqb_refl.
Qed.

Lemma asIndex_inj i j n :
  Arr.asIndex i = Some n -> Arr.asIndex j = Some n -> i = j.
Proof.
  unfold Arr.asIndex. destruct i as [x | | |], j as [y | | |]; try discriminate.
  destruct (Z.leb_spec 0 x), (Z.ltb_spec x (2 ^ 32 - 1)); try discriminate.
  destruct (Z.leb_spec 0 y), (Z.ltb_spec y (2 ^ 32 - 1)); try discriminate.
  cbn. intros [= <-] [= E]. f_equal. lia.
Qed.

Section ArrayObjects.
Context {T : Type}.
Implicit Types (l : list (option T)) (a : JsArray T) (v : option T).

Lemma defined_app l1 l2 : defined (l1 ++ l2) = defined l1 ++ defined l2.
Proof. apply flat_map_app. Qed.

Lemma defined_Some (xs : list T) : defined (map Some xs) = xs.
Proof.
  induction xs as [| x xs IH]; cbn; [reflexivity | f_equal; exact IH].
Qed.

Lemma defined_holes k : defined (repeat (@None T) k) = [].
Proof. induction k; cbn; auto. Qed.

Lemma defined_length l : (length (defined l) <= length l)%nat.
Proof.
  unfold defined. induction l as [| [x |] l IH]; cbn; lia.
Qed.

(** An array all of whose entries are defined is the list of its values. *)
Lemma defined_full l :
  length (defined l) = length l -> l = map Some (defined l).
Proof.
  induction l as [| [x |] l IH]; intros H.
  - reflexivity.
  - cbn [map]. change (defined (Some x :: l)) with (x :: defined l) in *.
    cbn [map]. f_equal. apply IH. cbn [Datatypes.length] in H. lia.
  - pose proof (defined_length l).
    change (defined (None :: l)) with (defined l) in H.
    cbn [Datatypes.length] in H. lia.
Qed.

Lemma set_nth_defined l n old v :
  nth_error l n = Some old ->
  Permutation (defined [old] ++ defined (Js.set_nth l n v))
              (defined [v] ++ defined l).
Proof.
  revert n. induction l as [| h l IH]; intros [| n] H; cbn in H;
    try discriminate.
  - injection H as ->. cbn [Js.set_nth].
    change (v :: l) with ([v] ++ l). change (old :: l) with ([old] ++ l).
    rewrite !defined_app. apply Permutation_app_swap_app.
  - cbn [Js.set_nth]. change (h :: Js.set_nth l n v) with ([h] ++ Js.set_nth l n v).
    change (h :: l) with ([h] ++ l). rewrite !defined_app.
    rewrite Permutation_app_swap_app, (IH n H).
    apply Permutation_app_swap_app.
Qed.

Lemma setElem_defined l n v :
  Permutation
    (defined [match nth_error l n with Some old => old | None => None end]
     ++ defined (Arr.setElem l n v))
    (defined [v] ++ defined l).
Proof.
  unfold Arr.setElem. destruct (Nat.ltb_spec n (length l)) as [Hn | Hn].
  - destruct (nth_error l n) as [old |] eqn:E.
    + now apply set_nth_defined.
    + apply nth_error_None in E. lia.
  - destruct (nth_error l n) as [old |] eqn:E.
    + assert (n < length l)%nat by (apply nth_error_Some; congruence). lia.
    + rewrite !defined_app, defined_holes. cbn [defined flat_map app].
      rewrite app_nil_r. apply Permutation_app_comm.
Qed.

Lemma setProp_defined j v (ps : list (Floor * option T)) :
  Permutation
    (defined [match find (fun p => Floor_eqb (fst p) j) ps with
              | Some p => snd p
              | None => None
              end]
     ++ defined (map snd (Arr.setProp j v ps)))
    (defined [v] ++ defined (map snd ps)).
Proof.
  induction ps as [| [k w] ps IH]; cbn [find Arr.setProp fst snd map].
  - cbn [map snd]. rewrite app_nil_r. reflexivity.
  - destruct (Floor_eqb k j) eqn:E; cbn [map snd].
    + change (v :: map snd ps) with ([v] ++ map snd ps).
      change (w :: map snd ps) with ([w] ++ map snd ps).
      rewrite !defined_app. apply Permutation_app_swap_app.
    + change (w :: map snd (Arr.setProp j v ps))
        with ([w] ++ map snd (Arr.setProp j v ps)).
      change (w :: map snd ps) with ([w] ++ map snd ps).
      rewrite !defined_app.
      rewrite Permutation_app_swap_app, IH. apply Permutation_app_swap_app.
Qed.

(** An assignment puts the new value in the place of the old one and keeps
    all others. *)
Lemma set_held a j v :
  Permutation (defined [Arr.get a j] ++ held (Arr.set a j v))
              (defined [v] ++ held a).
Proof.
  unfold Arr.get, Arr.entry, Arr.set, held. destruct (Arr.asIndex j) as [n |];
    cbn [elems props]; rewrite !app_assoc.
  - apply Permutation_app_tail. apply setElem_defined.
  - rewrite (Permutation_app_comm (defined [_]) (defined (elems a))).
    rewrite (Permutation_app_comm (defined [v]) (defined (elems a))).
    rewrite <- !app_assoc. apply Permutation_app_head. apply setProp_defined.
Qed.

Lemma nth_error_set_nth l n v k :
  (n < length l)%nat ->
  nth_error (Js.set_nth l n v) k
  = if (k =? n)%nat then Some v else nth_error l k.
Proof.
  revert n k. induction l as [| h l IH]; intros n k Hn; cbn in Hn; [lia |].
  destruct n as [| n], k as [| k]; cbn; try reflexivity.
  apply IH. lia.
Qed.

Lemma setElem_read l n v k :
  match nth_error (Arr.setElem l n v) k with Some w => w | None => None end
  = if (k =? n)%nat then v
    else match nth_error l k with Some w => w | None => None end.
Proof.
  unfold Arr.setElem. destruct (Nat.ltb_spec n (length l)) as [Hn | Hn].
  - rewrite nth_error_set_nth by exact Hn. now destruct (k =? n)%nat.
  - destruct (Nat.eqb_spec k n) as [-> | Hk].
    + rewrite nth_error_app2 by exact Hn.
      rewrite nth_error_app2 by (rewrite repeat_length; lia).
      rewrite repeat_length, Nat.sub_diag. reflexivity.
    + destruct (Nat.lt_ge_cases k (length l)) as [Hl | Hl].
      * now rewrite nth_error_app1 by exact Hl.
      * rewrite nth_error_app2 by exact Hl.
        replace (nth_error l k) with (@None (option T))
          by (symmetry; now apply nth_error_None).
        destruct (Nat.lt_ge_cases (k - length l) (n - length l)) as [Hr | Hr].
        -- rewrite nth_error_app1 by (rewrite repeat_length; exact Hr).
           rewrite nth_error_repeat by exact Hr. reflexivity.
        -- rewrite nth_error_app2 by (rewrite repeat_length; exact Hr).
           rewrite repeat_length.
           destruct (k - length l - (n - length l))%nat as [| d] eqn:Ed; [lia |].
           cbn. now destruct d.
Qed.

Lemma setProp_read j v (ps : list (Floor * option T)) k :
  match find (fun p => Floor_eqb (fst p) k) (Arr.setProp j v ps) with
  | Some p => snd p
  | None => None
  end
  = if Floor_eqb j k then v
    else match find (fun p => Floor_eqb (fst p) k) ps with
         | Some p => snd p
         | None => None
         end.
Proof.
  induction ps as [| [i w] ps IH]; cbn [Arr.setProp find fst snd].
  - now destruct (Floor_eqb j k).
  - destruct (Floor_eqb i j) eqn:Eij; cbn [find fst snd].
    + apply Floor_eqb_eq in Eij. subst i. now destruct (Floor_eqb j k).
    + destruct (Floor_eqb i k) eqn:Eik.
      * apply Floor_eqb_eq in Eik. subst i.
        destruct (Floor_eqb j k) eqn:Ejk; [| reflexivity].
        apply Floor_eqb_eq in Ejk. subst j.
        assert (Floor_eqb k k = true) by now apply Floor_eqb_eq. congruence.
      * exact IH.
Qed.

(** Reading after an assignment: the value assigned under the same name,
    the old value under another. *)
Lemma get_set a i v j :
  Arr.get (Arr.set a i v) j = if Floor_eqb i j then v else Arr.get a j.
Proof.
  unfold Arr.get, Arr.entry, Arr.set.
  destruct (Arr.asIndex i) as [n |] eqn:Ei, (Arr.asIndex j) as [k |] eqn:Ej;
    cbn [elems props].
  - rewrite setElem_read. destruct (Nat.eqb_spec k n) as [-> | Hk].
    + rewrite (asIndex_inj _ _ _ Ei Ej).
      now replace (Floor_eqb j j) with true by (symmetry; now apply Floor_eqb_eq).
    + destruct (Floor_eqb i j) eqn:E; [| reflexivity].
      apply Floor_eqb_eq in E. subst. congruence.
  - destruct (Floor_eqb i j) eqn:E; [| reflexivity].
    apply Floor_eqb_eq in E. subst. congruence.
  - destruct (Floor_eqb i j) eqn:E; [| reflexivity].
    apply Floor_eqb_eq in E. subst. congruence.
  - apply setProp_read.
Qed.

Lemma set_length a j v :
  (length (elems a) <= length (elems (Arr.set a j v)))%nat.
Proof.
  unfold Arr.set. destruct (Arr.asIndex j) as [n |]; cbn [elems]; [| lia].
  unfold Arr.setElem. destruct (Nat.ltb_spec n (length (elems a))).
  - clear. revert n. induction (elems a) as [| h l IH]; intros [| n]; cbn; try lia.
    specialize (IH n). lia.
  - rewrite length_app. lia.
Qed.

(** The swap of the shuffle keeps the values the array object holds,
    whatever the two names are. *)
Lemma swap_held a i j : Permutation (held (swap a i j)) (held a).
Proof.
  unfold swap. set (I := F_int (Z.of_nat i)).
  pose proof (set_held a I (Arr.get a j)) as H1.
  pose proof (set_held (Arr.set a I (Arr.get a j)) j (Arr.get a I)) as H2.
  rewrite get_set in H2.
  assert (E : (if Floor_eqb I j then Arr.get a j else Arr.get a j) = Arr.get a j)
    by now destruct (Floor_eqb I j).
  rewrite E in H2.
  exact (Permutation_app_inv_l _ _ _ (Permutation_trans H2 H1)).
Qed.

Lemma swap_length a i j :
  (length (elems a) <= length (elems (swap a i j)))%nat.
Proof.
  unfold swap. etransitivity; [| apply set_length]. apply set_length.
Qed.

Lemma seededLoop_held i : forall current a,
  Permutation (held (seededLoop i current a)) (held a)
  /\ (length (elems a) <= length (elems (seededLoop i current a)))%nat.
Proof.
  induction i as [| i IH]; intros current a; cbn [seededLoop]; [split; auto |].
  destruct (IH (lcg_next current)
              (swap a (S i)
                 (Num.floor (Num.mul (Num.divPow2 (lcg_next current) 31)
                                     (Z.of_nat (S i) + 1))))) as [P L].
  split.
  - rewrite P. apply swap_held.
  - etransitivity; [apply swap_length | exact L].
Qed.

Lemma randomLoop_held random i : forall k a,
  Permutation (held (randomLoop i random k a)) (held a)
  /\ (length (elems a) <= length (elems (randomLoop i random k a)))%nat.
Proof.
  induction i as [| i IH]; intros k a; cbn [randomLoop]; [split; auto |].
  destruct (IH (S k)
              (swap a (S i)
                 (Num.floor (Num.mul (random k) (Z.of_nat (S i) + 1)))))
    as [P L].
  split.
  - rewrite P. apply swap_held.
  - etransitivity; [apply swap_length | exact L].
Qed.

(** An array object that holds the values of [array], is no shorter and
    has no undefined entry is a rearrangement of [array]. *)
Lemma held_full (array : list T) a xs :
  Permutation (held a) array ->
  (length array <= length (elems a))%nat ->
  elems a = map Some xs ->
  Permutation xs array /\ defined (map snd (props a)) = [].
Proof.
  intros P L E. unfold held in P. rewrite E, defined_Some in P.
  rewrite E, length_map in L.
  pose proof (Permutation_length P) as Hl. rewrite length_app in Hl.
  assert (Hn : defined (map snd (props a)) = [])
    by (apply length_zero_iff_nil; lia).
  split; [| exact Hn]. now rewrite Hn, app_nil_r in P.
Qed.

End ArrayObjects.

Lemma ofList_held {T : Type} (array : list T) : held (Arr.ofList array) = array.
Proof.
  unfold held, Arr.ofList. cbn [elems props map].
  rewrite defined_Some. apply app_nil_r.
Qed.

(** Whatever the seed is, a seeded shuffle that leaves no entry undefined
    returns a rearrangement of the array. *)
Lemma shuffleWithSeed_full {T : Type} (array : list T) seed xs :
  elems (shuffleWithSeed array seed) = map Some xs -> Permutation xs array.
Proof.
  intros E. unfold shuffleWithSeed in E.
  destruct (seededLoop_held (length array - 1) (Num.round seed)
              (Arr.ofList array)) as [P L].
  rewrite ofList_held in P. cbn [Arr.ofList elems] in L. rewrite length_map in L.
  now destruct (held_full array _ xs P L E).
Qed.

Lemma shuffle_full {T : Type} random (array : list T) xs :
  elems (shuffle random array) = map Some xs -> Permutation xs array.
Proof.
  intros E. unfold shuffle in E.
  destruct (randomLoop_held random (length array - 1) 0%nat
              (Arr.ofList array)) as [P L].
  rewrite ofList_held in P. cbn [Arr.ofList elems] in L. rewrite length_map in L.
  now destruct (held_full array _ xs P L E).
Qed.

(** ** The generator of the seeded shuffle *)

Lemma log2_bounds q : 0 < q -> 2 ^ Z.log2 q <= q < 2 ^ (Z.log2 q + 1).
Proof. intros H. apply Z.log2_spec. exact H. Qed.

Lemma pow2_pos k : 0 <= k -> 0 < 2 ^ k.
Proof. intros. apply Z.pow_pos_nonneg; lia. Qed.

Lemma pow2_lt_inv a b : 0 <= b -> 2 ^ a < 2 ^ b -> a < b.
Proof. intros Hb H. apply (Z.pow_lt_mono_r_iff 2); try lia. Qed.

Lemma pow2_le a b : 0 <= a <= b -> 2 ^ a <= 2 ^ b.
Proof. intros. apply Z.pow_le_mono_r; lia. Qed.

(** Rounding a quotient moves it by less than one. *)
Lemma nearest_bounds n d :
  0 <= n -> 0 < d ->
  n / 2 ^ d <= Num.nearest n d <= n / 2 ^ d + 1.
Proof.
  intros Hn Hd. unfold Num.nearest.
  repeat match goal with |- context [if ?b then _ else _] => destruct b end;
    lia.
Qed.

Lemma round_exact q e :
  0 <= q -> Z.log2 q <= 52 -> -1074 <= e ->
  (0 < q -> Z.log2 q + e < 1024) ->
  Num.round (Fin q e) = Fin q e.
Proof.
  intros Hq Hl He Ho. unfold Num.round. rewrite Z.abs_eq by exact Hq.
  destruct (Z.ltb_spec 0 (Z.max (Z.log2 q - 52) (-1074 - e))); [lia |].
  replace ((0 <? q) && (1024 <=? Z.log2 q + e)) with false.
  2:{ destruct (Z.ltb_spec 0 q); [| reflexivity].
      destruct (Z.leb_spec 1024 (Z.log2 q + e)); [lia | reflexivity]. }
  f_equal. destruct q; cbn; lia.
Qed.

(** A natural number below [2^b], with [b <= 1023], rounds to a natural
    number of at most [2^b]: no overflow, no fraction. *)
Lemma round_natural q e b :
  0 <= q -> 0 <= e -> q * 2 ^ e < 2 ^ b -> b <= 1023 ->
  exists n, natural (Num.round (Fin q e)) n /\ n <= 2 ^ b.
Proof.
  intros Hq He Hv Hb.
  assert (H2e : 0 < 2 ^ e) by now apply pow2_pos.
  destruct (Z.eq_dec q 0) as [-> | Hq0].
  { exists 0. split.
    - exists 0, e. rewrite round_exact by (cbn; lia). repeat split; lia.
    - apply Z.pow_nonneg. lia. }
  assert (Hpos : 0 < q) by lia.
  destruct (log2_bounds q Hpos) as [Hlo Hhi].
  pose proof (Z.log2_nonneg q) as HL. set (L := Z.log2 q) in *.
  assert (Hbpos : 0 <= b).
  { destruct (Z.lt_ge_cases b 0) as [Hneg |]; [| lia].
    rewrite (Z.pow_neg_r 2 b Hneg) in Hv. nia. }
  assert (HLe : L + e < b).
  { apply pow2_lt_inv; [exact Hbpos |].
    rewrite Z.pow_add_r by lia. nia. }
  destruct (Z.le_gt_cases L 52) as [Hsmall | Hbig].
  { exists (q * 2 ^ e). split; [| lia].
    exists q, e. rewrite round_exact by (fold L; lia). repeat split; lia. }
  unfold Num.round. rewrite Z.abs_eq by exact Hq. fold L.
  rewrite Z.max_l by lia.
  destruct (Z.ltb_spec 0 (L - 52)); [| lia].
  set (d := L - 52) in *.
  assert (H2d : 0 < 2 ^ d) by (apply pow2_pos; lia).
  pose proof (nearest_bounds q d Hq ltac:(lia)) as [Hn1 Hn2].
  set (q' := Num.nearest q d) in *.
  assert (Hq0lo : 2 ^ 52 <= q / 2 ^ d).
  { apply Z.div_le_lower_bound; [exact H2d |].
    rewrite Z.mul_comm, <- Z.pow_add_r by lia.
    replace (52 + d) with L by (unfold d; lia). exact Hlo. }
  assert (Hq0hi : q / 2 ^ d < 2 ^ 53).
  { apply Z.div_lt_upper_bound; [exact H2d |].
    rewrite <- Z.pow_add_r by lia.
    replace (d + 53) with (L + 1) by (unfold d; lia). exact Hhi. }
  assert (Hq'lo : 0 < q') by lia.
  assert (Hq'hi : q' <= 2 ^ 53) by lia.
  assert (Hlog : Z.log2 q' <= 53).
  { rewrite <- (Z.log2_pow2 53) by lia. now apply Z.log2_le_mono. }
  replace ((0 <? q') && (1024 <=? Z.log2 q' + (e + d))) with false.
  2:{ destruct (Z.leb_spec 1024 (Z.log2 q' + (e + d))); [unfold d in *; lia |].
      now rewrite andb_false_r. }
  replace (Z.sgn q) with 1 by (destruct q; cbn; lia).
  rewrite Z.mul_1_l.
  exists (q' * 2 ^ (e + d)). split.
  - exists q', (e + d). repeat split; lia.
  - transitivity (2 ^ 53 * 2 ^ (e + d)).
    + apply Z.mul_le_mono_nonneg_r; [apply Z.pow_nonneg; lia | exact Hq'hi].
    + rewrite <- Z.pow_add_r by lia. apply pow2_le. unfold d. lia.
Qed.

(** One step of the generator from a natural number of at most [2^991]
    gives an integer in [0, 2^31). *)
Lemma lcg_next_natural current n :
  natural current n -> n <= 2 ^ 991 ->
  exists r, lcg_next current = Fin r 0 /\ 0 <= r < 2 ^ 31.
Proof.
  intros (q & e & -> & Hq & He & ->) Hn.
  unfold lcg_next, Num.ofZ, Num.mul.
  destruct (round_natural (lcg_a * q) (0 + e) 1022) as (n1 & N1 & B1);
    [unfold lcg_a; lia | lia | | lia |].
  { cbn [Z.add].
    apply Z.le_lt_trans with (lcg_a * 2 ^ 991); [unfold lcg_a; lia |].
    change (2 ^ 1022) with (2 ^ 31 * 2 ^ 991). unfold lcg_a.
    apply Z.mul_lt_mono_pos_r; [apply pow2_pos |]; lia. }
  destruct N1 as (q1 & e1 & -> & Hq1 & He1 & ->).
  unfold Num.add. rewrite Z.min_r by lia. rewrite !Z.sub_0_r.
  change (2 ^ 0) with 1. rewrite Z.mul_1_r.
  destruct (round_natural (q1 * 2 ^ e1 + lcg_c) 0 1023) as (n2 & N2 & B2);
    [ assert (0 < 2 ^ e1) by (now apply pow2_pos); unfold lcg_c; nia
    | lia | | lia |].
  { change (2 ^ 0) with 1. rewrite Z.mul_1_r.
    change (2 ^ 1023) with (2 ^ 1022 + 2 ^ 1022).
    assert (lcg_c < 2 ^ 1022) by (unfold lcg_c; apply Z.lt_le_trans with (2 ^ 14);
      [reflexivity | apply pow2_le; lia]).
    lia. }
  destruct N2 as (q2 & e2 & -> & Hq2 & He2 & ->).
  unfold Num.rem.
  destruct (Z.eqb_spec (2 ^ 31) 0) as [Hbad | _]; [discriminate Hbad |].
  rewrite Z.min_r by lia. rewrite !Z.sub_0_r.
  change (2 ^ 0) with 1. rewrite Z.mul_1_r.
  eexists. split; [reflexivity |].
  assert (0 <= q2 * 2 ^ e2) by (assert (0 < 2 ^ e2) by (now apply pow2_pos); nia).
  rewrite Z.rem_mod_nonneg by lia.
  apply Z.mod_pos_bound. reflexivity.
Qed.

(** The index the shuffle picks from an integer state in [0, 2^31): it lies
    in [0, k), where [k] is the number of entries still to place. *)
Lemma pick_range r k :
  0 <= r < 2 ^ 31 -> 0 < k <= 2 ^ 32 ->
  exists z, Num.floor (Num.mul (Num.divPow2 (Fin r 0) 31) (Num.ofZ k)) = F_int z
            /\ 0 <= z < k.
Proof.
  intros Hr Hk. unfold Num.divPow2, Num.ofZ.
  assert (Hlr : Z.log2 r <= 30).
  { destruct (Z.eq_dec r 0) as [-> | ]; [cbn; lia |].
    apply Z.lt_succ_r. apply Z.log2_lt_pow2; lia. }
  rewrite round_exact by lia. unfold Num.mul.
  replace (0 - 31 + 0) with (-31) by lia.
  set (n := r * k).
  assert (Hn : 0 <= n) by (unfold n; nia).
  assert (Hnk : n + k <= k * 2 ^ 31) by (unfold n; nia).
  destruct (Z.le_gt_cases (Z.log2 n) 52) as [Hsmall | Hbig].
  - rewrite round_exact by lia. cbn [Num.floor].
    destruct (Z.leb_spec 0 (-31)); [lia |].
    eexists. split; [reflexivity |]. change (- -31) with 31. split.
    + apply Z.div_pos; lia.
    + apply Z.div_lt_upper_bound; lia.
  - assert (Hnpos : 0 < n).
    { destruct (Z.eq_dec n 0) as [E |]; [rewrite E in Hbig; cbn in Hbig |]; lia. }
    destruct (log2_bounds n Hnpos) as [Hlo Hhi].
    set (L := Z.log2 n) in *.
    assert (HL : L < 63).
    { apply pow2_lt_inv; [lia |]. apply Z.le_lt_trans with n; [exact Hlo |].
      change (2 ^ 63) with (2 ^ 32 * 2 ^ 31). nia. }
    unfold Num.round. rewrite Z.abs_eq by exact Hn. fold L.
    rewrite Z.max_l by lia.
    destruct (Z.ltb_spec 0 (L - 52)); [| lia].
    set (d := L - 52) in *.
    assert (H2d : 0 < 2 ^ d) by (apply pow2_pos; lia).
    pose proof (nearest_bounds n d Hn ltac:(lia)) as [Hn1 Hn2].
    set (q' := Num.nearest n d) in *.
    assert (Hq0lo : 2 ^ 52 <= n / 2 ^ d).
    { apply Z.div_le_lower_bound; [exact H2d |].
      rewrite Z.mul_comm, <- Z.pow_add_r by lia.
      replace (52 + d) with L by (unfold d; lia). exact Hlo. }
    assert (Hq0hi : n / 2 ^ d < 2 ^ 53).
    { apply Z.div_lt_upper_bound; [exact H2d |].
      rewrite <- Z.pow_add_r by lia.
      replace (d + 53) with (L + 1) by (unfold d; lia). exact Hhi. }
    assert (Hlog : Z.log2 q' <= 53).
    { rewrite <- (Z.log2_pow2 53) by lia. apply Z.log2_le_mono. lia. }
    replace ((0 <? q') && (1024 <=? Z.log2 q' + (-31 + d))) with false.
    2:{ destruct (Z.leb_spec 1024 (Z.log2 q' + (-31 + d)));
          [unfold d in *; lia |]. now rewrite andb_false_r. }
    replace (Z.sgn n) with 1 by (destruct n; cbn; lia).
    rewrite Z.mul_1_l. cbn [Num.floor].
    destruct (Z.leb_spec 0 (-31 + d)); [unfold d in *; lia |].
    eexists. split; [reflexivity |].
    replace (- (-31 + d)) with (31 - d) by lia.
    assert (H2s : 0 < 2 ^ (31 - d)) by (apply pow2_pos; unfold d; lia).
    split; [apply Z.div_pos; lia |].
    apply Z.div_lt_upper_bound; [exact H2s |].
    (* q' * 2^d <= n + 2^d < k * 2^31 *)
    assert (Hdiv : n / 2 ^ d * 2 ^ d <= n).
    { rewrite Z.mul_comm. apply Z.mul_div_le. exact H2d. }
    assert (H2dk : 2 ^ d < k).
    { assert (2 ^ d * 2 ^ 52 <= n)
        by (rewrite <- Z.pow_add_r by lia;
            replace (d + 52) with L by (unfold d; lia); exact Hlo).
      nia. }
    assert (Hsplit : 2 ^ 31 = 2 ^ (31 - d) * 2 ^ d)
      by (rewrite <- Z.pow_add_r by (unfold d; lia); f_equal; lia).
    assert (Hq'd : q' * 2 ^ d < k * 2 ^ 31) by nia.
    rewrite Hsplit in Hq'd. nia.
Qed.

Lemma set_nth_map {A B : Type} (f : A -> B) (l : list A) n x :
  Js.set_nth (map f l) n (f x) = map f (Js.set_nth l n x).
Proof.
  revert n. induction l as [| h l IH]; intros [| n]; cbn; try reflexivity.
  now rewrite IH.
Qed.

(** A swap of two entries inside an array without undefined entries leaves
    it without undefined entries, and of the same length. *)
Lemma swap_full {T : Type} (xs : list T) ps i z :
  (i < length xs)%nat -> Z.of_nat i < 2 ^ 32 - 1 -> 0 <= z <= Z.of_nat i ->
  exists xs',
    swap (mkArray (map Some xs) ps) i (F_int z) = mkArray (map Some xs') ps
    /\ length xs' = length xs.
Proof.
  intros Hi Hmax Hz. unfold swap, Arr.get, Arr.entry, Arr.set, Arr.asIndex.
  destruct (Z.leb_spec 0 (Z.of_nat i)); [| lia].
  destruct (Z.ltb_spec (Z.of_nat i) (2 ^ 32 - 1)); [| lia].
  destruct (Z.leb_spec 0 z); [| lia].
  destruct (Z.ltb_spec z (2 ^ 32 - 1)); [| lia].
  cbn [andb elems props]. rewrite Nat2Z.id.
  assert (Hj : (Z.to_nat z < length xs)%nat) by lia.
  destruct (nth_error xs i) as [xi |] eqn:Ei.
  2:{ apply nth_error_None in Ei. lia. }
  destruct (nth_error xs (Z.to_nat z)) as [xj |] eqn:Ej.
  2:{ apply nth_error_None in Ej. lia. }
  rewrite !nth_error_map, Ei, Ej. cbn [option_map].
  unfold Arr.setElem. rewrite length_map.
  destruct (Nat.ltb_spec i (length xs)); [| lia].
  rewrite set_nth_map, length_map, set_nth_length.
  destruct (Nat.ltb_spec (Z.to_nat z) (length xs)); [| lia].
  rewrite set_nth_map. eexists. split; [reflexivity |].
  now rewrite !set_nth_length.
Qed.

Lemma seededLoop_full {T : Type} i : forall current n (xs : list T),
  natural current n -> n <= 2 ^ 991 ->
  (i < length xs)%nat -> Z.of_nat (length xs) <= 2 ^ 32 - 1 ->
  exists xs',
    seededLoop i current (mkArray (map Some xs) []) = mkArray (map Some xs') [].
Proof.
  induction i as [| i IH]; intros current n xs Hc Hn Hi Hlen;
    cbn [seededLoop]; [eauto |].
  destruct (lcg_next_natural current n Hc Hn) as (r & -> & Hr).
  destruct (pick_range r (Z.of_nat (S i) + 1) Hr ltac:(lia)) as (z & -> & Hz).
  destruct (swap_full xs [] (S i) z Hi ltac:(lia) ltac:(lia)) as (xs1 & -> & L1).
  apply (IH (Fin r 0) r xs1).
  - exists r, 0. change (2 ^ 0) with 1. repeat split; lia.
  - apply Z.le_trans with (2 ^ 31); [lia | apply pow2_le; lia].
  - lia.
  - lia.
Qed.

(** For an integer seed in [0, 2^991), the seeded shuffle of an array (of
    fewer than [2^32] entries, the most an array has) rearranges it: no
    entry is undefined, nothing is stored beside the entries. *)
Lemma shuffleWithSeed_natural {T : Type} (array : list T) (seed : Z) :
  0 <= seed < 2 ^ 991 -> Z.of_nat (length array) <= 2 ^ 32 - 1 ->
  exists xs,
    shuffleWithSeed array seed = mkArray (map Some xs) []
    /\ Permutation xs array.
Proof.
  intros Hs Hlen.
  assert (E : exists xs, shuffleWithSeed array seed = mkArray (map Some xs) []).
  { unfold shuffleWithSeed, Arr.ofList, Num.ofZ.
    destruct array as [| x array]; [exists []; reflexivity |].
    destruct (round_natural seed 0 991) as (n & N & B);
      [lia | lia | change (2 ^ 0) with 1; lia | lia |].
    apply (seededLoop_full _ _ n); auto. cbn [Datatypes.length]. lia. }
  destruct E as (xs & E). exists xs. split; [exact E |].
  apply (shuffleWithSeed_full array seed). now rewrite E.
Qed.

(** Rounding to nearest moves the scaled quotient by at most half a unit. *)
Lemma nearest_half n d :
  0 <= n -> 0 < d -> Num.nearest n d * 2 ^ d <= n + 2 ^ (d - 1).
Proof.
  intros Hn Hd. unfold Num.nearest.
  assert (H2 : 2 ^ d = 2 * 2 ^ (d - 1)).
  { rewrite <- (Z.pow_succ_r 2 (d - 1)) by lia. f_equal. lia. }
  assert (Hh : 0 < 2 ^ (d - 1)) by (apply pow2_pos; lia).
  pose proof (Z.div_mod n (2 ^ d) ltac:(lia)) as Hdm.
  pose proof (Z.mod_pos_bound n (2 ^ d) ltac:(lia)) as Hr.
  set (q := n / 2 ^ d) in *. set (r := n mod 2 ^ d) in *.
  destruct (Z.ltb_spec r (2 ^ (d - 1))); [nia |].
  destruct (Z.ltb_spec (2 ^ (d - 1)) r); [nia |].
  destruct (Z.even q); nia.
Qed.

(** The index [shuffle] picks from a value of [Math.random()] lies in
    [0, k), where [k] is the number of entries still to place. *)
Lemma pick_unit x k :
  unitDouble x -> 0 < k <= 2 ^ 32 ->
  exists z, Num.floor (Num.mul x (Num.ofZ k)) = F_int z /\ 0 <= z < k.
Proof.
  intros (m & e & -> & Hm & He & Hlt) Hk. unfold Num.ofZ, Num.mul.
  rewrite Z.add_0_r.
  set (n := m * k).
  assert (Hn : 0 <= n) by (unfold n; nia).
  assert (H2e : 0 < 2 ^ (- e)) by (apply pow2_pos; lia).
  assert (Hnk : n + k <= k * 2 ^ (- e)) by (unfold n; nia).
  destruct (Z.le_gt_cases (Z.log2 n) 52) as [Hsmall | Hbig].
  - rewrite round_exact by lia. cbn [Num.floor].
    destruct (Z.leb_spec 0 e).
    + assert (e = 0) by lia. subst e. change (2 ^ (- 0)) with 1 in *.
      change (2 ^ 0) with 1. eexists. split; [reflexivity |]. lia.
    + eexists. split; [reflexivity |]. split.
      * apply Z.div_pos; lia.
      * apply Z.div_lt_upper_bound; lia.
  - assert (Hnpos : 0 < n).
    { destruct (Z.eq_dec n 0) as [E |]; [rewrite E in Hbig; cbn in Hbig |]; lia. }
    destruct (log2_bounds n Hnpos) as [Hlo Hhi].
    set (L := Z.log2 n) in *.
    assert (HL : L < 85).
    { apply pow2_lt_inv; [lia |]. apply Z.le_lt_trans with n; [exact Hlo |].
      change (2 ^ 85) with (2 ^ 53 * 2 ^ 32). unfold n. nia. }
    unfold Num.round. rewrite Z.abs_eq by exact Hn. fold L.
    rewrite Z.max_l by lia.
    destruct (Z.ltb_spec 0 (L - 52)); [| lia].
    set (d := L - 52) in *.
    assert (H2d : 0 < 2 ^ d) by (apply pow2_pos; lia).
    pose proof (nearest_bounds n d Hn ltac:(lia)) as [Hn1 Hn2].
    pose proof (nearest_half n d Hn ltac:(lia)) as Hhalf.
    set (q' := Num.nearest n d) in *.
    assert (Hq0hi : n / 2 ^ d < 2 ^ 53).
    { apply Z.div_lt_upper_bound; [exact H2d |].
      rewrite <- Z.pow_add_r by lia.
      replace (d + 53) with (L + 1) by (unfold d; lia). exact Hhi. }
    assert (Hq0lo : 0 <= n / 2 ^ d) by (apply Z.div_pos; lia).
    assert (Hlog : Z.log2 q' <= 53).
    { rewrite <- (Z.log2_pow2 53) by lia. apply Z.log2_le_mono. lia. }
    replace ((0 <? q') && (1024 <=? Z.log2 q' + (e + d))) with false.
    2:{ destruct (Z.leb_spec 1024 (Z.log2 q' + (e + d)));
          [unfold d in *; lia |]. now rewrite andb_false_r. }
    replace (Z.sgn n) with 1 by (destruct n; cbn; lia).
    rewrite Z.mul_1_l. cbn [Num.floor].
    (* q' * 2^d <= n + 2^(d-1) < k * 2^(-e) *)
    assert (H2dk : 2 ^ (d - 1) < k).
    { assert (2 ^ (d - 1) * 2 ^ 53 <= n).
      { rewrite <- Z.pow_add_r by lia.
        replace (d - 1 + 53) with L by (unfold d; lia). exact Hlo. }
      assert (0 < 2 ^ (d - 1)) by (apply pow2_pos; lia).
      unfold n in *. nia. }
    assert (Hq'd : q' * 2 ^ d < k * 2 ^ (- e)) by lia.
    destruct (Z.leb_spec 0 (e + d)) as [Hed | Hed].
    + eexists. split; [reflexivity |].
      assert (H2ed : 0 < 2 ^ (e + d)) by (apply pow2_pos; lia).
      split; [nia |].
      assert (Hsplit : 2 ^ d = 2 ^ (e + d) * 2 ^ (- e))
        by (rewrite <- Z.pow_add_r by lia; f_equal; lia).
      rewrite Hsplit in Hq'd. nia.
    + eexists. split; [reflexivity |].
      replace (- (e + d)) with (- e - d) by lia.
      assert (H2s : 0 < 2 ^ (- e - d)) by (apply pow2_pos; lia).
      split; [apply Z.div_pos; lia |].
      apply Z.div_lt_upper_bound; [exact H2s |].
      assert (Hsplit : 2 ^ (- e) = 2 ^ (- e - d) * 2 ^ d)
        by (rewrite <- Z.pow_add_r by lia; f_equal; lia).
      rewrite Hsplit in Hq'd. nia.
Qed.

Lemma randomLoop_full {T : Type} random i : forall k (xs : list T),
  (forall c, unitDouble (random c)) ->
  (i < length xs)%nat -> Z.of_nat (length xs) <= 2 ^ 32 - 1 ->
  exists xs',
    randomLoop i random k (mkArray (map Some xs) []) = mkArray (map Some xs') [].
Proof.
  induction i as [| i IH]; intros k xs Hrand Hi Hlen;
    cbn [randomLoop]; [eauto |].
  destruct (pick_unit (random k) (Z.of_nat (S i) + 1) (Hrand k) ltac:(lia))
    as (z & -> & Hz).
  destruct (swap_full xs [] (S i) z Hi ltac:(lia) ltac:(lia)) as (xs1 & -> & L1).
  apply (IH (S k) xs1); [exact Hrand | lia | lia].
Qed.

(** When [Math.random()] returns doubles in [0, 1), [shuffle] rearranges
    the array. *)
Lemma shuffle_unit {T : Type} random (array : list T) :
  (forall c, unitDouble (random c)) ->
  Z.of_nat (length array) <= 2 ^ 32 - 1 ->
  exists xs,
    shuffle random array = mkArray (map Some xs) [] /\ Permutation xs array.
Proof.
  intros Hrand Hlen.
  assert (E : exists xs, shuffle random array = mkArray (map Some xs) []).
  { unfold shuffle, Arr.ofList.
    destruct array as [| x array]; [exists []; reflexivity |].
    apply randomLoop_full; auto. cbn [Datatypes.length]. lia. }
  destruct E as (xs & E). exists xs. split; [exact E |].
  apply (shuffle_full random array). now rewrite E.
Qed.

(** ** The deck *)

Lemma createDeck_length : length createDeck = 52%nat.
Proof. reflexivity. Qed.

Lemma createDeck_ids_NoDup : NoDup (map id createDeck).
Proof.
  assert (E : nodup string_dec (map id createDeck) = map id createDeck)
    by (vm_compute; reflexivity).
  rewrite <- E. apply NoDup_nodup.
Qed.

(** A shuffled deck without an undefined entry is a rearrangement of the
    deck, with a seed or without. *)
Lemma createShuffledDeck_full seed deck :
  elems (createShuffledDeck seed) = map Some deck ->
  Permutation deck createDeck.
Proof.
  destruct seed as [seed | random]; cbn [createShuffledDeck].
  - apply shuffleWithSeed_full.
  - apply shuffle_full.
Qed.

(** ** The deal *)

Lemma t7_set_list {A : Type} (t : Tuple7 A) i p :
  t7_get t i = Some p ->
  exists P1 P2,
    t7_list t = P1 ++ p :: P2
    /\ forall p', t7_list (t7_set t i p') = P1 ++ p' :: P2.
Proof.
  destruct t as [c0 c1 c2 c3 c4 c5 c6].
  set (t := T7 c0 c1 c2 c3 c4 c5 c6).
  unfold t7_get, t7_set. cbn [t7_0 t7_1 t7_2 t7_3 t7_4 t7_5 t7_6].
  eqb_cases; intros [= <-];
    [ exists (firstn 0 (t7_list t)), (skipn 1 (t7_list t))
    | exists (firstn 1 (t7_list t)), (skipn 2 (t7_list t))
    | exists (firstn 2 (t7_list t)), (skipn 3 (t7_list t))
    | exists (firstn 3 (t7_list t)), (skipn 4 (t7_list t))
    | exists (firstn 4 (t7_list t)), (skipn 5 (t7_list t))
    | exists (firstn 5 (t7_list t)), (skipn 6 (t7_list t))
    | exists (firstn 6 (t7_list t)), (skipn 7 (t7_list t)) ];
    (split; [reflexivity | intros; reflexivity]).
Qed.

Lemma pushToColumn_ok tab row card :
  0 <= row < 7 ->
  exists tab',
    pushToColumn tab row card = Ret tab'
    /\ Permutation (flat_map cards (t7_list tab'))
                   (card :: flat_map cards (t7_list tab)).
Proof.
  intros Hr. unfold pushToColumn.
  destruct (t7_get_in_range tab row Hr) as [p Hp]. rewrite Hp.
  eexists. split; [reflexivity |].
  destruct (t7_set_list tab row p Hp) as (P1 & P2 & E & E').
  rewrite E, E', !flat_map_app. cbn [flat_map set_cards cards]. unfold Js.push.
  set (A1 := flat_map cards P1). set (A2 := flat_map cards P2).
  replace (A1 ++ (cards p ++ [card]) ++ A2)
    with ((A1 ++ cards p) ++ card :: A2)
    by (rewrite <- !app_assoc; reflexivity).
  symmetry. apply Permutation_cons_app. now rewrite <- app_assoc.
Qed.

Lemma nth_error_skipn_cons {A : Type} (l : list A) k x :
  nth_error l k = Some x -> skipn k l = x :: skipn (S k) l.
Proof.
  revert k. induction l as [| a l IH]; intros [| k] H; simpl in *;
    try discriminate.
  - now injection H as ->.
  - now apply IH.
Qed.

Lemma entry_full (deck : JsArray Card) cs k :
  elems deck = map Some cs -> Arr.entry deck k = nth_error cs k.
Proof.
  intros E. unfold Arr.entry. rewrite E, nth_error_map.
  now destruct (nth_error cs k).
Qed.

Lemma allDefined_full {T : Type} (xs : list T) :
  Arr.allDefined (map Some xs) = Some xs.
Proof.
  induction xs as [| x xs IH]; cbn [map Arr.allDefined]; [reflexivity |].
  now rewrite IH.
Qed.

Lemma allDefined_inv {T : Type} (l : list (option T)) xs :
  Arr.allDefined l = Some xs -> l = map Some xs.
Proof.
  revert xs. induction l as [| [x |] l IH]; intros xs; cbn [Arr.allDefined].
  - now intros [= <-].
  - destruct (Arr.allDefined l) as [ys |]; cbn [option_map]; [| discriminate].
    intros [= <-]. cbn [map]. f_equal. now apply IH.
  - discriminate.
Qed.

(** In what follows [deck] is an array object whose entries are the cards
    [cs], none undefined.  The inner deal loop over the rows [rows],
    started with [k] cards dealt, deals one deck card per row and loses
    none. *)
Lemma dealOne_fold (deck : JsArray Card) cs col rows : forall k tab,
  elems deck = map Some cs ->
  (k + length rows <= length cs)%nat ->
  Forall (fun r => 0 <= r < 7) rows ->
  exists tab',
    fold_left (dealOne deck col) rows (Ret (k, tab))
    = Ret ((k + length rows)%nat, tab')
    /\ Permutation
         (map id (flat_map cards (t7_list tab'))
          ++ map id (skipn (k + length rows) cs))
         (map id (flat_map cards (t7_list tab)) ++ map id (skipn k cs)).
Proof.
  induction rows as [| row rows IH]; intros k tab Hdeck Hk Hrows.
  - exists tab. simpl. rewrite Nat.add_0_r. split; reflexivity.
  - inversion Hrows as [| ? ? Hrow Hrest]; subst.
    cbn [fold_left length] in *.
    unfold dealOne at 2. cbn [bind fst snd].
    rewrite (entry_full deck cs k Hdeck).
    destruct (nth_error cs k) as [card |] eqn:Hcard.
    2:{ apply nth_error_None in Hcard. lia. }
    destruct (pushToColumn_ok tab row (flipCard card (row =? col)) Hrow)
      as (tab1 & E1 & P1).
    rewrite E1. cbn [bind].
    destruct (IH (S k) tab1) as (tab' & E' & P');
      [assumption | lia | assumption |].
    exists tab'. replace (k + S (length rows))%nat with (S k + length rows)%nat by lia.
    split; [exact E' |].
    rewrite P'. rewrite (nth_error_skipn_cons cs k card Hcard).
    rewrite (Permutation_map id P1). cbn [map app].
    rewrite flipCard_id. apply Permutation_middle.
Qed.

Lemma dealRow_ok (deck : JsArray Card) cs k tab col :
  elems deck = map Some cs ->
  (col <= 7)%nat -> (k + (7 - col) <= length cs)%nat ->
  exists tab',
    dealRow deck (Ret (k, tab)) col = Ret ((k + (7 - col))%nat, tab')
    /\ Permutation
         (map id (flat_map cards (t7_list tab'))
          ++ map id (skipn (k + (7 - col)) cs))
         (map id (flat_map cards (t7_list tab)) ++ map id (skipn k cs)).
Proof.
  intros Hdeck Hc Hk. unfold dealRow.
  destruct (dealOne_fold deck cs (Z.of_nat col)
              (map Z.of_nat (seq col (7 - col))) k tab) as (tab' & E & P).
  - exact Hdeck.
  - rewrite length_map, length_seq. exact Hk.
  - apply Forall_map, Forall_forall. intros r Hr. apply in_seq in Hr. lia.
  - rewrite length_map, length_seq in E, P. eauto.
Qed.

(** The deal never runs out of cards on a deck of at least 28, and the 28
    cards of the columns together with the rest of the deck are the deck. *)
Lemma dealTableau_ok (deck : JsArray Card) cs tab :
  elems deck = map Some cs ->
  (28 <= length cs)%nat ->
  exists tab',
    dealTableau deck tab = Ret (28%nat, tab')
    /\ Permutation
         (map id (flat_map cards (t7_list tab')) ++ map id (skipn 28 cs))
         (map id (flat_map cards (t7_list tab)) ++ map id cs).
Proof.
  intros Hdeck H. unfold dealTableau. cbn [seq fold_left].
  destruct (dealRow_ok deck cs 0 tab 0) as (t0 & E0 & P0); [exact Hdeck | lia | simpl; lia |].
  rewrite E0.
  destruct (dealRow_ok deck cs (0 + (7 - 0)) t0 1) as (t1 & E1 & P1);
    [exact Hdeck | lia | simpl; lia |]. rewrite E1.
  destruct (dealRow_ok deck cs (0 + (7 - 0) + (7 - 1)) t1 2) as (t2 & E2 & P2);
    [exact Hdeck | lia | simpl; lia |]. rewrite E2.
  destruct (dealRow_ok deck cs (0 + (7 - 0) + (7 - 1) + (7 - 2)) t2 3)
    as (t3 & E3 & P3); [exact Hdeck | lia | simpl; lia |]. rewrite E3.
  destruct (dealRow_ok deck cs (0 + (7 - 0) + (7 - 1) + (7 - 2) + (7 - 3)) t3 4)
    as (t4 & E4 & P4); [exact Hdeck | lia | simpl; lia |]. rewrite E4.
  destruct (dealRow_ok deck cs
              (0 + (7 - 0) + (7 - 1) + (7 - 2) + (7 - 3) + (7 - 4)) t4 5)
    as (t5 & E5 & P5); [exact Hdeck | lia | simpl; lia |]. rewrite E5.
  destruct (dealRow_ok deck cs
              (0 + (7 - 0) + (7 - 1) + (7 - 2) + (7 - 3) + (7 - 4) + (7 - 5))
              t5 6)
    as (t6 & E6 & P6); [exact Hdeck | lia | simpl; lia |]. rewrite E6.
  exists t6. split; [reflexivity |].
  cbn [Nat.add Nat.sub] in *.
  rewrite P6, P5, P4, P3, P2, P1, P0. reflexivity.
Qed.

(** The deal loops the other way round: when they finish, every entry they
    read was a card. *)
Lemma dealOne_raised deck col rows e :
  fold_left (dealOne deck col) rows (Throw e) = Throw e.
Proof. induction rows as [| row rows IH]; cbn [fold_left]; auto. Qed.

Lemma dealOne_fold_inv deck col rows : forall k tab r,
  fold_left (dealOne deck col) rows (Ret (k, tab)) = Ret r ->
  fst r = (k + length rows)%nat
  /\ forall n, (k <= n < k + length rows)%nat ->
               exists c, nth_error (elems deck) n = Some (Some c).
Proof.
  induction rows as [| row rows IH]; intros k tab r; cbn [fold_left length].
  - intros [= <-]. split; [cbn; lia | intros n Hn; lia].
  - unfold dealOne at 2. cbn [bind fst snd]. unfold Arr.entry.
    destruct (nth_error (elems deck) k) as [[card |] |] eqn:Hcard;
      try (rewrite dealOne_raised; discriminate).
    destruct (pushToColumn tab row (flipCard card (row =? col))) as [tab1 | e];
      cbn [bind]; [| rewrite dealOne_raised; discriminate].
    intros H. destruct (IH _ _ _ H) as [Hf Hd]. split; [lia |].
    intros n Hn. destruct (Nat.eq_dec n k) as [-> | Hne]; [eauto |].
    apply Hd. lia.
Qed.

Lemma dealRow_raised deck cols e :
  fold_left (dealRow deck) cols (Throw e) = Throw e.
Proof.
  induction cols as [| col cols IH]; cbn [fold_left]; [reflexivity |].
  unfold dealRow at 2. now rewrite dealOne_raised.
Qed.

Lemma dealRow_fold_inv deck cols : forall k tab r,
  fold_left (dealRow deck) cols (Ret (k, tab)) = Ret r ->
  fst r = (k + list_sum (map (fun col => 7 - col) cols))%nat
  /\ forall n, (k <= n < fst r)%nat ->
               exists c, nth_error (elems deck) n = Some (Some c).
Proof.
  induction cols as [| col cols IH]; intros k tab r;
    cbn [fold_left map list_sum fold_right].
  - intros [= <-]. split; [cbn; lia | cbn; intros n Hn; lia].
  - destruct (dealRow deck (Ret (k, tab)) col) as [[k1 tab1] | e] eqn:E1;
      [| rewrite dealRow_raised; discriminate].
    unfold dealRow in E1. apply dealOne_fold_inv in E1.
    rewrite length_map, length_seq in E1. cbn [fst] in E1.
    destruct E1 as [-> Hd1].
    intros H. destruct (IH _ _ _ H) as [Hf Hd].
    fold (list_sum (map (fun col => (7 - col)%nat) cols)).
    split; [lia |].
    intros n Hn.
    destruct (Nat.lt_ge_cases n (k + (7 - col))) as [Hlt | Hge];
      [apply Hd1 | apply Hd]; lia.
Qed.

Lemma firstn_defined {T : Type} k : forall (l : list (option T)),
  (forall n, (n < k)%nat -> exists c, nth_error l n = Some (Some c)) ->
  exists xs, firstn k l = map Some xs.
Proof.
  induction k as [| k IH]; intros l H; [now exists [] |].
  destruct (H 0%nat ltac:(lia)) as (c & Hc).
  destruct l as [| v l]; [discriminate |]. cbn in Hc. injection Hc as ->.
  destruct (IH l) as (xs & E).
  { intros n Hn. apply (H (S n)). lia. }
  exists (c :: xs). cbn [firstn map]. now rewrite E.
Qed.

(** A deal that is a table of cards was dealt from a deck without an
    undefined entry, which is then a rearrangement of the 52 cards. *)
Lemma createInitialState_deck cfg seed s :
  createInitialState cfg seed = Ret (Proper s) ->
  exists deck,
    elems (createShuffledDeck seed) = map Some deck
    /\ Permutation deck createDeck.
Proof.
  unfold createInitialState. set (deck := createShuffledDeck seed).
  destruct (dealTableau deck _) as [r | e] eqn:E; cbn [bind]; [| discriminate].
  unfold dealTableau in E. apply dealRow_fold_inv in E.
  destruct E as [Hf Hd]. cbn in Hf. rewrite Hf in *.
  destruct (Arr.allDefined (skipn 28 (elems deck))) as [back |] eqn:Hb;
    [| discriminate].
  intros _. apply allDefined_inv in Hb.
  destruct (firstn_defined 28 (elems deck)) as (front & Hfront).
  { intros n Hn. apply Hd. lia. }
  assert (Ed : elems deck = map Some (front ++ back))
    by (rewrite <- (firstn_skipn 28 (elems deck)), Hfront, Hb, map_app;
        reflexivity).
  exists (front ++ back). split; [exact Ed |].
  now apply (createShuffledDeck_full seed).
Qed.

Lemma createInitialState_read cfg seed d :
  createInitialState cfg seed = Ret d ->
  forall k, (k < 28)%nat ->
            exists c, nth_error (elems (createShuffledDeck seed)) k
                      = Some (Some c).
Proof.
  unfold createInitialState. set (deck := createShuffledDeck seed).
  destruct (dealTableau deck _) as [r | e] eqn:E; cbn [bind]; [| discriminate].
  unfold dealTableau in E. apply dealRow_fold_inv in E.
  destruct E as [Hf Hd]. cbn in Hf. rewrite Hf in Hd.
  intros _ k Hk. apply Hd. lia.
Qed.

Lemma entries_defined_dec {T : Type} (l : list (option T)) n :
  (forall k, (k < n)%nat -> exists c, nth_error l k = Some (Some c))
  \/ (exists k, (k < n)%nat
                /\ match nth_error l k with Some v => v | None => None end
                   = None).
Proof.
  induction n as [| n [IH | (k & Hk & Hu)]].
  - left. intros k Hk. lia.
  - destruct (nth_error l n) as [[c |] |] eqn:E.
    + left. intros k Hk. destruct (Nat.eq_dec k n) as [-> | Hne]; [eauto |].
      apply IH. lia.
    + right. exists n. rewrite E. split; [lia | reflexivity].
    + right. exists n. rewrite E. split; [lia | reflexivity].
  - right. exists k. split; [lia | exact Hu].
Qed.

Lemma allDefined_None {T : Type} (l : list (option T)) :
  Arr.allDefined l = None -> In None l.
Proof.
  induction l as [| [x |] l IH]; cbn [Arr.allDefined].
  - discriminate.
  - destruct (Arr.allDefined l); cbn [option_map]; [discriminate |].
    intros _. right. now apply IH.
  - intros _. now left.
Qed.

(** Such a deal holds the cards of the deck. *)
Lemma createInitialState_spec cfg seed s :
  createInitialState cfg seed = Ret (Proper s) ->
  Permutation (cardIds s) (map id createDeck)
  /\ config s = mergeConfig cfg
  /\ score s = getInitialScore (scoringMode (mergeConfig cfg))
  /\ moves s = 0 /\ stockPasses s = 0 /\ cards (waste s) = [].
Proof.
  intros H. destruct (createInitialState_deck cfg seed s H) as (cs & Ed & Hperm).
  revert H. unfold createInitialState.
  set (deck := createShuffledDeck seed) in *.
  assert (Hlen : length cs = 52%nat)
    by (rewrite (Permutation_length Hperm); apply createDeck_length).
  set (tab0 := T7 (createPile tableau_t 0) (createPile tableau_t 1)
                  (createPile tableau_t 2) (createPile tableau_t 3)
                  (createPile tableau_t 4) (createPile tableau_t 5)
                  (createPile tableau_t 6)).
  destruct (dealTableau_ok deck cs tab0 Ed) as (tab' & E & P); [lia |].
  rewrite E. cbn [bind fst snd].
  rewrite Ed, skipn_map, allDefined_full. intros [= <-].
  split; [| repeat split; reflexivity].
  unfold cardIds, getAllCards. cbn [stock waste foundations tableau].
  cbn [createPile set_cards cards t4_list flat_map app Js.push].
  rewrite app_nil_r, map_app.
  rewrite Permutation_app_comm, P. cbn [tab0 t7_list flat_map createPile cards app map].
  now apply Permutation_map.
Qed.

(** A deck without an undefined entry is dealt into a table of cards. *)
Lemma createInitialState_full cfg seed cs :
  elems (createShuffledDeck seed) = map Some cs ->
  exists s, createInitialState cfg seed = Ret (Proper s).
Proof.
  intros Ed. pose proof (createShuffledDeck_full seed cs Ed) as Hperm.
  assert (Hlen : length cs = 52%nat)
    by (rewrite (Permutation_length Hperm); apply createDeck_length).
  unfold createInitialState.
  set (tab0 := T7 (createPile tableau_t 0) (createPile tableau_t 1)
                  (createPile tableau_t 2) (createPile tableau_t 3)
                  (createPile tableau_t 4) (createPile tableau_t 5)
                  (createPile tableau_t 6)).
  destruct (dealTableau_ok (createShuffledDeck seed) cs tab0 Ed)
    as (tab' & E & _); [lia |].
  rewrite E. cbn [bind fst snd].
  rewrite Ed, skipn_map, allDefined_full. eauto.
Qed.

Lemma createDeck_fits : Z.of_nat (length createDeck) <= 2 ^ 32 - 1.
Proof.
  rewrite createDeck_length. apply Z.le_trans with (2 ^ 6); [cbn; lia |].
  apply Z.le_trans with (2 ^ 31); [apply pow2_le; lia | cbn; lia].
Qed.

(** For an integer seed in [0, 2^991) the deal is a table of cards. *)
Lemma createInitialState_natural cfg (seed : Z) :
  0 <= seed < 2 ^ 991 ->
  exists s deck,
    createInitialState cfg seed = Ret (Proper s)
    /\ createShuffledDeck seed = mkArray (map Some deck) []
    /\ Permutation deck createDeck.
Proof.
  intros Hs.
  destruct (shuffleWithSeed_natural createDeck seed Hs createDeck_fits)
    as (cs & Ed & Hperm).
  destruct (createInitialState_full cfg seed cs) as (s & E).
  { cbn [createShuffledDeck]. now rewrite Ed. }
  exists s, cs. split; [exact E |]. split; [exact Ed | exact Hperm].
Qed.

(** So it is without a seed, when [Math.random()] returns doubles in
    [0, 1). *)
Lemma createInitialState_unit cfg random :
  (forall c, unitDouble (random c)) ->
  exists s deck,
    createInitialState cfg (Unseeded random) = Ret (Proper s)
    /\ createShuffledDeck (Unseeded random) = mkArray (map Some deck) []
    /\ Permutation deck createDeck.
Proof.
  intros Hr.
  destruct (shuffle_unit random createDeck Hr createDeck_fits)
    as (cs & Ed & Hperm).
  destruct (createInitialState_full cfg (Unseeded random) cs) as (s & E).
  { cbn [createShuffledDeck]. now rewrite Ed. }
  exists s, cs. split; [exact E |]. split; [exact Ed | exact Hperm].
Qed.

(** ** Card conservation *)

Lemma drawFromStock_cardIds now s :
  Permutation (cardIds (drawFromStock now s)) (cardIds s).
Proof.
  destruct (cards (stock s)) as [| c cs] eqn:Hst.
  { now rewrite drawFromStock_noop. }
  destruct (drawFromStock_draws now s) as (base & top & _ & _ & E & ->);
    [rewrite Hst; discriminate |].
  unfold cardIds, getAllCards. cbn [stock waste foundations tableau set_cards cards].
  rewrite E, <- !app_assoc, !map_app.
  apply Permutation_app_head.
  rewrite (Permutation_app_swap_app (map id (cards (waste s)))).
  apply Permutation_app.
  - unfold faceUpCard. rewrite map_id_flip. apply Permutation_map, Permutation_rev.
  - reflexivity.
Qed.

Lemma resetStock_cardIds s : Permutation (cardIds (resetStock s)) (cardIds s).
Proof.
  destruct (cards (waste s)) as [| c cs] eqn:Hw.
  { rewrite resetStock_noop by auto. reflexivity. }
  destruct (resetPermitted s) eqn:Hp.
  2:{ rewrite resetStock_noop by auto. reflexivity. }
  rewrite resetStock_recycles by (rewrite ?Hw; auto; discriminate).
  unfold cardIds, getAllCards. cbn [stock waste foundations tableau set_cards cards].
  rewrite <- !app_assoc, !map_app. cbn [app].
  apply Permutation_app_head. apply Permutation_app_tail.
  unfold faceDownCard. rewrite map_id_flip.
  apply Permutation_map. symmetry. apply Permutation_rev.
Qed.

Lemma flipTableauCard_cardIds now s i r s' :
  flipTableauCard now s i = Ret r -> result_state r = Some s' ->
  cardIds s' = cardIds s.
Proof.
  intros Hr Hs.
  destruct (flipTableauCard_spec now s i) as (r' & Hr' & _ & Hfail & Hok).
  rewrite Hr in Hr'. injection Hr' as <-.
  destruct (success r) eqn:Hsucc.
  2:{ destruct (Hfail eq_refl) as [Hn _]. congruence. }
  destruct (Hok eq_refl) as (col & front & top & Hcol & Hcs & _ & Hst & _).
  rewrite Hs in Hst. injection Hst as ->.
  destruct (t7_set_list (tableau s) i col Hcol) as (P1 & P2 & E & E').
  unfold cardIds, getAllCards. cbn [stock waste foundations tableau].
  rewrite E, E', !flat_map_app. cbn [flat_map set_cards cards].
  rewrite Hcs, !map_app. reflexivity.
Qed.

(** The state an auto-move returns is the state of an [executeMove]. *)
Lemma autoMoveToFoundation_executes now s from r s' :
  autoMoveToFoundation now s from = Ret r -> result_state r = Some s' ->
  exists to n, executeMove now s from to n = Ret r.
Proof.
  unfold autoMoveToFoundation, failure.
  repeat match goal with
         | |- (Ret (mkResult false None _ None) = Ret _) -> _ =>
             intros [= <-]; discriminate
         | |- (executeMove _ _ _ ?to ?n = Ret _) -> _ => intros; eauto
         | |- (Throw _ = Ret _) -> _ => discriminate
         | |- (bind ?m _ = Ret _) -> _ => destruct m; cbn [bind]
         | |- context [match ?x with _ => _ end] => destruct x
         end.
Qed.

Lemma autoCompleteStep_executes now s s' :
  autoCompleteStep now s = Ret (Some s') ->
  exists from to r, executeMove now s from to 1 = Ret r
                    /\ result_state r = Some s'.
Proof.
  unfold autoCompleteStep.
  destruct (findAutoCompleteMove s) as [[from to] |]; [| discriminate].
  destruct (executeMove now s from to 1) as [r | e] eqn:E; cbn [bind];
    [| discriminate].
  destruct (success r); [| discriminate].
  intros [= H]. eauto.
Qed.

Lemma executeMove_cardIds now s from to n r s' :
  executeMove now s from to n = Ret r -> result_state r = Some s' ->
  Permutation (cardIds s') (cardIds s).
Proof.
  intros Hr Hs.
  destruct (isValidMove s from to n) as [[|] | e] eqn:E.
  - destruct (executeMove_valid now s from to n E) as (s2 & m & Hr2 & P & _).
    rewrite Hr in Hr2. injection Hr2 as ->. simpl in Hs.
    now injection Hs as <-.
  - rewrite (executeMove_invalid now s from to n E) in Hr.
    injection Hr as <-. discriminate.
  - rewrite (executeMove_raises now s from to n e E) in Hr. discriminate.
Qed.

(** Every reachable table holds the card identities of the deck. *)
Lemma reachable_cardIds cfg seed s :
  reachable cfg seed s -> Permutation (cardIds s) (map id createDeck).
Proof.
  induction 1 as [s E | now s _ IH | s _ IH | now s from to n r s' _ IH Hr Hs
                  | now s i r s' _ IH Hr Hs | now s from r s' _ IH Hr Hs
                  | now s s' _ IH Hr].
  - now destruct (createInitialState_spec cfg seed s E) as (P & _).
  - now rewrite drawFromStock_cardIds.
  - now rewrite resetStock_cardIds.
  - now rewrite (executeMove_cardIds _ _ _ _ _ _ _ Hr Hs).
  - now rewrite (flipTableauCard_cardIds _ _ _ _ _ Hr Hs).
  - destruct (autoMoveToFoundation_executes _ _ _ _ _ Hr Hs) as (to & n & He).
    now rewrite (executeMove_cardIds _ _ _ _ _ _ _ He Hs).
  - destruct (autoCompleteStep_executes _ _ _ Hr) as (from & to & r & He & Hs).
    now rewrite (executeMove_cardIds _ _ _ _ _ _ _ He Hs).
Qed.

(** C2 (the code departs from the specification): [createInitialState] does
    not always deal the 52 cards.  The generator of [shuffleWithSeed] keeps
    the sign of its state ([%] is a remainder, not a modulus), so with a
    negative seed the shuffle picks negative indices: the swap stores the
    card under a name that is no index and leaves [undefined] in the array.
    With the seed -315737 (default configuration) [createInitialState]
    returns a table that has 28 cards in its columns and 24 entries in its
    stock of which only 4 are cards: 32 cards in all.  From the seed
    [2^994] on the product overflows and the state is [NaN]: with the seed
    [2^1000] the table has 51 cards, its stock holding one [undefined].
    With the seed -1 the first index picked is -27, an [undefined] comes
    among the first 28 entries and [createInitialState] raises a
    TypeError. *)
Theorem C2_createInitialState_loses_cards :
  (exists entries s,
     createInitialState defaultPartial (-315737) = Ret (Spoiled entries s)
     /\ length (getAllCards s) = 28%nat
     /\ length entries = 24%nat
     /\ length (defined entries) = 4%nat)
  /\ (exists entries s,
        createInitialState defaultPartial (2 ^ 1000) = Ret (Spoiled entries s)
        /\ length (getAllCards s) = 28%nat
        /\ length entries = 24%nat
        /\ length (defined entries) = 23%nat)
  /\ createInitialState defaultPartial (-1) = Throw TypeError
  /\ Num.floor (Num.mul (Num.divPow2 (lcg_next (-1)) 31) 52) = F_int (-27)
  /\ lcg_next (2 ^ 994) = NaN.
Proof.
  split; [do 2 eexists; conj_vm |].
  split; [do 2 eexists; conj_vm |].
  conj_vm.
Qed.

(** X25: card conservation.  Let [createInitialState(config, seed)] --
    any configuration, the seed any number or absent -- return a table of
    cards: it did not raise and put no [undefined] into the stock.  Then
    that table and every table reached from it by any sequence of
    [drawFromStock], [resetStock], [executeMove], [flipTableauCard],
    [autoMoveToFoundation] and [autoCompleteStep] holds exactly 52 cards
    across stock, waste, foundations and tableau, with pairwise-distinct
    identities -- the identities of the 52-card deck. *)
Theorem X25_card_conservation (cfg : PartialConfig) (seed : Seed)
  (s : GameState) :
  reachable cfg seed s ->
  length (getAllCards s) = 52%nat
  /\ NoDup (map id (getAllCards s))
  /\ Permutation (map id (getAllCards s)) (map id createDeck).
Proof.
  intros Hr. pose proof (reachable_cardIds cfg seed s Hr) as P.
  unfold cardIds in P. split; [| split; [| exact P]].
  - rewrite <- (length_map id), (Permutation_length P), length_map.
    apply createDeck_length.
  - apply (Permutation_NoDup (Permutation_sym P)), createDeck_ids_NoDup.
Qed.

Lemma X25_card_conservation_witness :
  reachable defaultPartial 42 (drawFromStock 1000 (dealt defaultPartial 42))
  /\ length (getAllCards (drawFromStock 1000 (dealt defaultPartial 42))) = 52%nat
  /\ NoDup (map id (getAllCards (drawFromStock 1000 (dealt defaultPartial 42))))
  /\ Permutation
       (map id (getAllCards (drawFromStock 1000 (dealt defaultPartial 42))))
       (map id createDeck).
Proof.
  assert (Hr : reachable defaultPartial 42
                 (drawFromStock 1000 (dealt defaultPartial 42))).
  { apply reach_draw, reach_init. vm_compute. reflexivity. }
  split; [exact Hr |].
  exact (X25_card_conservation defaultPartial 42 _ Hr).
Defined.

(** ** The scenarios of the test suite, on the deal of seed 42 *)

Example deal42_layout :
  exists s,
    createInitialState defaultPartial 42 = Ret (Proper s)
    /\ map (fun p => length (cards p)) (t7_list (tableau s))
       = [1; 2; 3; 4; 5; 6; 7]%nat
    /\ map (fun p => map faceUp (cards p)) (t7_list (tableau s))
       = [[true]; [false; true]; [false; false; true];
          [false; false; false; true]; [false; false; false; false; true];
          [false; false; false; false; false; true];
          [false; false; false; false; false; false; true]]
    /\ length (cards (stock s)) = 24%nat
    /\ forallb (fun c => negb (faceUp c)) (cards (stock s)) = true
    /\ cards (waste s) = []
    /\ flat_map cards (t4_list (foundations s)) = []
    /\ score s = 0 /\ moves s = 0 /\ checkWinCondition s = false.
Proof. eexists. conj_vm. Qed.

Example draw_three_exhaustion :
  exists s s8,
    createInitialState (mkPartial (Some draw_three) None None None) 42 = Ret (Proper s)
    /\ s8 = drawTimes 8 1000 s
    /\ cards (stock s8) = []
    /\ length (cards (waste s8)) = 24%nat
    /\ moves s8 = 8
    /\ drawFromStock 2000 s8 = s8.
Proof. do 2 eexists. conj_vm. Qed.

Example flipCard_same_face c : flipCard c (faceUp c) = c.
Proof. unfold flipCard. now rewrite Bool.eqb_reflx. Qed.

Example vegas_buy_in :
  exists s, createInitialState vegasPartial 42 = Ret (Proper s) /\ score s = -52.
Proof. eexists. conj_vm. Qed.

(* ================================================================== *)
(** * Further properties of the engine *)

(** ** deck.ts *)

(** X1: for every integer seed in [0, 2^991) and every array (of fewer
    than [2^32] entries, the most an array has), [shuffleWithSeed] returns a
    rearrangement of the array: no entry of the result is [undefined],
    nothing is stored beside the entries, and the entries are the elements
    of the array with the same multiplicities, hence as many; the input is
    not consumed. *)
Theorem X1_shuffleWithSeed_permutation (A : Type) (array : list A) (seed : Z) :
  0 <= seed < 2 ^ 991 ->
  Z.of_nat (length array) <= 2 ^ 32 - 1 ->
  exists result,
    shuffleWithSeed array seed = mkArray (map Some result) []
    /\ Permutation result array
    /\ length result = length array
    /\ (forall x, In x result <-> In x array).
Proof.
  intros Hs Hlen.
  destruct (shuffleWithSeed_natural array seed Hs Hlen) as (xs & E & P).
  exists xs. split; [exact E |]. split; [exact P |].
  split; [exact (Permutation_length P) |].
  intros x. split; apply Permutation_in; [exact P | symmetry; exact P].
Qed.

Lemma X1_shuffleWithSeed_permutation_witness :
  0 <= 42 < 2 ^ 991
  /\ Z.of_nat (length [1; 2; 3; 4; 5]) <= 2 ^ 32 - 1
  /\ exists result,
       shuffleWithSeed [1; 2; 3; 4; 5] 42 = mkArray (map Some result) []
       /\ Permutation result [1; 2; 3; 4; 5]
       /\ length result = length [1; 2; 3; 4; 5]
       /\ (forall x, In x result <-> In x [1; 2; 3; 4; 5]).
Proof.
  assert (H1 : 0 <= 42 < 2 ^ 991)
    by (split; [lia | apply Z.lt_le_trans with (2 ^ 6);
                      [reflexivity | apply pow2_le; lia]]).
  assert (H2 : Z.of_nat (length [1; 2; 3; 4; 5]) <= 2 ^ 32 - 1)
    by (cbn; lia).
  split; [exact H1 |]. split; [exact H2 |].
  exact (X1_shuffleWithSeed_permutation Z [1; 2; 3; 4; 5] 42 H1 H2).
Defined.

Lemma createDeck_faceDown : Forall (fun c => faceUp c = false) createDeck.
Proof. repeat constructor. Qed.

Lemma deck_faceDown deck :
  Permutation deck createDeck -> Forall (fun c => faceUp c = false) deck.
Proof.
  intros P. apply (Permutation_Forall (Permutation_sym P)).
  apply createDeck_faceDown.
Qed.

Lemma deck_length deck : Permutation deck createDeck -> length deck = 52%nat.
Proof.
  intros P. rewrite (Permutation_length P). apply createDeck_length.
Qed.

(** The table [createInitialState] builds from a deck whose first 28 cards
    are given: the classic triangle, dealt row by row. *)
Lemma createInitialState_explicit cfg seed
  d0 d1 d2 d3 d4 d5 d6 d7 d8 d9 d10 d11 d12 d13 d14 d15 d16 d17 d18 d19 d20
  d21 d22 d23 d24 d25 d26 d27 rest :
  elems (createShuffledDeck seed) =
  map Some
    (d0 :: d1 :: d2 :: d3 :: d4 :: d5 :: d6 :: d7 :: d8 :: d9 :: d10 :: d11
        :: d12 :: d13 :: d14 :: d15 :: d16 :: d17 :: d18 :: d19 :: d20 :: d21
        :: d22 :: d23 :: d24 :: d25 :: d26 :: d27 :: rest) ->
  createInitialState cfg seed =
  Ret (Proper (mkState
         (set_cards (createPile stock_t 0) rest)
         (createPile waste_t 0)
         (T4 (createPile foundation_t 0) (createPile foundation_t 1)
             (createPile foundation_t 2) (createPile foundation_t 3))
         (T7 (set_cards (createPile tableau_t 0) [flipCard d0 true])
             (set_cards (createPile tableau_t 1)
                [flipCard d1 false; flipCard d7 true])
             (set_cards (createPile tableau_t 2)
                [flipCard d2 false; flipCard d8 false; flipCard d13 true])
             (set_cards (createPile tableau_t 3)
                [flipCard d3 false; flipCard d9 false; flipCard d14 false;
                 flipCard d18 true])
             (set_cards (createPile tableau_t 4)
                [flipCard d4 false; flipCard d10 false; flipCard d15 false;
                 flipCard d19 false; flipCard d22 true])
             (set_cards (createPile tableau_t 5)
                [flipCard d5 false; flipCard d11 false; flipCard d16 false;
                 flipCard d20 false; flipCard d23 false; flipCard d25 true])
             (set_cards (createPile tableau_t 6)
                [flipCard d6 false; flipCard d12 false; flipCard d17 false;
                 flipCard d21 false; flipCard d24 false; flipCard d26 false;
                 flipCard d27 true]))
         (getInitialScore (scoringMode (mergeConfig cfg)))
         0 None None false 0 (mergeConfig cfg))).
Proof.
  intros E. unfold createInitialState.
  destruct (createShuffledDeck seed) as [entries others].
  cbn [elems map] in E. subst entries.
  pose proof (allDefined_full rest) as Hall.
  generalize dependent (map Some rest). intros rs Hall.
  cbv -[flipCard mergeConfig getInitialScore scoringMode Arr.allDefined].
  rewrite Hall. reflexivity.
Qed.

(** The deal of a deck whose first 28 entries are cards *)
Lemma createInitialState_front cfg seed
  d0 d1 d2 d3 d4 d5 d6 d7 d8 d9 d10 d11 d12 d13 d14 d15 d16 d17 d18 d19 d20
  d21 d22 d23 d24 d25 d26 d27 rest :
  elems (createShuffledDeck seed) =
  Some d0 :: Some d1 :: Some d2 :: Some d3 :: Some d4 :: Some d5 :: Some d6
    :: Some d7 :: Some d8 :: Some d9 :: Some d10 :: Some d11 :: Some d12
    :: Some d13 :: Some d14 :: Some d15 :: Some d16 :: Some d17 :: Some d18
    :: Some d19 :: Some d20 :: Some d21 :: Some d22 :: Some d23 :: Some d24
    :: Some d25 :: Some d26 :: Some d27 :: rest ->
  exists s,
    createInitialState cfg seed
    = Ret (match Arr.allDefined rest with
           | Some stockCards => Proper (set_stock s (set_cards (stock s) stockCards))
           | None => Spoiled rest s
           end)
    /\ cards (stock s) = [] /\ length (getAllCards s) = 28%nat.
Proof.
  intros E. unfold createInitialState.
  destruct (createShuffledDeck seed) as [entries others].
  cbn [elems] in E. subst entries.
  exists (mkState
         (createPile stock_t 0)
         (createPile waste_t 0)
         (T4 (createPile foundation_t 0) (createPile foundation_t 1)
             (createPile foundation_t 2) (createPile foundation_t 3))
         (T7 (set_cards (createPile tableau_t 0) [flipCard d0 true])
             (set_cards (createPile tableau_t 1)
                [flipCard d1 false; flipCard d7 true])
             (set_cards (createPile tableau_t 2)
                [flipCard d2 false; flipCard d8 false; flipCard d13 true])
             (set_cards (createPile tableau_t 3)
                [flipCard d3 false; flipCard d9 false; flipCard d14 false;
                 flipCard d18 true])
             (set_cards (createPile tableau_t 4)
                [flipCard d4 false; flipCard d10 false; flipCard d15 false;
                 flipCard d19 false; flipCard d22 true])
             (set_cards (createPile tableau_t 5)
                [flipCard d5 false; flipCard d11 false; flipCard d16 false;
                 flipCard d20 false; flipCard d23 false; flipCard d25 true])
             (set_cards (createPile tableau_t 6)
                [flipCard d6 false; flipCard d12 false; flipCard d17 false;
                 flipCard d21 false; flipCard d24 false; flipCard d26 false;
                 flipCard d27 true]))
         (getInitialScore (scoringMode (mergeConfig cfg)))
         0 None None false 0 (mergeConfig cfg)).
  split; [| split; reflexivity].
  cbv -[flipCard mergeConfig getInitialScore scoringMode Arr.allDefined].
  destruct (Arr.allDefined rest); reflexivity.
Qed.

(** The three outcomes of the deal, by the entries of the shuffled deck. *)
Lemma createInitialState_outcomes cfg seed :
  (exists k, (k < 28)%nat /\ Arr.entry (createShuffledDeck seed) k = None
             /\ createInitialState cfg seed = Throw TypeError)
  \/ (exists front rest s,
        elems (createShuffledDeck seed) = map Some front ++ rest
        /\ length front = 28%nat
        /\ cards (stock s) = [] /\ length (getAllCards s) = 28%nat
        /\ createInitialState cfg seed
           = Ret (match Arr.allDefined rest with
                  | Some stockCards =>
                      Proper (set_stock s (set_cards (stock s) stockCards))
                  | None => Spoiled rest s
                  end)).
Proof.
  destruct (entries_defined_dec (elems (createShuffledDeck seed)) 28)
    as [Hall | (k & Hk & Hu)].
  - right. destruct (firstn_defined 28 _ Hall) as (front & Hfront).
    assert (Hlen : length front = 28%nat).
    { rewrite <- (length_map Some), <- Hfront, length_firstn.
      destruct (Hall 27%nat ltac:(lia)) as (c & Hc).
      assert (27 < length (elems (createShuffledDeck seed)))%nat
        by (apply nth_error_Some; congruence).
      lia. }
    assert (E : elems (createShuffledDeck seed)
                = map Some front ++ skipn 28 (elems (createShuffledDeck seed)))
      by (rewrite <- Hfront; symmetry; apply firstn_skipn).
    set (rest := skipn 28 (elems (createShuffledDeck seed))) in *.
    clearbody rest. clear Hfront Hall.
    destruct front as [| d0 front]; [discriminate |].
    do 27 (destruct front as [| ? front]; [discriminate |]).
    destruct front; [| discriminate].
    destruct (createInitialState_front cfg seed _ _ _ _ _ _ _ _ _ _ _ _ _ _ _
                _ _ _ _ _ _ _ _ _ _ _ _ _ rest E) as (s & Hs & Hst & Hcount).
    eexists _, rest, s. split; [exact E |]. auto.
  - left. exists k. split; [exact Hk |]. split; [exact Hu |].
    destruct (createInitialState cfg seed) as [d | []] eqn:E; [| reflexivity].
    destruct (createInitialState_read cfg seed d E k Hk) as (c & Hc).
    rewrite Hc in Hu. discriminate.
Qed.

(** X2: the layout of the deal.  Whenever [createInitialState] returns a
    table of cards -- any configuration, the seed any number or absent --
    the shuffled deck had no [undefined] entry and was a rearrangement of
    the 52 cards; column [i] of the table holds [i + 1] cards of which only
    the last is face-up, the stock holds the remaining 24 cards of the
    shuffled deck in deck order and face-down, the waste and the four
    foundations are empty, the score is the mode's starting score (-52 in
    vegas mode, 0 otherwise), and the counters, timers and the won flag are
    at their initial values. *)
Theorem X2_createInitialState_layout (cfg : PartialConfig) (seed : Seed)
  (s : GameState) :
  createInitialState cfg seed = Ret (Proper s) ->
  exists deck,
    elems (createShuffledDeck seed) = map Some deck
    /\ Permutation deck createDeck
    /\ map (fun p => length (cards p)) (t7_list (tableau s))
       = [1; 2; 3; 4; 5; 6; 7]%nat
    /\ map (fun p => map faceUp (cards p)) (t7_list (tableau s))
       = [[true]; [false; true]; [false; false; true];
          [false; false; false; true]; [false; false; false; false; true];
          [false; false; false; false; false; true];
          [false; false; false; false; false; false; true]]
    /\ cards (stock s) = skipn 28 deck
    /\ length (cards (stock s)) = 24%nat
    /\ Forall (fun c => faceUp c = false) (cards (stock s))
    /\ cards (waste s) = []
    /\ flat_map cards (t4_list (foundations s)) = []
    /\ score s = (match scoringMode (mergeConfig cfg) with
                  | vegas => -52
                  | _ => 0
                  end)
    /\ moves s = 0 /\ stockPasses s = 0
    /\ startTime s = None /\ endTime s = None /\ isWon s = false
    /\ config s = mergeConfig cfg.
Proof.
  intros Hs.
  destruct (createInitialState_deck cfg seed s Hs) as (deck & E & Hperm).
  exists deck. split; [exact E |]. split; [exact Hperm |].
  pose proof (deck_length deck Hperm) as Hlen.
  pose proof (deck_faceDown deck Hperm) as Hdown.
  clear Hperm. destruct deck as [| d0 deck]; [discriminate |].
  do 27 (destruct deck as [| ? deck]; [discriminate |]).
  rewrite (createInitialState_explicit _ _ _ _ _ _ _ _ _ _ _ _ _ _ _ _ _ _ _
             _ _ _ _ _ _ _ _ _ _ _ _ E) in Hs.
  injection Hs as <-.
  unfold set_cards, createPile.
  cbn [tableau stock waste foundations score moves stockPasses startTime
       endTime isWon config t7_list t4_list map cards Datatypes.length
       flat_map app skipn t7_0 t7_1 t7_2 t7_3 t7_4 t7_5 t7_6
       t4_0 t4_1 t4_2 t4_3].
  rewrite !flipCard_faceUp.
  repeat split;
    try (simpl in Hlen; lia);
    try (do 28 (apply Forall_inv_tail in Hdown); exact Hdown);
    try (unfold getInitialScore, VEGAS_initialCost;
         destruct (scoringMode (mergeConfig cfg)); reflexivity).
Qed.

Lemma X2_createInitialState_layout_witness :
  createInitialState vegasPartial 42 = Ret (Proper (dealt vegasPartial 42))
  /\ exists deck,
       elems (createShuffledDeck 42) = map Some deck
       /\ Permutation deck createDeck
       /\ map (fun p => length (cards p))
              (t7_list (tableau (dealt vegasPartial 42)))
          = [1; 2; 3; 4; 5; 6; 7]%nat
       /\ map (fun p => map faceUp (cards p))
              (t7_list (tableau (dealt vegasPartial 42)))
          = [[true]; [false; true]; [false; false; true];
             [false; false; false; true]; [false; false; false; false; true];
             [false; false; false; false; false; true];
             [false; false; false; false; false; false; true]]
       /\ cards (stock (dealt vegasPartial 42)) = skipn 28 deck
       /\ length (cards (stock (dealt vegasPartial 42))) = 24%nat
       /\ Forall (fun c => faceUp c = false)
                 (cards (stock (dealt vegasPartial 42)))
       /\ cards (waste (dealt vegasPartial 42)) = []
       /\ flat_map cards (t4_list (foundations (dealt vegasPartial 42))) = []
       /\ score (dealt vegasPartial 42)
          = (match scoringMode (mergeConfig vegasPartial) with
             | vegas => -52
             | _ => 0
             end)
       /\ moves (dealt vegasPartial 42) = 0
       /\ stockPasses (dealt vegasPartial 42) = 0
       /\ startTime (dealt vegasPartial 42) = None
       /\ endTime (dealt vegasPartial 42) = None
       /\ isWon (dealt vegasPartial 42) = false
       /\ config (dealt vegasPartial 42) = mergeConfig vegasPartial.
Proof.
  assert (H : createInitialState vegasPartial 42
              = Ret (Proper (dealt vegasPartial 42)))
    by (vm_compute; reflexivity).
  split; [exact H |].
  exact (X2_createInitialState_layout vegasPartial 42 _ H).
Defined.

(** X26: [createInitialState] with a usable seed.  For every configuration
    and every integer seed in [0, 2^991), [createInitialState] does not
    raise and returns a table of cards (to which X2 and what is shown of
    the tables of a game apply); the deck it deals is
    [shuffleWithSeed(createDeck(), seed)], a rearrangement of the 52
    cards. *)
Theorem X26_createInitialState_returns (cfg : PartialConfig) (seed : Z) :
  0 <= seed < 2 ^ 991 ->
  exists s deck,
    createInitialState cfg seed = Ret (Proper s)
    /\ createShuffledDeck seed = mkArray (map Some deck) []
    /\ Permutation deck createDeck
    /\ reachable cfg seed s.
Proof.
  intros Hs.
  destruct (createInitialState_natural cfg seed Hs) as (s & deck & E & Ed & P).
  exists s, deck. repeat split; auto. now apply reach_init.
Qed.

Lemma X26_createInitialState_returns_witness :
  0 <= 7 < 2 ^ 991
  /\ exists s deck,
       createInitialState vegasPartial 7 = Ret (Proper s)
       /\ createShuffledDeck 7 = mkArray (map Some deck) []
       /\ Permutation deck createDeck
       /\ reachable vegasPartial 7 s.
Proof.
  assert (H : 0 <= 7 < 2 ^ 991)
    by (split; [lia | apply Z.lt_le_trans with (2 ^ 3);
                      [reflexivity | apply pow2_le; lia]]).
  split; [exact H |].
  exact (X26_createInitialState_returns vegasPartial 7 H).
Defined.

(** X27: a shuffle without a gap is a rearrangement.  Whatever the seed is
    -- negative, fractional, huge, [NaN] -- and whatever [Math.random()]
    returns when no seed is given, the swaps of [shuffleWithSeed] and of
    [shuffle] never drop or repeat a value of the array object: a value
    that is not among the entries is stored under a name that is no index.
    So a result without [undefined] entries is a rearrangement of the
    array, and so is the deck of [createShuffledDeck]. *)
Theorem X27_shuffle_without_gap (A : Type) (array : list A) (seed : JsNum)
  (random : nat -> JsNum) :
  Permutation (held (shuffleWithSeed array seed)) array
  /\ Permutation (held (shuffle random array)) array
  /\ (forall result,
        elems (shuffleWithSeed array seed) = map Some result ->
        Permutation result array)
  /\ (forall result,
        elems (shuffle random array) = map Some result ->
        Permutation result array)
  /\ (forall deck,
        elems (createShuffledDeck seed) = map Some deck
        \/ elems (createShuffledDeck (Unseeded random)) = map Some deck ->
        Permutation deck createDeck).
Proof.
  split.
  { unfold shuffleWithSeed.
    destruct (seededLoop_held (length array - 1) (Num.round seed)
                (Arr.ofList array)) as [P _].
    now rewrite ofList_held in P. }
  split.
  { unfold shuffle.
    destruct (randomLoop_held random (length array - 1) 0%nat
                (Arr.ofList array)) as [P _].
    now rewrite ofList_held in P. }
  split; [intros result; apply shuffleWithSeed_full |].
  split; [intros result; apply shuffle_full |].
  intros deck [H | H]; exact (createShuffledDeck_full _ deck H).
Qed.

(** X28: the three outcomes of [createInitialState], by the deck
    [createShuffledDeck(seed)] (seed any number, or absent).  It raises a
    TypeError exactly when one of the first 28 entries of the deck -- the
    ones dealt to the columns -- is [undefined].  It returns a table of
    cards exactly when no entry of the deck is [undefined].  In the
    remaining case it returns, without raising, a table whose stock holds
    the entries of the deck from index 28 on as they are, at least one of
    them [undefined]; the rest of that table holds the 28 cards of the
    columns. *)
Theorem X28_createInitialState_outcomes (cfg : PartialConfig) (seed : Seed) :
  (createInitialState cfg seed = Throw TypeError <->
   exists k, (k < 28)%nat /\ Arr.entry (createShuffledDeck seed) k = None)
  /\ ((exists s, createInitialState cfg seed = Ret (Proper s)) <->
      exists deck, elems (createShuffledDeck seed) = map Some deck)
  /\ (forall entries s,
        createInitialState cfg seed = Ret (Spoiled entries s) ->
        entries = skipn 28 (elems (createShuffledDeck seed))
        /\ In None entries
        /\ cards (stock s) = []
        /\ length (getAllCards s) = 28%nat).
Proof.
  pose proof (createInitialState_outcomes cfg seed) as Hcases.
  split; [| split].
  - split.
    + intros E.
      destruct Hcases as [(k & Hk & Hu & _) | (front & rest & s & _ & _ & _ & _ & E')];
        [eauto | congruence].
    + intros (k & Hk & Hu).
      destruct (createInitialState cfg seed) as [d | []] eqn:E; [| reflexivity].
      destruct (createInitialState_read cfg seed d E k Hk) as (c & Hc).
      unfold Arr.entry in Hu. rewrite Hc in Hu. discriminate.
  - split.
    + intros (s & E).
      destruct (createInitialState_deck cfg seed s E) as (deck & Ed & _). eauto.
    + intros (deck & Ed). exact (createInitialState_full cfg seed deck Ed).
  - intros entries s E.
    destruct Hcases as [(k & _ & _ & E') | (front & rest & s' & Ed & Hlen & Hst & Hcount & E')];
      [congruence |].
    rewrite E in E'. destruct (Arr.allDefined rest) as [cs |] eqn:Hall;
      [discriminate |].
    injection E' as -> ->. split; [| split; [| split]]; auto.
    + rewrite Ed, skipn_app, length_map, Hlen, Nat.sub_diag.
      rewrite skipn_all2 by (rewrite length_map; lia). reflexivity.
    + now apply allDefined_None.
Qed.

(** X29: the shuffle and the deal without a seed.  When every call of
    [Math.random()] returns a double in [0, 1), as it is specified to,
    [shuffle] rearranges the array (of fewer than [2^32] entries), leaving
    no entry [undefined] and storing nothing beside the entries, and
    [createInitialState] with no seed given does not raise and returns a
    table of cards, dealt from a rearrangement of the 52 cards. *)
Theorem X29_unseeded_shuffle_and_deal (A : Type) (array : list A)
  (cfg : PartialConfig) (random : nat -> JsNum) :
  (forall call, unitDouble (random call)) ->
  Z.of_nat (length array) <= 2 ^ 32 - 1 ->
  (exists result,
     shuffle random array = mkArray (map Some result) []
     /\ Permutation result array)
  /\ (exists s deck,
        createInitialState cfg (Unseeded random) = Ret (Proper s)
        /\ createShuffledDeck (Unseeded random) = mkArray (map Some deck) []
        /\ Permutation deck createDeck
        /\ reachable cfg (Unseeded random) s).
Proof.
  intros Hr Hlen. split; [exact (shuffle_unit random array Hr Hlen) |].
  destruct (createInitialState_unit cfg random Hr) as (s & deck & E & Ed & P).
  exists s, deck. repeat split; auto. now apply reach_init.
Qed.

Lemma X29_unseeded_shuffle_and_deal_witness :
  (forall call, unitDouble (Fin (Z.of_nat call * 37 mod 1024) (-10)))
  /\ Z.of_nat (length [1; 2; 3]) <= 2 ^ 32 - 1
  /\ (exists result,
        shuffle (fun call => Fin (Z.of_nat call * 37 mod 1024) (-10)) [1; 2; 3]
        = mkArray (map Some result) []
        /\ Permutation result [1; 2; 3])
  /\ (exists s deck,
        createInitialState defaultPartial
          (Unseeded (fun call => Fin (Z.of_nat call * 37 mod 1024) (-10)))
        = Ret (Proper s)
        /\ createShuffledDeck
             (Unseeded (fun call => Fin (Z.of_nat call * 37 mod 1024) (-10)))
           = mkArray (map Some deck) []
        /\ Permutation deck createDeck
        /\ reachable defaultPartial
             (Unseeded (fun call => Fin (Z.of_nat call * 37 mod 1024) (-10)))
             s).
Proof.
  assert (H1 : forall call,
             unitDouble (Fin (Z.of_nat call * 37 mod 1024) (-10))).
  { intros call. exists (Z.of_nat call * 37 mod 1024), (-10).
    pose proof (Z.mod_pos_bound (Z.of_nat call * 37) 1024 ltac:(lia)) as Hb.
    split; [reflexivity |]. split.
    - split; [lia |]. apply Z.lt_le_trans with (2 ^ 10); [cbn; lia |].
      apply pow2_le. lia.
    - split; [lia |]. change (2 ^ (- -10)) with 1024. lia. }
  assert (H2 : Z.of_nat (length [1; 2; 3]) <= 2 ^ 32 - 1) by (cbn; lia).
  split; [exact H1 |]. split; [exact H2 |].
  exact (X29_unseeded_shuffle_and_deal Z [1; 2; 3] defaultPartial
           (fun call => Fin (Z.of_nat call * 37 mod 1024) (-10)) H1 H2).
Defined.

(** ** game.ts: drawing and recycling *)

(** X3: [drawFromStock] returns its argument unchanged when the stock is
    empty.  Otherwise it moves the top [min(drawCount, stock size)] cards of
    the stock ([drawCount] is 3 in draw-three mode and 1 in draw-one mode)
    onto the waste, face-up and in reverse order (the former stock top ends
    lowest of the moved cards), adds one to [moves], starts the timer if it
    was not running, and changes nothing else. *)
Theorem X3_drawFromStock_effect (now : Z) (s : GameState) :
  (cards (stock s) = [] -> drawFromStock now s = s)
  /\ (cards (stock s) <> [] ->
      exists base top,
        top <> []
        /\ Js.len top = drawCountOf s
        /\ cards (stock s) = base ++ rev top
        /\ drawFromStock now s =
           mkState (set_cards (stock s) base)
                   (set_cards (waste s)
                      (cards (waste s) ++ map faceUpCard top))
                   (foundations s) (tableau s) (score s) (moves s + 1)
                   (match startTime s with
                    | None => Some now
                    | Some t => Some t
                    end)
                   (endTime s) (isWon s) (stockPasses s) (config s)).
Proof.
  split; [apply drawFromStock_noop | apply drawFromStock_draws].
Qed.

(** X4: [resetStock] returns its argument unchanged when the waste is empty
    or when the game is in vegas mode with limited passes and three passes
    used.  Otherwise it puts the whole waste back on the stock, reversed and
    face-down, empties the waste, adds one to [stockPasses] and to [moves],
    and sets the score to [max(0, score + penalty)], the penalty being -20 in
    standard draw-three mode and 0 otherwise; in particular the score is
    never negative after a recycle. *)
Theorem X4_resetStock_effect (s : GameState) :
  (cards (waste s) = [] \/ resetPermitted s = false -> resetStock s = s)
  /\ (cards (waste s) <> [] /\ resetPermitted s = true ->
      resetStock s =
      mkState (set_cards (stock s)
                 (cards (stock s) ++ map faceDownCard (rev (cards (waste s)))))
              (set_cards (waste s) [])
              (foundations s) (tableau s)
              (Z.max 0 (score s + getRecycleWastePenalty s))
              (moves s + 1) (startTime s) (endTime s) (isWon s)
              (stockPasses s + 1) (config s)
      /\ 0 <= score (resetStock s)
      /\ getRecycleWastePenalty s
         = (match scoringMode (config s), drawMode (config s) with
            | standard, draw_three => -20
            | _, _ => 0
            end)).
Proof.
  split; [apply resetStock_noop |].
  intros [Hw Hp]. rewrite (resetStock_recycles s Hw Hp).
  split; [reflexivity |]. split; [cbn [score]; lia |].
  unfold getRecycleWastePenalty, STANDARD_recycleWaste.
  destruct (scoringMode (config s)), (drawMode (config s)); reflexivity.
Qed.

(** ** rules.ts: picking up and validating *)

(** X6: [canPickUpCards] never allows a pick-up from a pile tagged stock;
    from a pile tagged waste or foundation it allows exactly the index of the
    last card (which is -1 on an empty pile); from a tableau column it
    raises a TypeError for a negative index and otherwise answers whether
    every card from the index to the end is face-up -- so it answers [true]
    for any index at or beyond the end of the column. *)
Theorem X6_canPickUpCards_spec (pile : Pile) (fromIndex : Z) :
  (type pile = stock_t -> canPickUpCards pile fromIndex = Ret false)
  /\ (type pile = waste_t \/ type pile = foundation_t ->
      canPickUpCards pile fromIndex
      = Ret (fromIndex =? Js.len (cards pile) - 1))
  /\ (type pile = tableau_t ->
      (fromIndex < 0 -> canPickUpCards pile fromIndex = Throw TypeError)
      /\ (0 <= fromIndex ->
          canPickUpCards pile fromIndex
          = Ret (forallb faceUp (skipn (Z.to_nat fromIndex) (cards pile))))
      /\ (Js.len (cards pile) <= fromIndex ->
          canPickUpCards pile fromIndex = Ret true)).
Proof.
  unfold canPickUpCards. split; [| split].
  - now intros ->.
  - now intros [-> | ->].
  - intros ->. split; [apply allFaceUpFrom_neg |]. split.
    + apply allFaceUpFrom_nonneg.
    + intros H. pose proof (len_nonneg (cards pile)).
      rewrite allFaceUpFrom_nonneg by lia.
      rewrite skipn_all2 by (unfold Js.len in *; lia). reflexivity.
Qed.

Lemma forallb_faceUp_Forall cs :
  forallb faceUp cs = true <-> Forall (fun c => faceUp c = true) cs.
Proof. rewrite forallb_forall, Forall_forall. reflexivity. Qed.

(** [isValidMove] answers [true] exactly under the conditions its body
    checks one after the other. *)
Lemma isValidMove_true_spec (s : GameState) (from to : CardLocation) (n : Z) :
  isValidMove s from to n = Ret true <->
  exists sp dp movingCard,
    getPile s from = Some sp
    /\ getPile s to = Some dp
    /\ Js.index (cards sp) (cardIndex from) = Some movingCard
    /\ n <= Js.len (cards sp) - cardIndex from
    /\ match type sp with
       | stock_t => False
       | waste_t | foundation_t => cardIndex from = Js.len (cards sp) - 1
       | tableau_t =>
           Forall (fun c => faceUp c = true)
                  (skipn (Z.to_nat (cardIndex from)) (cards sp))
       end
    /\ match type dp with
       | stock_t | waste_t => False
       | foundation_t => n = 1 /\ canPlaceOnFoundation movingCard dp = true
       | tableau_t => canPlaceOnTableau movingCard dp = true
       end.
Proof.
  split.
  - intros H. apply isValidMove_true_inv in H.
    destruct H as (sp & dp & mc & Hsp & Hdp & Hpick & Hn & Hmc & Hplace).
    exists sp, dp, mc. repeat (split; [assumption |]).
    pose proof (index_range _ _ _ Hmc) as Hr. split.
    + unfold canPickUpCards in Hpick. destruct (type sp).
      * discriminate.
      * injection Hpick as Hp. now apply Z.eqb_eq.
      * injection Hpick as Hp. now apply Z.eqb_eq.
      * rewrite allFaceUpFrom_nonneg in Hpick by lia.
        injection Hpick as Hp. now apply forallb_faceUp_Forall.
    + destruct Hplace as [(-> & Hn1 & Hp) | (-> & Hp)]; auto.
  - intros (sp & dp & mc & Hsp & Hdp & Hmc & Hn & Hpick & Hplace).
    pose proof (index_range _ _ _ Hmc) as Hr.
    unfold isValidMove. rewrite Hsp, Hdp.
    assert (Hp : canPickUpCards sp (cardIndex from) = Ret true).
    { unfold canPickUpCards. destruct (type sp).
      - contradiction.
      - f_equal. now apply Z.eqb_eq.
      - f_equal. now apply Z.eqb_eq.
      - rewrite allFaceUpFrom_nonneg by lia. f_equal.
        now apply forallb_faceUp_Forall. }
    rewrite Hp. cbn [bind negb].
    destruct (Z.gtb_spec n (Js.len (cards sp) - cardIndex from)); [lia |].
    rewrite Hmc. destruct (type dp); try contradiction.
    + destruct Hplace as [-> ->]. reflexivity.
    + now rewrite Hplace.
Qed.

(** X5: [isValidMove] answers [true] exactly when both locations name
    existing piles, the card index addresses a card of the source pile (the
    moving card), [cardCount] does not exceed the number of cards from that
    index to the end (there is no lower bound on [cardCount]), the source
    allows the pick-up (waste and foundation: the moving card is the last
    card; tableau: every card from the index on is face-up; stock: never),
    and the destination accepts the moving card (foundation: [cardCount] is 1
    and [canPlaceOnFoundation]; tableau: [canPlaceOnTableau]; stock and
    waste: never). *)
Theorem X5_isValidMove_true_iff (s : GameState) (from to : CardLocation) (n : Z) :
  isValidMove s from to n = Ret true <->
  exists sp dp movingCard,
    getPile s from = Some sp
    /\ getPile s to = Some dp
    /\ Js.index (cards sp) (cardIndex from) = Some movingCard
    /\ n <= Js.len (cards sp) - cardIndex from
    /\ match type sp with
       | stock_t => False
       | waste_t | foundation_t => cardIndex from = Js.len (cards sp) - 1
       | tableau_t =>
           Forall (fun c => faceUp c = true)
                  (skipn (Z.to_nat (cardIndex from)) (cards sp))
       end
    /\ match type dp with
       | stock_t | waste_t => False
       | foundation_t => n = 1 /\ canPlaceOnFoundation movingCard dp = true
       | tableau_t => canPlaceOnTableau movingCard dp = true
       end.
Proof. exact (isValidMove_true_spec s from to n). Qed.


(** ** game.ts: the effect of a move *)

Lemma samePile_refl a : samePile a a = true.
Proof. unfold samePile. destruct (pileType a); auto using Z.eqb_refl. Qed.

Lemma samePile_sym a b : samePile a b = samePile b a.
Proof.
  unfold samePile. destruct (pileType a), (pileType b); auto using Z.eqb_sym.
Qed.

Lemma getPile_samePile s a b :
  samePile a b = true -> getPile s a = getPile s b.
Proof.
  unfold samePile, getPile. destruct (pileType a), (pileType b);
    try discriminate; try reflexivity; intros H; apply Z.eqb_eq in H;
    now rewrite H.
Qed.

Lemma getPile_setPile_same s a b p p' :
  getPile s a = Some p -> samePile a b = true ->
  getPile (setPile s a p') b = Some p'.
Proof.
  intros Hp Hs. rewrite <- (getPile_samePile _ a b Hs).
  unfold getPile, setPile in *. destruct (pileType a); cbn; try reflexivity.
  - apply t4_get_set_same. eapply t4_get_range; eassumption.
  - apply t7_get_set_same. eapply t7_get_range; eassumption.
Qed.

Lemma getPile_setPile_other s a b p' :
  samePile a b = false -> getPile (setPile s a p') b = getPile s b.
Proof.
  unfold samePile, getPile, setPile.
  destruct (pileType a), (pileType b); cbn; try reflexivity; try discriminate;
    intros H; apply Z.eqb_neq in H.
  - now apply t4_get_set_other.
  - now apply t7_get_set_other.
Qed.

Lemma autoFlip_spec s from sp :
  autoFlip s from sp =
  if autoFlips (config s) (type sp) (cards sp)
  then (setPile s from (set_cards sp (topFaceUp (cards sp))), true)
  else (s, false).
Proof.
  unfold autoFlip, autoFlips, topFaceUp.
  destruct (PileType_eqb (type sp) tableau_t); cbn [andb]; [| reflexivity].
  destruct (autoFlipTableau (config s)); cbn [andb];
    [| now rewrite andb_false_r].
  rewrite andb_true_r.
  destruct (Js.at_last (cards sp)) as [top |] eqn:Htop.
  - apply at_last_Some in Htop. destruct Htop as (front & E).
    replace (Js.len (cards sp) >? 0) with true.
    + destruct (faceUp top); reflexivity.
    + symmetry. apply Z.gtb_lt. rewrite E, len_app.
      pose proof (len_nonneg front). change (Js.len [top]) with 1. lia.
  - destruct (Js.len (cards sp) >? 0); reflexivity.
Qed.

(** A valid move, step by step: splice the source, push on the destination
    as the store then is, auto-flip the source as the store then is, finish. *)
Lemma executeMove_explicit now s from to n :
  isValidMove s from to n = Ret true ->
  exists sp dp movingCard dp1 sp2,
    getPile s from = Some sp
    /\ getPile s to = Some dp
    /\ Js.index (cards sp) (cardIndex from) = Some movingCard
    /\ getPile (setPile s from
                  (set_cards sp (leftCards (cards sp) (cardIndex from) n)))
               to = Some dp1
    /\ getPile (setPile
                  (setPile s from
                     (set_cards sp (leftCards (cards sp) (cardIndex from) n)))
                  to
                  (set_cards dp1
                     (cards dp1 ++ movedCards (cards sp) (cardIndex from) n)))
               from = Some sp2
    /\ executeMove now s from to n =
       Ret (finishMove now from to n
              (fst (autoFlip
                      (setPile
                         (setPile s from
                            (set_cards sp
                               (leftCards (cards sp) (cardIndex from) n)))
                         to
                         (set_cards dp1
                            (cards dp1
                             ++ movedCards (cards sp) (cardIndex from) n)))
                      from sp2))
              (snd (autoFlip
                      (setPile
                         (setPile s from
                            (set_cards sp
                               (leftCards (cards sp) (cardIndex from) n)))
                         to
                         (set_cards dp1
                            (cards dp1
                             ++ movedCards (cards sp) (cardIndex from) n)))
                      from sp2))).
Proof.
  intros Hv. unfold executeMove. rewrite Hv. cbn [bind negb].
  rewrite cloneState_id.
  apply isValidMove_true_inv in Hv.
  destruct Hv as (sp & dp & mc & Hsp & Hdp & _ & _ & Hmc & _).
  exists sp, dp, mc.
  unfold getPile_nonnull at 1 2. rewrite Hsp, Hdp. cbn [bind].
  pose proof (index_range _ _ _ Hmc) as Hr.
  rewrite (splice_in_range (cards sp) (cardIndex from) n) by lia.
  fold (movedCards (cards sp) (cardIndex from) n).
  fold (leftCards (cards sp) (cardIndex from) n).
  set (s1 := setPile s from
               (set_cards sp (leftCards (cards sp) (cardIndex from) n))).
  destruct (getPile_setPile_defined s from
              (set_cards sp (leftCards (cards sp) (cardIndex from) n))
              to dp Hdp) as [dp1 Hdp1].
  fold s1 in Hdp1. exists dp1.
  unfold getPile_nonnull at 1. rewrite Hdp1. cbn [bind]. unfold Js.push.
  set (s2 := setPile s1 to
               (set_cards dp1
                  (cards dp1 ++ movedCards (cards sp) (cardIndex from) n))).
  assert (Hsp1 : exists sp1, getPile s1 from = Some sp1)
    by (apply (getPile_setPile_defined s from _ from sp Hsp)).
  destruct Hsp1 as [sp1 Hsp1].
  destruct (getPile_setPile_defined s1 to
              (set_cards dp1
                 (cards dp1 ++ movedCards (cards sp) (cardIndex from) n))
              from sp1 Hsp1) as [sp2 Hsp2].
  fold s2 in Hsp2. exists sp2.
  unfold getPile_nonnull. rewrite Hsp2. cbn [bind].
  repeat (split; [assumption || reflexivity |]).
  destruct (autoFlip s2 from sp2) as [s3 flipped]. reflexivity.
Qed.

Lemma getPile_ext s s' loc :
  stock s' = stock s -> waste s' = waste s ->
  foundations s' = foundations s -> tableau s' = tableau s ->
  getPile s' loc = getPile s loc.
Proof. unfold getPile. now intros -> -> -> ->. Qed.

Lemma checkWinCondition_ext s s' :
  foundations s' = foundations s -> checkWinCondition s' = checkWinCondition s.
Proof. unfold checkWinCondition. now intros ->. Qed.

Lemma calculateMoveScore_ext m s s' :
  config s' = config s -> calculateMoveScore m s' = calculateMoveScore m s.
Proof. unfold calculateMoveScore. now intros ->. Qed.

(** The bookkeeping leaves the piles alone. *)
Lemma finishMove_spec now from to n s3 flipped :
  exists s' m,
    finishMove now from to n s3 flipped = mkResult true (Some s') None (Some m)
    /\ stock s' = stock s3 /\ waste s' = waste s3
    /\ foundations s' = foundations s3 /\ tableau s' = tableau s3
    /\ m = mkMove from to n flipped
                  (calculateMoveScore (mkMove from to n flipped 0) s3)
    /\ score s' = score s3 + scoreChange m
    /\ moves s' = moves s3 + 1
    /\ startTime s' = (match startTime s3 with
                       | None => Some now
                       | Some t => Some t
                       end)
    /\ isWon s' = (checkWinCondition s3 || isWon s3)
    /\ endTime s' = (if checkWinCondition s3 then Some now else endTime s3)
    /\ stockPasses s' = stockPasses s3
    /\ config s' = config s3.
Proof.
  unfold finishMove.
  assert (Ec : forall m, calculateMoveScore m (startTimer now s3)
                         = calculateMoveScore m s3)
    by (intros; apply calculateMoveScore_ext; unfold startTimer;
        destruct (startTime s3); reflexivity).
  rewrite !Ec.
  match goal with
  | |- context [checkWinCondition ?x] =>
      replace (checkWinCondition x) with (checkWinCondition s3)
        by (symmetry; apply checkWinCondition_ext; unfold startTimer;
            destruct (startTime s3); reflexivity)
  end.
  destruct (checkWinCondition s3) eqn:Hwin;
    unfold startTimer; destruct (startTime s3) eqn:Hst;
    (eexists; eexists; split; [reflexivity |]); cbn;
    repeat split; rewrite ?Hst; reflexivity.
Qed.

Lemma set_cards_set_cards p a b : set_cards (set_cards p a) b = set_cards p b.
Proof. reflexivity. Qed.

(** The effect of a valid move between two different piles. *)
Lemma executeMove_distinct_effect (now : Z) (s : GameState)
  (from to : CardLocation) (n : Z) :
  isValidMove s from to n = Ret true ->
  samePile from to = false ->
  exists sp dp s' m,
    getPile s from = Some sp
    /\ getPile s to = Some dp
    /\ executeMove now s from to n
       = Ret (mkResult true (Some s') None (Some m))
    /\ getPile s' to
       = Some (set_cards dp
                 (cards dp ++ movedCards (cards sp) (cardIndex from) n))
    /\ getPile s' from
       = Some (set_cards sp
                 (if flippedCard m
                  then topFaceUp (leftCards (cards sp) (cardIndex from) n)
                  else leftCards (cards sp) (cardIndex from) n))
    /\ (forall loc, samePile from loc = false -> samePile to loc = false ->
                    getPile s' loc = getPile s loc)
    /\ flippedCard m
       = autoFlips (config s) (type sp)
                   (leftCards (cards sp) (cardIndex from) n)
    /\ move_from m = from /\ move_to m = to /\ cardCount m = n
    /\ scoreChange m
       = calculateMoveScore (mkMove from to n (flippedCard m) 0) s
    /\ score s' = score s + scoreChange m
    /\ moves s' = moves s + 1
    /\ startTime s' = (match startTime s with
                       | None => Some now
                       | Some t => Some t
                       end)
    /\ isWon s' = (checkWinCondition s' || isWon s)
    /\ endTime s' = (if checkWinCondition s' then Some now else endTime s)
    /\ stockPasses s' = stockPasses s
    /\ config s' = config s.
Proof.
  intros Hv Hdiff.
  destruct (executeMove_explicit now s from to n Hv)
    as (sp & dp & mc & dp1 & sp2 & Hsp & Hdp & Hmc & Hdp1 & Hsp2 & He).
  set (L := leftCards (cards sp) (cardIndex from) n) in *.
  set (M := movedCards (cards sp) (cardIndex from) n) in *.
  assert (Hdiff' : samePile to from = false)
    by (rewrite samePile_sym; exact Hdiff).
  rewrite (getPile_setPile_other s from to _ Hdiff), Hdp in Hdp1.
  injection Hdp1 as <-.
  rewrite (getPile_setPile_other _ to from _ Hdiff') in Hsp2.
  rewrite (getPile_setPile_same s from from sp _ Hsp (samePile_refl from))
    in Hsp2.
  injection Hsp2 as <-.
  set (s1 := setPile s from (set_cards sp L)) in *.
  set (s2 := setPile s1 to (set_cards dp (cards dp ++ M))) in *.
  assert (H2to : getPile s2 to = Some (set_cards dp (cards dp ++ M))).
  { unfold s2. apply (getPile_setPile_same s1 to to dp).
    - unfold s1. now rewrite (getPile_setPile_other s from to _ Hdiff).
    - apply samePile_refl. }
  assert (H2from : getPile s2 from = Some (set_cards sp L)).
  { unfold s2. rewrite (getPile_setPile_other s1 to from _ Hdiff').
    unfold s1. apply (getPile_setPile_same s from from sp _ Hsp).
    apply samePile_refl. }
  assert (H2other : forall loc, samePile from loc = false ->
                      samePile to loc = false -> getPile s2 loc = getPile s loc).
  { intros loc H1 H2. unfold s2, s1.
    now rewrite getPile_setPile_other, getPile_setPile_other. }
  assert (H2frame : config s2 = config s /\ score s2 = score s
                    /\ moves s2 = moves s /\ stockPasses s2 = stockPasses s
                    /\ startTime s2 = startTime s /\ isWon s2 = isWon s
                    /\ endTime s2 = endTime s).
  { destruct (setPile_frame s1 to (set_cards dp (cards dp ++ M)))
      as (A1 & A2 & A3 & A4 & A5 & A6 & A7).
    destruct (setPile_frame s from (set_cards sp L))
      as (B1 & B2 & B3 & B4 & B5 & B6 & B7).
    fold s1 in B1, B2, B3, B4, B5, B6, B7.
    fold s2 in A1, A2, A3, A4, A5, A6, A7.
    repeat split; congruence. }
  destruct H2frame as (G1 & G2 & G3 & G4 & G5 & G6 & G7).
  rewrite autoFlip_spec in He. cbn [type cards set_cards] in He.
  rewrite G1 in He.
  destruct (autoFlips (config s) (type sp) L) eqn:Hflip; cbn [fst snd] in He.
  - set (s3 := setPile s2 from
                 (set_cards (set_cards sp L) (topFaceUp L))) in *.
    destruct (finishMove_spec now from to n s3 true)
      as (s' & m & Hf & P1 & P2 & P3 & P4 & Hm & Q1 & Q2 & Q3 & Q4 & Q5 & Q6 & Q7).
    destruct (setPile_frame s2 from (set_cards (set_cards sp L) (topFaceUp L)))
      as (C1 & C2 & C3 & C4 & C5 & C6 & C7).
    fold s3 in C1, C2, C3, C4, C5, C6, C7.
    assert (Hg : forall loc, getPile s' loc = getPile s3 loc)
      by (intros; now apply getPile_ext).
    exists sp, dp, s', m. rewrite He, Hf.
    rewrite (checkWinCondition_ext s3 s' P3).
    rewrite (calculateMoveScore_ext _ s s3) in Hm by congruence.
    subst m. cbn [flippedCard move_from move_to cardCount scoreChange] in *.
    repeat split; try assumption; try reflexivity; try congruence;
      try (symmetry; exact Hflip);
      try (rewrite Q3, C3, G5; reflexivity);
      try (rewrite Q5, C4, G7; reflexivity).
    + rewrite Hg. unfold s3. rewrite getPile_setPile_other by assumption.
      exact H2to.
    + rewrite Hg. unfold s3.
      apply (getPile_setPile_same s2 from from _ _ H2from), samePile_refl.
    + intros loc H1 H2. rewrite Hg. unfold s3.
      rewrite getPile_setPile_other by assumption. now apply H2other.
  - destruct (finishMove_spec now from to n s2 false)
      as (s' & m & Hf & P1 & P2 & P3 & P4 & Hm & Q1 & Q2 & Q3 & Q4 & Q5 & Q6 & Q7).
    assert (Hg : forall loc, getPile s' loc = getPile s2 loc)
      by (intros; now apply getPile_ext).
    exists sp, dp, s', m. rewrite He, Hf.
    rewrite (checkWinCondition_ext s2 s' P3).
    rewrite (calculateMoveScore_ext _ s s2) in Hm by congruence.
    subst m. cbn [flippedCard move_from move_to cardCount scoreChange] in *.
    repeat split; try assumption; try reflexivity; try congruence;
      try (symmetry; exact Hflip);
      try (rewrite Q3, G5; reflexivity);
      try (rewrite Q5, G7; reflexivity).
    + rewrite Hg. exact H2to.
    + rewrite Hg. exact H2from.
    + intros loc H1 H2. rewrite Hg. now apply H2other.
Qed.

(** X8: a valid move between two different piles takes the [cardCount]
    cards that start at the card index out of the source pile (none when
    [cardCount] is not positive) and appends them, in their order, to the
    destination pile; every other pile is untouched.  The source's new last
    card is turned face-up, and the move marked [flippedCard], exactly when
    the source is a tableau column, [autoFlipTableau] is on and that card is
    face-down.  The score grows by the move's [scoreChange], [moves] by one,
    the timer starts if it was not running, and the game is flagged won
    (with its end time) as soon as the foundations hold 52 cards; a won flag
    is never cleared. *)
Theorem X8_executeMove_effect (now : Z) (s : GameState)
  (from to : CardLocation) (n : Z) :
  isValidMove s from to n = Ret true ->
  samePile from to = false ->
  exists sp dp s' m,
    getPile s from = Some sp
    /\ getPile s to = Some dp
    /\ executeMove now s from to n
       = Ret (mkResult true (Some s') None (Some m))
    /\ getPile s' to
       = Some (set_cards dp
                 (cards dp ++ movedCards (cards sp) (cardIndex from) n))
    /\ getPile s' from
       = Some (set_cards sp
                 (if flippedCard m
                  then topFaceUp (leftCards (cards sp) (cardIndex from) n)
                  else leftCards (cards sp) (cardIndex from) n))
    /\ (forall loc, samePile from loc = false -> samePile to loc = false ->
                    getPile s' loc = getPile s loc)
    /\ flippedCard m
       = autoFlips (config s) (type sp)
                   (leftCards (cards sp) (cardIndex from) n)
    /\ move_from m = from /\ move_to m = to /\ cardCount m = n
    /\ scoreChange m
       = calculateMoveScore (mkMove from to n (flippedCard m) 0) s
    /\ score s' = score s + scoreChange m
    /\ moves s' = moves s + 1
    /\ startTime s' = (match startTime s with
                       | None => Some now
                       | Some t => Some t
                       end)
    /\ isWon s' = (checkWinCondition s' || isWon s)
    /\ endTime s' = (if checkWinCondition s' then Some now else endTime s)
    /\ stockPasses s' = stockPasses s
    /\ config s' = config s.
Proof. exact (executeMove_distinct_effect now s from to n). Qed.

Lemma X8_executeMove_effect_witness :
  isValidMove (dealt defaultPartial 42)
              (mkLoc tableau_t 0 0) (mkLoc tableau_t 6 7) 1 = Ret true
  /\ samePile (mkLoc tableau_t 0 0) (mkLoc tableau_t 6 7) = false
  /\ exists s' m,
       executeMove 1000 (dealt defaultPartial 42)
                   (mkLoc tableau_t 0 0) (mkLoc tableau_t 6 7) 1
       = Ret (mkResult true (Some s') None (Some m))
       /\ moves s' = moves (dealt defaultPartial 42) + 1.
Proof.
  assert (H1 : isValidMove (dealt defaultPartial 42)
                 (mkLoc tableau_t 0 0) (mkLoc tableau_t 6 7) 1 = Ret true)
    by (vm_compute; reflexivity).
  assert (H2 : samePile (mkLoc tableau_t 0 0) (mkLoc tableau_t 6 7) = false)
    by reflexivity.
  split; [exact H1 |]. split; [exact H2 |].
  destruct (X8_executeMove_effect 1000 _ _ _ _ H1 H2)
    as (sp & dp & s' & m & _ & _ & He & _ & _ & _ & _ & _ & _ & _ & _ & _
        & Hm & _).
  exists s', m. split; [exact He | exact Hm].
Defined.

(** ** rules.ts: enumerating destinations *)

Lemma t4_get_nth {A : Type} (t : Tuple4 A) (j : nat) :
  t4_get t (Z.of_nat j) = nth_error (t4_list t) j.
Proof.
  do 4 (destruct j as [| j]; [reflexivity |]).
  unfold t4_get. eqb_cases; try lia. now destruct j.
Qed.

Lemma t7_get_nth {A : Type} (t : Tuple7 A) (j : nat) :
  t7_get t (Z.of_nat j) = nth_error (t7_list t) j.
Proof.
  do 7 (destruct j as [| j]; [reflexivity |]).
  unfold t7_get. eqb_cases; try lia. now destruct j.
Qed.

Lemma validFoundations_spec s from : forall fs i dests,
  validFoundations s from fs i = Ret dests ->
  forall to,
    In to dests <->
    exists j f, nth_error fs j = Some f
                /\ to = mkLoc foundation_t (i + Z.of_nat j) (Js.len (cards f))
                /\ isValidMove s from to 1 = Ret true.
Proof.
  induction fs as [| f fs IH]; intros i dests H to; cbn [validFoundations] in H.
  - injection H as <-. split; [contradiction |].
    intros (j & f & Hj & _). destruct j; discriminate.
  - destruct (isValidMove s from (mkLoc foundation_t i (Js.len (cards f))) 1)
      as [valid | e] eqn:Hv; cbn [bind] in H; [| discriminate].
    destruct (validFoundations s from fs (i + 1)) as [more | e] eqn:Hm;
      cbn [bind] in H; [| discriminate].
    injection H as <-. specialize (IH (i + 1) more Hm to).
    assert (Hstep : (exists j g, nth_error (f :: fs) j = Some g
                       /\ to = mkLoc foundation_t (i + Z.of_nat j) (Js.len (cards g))
                       /\ isValidMove s from to 1 = Ret true)
                    <-> (to = mkLoc foundation_t i (Js.len (cards f))
                         /\ valid = true) \/ In to more).
    { rewrite IH. split.
      - intros ([| j] & g & Hj & Hto & Hval).
        + injection Hj as <-. left. rewrite Z.add_0_r in Hto. subst to.
          split; [reflexivity | congruence].
        + right. exists j, g. split; [exact Hj |]. split; [| exact Hval].
          rewrite Hto. f_equal. lia.
      - intros [[Hto Hval] | (j & g & Hj & Hto & Hval)].
        + exists O, f. split; [reflexivity |]. rewrite Z.add_0_r.
          split; [exact Hto |]. subst. exact Hv.
        + exists (S j), g. split; [exact Hj |]. split; [| exact Hval].
          rewrite Hto. f_equal. lia. }
    rewrite Hstep. destruct valid; cbn [In]; intuition (auto; discriminate).
Qed.

Lemma validTableaus_spec s from k : forall ts i dests,
  validTableaus s from k ts i = Ret dests ->
  forall to,
    In to dests <->
    exists j t, nth_error ts j = Some t
                /\ to = mkLoc tableau_t (i + Z.of_nat j) (Js.len (cards t))
                /\ isValidMove s from to k = Ret true.
Proof.
  induction ts as [| f fs IH]; intros i dests H to; cbn [validTableaus] in H.
  - injection H as <-. split; [contradiction |].
    intros (j & f & Hj & _). destruct j; discriminate.
  - destruct (isValidMove s from (mkLoc tableau_t i (Js.len (cards f))) k)
      as [valid | e] eqn:Hv; cbn [bind] in H; [| discriminate].
    destruct (validTableaus s from k fs (i + 1)) as [more | e] eqn:Hm;
      cbn [bind] in H; [| discriminate].
    injection H as <-. specialize (IH (i + 1) more Hm to).
    assert (Hstep : (exists j g, nth_error (f :: fs) j = Some g
                       /\ to = mkLoc tableau_t (i + Z.of_nat j) (Js.len (cards g))
                       /\ isValidMove s from to k = Ret true)
                    <-> (to = mkLoc tableau_t i (Js.len (cards f))
                         /\ valid = true) \/ In to more).
    { rewrite IH. split.
      - intros ([| j] & g & Hj & Hto & Hval).
        + injection Hj as <-. left. rewrite Z.add_0_r in Hto. subst to.
          split; [reflexivity | congruence].
        + right. exists j, g. split; [exact Hj |]. split; [| exact Hval].
          rewrite Hto. f_equal. lia.
      - intros [[Hto Hval] | (j & g & Hj & Hto & Hval)].
        + exists O, f. split; [reflexivity |]. rewrite Z.add_0_r.
          split; [exact Hto |]. subst. exact Hv.
        + exists (S j), g. split; [exact Hj |]. split; [| exact Hval].
          rewrite Hto. f_equal. lia. }
    rewrite Hstep. destruct valid; cbn [In]; intuition (auto; discriminate).
Qed.

Lemma validFoundations_returns s from : forall fs i,
  0 <= cardIndex from -> exists dests, validFoundations s from fs i = Ret dests.
Proof.
  induction fs as [| f fs IH]; intros i H; cbn [validFoundations]; [eauto |].
  destruct (isValidMove_returns s from
              (mkLoc foundation_t i (Js.len (cards f))) 1 H) as [b ->].
  destruct (IH (i + 1) H) as [more ->]. cbn [bind]. eauto.
Qed.

Lemma validTableaus_returns s from k : forall ts i,
  0 <= cardIndex from -> exists dests, validTableaus s from k ts i = Ret dests.
Proof.
  induction ts as [| f fs IH]; intros i H; cbn [validTableaus]; [eauto |].
  destruct (isValidMove_returns s from
              (mkLoc tableau_t i (Js.len (cards f))) k H) as [b ->].
  destruct (IH (i + 1) H) as [more ->]. cbn [bind]. eauto.
Qed.

Lemma findValidMoves_returns s from :
  0 <= cardIndex from -> exists dests, findValidMoves s from = Ret dests.
Proof.
  intros H. unfold findValidMoves.
  destruct (getPile s from) as [sp |]; [| eauto].
  destruct (validTableaus_returns s from (Js.len (cards sp) - cardIndex from)
              (t7_list (tableau s)) 0 H) as [tt ->].
  destruct (Js.len (cards sp) - cardIndex from =? 1).
  - destruct (validFoundations_returns s from (t4_list (foundations s)) 0 H)
      as [ff ->]. cbn [bind]. eauto.
  - cbn [bind]. eauto.
Qed.

(** X9: whenever [findValidMoves] returns (which it does for every
    non-negative card index), the list it returns holds exactly the valid
    destinations for moving the whole run from the card index to the end of
    the source pile: the append position of foundation [i] when the run is a
    single card and [isValidMove] accepts it with count 1, and the append
    position of tableau column [i] when [isValidMove] accepts the run; no
    other location is ever listed, and an unknown source pile gives the
    empty list. *)
Theorem X9_findValidMoves_exact (s : GameState) (from : CardLocation)
  (dests : list CardLocation) :
  findValidMoves s from = Ret dests ->
  (getPile s from = None -> dests = [])
  /\ forall sp, getPile s from = Some sp ->
     forall to,
       In to dests <->
       (exists i f, t4_get (foundations s) i = Some f
                    /\ to = mkLoc foundation_t i (Js.len (cards f))
                    /\ Js.len (cards sp) - cardIndex from = 1
                    /\ isValidMove s from to 1 = Ret true)
       \/ (exists i t, t7_get (tableau s) i = Some t
                       /\ to = mkLoc tableau_t i (Js.len (cards t))
                       /\ isValidMove s from to
                            (Js.len (cards sp) - cardIndex from) = Ret true).
Proof.
  unfold findValidMoves. intros H.
  destruct (getPile s from) as [sp |]; [| injection H as <-; split;
                                           [reflexivity | discriminate]].
  split; [discriminate |]. intros sp' [= <-] to.
  set (k := Js.len (cards sp) - cardIndex from) in *.
  assert (Hf : forall ff, (if k =? 1
                           then validFoundations s from (t4_list (foundations s)) 0
                           else Ret []) = Ret ff ->
               (In to ff <->
                exists i f, t4_get (foundations s) i = Some f
                            /\ to = mkLoc foundation_t i (Js.len (cards f))
                            /\ k = 1 /\ isValidMove s from to 1 = Ret true)).
  { intros ff Hff. destruct (Z.eqb_spec k 1) as [Hk | Hk].
    - rewrite (validFoundations_spec s from _ 0 ff Hff to). split.
      + intros (j & f & Hj & Hto & Hv). exists (Z.of_nat j), f.
        rewrite t4_get_nth. auto.
      + intros (i & f & Hi & Hto & _ & Hv).
        pose proof (t4_get_range _ _ _ Hi) as Hr.
        exists (Z.to_nat i), f. rewrite <- t4_get_nth, Z2Nat.id by lia.
        rewrite Z.add_0_l. auto.
    - injection Hff as <-. split; [contradiction |].
      intros (i & f & _ & _ & Hk1 & _). contradiction. }
  assert (Ht : forall tt, validTableaus s from k (t7_list (tableau s)) 0 = Ret tt ->
               (In to tt <->
                exists i t, t7_get (tableau s) i = Some t
                            /\ to = mkLoc tableau_t i (Js.len (cards t))
                            /\ isValidMove s from to k = Ret true)).
  { intros tt Htt.
    rewrite (validTableaus_spec s from k _ 0 tt Htt to). split.
    - intros (j & f & Hj & Hto & Hv). exists (Z.of_nat j), f.
      rewrite t7_get_nth. auto.
    - intros (i & f & Hi & Hto & Hv).
      pose proof (t7_get_range _ _ _ Hi) as Hr.
      exists (Z.to_nat i), f. rewrite <- t7_get_nth, Z2Nat.id by lia.
      rewrite Z.add_0_l. auto. }
  destruct (if k =? 1 then _ else _) as [ff | e]; cbn [bind] in H;
    [| discriminate].
  destruct (validTableaus s from k (t7_list (tableau s)) 0) as [tt | e];
    cbn [bind] in H; [| discriminate].
  injection H as <-. rewrite in_app_iff, (Hf ff eq_refl), (Ht tt eq_refl).
  reflexivity.
Qed.

Lemma X9_findValidMoves_exact_witness :
  findValidMoves (dealt defaultPartial 42) (mkLoc tableau_t 0 0)
  = Ret [mkLoc tableau_t 6 7]
  /\ (getPile (dealt defaultPartial 42) (mkLoc tableau_t 0 0) = None ->
      [mkLoc tableau_t 6 7] = []).
Proof.
  assert (H : findValidMoves (dealt defaultPartial 42) (mkLoc tableau_t 0 0)
              = Ret [mkLoc tableau_t 6 7]) by (vm_compute; reflexivity).
  split; [exact H |].
  exact (proj1 (X9_findValidMoves_exact _ _ _ H)).
Defined.

Lemma len_pos_nonempty {A : Type} (l : list A) :
  (Js.len l >? 0) = true <-> l <> [].
Proof.
  destruct l as [| a l].
  - split; [discriminate | contradiction].
  - split; [discriminate |]. intros _. apply Z.gtb_lt. rewrite len_cons.
    pose proof (len_nonneg l). lia.
Qed.

Lemma columnHasMove_spec s i : forall cs j,
  0 <= j ->
  exists b,
    columnHasMove s i cs j = Ret b
    /\ (b = true <->
        exists k c dests,
          nth_error cs k = Some c /\ faceUp c = true
          /\ findValidMoves s (mkLoc tableau_t i (j + Z.of_nat k)) = Ret dests
          /\ dests <> []).
Proof.
  induction cs as [| c cs IH]; intros j Hj; cbn [columnHasMove].
  - exists false. split; [reflexivity |]. split; [discriminate |].
    intros ([| k] & ? & ? & Hk & _); discriminate.
  - destruct (IH (j + 1)) as (b & Hb & Hiff); [lia |].
    assert (Hshift : (exists k c0 dests,
                        nth_error cs k = Some c0 /\ faceUp c0 = true
                        /\ findValidMoves s (mkLoc tableau_t i (j + 1 + Z.of_nat k))
                           = Ret dests /\ dests <> [])
                     -> exists k c0 dests,
                        nth_error (c :: cs) k = Some c0 /\ faceUp c0 = true
                        /\ findValidMoves s (mkLoc tableau_t i (j + Z.of_nat k))
                           = Ret dests /\ dests <> []).
    { intros (k & c0 & dests & H1 & H2 & H3 & H4).
      exists (S k), c0, dests. repeat split; auto.
      replace (j + Z.of_nat (S k)) with (j + 1 + Z.of_nat k) by lia. exact H3. }
    destruct (faceUp c) eqn:Hup.
    + destruct (findValidMoves_returns s (mkLoc tableau_t i j)) as [dests Hd];
        [exact Hj |].
      rewrite Hd. cbn [bind].
      destruct (Js.len dests >? 0) eqn:Hlen.
      * exists true. split; [reflexivity |]. split; [| reflexivity].
        intros _. exists O, c, dests. rewrite Z.add_0_r.
        repeat split; auto. now apply len_pos_nonempty.
      * exists b. split; [exact Hb |]. rewrite Hiff. split; [exact Hshift |].
        intros ([| k] & c0 & dests' & H1 & H2 & H3 & H4).
        -- rewrite Z.add_0_r, Hd in H3. injection H3 as <-.
           apply len_pos_nonempty in H4. congruence.
        -- exists k, c0, dests'. repeat split; auto.
           replace (j + 1 + Z.of_nat k) with (j + Z.of_nat (S k)) by lia.
           exact H3.
    + exists b. split; [exact Hb |]. rewrite Hiff. split; [exact Hshift |].
      intros ([| k] & c0 & dests' & H1 & H2 & H3 & H4).
      * injection H1 as <-. congruence.
      * exists k, c0, dests'. repeat split; auto.
        replace (j + 1 + Z.of_nat k) with (j + Z.of_nat (S k)) by lia.
        exact H3.
Qed.

Lemma tableauHasMove_spec s : forall ts i,
  exists b,
    tableauHasMove s ts i = Ret b
    /\ (b = true <->
        exists m t k c dests,
          nth_error ts m = Some t /\ nth_error (cards t) k = Some c
          /\ faceUp c = true
          /\ findValidMoves s (mkLoc tableau_t (i + Z.of_nat m) (Z.of_nat k))
             = Ret dests
          /\ dests <> []).
Proof.
  induction ts as [| t ts IH]; intros i; cbn [tableauHasMove].
  - exists false. split; [reflexivity |]. split; [discriminate |].
    intros ([| m] & ? & ? & ? & ? & Hm & _); discriminate.
  - destruct (columnHasMove_spec s i (cards t) 0) as (b0 & Hb0 & Hiff0); [lia |].
    rewrite Hb0. cbn [bind].
    destruct (IH (i + 1)) as (b & Hb & Hiff).
    destruct b0.
    + exists true. split; [reflexivity |]. split; [| reflexivity].
      intros _. destruct (proj1 Hiff0 eq_refl) as (k & c & dests & H1 & H2 & H3 & H4).
      exists O, t, k, c, dests. rewrite Z.add_0_r. rewrite Z.add_0_l in H3.
      repeat split; auto.
    + exists b. split; [exact Hb |]. rewrite Hiff. split.
      * intros (m & t' & k & c & dests & H1 & H2 & H3 & H4 & H5).
        exists (S m), t', k, c, dests. repeat split; auto.
        replace (i + Z.of_nat (S m)) with (i + 1 + Z.of_nat m) by lia. exact H4.
      * intros ([| m] & t' & k & c & dests & H1 & H2 & H3 & H4 & H5).
        -- injection H1 as <-. rewrite Z.add_0_r in H4.
           assert (false = true); [| discriminate].
           apply Hiff0. exists k, c, dests. rewrite Z.add_0_l. auto.
        -- exists m, t', k, c, dests. repeat split; auto.
           replace (i + 1 + Z.of_nat m) with (i + Z.of_nat (S m)) by lia.
           exact H4.
Qed.

(** Whether [hasValidMoves] counts a recycle as available *)
Lemma hasValidMoves_returns_and_spec s :
  exists b,
    hasValidMoves s = Ret b
    /\ (b = true <->
        (exists dests,
            cards (waste s) <> []
            /\ findValidMoves s (mkLoc waste_t 0 (Js.len (cards (waste s)) - 1))
               = Ret dests
            /\ dests <> [])
        \/ (exists i column j c dests,
               t7_get (tableau s) i = Some column
               /\ Js.index (cards column) j = Some c
               /\ faceUp c = true
               /\ findValidMoves s (mkLoc tableau_t i j) = Ret dests
               /\ dests <> [])
        \/ cards (stock s) <> []
        \/ (cards (waste s) <> []
            /\ (unlimitedPasses (config s) = true
                \/ (scoringMode (config s) = vegas /\ stockPasses s < 3)))).
Proof.
  unfold hasValidMoves.
  (* the waste top *)
  assert (Hw : exists bw,
             (if Js.len (cards (waste s)) >? 0
              then dests <- findValidMoves s
                              (mkLoc waste_t 0 (Js.len (cards (waste s)) - 1)) ;;
                   Ret (Js.len dests >? 0)
              else Ret false) = Ret bw
             /\ (bw = true <->
                 exists dests,
                   cards (waste s) <> []
                   /\ findValidMoves s
                        (mkLoc waste_t 0 (Js.len (cards (waste s)) - 1))
                      = Ret dests
                   /\ dests <> [])).
  { destruct (Js.len (cards (waste s)) >? 0) eqn:Hlen.
    - pose proof (proj1 (len_pos_nonempty _) Hlen) as Hne.
      apply Z.gtb_lt in Hlen.
      destruct (findValidMoves_returns s
                  (mkLoc waste_t 0 (Js.len (cards (waste s)) - 1)))
        as [dests Hd]; [cbn; lia |].
      rewrite Hd. cbn [bind]. eexists. split; [reflexivity |].
      rewrite len_pos_nonempty. split.
      + intros H. exists dests. auto.
      + intros (d & _ & Hd' & Hn). congruence.
    - exists false. split; [reflexivity |]. split; [discriminate |].
      intros (d & Hne & _). apply len_pos_nonempty in Hne. congruence. }
  destruct Hw as (bw & -> & Hbw). cbn [bind].
  destruct bw.
  { exists true. split; [reflexivity |]. split; [| reflexivity].
    intros _. left. now apply Hbw. }
  (* the columns *)
  destruct (tableauHasMove_spec s (t7_list (tableau s)) 0) as (bt & -> & Hbt).
  cbn [bind].
  assert (Hbt' : bt = true <->
                 exists i column j c dests,
                   t7_get (tableau s) i = Some column
                   /\ Js.index (cards column) j = Some c
                   /\ faceUp c = true
                   /\ findValidMoves s (mkLoc tableau_t i j) = Ret dests
                   /\ dests <> []).
  { rewrite Hbt. split.
    - intros (m & t & k & c & dests & H1 & H2 & H3 & H4 & H5).
      exists (Z.of_nat m), t, (Z.of_nat k), c, dests.
      rewrite t7_get_nth. rewrite Z.add_0_l in H4.
      repeat split; auto.
      unfold Js.index. destruct (Z.ltb_spec (Z.of_nat k) 0); [lia |].
      now rewrite Nat2Z.id.
    - intros (i & t & j & c & dests & H1 & H2 & H3 & H4 & H5).
      pose proof (t7_get_range _ _ _ H1) as Hi.
      pose proof (index_range _ _ _ H2) as Hj.
      exists (Z.to_nat i), t, (Z.to_nat j), c, dests.
      rewrite <- t7_get_nth, !Z2Nat.id, Z.add_0_l by lia.
      repeat split; auto.
      unfold Js.index in H2. destruct (Z.ltb_spec j 0); [lia | exact H2]. }
  destruct bt.
  { exists true. split; [reflexivity |]. split; [| reflexivity].
    intros _. right. left. now apply Hbt'. }
  assert (Hnw : ~ (exists dests,
                      cards (waste s) <> []
                      /\ findValidMoves s
                           (mkLoc waste_t 0 (Js.len (cards (waste s)) - 1))
                         = Ret dests
                      /\ dests <> []))
    by (intros H; apply Hbw in H; discriminate).
  assert (Hnt : ~ (exists i column j c dests,
                      t7_get (tableau s) i = Some column
                      /\ Js.index (cards column) j = Some c
                      /\ faceUp c = true
                      /\ findValidMoves s (mkLoc tableau_t i j) = Ret dests
                      /\ dests <> []))
    by (intros H; apply Hbt' in H; discriminate).
  destruct (Js.len (cards (stock s)) >? 0) eqn:Hs.
  { exists true. split; [reflexivity |]. split; [| reflexivity].
    intros _. right. right. left. now apply len_pos_nonempty. }
  assert (Hns : ~ cards (stock s) <> [])
    by (intros H; apply len_pos_nonempty in H; congruence).
  destruct (Js.len (cards (waste s)) >? 0) eqn:Hwl.
  - pose proof (proj1 (len_pos_nonempty _) Hwl) as Hwne.
    destruct (unlimitedPasses (config s)) eqn:Hu.
    { exists true. split; [reflexivity |]. split; [| reflexivity].
      intros _. right. right. right. auto. }
    destruct (scoringMode (config s)) eqn:Hm; cbn [andb].
    + exists false. split; [reflexivity |]. split; [discriminate |].
      intros [K | [K | [K | (_ & [K | (K & _)])]]];
        try contradiction; discriminate.
    + destruct (Z.ltb_spec (stockPasses s) 3).
      * exists true. split; [reflexivity |]. split; [| reflexivity].
        intros _. right. right. right. auto.
      * exists false. split; [reflexivity |]. split; [discriminate |].
        intros [K | [K | [K | (_ & [K | (_ & K)])]]];
          try contradiction; try discriminate; lia.
    + exists false. split; [reflexivity |]. split; [discriminate |].
      intros [K | [K | [K | (_ & [K | (K & _)])]]];
        try contradiction; discriminate.
  - exists false. split; [reflexivity |]. split; [discriminate |].
    intros [K | [K | [K | (K & _)]]]; try contradiction.
    apply len_pos_nonempty in K. congruence.
Qed.

(** X10: [hasValidMoves] never raises, and it answers [true] exactly when
    the waste top has a valid destination, or some face-up tableau card has
    a valid destination for the run that starts at it, or the stock is not
    empty, or the waste is not empty and a recycle counts as available
    ([unlimitedPasses], or vegas mode with fewer than three passes used). *)
Theorem X10_hasValidMoves_spec (s : GameState) :
  exists b,
    hasValidMoves s = Ret b
    /\ (b = true <->
        (exists dests,
            cards (waste s) <> []
            /\ findValidMoves s (mkLoc waste_t 0 (Js.len (cards (waste s)) - 1))
               = Ret dests
            /\ dests <> [])
        \/ (exists i column j c dests,
               t7_get (tableau s) i = Some column
               /\ Js.index (cards column) j = Some c
               /\ faceUp c = true
               /\ findValidMoves s (mkLoc tableau_t i j) = Ret dests
               /\ dests <> [])
        \/ cards (stock s) <> []
        \/ (cards (waste s) <> []
            /\ (unlimitedPasses (config s) = true
                \/ (scoringMode (config s) = vegas /\ stockPasses s < 3)))).
Proof. exact (hasValidMoves_returns_and_spec s). Qed.

(** X11: [hasValidMoves] and [resetStock] disagree on when a recycle is
    possible.  Outside vegas mode with [unlimitedPasses] off,
    [hasValidMoves] does not count the recycle, so on a table with an empty
    stock, a non-empty waste and no card move it answers [false] ("no moves
    left"), although [resetStock] still recycles the waste: it returns a
    different state, with the waste back on the stock and one more pass
    counted. *)
Theorem X11_hasValidMoves_misses_recycle (s : GameState) :
  hasValidMoves s = Ret false ->
  cards (waste s) <> [] ->
  scoringMode (config s) <> vegas ->
  unlimitedPasses (config s) = false
  /\ cards (stock s) = []
  /\ resetStock s <> s
  /\ cards (waste (resetStock s)) = []
  /\ cards (stock (resetStock s)) = map faceDownCard (rev (cards (waste s)))
  /\ stockPasses (resetStock s) = stockPasses s + 1.
Proof.
  intros Hh Hw Hm.
  destruct (hasValidMoves_returns_and_spec s) as (b & Hb & Hiff).
  rewrite Hh in Hb. injection Hb as <-.
  assert (Hu : unlimitedPasses (config s) = false).
  { destruct (unlimitedPasses (config s)) eqn:E; [| reflexivity].
    assert (false = true); [| discriminate]. apply Hiff. do 3 right. auto. }
  assert (Hs : cards (stock s) = []).
  { destruct (cards (stock s)) eqn:E; [reflexivity |].
    assert (false = true); [| discriminate]. apply Hiff. do 2 right. left.
    discriminate. }
  assert (Hp : resetPermitted s = true).
  { unfold resetPermitted. destruct (scoringMode (config s)); try reflexivity.
    contradiction. }
  rewrite (resetStock_recycles s Hw Hp). cbn [stock waste stockPasses cards set_cards].
  rewrite Hs. repeat split; auto.
  intros E. apply (f_equal stockPasses) in E. cbn in E. lia.
Qed.

Lemma X11_hasValidMoves_misses_recycle_witness :
  hasValidMoves (drawTimes 24 1000 (dealt limitedPartial 34)) = Ret false
  /\ cards (waste (drawTimes 24 1000 (dealt limitedPartial 34))) <> []
  /\ scoringMode (config (drawTimes 24 1000 (dealt limitedPartial 34))) <> vegas
  /\ resetStock (drawTimes 24 1000 (dealt limitedPartial 34))
     <> drawTimes 24 1000 (dealt limitedPartial 34).
Proof.
  assert (H1 : hasValidMoves (drawTimes 24 1000 (dealt limitedPartial 34))
               = Ret false) by (vm_compute; reflexivity).
  assert (H2 : cards (waste (drawTimes 24 1000 (dealt limitedPartial 34))) <> [])
    by (vm_compute; discriminate).
  assert (H3 : scoringMode (config (drawTimes 24 1000 (dealt limitedPartial 34)))
               <> vegas) by (vm_compute; discriminate).
  split; [exact H1 |]. split; [exact H2 |]. split; [exact H3 |].
  exact (proj1 (proj2 (proj2 (X11_hasValidMoves_misses_recycle _ H1 H2 H3)))).
Defined.

(* ================================================================== *)
(** * Well-formed tables *)

(** ** Lists *)

Section ListFacts.
Context {A : Type}.
Implicit Types (l : list A) (P : A -> Prop) (R : A -> A -> Prop).

Lemma Forall_firstn_skipn P l n :
  Forall P l -> Forall P (firstn n l) /\ Forall P (skipn n l).
Proof. intros H. apply Forall_app. now rewrite firstn_skipn. Qed.

Lemma SSorted_app R l1 l2 :
  StronglySorted R (l1 ++ l2) <->
  StronglySorted R l1 /\ StronglySorted R l2
  /\ (forall a b, In a l1 -> In b l2 -> R a b).
Proof.
  induction l1 as [| x l1 IH]; cbn [app].
  - split.
    + intros H. repeat split; [constructor | exact H | contradiction].
    + now intros (_ & H & _).
  - split.
    + intros H. apply StronglySorted_inv in H. destruct H as [Hs Hf].
      apply IH in Hs. destruct Hs as (H1 & H2 & H3).
      apply Forall_app in Hf. destruct Hf as [Hf1 Hf2].
      repeat split.
      * now constructor.
      * exact H2.
      * intros a b [-> | Ha] Hb.
        -- rewrite Forall_forall in Hf2. now apply Hf2.
        -- now apply H3.
    + intros (H1 & H2 & H3). apply StronglySorted_inv in H1.
      destruct H1 as [Hs Hf]. constructor.
      * apply IH. repeat split; auto. intros a b Ha Hb. apply H3; [now right | exact Hb].
      * apply Forall_app. split; [exact Hf |].
        apply Forall_forall. intros b Hb. apply H3; [now left | exact Hb].
Qed.

Lemma SSorted_firstn_skipn R l n :
  StronglySorted R l ->
  StronglySorted R (firstn n l) /\ StronglySorted R (skipn n l).
Proof.
  intros H. rewrite <- (firstn_skipn n l) in H. apply SSorted_app in H. tauto.
Qed.

(** Removing a middle segment keeps a list sorted. *)
Lemma SSorted_cut R l i n :
  StronglySorted R l ->
  StronglySorted R (firstn i l ++ skipn n (skipn i l)).
Proof.
  intros H. rewrite <- (firstn_skipn i l) in H. apply SSorted_app in H.
  destruct H as (H1 & H2 & H3).
  apply SSorted_app. repeat split.
  - exact H1.
  - now apply SSorted_firstn_skipn.
  - intros a b Ha Hb. apply H3; [exact Ha |].
    rewrite <- (firstn_skipn n (skipn i l)). apply in_or_app. now right.
Qed.

Lemma Forall_cut P l i n :
  Forall P l -> Forall P (firstn i l ++ skipn n (skipn i l)).
Proof.
  intros H. apply Forall_app. split.
  - now apply Forall_firstn_skipn.
  - apply Forall_firstn_skipn. now apply Forall_firstn_skipn.
Qed.

Lemma Forall_take P l i n : Forall P l -> Forall P (firstn n (skipn i l)).
Proof.
  intros H. apply Forall_firstn_skipn. now apply Forall_firstn_skipn.
Qed.

Lemma skipn_app_ge l1 l2 n :
  (length l1 <= n)%nat -> skipn n (l1 ++ l2) = skipn (n - length l1) l2.
Proof.
  intros H. rewrite skipn_app. rewrite skipn_all2 by exact H. reflexivity.
Qed.

Lemma firstn_app_ge l1 l2 n :
  (length l1 <= n)%nat -> firstn n (l1 ++ l2) = l1 ++ firstn (n - length l1) l2.
Proof.
  intros H. rewrite firstn_app. rewrite firstn_all2 by exact H. reflexivity.
Qed.

End ListFacts.

(** ** Cards *)

Lemma faceDownCard_flip c b : faceDownCard (flipCard c b) = faceDownCard c.
Proof. destruct c as [i s r []], b; reflexivity. Qed.

Lemma deckCard_flip c b : deckCard (flipCard c b) <-> deckCard c.
Proof. unfold deckCard. now rewrite faceDownCard_flip. Qed.

Lemma faceDownCard_fields c :
  faceDownCard c = mkCard (id c) (suit c) (rank c) false.
Proof. destruct c as [i s r []]; reflexivity. Qed.

(** A deck card is determined by its suit and rank, and its rank is 1..13. *)
Lemma createDeck_cards c :
  In c createDeck <->
  exists su r, 1 <= r <= 13 /\ c = createCard su r false.
Proof.
  split.
  - intros H. unfold createDeck in H. apply in_flat_map in H.
    destruct H as (su & _ & H). apply in_map_iff in H.
    destruct H as (r & <- & Hr). exists su, r. split; [| reflexivity].
    unfold RANKS in Hr. cbn in Hr.
    repeat (destruct Hr as [<- | Hr]; [lia |]). contradiction.
  - intros (su & r & Hr & ->). unfold createDeck. apply in_flat_map.
    exists su. split; [destruct su; cbn; tauto |].
    apply in_map_iff. exists r. split; [reflexivity |].
    assert (Hc : r = 1 \/ r = 2 \/ r = 3 \/ r = 4 \/ r = 5 \/ r = 6 \/ r = 7
                 \/ r = 8 \/ r = 9 \/ r = 10 \/ r = 11 \/ r = 12 \/ r = 13)
      by lia.
    unfold RANKS. cbn. intuition auto.
Qed.

Lemma deckCard_spec c :
  deckCard c <->
  1 <= rank c <= 13 /\ id c = createCardId (suit c) (rank c).
Proof.
  unfold deckCard. rewrite createDeck_cards, faceDownCard_fields. split.
  - intros (su & r & Hr & E). unfold createCard in E.
    injection E as E1 E2 E3. subst. auto.
  - intros (Hr & E). exists (suit c), (rank c). split; [exact Hr |].
    unfold createCard. now rewrite E.
Qed.

(** Two deck cards of the same suit and rank have the same identity. *)
Lemma deckCard_same_id c d :
  deckCard c -> deckCard d -> suit c = suit d -> rank c = rank d ->
  id c = id d.
Proof.
  intros Hc Hd Hs Hr. apply deckCard_spec in Hc, Hd.
  destruct Hc as [_ ->], Hd as [_ ->]. now rewrite Hs, Hr.
Qed.

(** ** Foundations in order *)

Lemma risingFrom_app su r l1 l2 :
  risingFrom su r (l1 ++ l2) <->
  risingFrom su r l1 /\ risingFrom su (r + Js.len l1) l2.
Proof.
  revert r. induction l1 as [| c l1 IH]; intros r; cbn [app risingFrom].
  - rewrite len_nil, Z.add_0_r. tauto.
  - rewrite IH, len_cons.
    replace (r + 1 + Js.len l1) with (r + (1 + Js.len l1)) by lia. tauto.
Qed.

Lemma foundationOrdered_iff cs :
  foundationOrdered cs <-> exists su, risingFrom su 1 cs.
Proof.
  destruct cs as [| c cs]; cbn [foundationOrdered].
  - split; [intros _; exists hearts; exact I | trivial].
  - split; [eauto |]. intros (su & H). cbn [risingFrom] in *.
    destruct H as (<- & H). auto.
Qed.

Lemma foundationOrdered_prefix l1 l2 :
  foundationOrdered (l1 ++ l2) -> foundationOrdered l1.
Proof.
  rewrite !foundationOrdered_iff. intros (su & H).
  apply risingFrom_app in H. exists su. tauto.
Qed.

(** The top card of an ordered foundation has the pile's size as rank. *)
Lemma risingFrom_last su r l c :
  risingFrom su r (l ++ [c]) -> suit c = su /\ rank c = r + Js.len l.
Proof.
  intros H. apply risingFrom_app in H. destruct H as (_ & H).
  cbn in H. tauto.
Qed.

Lemma foundationOrdered_push cs p c :
  cards p = cs -> foundationOrdered cs ->
  canPlaceOnFoundation c p = true ->
  foundationOrdered (cs ++ [c]).
Proof.
  intros Hp Ho Hc. unfold canPlaceOnFoundation in Hc. rewrite Hp in Hc.
  destruct (snoc_cases cs) as [-> | (l & top & ->)].
  - rewrite at_last_nil in Hc. apply Z.eqb_eq in Hc. cbn. auto.
  - rewrite at_last_snoc in Hc. apply andb_true_iff in Hc.
    destruct Hc as [Hs Hr]. apply Suit_eqb_eq in Hs. apply Z.eqb_eq in Hr.
    apply foundationOrdered_iff in Ho. destruct Ho as (su & Ho).
    apply foundationOrdered_iff. exists su.
    apply risingFrom_app. split; [exact Ho |].
    destruct (risingFrom_last _ _ _ _ Ho) as [Hts Htr].
    cbn [risingFrom]. repeat split; [congruence |].
    rewrite len_app, len_cons, len_nil. lia.
Qed.

(** ** Tableau columns in order *)

Lemma columnOrdered_nil : columnOrdered [].
Proof. exists [], []. repeat split; constructor. Qed.

(** A column whose last card is face-down is face-down throughout. *)
Lemma columnOrdered_top_down front top :
  columnOrdered (front ++ [top]) -> faceUp top = false ->
  Forall (fun c => faceUp c = false) (front ++ [top]).
Proof.
  intros (down & up & E & Hd & Hu & _) Ht.
  destruct (snoc_cases up) as [-> | (u & x & ->)].
  - rewrite app_nil_r in E. now rewrite E.
  - rewrite app_assoc in E. apply app_inj_tail in E. destruct E as [_ <-].
    apply Forall_app in Hu. destruct Hu as [_ Hx].
    apply Forall_inv in Hx. congruence.
Qed.

Lemma columnOrdered_flip_top front top :
  columnOrdered (front ++ [top]) -> faceUp top = false ->
  columnOrdered (front ++ [flipCard top true]).
Proof.
  intros Hc Ht. pose proof (columnOrdered_top_down _ _ Hc Ht) as Hall.
  apply Forall_app in Hall. destruct Hall as [Hf _].
  exists front, [flipCard top true]. repeat split.
  - exact Hf.
  - constructor; [apply flipCard_faceUp | constructor].
  - repeat constructor.
Qed.

Lemma topFaceUp_snoc front top :
  topFaceUp (front ++ [top]) =
  front ++ [if faceUp top then top else flipCard top true].
Proof.
  unfold topFaceUp. rewrite at_last_snoc.
  destruct (faceUp top); [reflexivity | apply set_last_snoc].
Qed.

Lemma columnOrdered_topFaceUp cs :
  columnOrdered cs -> columnOrdered (topFaceUp cs).
Proof.
  intros H. destruct (snoc_cases cs) as [-> | (front & top & ->)]; [exact H |].
  rewrite topFaceUp_snoc. destruct (faceUp top) eqn:E; [exact H |].
  now apply columnOrdered_flip_top.
Qed.

Lemma Forall_topFaceUp (P : Card -> Prop) cs :
  (forall c, P c -> P (flipCard c true)) ->
  Forall P cs -> Forall P (topFaceUp cs).
Proof.
  intros HP H. destruct (snoc_cases cs) as [-> | (front & top & ->)]; [exact H |].
  rewrite topFaceUp_snoc. apply Forall_app in H. destruct H as [Hf Ht].
  apply Forall_app. split; [exact Hf |].
  constructor; [| constructor]. apply Forall_inv in Ht.
  destruct (faceUp top); auto.
Qed.

(** In a column, the cards from an index on being all face-up puts the
    index at or above the face-down part. *)
Lemma column_faceUp_suffix down up n :
  Forall (fun c => faceUp c = false) down ->
  Forall (fun c => faceUp c = true) (skipn n (down ++ up)) ->
  (length down <= n)%nat.
Proof.
  intros Hd Hs. destruct (Nat.le_gt_cases (length down) n) as [H | H];
    [exact H | exfalso].
  destruct (nth_error down n) as [c |] eqn:E.
  2:{ apply nth_error_None in E. lia. }
  assert (Hin : In c down) by (eapply nth_error_In; eassumption).
  assert (Hin' : In c (skipn n (down ++ up))).
  { rewrite skipn_app. apply in_or_app. left.
    rewrite (nth_error_skipn_cons down n c E). now left. }
  rewrite Forall_forall in Hd, Hs. specialize (Hd c Hin). specialize (Hs c Hin').
  congruence.
Qed.

Lemma columnOrdered_cut cs i n :
  columnOrdered cs ->
  Forall (fun c => faceUp c = true) (skipn i cs) ->
  columnOrdered (firstn i cs ++ skipn n (skipn i cs)).
Proof.
  intros (down & up & -> & Hd & Hu & Hs) Hup.
  pose proof (column_faceUp_suffix down up i Hd Hup) as Hi.
  rewrite firstn_app_ge, skipn_app_ge by exact Hi.
  exists down, (firstn (i - length down) up
                ++ skipn n (skipn (i - length down) up)).
  repeat split.
  - now rewrite app_assoc.
  - exact Hd.
  - now apply Forall_cut.
  - now apply SSorted_cut.
Qed.

(** The run a move takes from a column has falling ranks. *)
Lemma column_run_falling cs i n :
  columnOrdered cs ->
  Forall (fun c => faceUp c = true) (skipn i cs) ->
  fallingRanks (firstn n (skipn i cs)).
Proof.
  intros (down & up & -> & Hd & Hu & Hs) Hup.
  pose proof (column_faceUp_suffix down up i Hd Hup) as Hi.
  rewrite skipn_app_ge by exact Hi.
  apply SSorted_firstn_skipn. now apply SSorted_firstn_skipn.
Qed.

(** In a run of falling ranks every card ranks at most the first one. *)
Lemma falling_head_max c cs x :
  fallingRanks (c :: cs) -> In x (c :: cs) -> rank x <= rank c.
Proof.
  intros H [<- | Hx]; [lia |].
  apply StronglySorted_inv in H. destruct H as [_ Hf].
  rewrite Forall_forall in Hf. specialize (Hf x Hx). lia.
Qed.

(** ... and at least the last one. *)
Lemma falling_last_min cs c x :
  fallingRanks (cs ++ [c]) -> In x (cs ++ [c]) -> rank c <= rank x.
Proof.
  intros H Hx. apply SSorted_app in H. destruct H as (_ & _ & Hc).
  apply in_app_or in Hx. destruct Hx as [Hx | [<- | []]]; [| lia].
  specialize (Hc x c Hx (or_introl eq_refl)). lia.
Qed.

Lemma columnOrdered_push cs moved :
  columnOrdered cs ->
  Forall (fun c => faceUp c = true) moved ->
  fallingRanks moved ->
  (cs = [] \/ exists top, Js.at_last cs = Some top /\ faceUp top = true
                          /\ forall b, In b moved -> rank b < rank top) ->
  columnOrdered (cs ++ moved).
Proof.
  intros Hc Hm Hf [-> | (top & Htop & Hup & Hlt)].
  - exists [], moved. repeat split; auto.
  - apply at_last_Some in Htop. destruct Htop as (front & ->).
    destruct Hc as (down & up & E & Hd & Hu & Hs).
    destruct (snoc_cases up) as [-> | (u & x & ->)].
    + rewrite app_nil_r in E. subst down.
      apply Forall_app in Hd. destruct Hd as [_ Hd]. apply Forall_inv in Hd.
      congruence.
    + assert (Hx : x = top).
      { rewrite app_assoc in E. apply app_inj_tail in E. now destruct E. }
      subst x. exists down, ((u ++ [top]) ++ moved). repeat split.
      * rewrite E, <- !app_assoc. reflexivity.
      * exact Hd.
      * apply Forall_app. now split.
      * apply SSorted_app. repeat split; auto.
        intros a b Ha Hb. specialize (Hlt b Hb).
        pose proof (falling_last_min u top a Hs Ha). lia.
Qed.

(** ** The piles of a table *)

Lemma pilesOK_parts s :
  pilesOK s <->
  pileOK stock_t (stock s) /\ pileOK waste_t (waste s)
  /\ (forall i p, t4_get (foundations s) i = Some p -> pileOK foundation_t p)
  /\ (forall i p, t7_get (tableau s) i = Some p -> pileOK tableau_t p).
Proof.
  unfold pilesOK, getPile. split.
  - intros H. split; [| split; [| split]].
    + exact (H (mkLoc stock_t 0 0) _ eq_refl).
    + exact (H (mkLoc waste_t 0 0) _ eq_refl).
    + intros i p Hp. exact (H (mkLoc foundation_t i 0) p Hp).
    + intros i p Hp. exact (H (mkLoc tableau_t i 0) p Hp).
  - intros (Hs & Hw & Hf & Ht) [t i j] p. cbn [pileType pileIndex].
    destruct t; intros Hp.
    + now injection Hp as <-.
    + now injection Hp as <-.
    + eauto.
    + eauto.
Qed.

Lemma deckCard_of_deck c : In c createDeck -> deckCard c.
Proof.
  intros H. unfold deckCard, faceDownCard, flipCard.
  pose proof createDeck_faceDown as Hd. rewrite Forall_forall in Hd.
  now rewrite (Hd c H).
Qed.

Lemma deck_deckCards deck :
  Permutation deck createDeck -> Forall deckCard deck.
Proof.
  intros P. apply Forall_forall. intros c Hc. apply deckCard_of_deck.
  eapply Permutation_in; [exact P | exact Hc].
Qed.

Lemma columnOrdered_deal down top :
  columnOrdered (map (fun c => flipCard c false) down ++ [flipCard top true]).
Proof.
  exists (map (fun c => flipCard c false) down), [flipCard top true].
  repeat split.
  - apply Forall_forall. intros c Hc. apply in_map_iff in Hc.
    destruct Hc as (d & <- & _). apply flipCard_faceUp.
  - constructor; [apply flipCard_faceUp | constructor].
  - repeat constructor.
Qed.

Lemma pileOK_empty t p : type p = t -> cards p = [] -> pileOK t p.
Proof.
  intros Ht Hc. unfold pileOK. rewrite Hc. split; [exact Ht |].
  split; [constructor |].
  destruct t; repeat constructor. apply columnOrdered_nil.
Qed.

Lemma createInitialState_pilesOK cfg seed s :
  createInitialState cfg seed = Ret (Proper s) -> pilesOK s.
Proof.
  intros Hs.
  destruct (createInitialState_deck cfg seed s Hs) as (deck & E & Hperm).
  pose proof (deck_length deck Hperm) as Hlen.
  pose proof (deck_faceDown deck Hperm) as Hdown.
  pose proof (deck_deckCards deck Hperm) as Hdeck.
  clear Hperm. destruct deck as [| d0 deck]; [discriminate |].
  do 27 (destruct deck as [| ? deck]; [discriminate |]).
  rewrite (createInitialState_explicit _ _ _ _ _ _ _ _ _ _ _ _ _ _ _ _ _ _ _
             _ _ _ _ _ _ _ _ _ _ _ _ E) in Hs.
  injection Hs as <-.
  assert (Hin : forall x b, In x (d0 :: c :: c0 :: c1 :: c2 :: c3 :: c4 :: c5
                 :: c6 :: c7 :: c8 :: c9 :: c10 :: c11 :: c12 :: c13 :: c14
                 :: c15 :: c16 :: c17 :: c18 :: c19 :: c20 :: c21 :: c22
                 :: c23 :: c24 :: c25 :: deck) -> deckCard (flipCard x b)).
  { intros x b Hx. apply deckCard_flip. rewrite Forall_forall in Hdeck. auto. }
  apply pilesOK_parts. cbn [stock waste foundations tableau].
  split; [| split; [| split]].
  - split; [reflexivity |]. cbn [set_cards cards]. split.
    + do 28 (apply Forall_inv_tail in Hdeck). exact Hdeck.
    + do 28 (apply Forall_inv_tail in Hdown). exact Hdown.
  - now apply pileOK_empty.
  - intros i p Hp. unfold t4_get in Hp.
    eqb_cases; try discriminate; injection Hp as <-; now apply pileOK_empty.
  - intros i p Hp. unfold t7_get in Hp.
    eqb_cases; try discriminate; injection Hp as <-;
      (split; [reflexivity |]); cbn [set_cards cards];
      (split;
       [ repeat (constructor;
                 [apply Hin; cbn [In];
                  repeat (first [left; reflexivity | right]) |]);
         constructor
       | ]).
    + exact (columnOrdered_deal [] d0).
    + exact (columnOrdered_deal [c] c5).
    + exact (columnOrdered_deal [c0; c6] c11).
    + exact (columnOrdered_deal [c1; c7; c12] c16).
    + exact (columnOrdered_deal [c2; c8; c13; c17] c20).
    + exact (columnOrdered_deal [c3; c9; c14; c18; c21] c23).
    + exact (columnOrdered_deal [c4; c10; c15; c19; c22; c24] c25).
Qed.

Lemma Forall_app_l {A} (P : A -> Prop) l1 l2 :
  Forall P (l1 ++ l2) -> Forall P l1.
Proof. intros H. apply Forall_app in H. tauto. Qed.

Lemma Forall_app_r {A} (P : A -> Prop) l1 l2 :
  Forall P (l1 ++ l2) -> Forall P l2.
Proof. intros H. apply Forall_app in H. tauto. Qed.

Lemma Forall_map_flip (P : Card -> Prop) b cs :
  (forall c, In c cs -> P (flipCard c b)) ->
  Forall P (map (fun c => flipCard c b) cs).
Proof.
  intros H. apply Forall_forall. intros x Hx. apply in_map_iff in Hx.
  destruct Hx as (c & <- & Hc). auto.
Qed.

Lemma drawFromStock_pilesOK now s : pilesOK s -> pilesOK (drawFromStock now s).
Proof.
  intros H. destruct (cards (stock s)) as [| c0 cs0] eqn:Hst.
  { now rewrite drawFromStock_noop. }
  destruct (drawFromStock_draws now s) as (base & top & _ & _ & E & ->);
    [rewrite Hst; discriminate |].
  apply pilesOK_parts in H. destruct H as (Hs & Hw & Hf & Ht).
  apply pilesOK_parts. cbn [stock waste foundations tableau].
  split; [| split; [| split]]; [| | exact Hf | exact Ht].
  - destruct Hs as (Hty & Hd & Hdown). rewrite E in Hd, Hdown.
    split; [exact Hty |]. cbn [set_cards cards].
    split; eapply Forall_app_l; eassumption.
  - destruct Hs as (_ & Hd & _). destruct Hw as (Hty & Hwd & Hup).
    rewrite E in Hd. apply Forall_app_r in Hd.
    split; [exact Hty |]. cbn [set_cards cards].
    split; apply Forall_app; (split; [assumption |]);
      apply Forall_map_flip; intros c Hc.
    + apply deckCard_flip. rewrite Forall_forall in Hd. apply Hd.
      now apply in_rev in Hc.
    + apply flipCard_faceUp.
Qed.

Lemma resetStock_pilesOK s : pilesOK s -> pilesOK (resetStock s).
Proof.
  intros H. destruct (cards (waste s)) as [| c0 cs0] eqn:Hw0.
  { now rewrite resetStock_noop by auto. }
  destruct (resetPermitted s) eqn:Hp.
  2:{ now rewrite resetStock_noop by auto. }
  rewrite resetStock_recycles by (rewrite ?Hw0; auto; discriminate).
  apply pilesOK_parts in H. destruct H as (Hs & Hw & Hf & Ht).
  apply pilesOK_parts. cbn [stock waste foundations tableau].
  split; [| split; [| split]]; [| | exact Hf | exact Ht].
  - destruct Hs as (Hty & Hd & Hdown). destruct Hw as (_ & Hwd & _).
    split; [exact Hty |]. cbn [set_cards cards].
    split; apply Forall_app; (split; [assumption |]);
      apply Forall_map_flip; intros c Hc.
    + apply deckCard_flip. rewrite Forall_forall in Hwd. apply Hwd.
      now apply in_rev.
    + apply flipCard_faceUp.
  - apply pileOK_empty; [| reflexivity]. now destruct Hw.
Qed.

Lemma flipCard_fields c b :
  flipCard c b = mkCard (id c) (suit c) (rank c) b.
Proof.
  unfold flipCard. destruct (Bool.eqb (faceUp c) b) eqn:E; [| reflexivity].
  apply Bool.eqb_prop in E. subst b. now destruct c.
Qed.

Lemma flipTableauCard_pilesOK now s i r s' :
  flipTableauCard now s i = Ret r -> result_state r = Some s' ->
  pilesOK s -> pilesOK s'.
Proof.
  intros Hr Hs H.
  destruct (flipTableauCard_spec now s i) as (r' & Hr' & _ & Hfail & Hok).
  rewrite Hr in Hr'. injection Hr' as <-.
  destruct (success r) eqn:Hsucc.
  2:{ destruct (Hfail eq_refl) as [Hn _]. congruence. }
  destruct (Hok eq_refl) as (col & front & top & Hcol & Hcards & Hdown & Hres & _).
  rewrite Hres in Hs. injection Hs as <-.
  apply pilesOK_parts in H. destruct H as (Hst & Hw & Hf & Ht).
  apply pilesOK_parts. cbn [stock waste foundations tableau].
  split; [| split; [| split]]; [exact Hst | exact Hw | exact Hf |].
  intros j p Hp. destruct (Z.eq_dec i j) as [<- | Hne].
  - rewrite t7_get_set_same in Hp by (eapply t7_get_range; eassumption).
    injection Hp as <-. destruct (Ht i col Hcol) as (Hty & Hd & Hc).
    rewrite Hcards in Hd, Hc. rewrite <- flipCard_fields.
    split; [exact Hty |]. cbn [set_cards cards]. split.
    + apply Forall_app. split; [eapply Forall_app_l; eassumption |].
      constructor; [| constructor]. apply deckCard_flip.
      apply Forall_app_r in Hd. now apply Forall_inv in Hd.
    + now apply columnOrdered_flip_top.
  - rewrite t7_get_set_other in Hp by exact Hne. eauto.
Qed.

(** ** Moves keep the piles in order *)

(** The cards from the index of a permitted pick-up on: face-up, of falling
    rank, the moving card first. *)
Lemma picked_run t sp i mc :
  pileOK t sp -> pickUpOK sp i ->
  Js.index (cards sp) i = Some mc ->
  Forall (fun c => faceUp c = true) (skipn (Z.to_nat i) (cards sp))
  /\ fallingRanks (skipn (Z.to_nat i) (cards sp))
  /\ skipn (Z.to_nat i) (cards sp) = mc :: skipn (Z.to_nat (i + 1)) (cards sp)
  /\ (t <> tableau_t -> skipn (Z.to_nat (i + 1)) (cards sp) = []).
Proof.
  intros (Hty & Hd & Hshape) Hpick Hmc. unfold pickUpOK in Hpick.
  rewrite Hty in Hpick.
  pose proof (index_skipn _ _ _ Hmc) as Hrun.
  pose proof (index_range _ _ _ Hmc) as Hr.
  assert (Hlast : i = Js.len (cards sp) - 1 ->
                  skipn (Z.to_nat (i + 1)) (cards sp) = []).
  { intros ->. apply skipn_all2. unfold Js.len. lia. }
  assert (Hin : In mc (cards sp)).
  { rewrite <- (firstn_skipn (Z.to_nat i) (cards sp)), Hrun.
    apply in_or_app. right. now left. }
  destruct t; try contradiction.
  - rewrite Hrun, (Hlast Hpick). repeat split; auto.
    + constructor; [| constructor]. rewrite Forall_forall in Hshape. auto.
    + repeat constructor.
  - destruct Hshape as [Hup _].
    rewrite Hrun, (Hlast Hpick). repeat split; auto.
    + constructor; [| constructor]. rewrite Forall_forall in Hup. auto.
    + repeat constructor.
  - repeat split; auto; [| congruence].
    pose proof (column_run_falling (cards sp) (Z.to_nat i)
                  (length (skipn (Z.to_nat i) (cards sp))) Hshape Hpick) as Hf.
    now rewrite firstn_all in Hf.
Qed.

Lemma at_last_in_suffix (cs : list Card) i mc top :
  Js.index cs i = Some mc -> Js.at_last cs = Some top ->
  In top (skipn (Z.to_nat i) cs).
Proof.
  intros Hmc Htop. apply at_last_Some in Htop. destruct Htop as (front & ->).
  pose proof (index_range _ _ _ Hmc) as Hr. rewrite len_app in Hr.
  rewrite skipn_app. apply in_or_app. right.
  replace (Z.to_nat i - length front)%nat with 0%nat
    by (unfold Js.len in Hr; cbn [Datatypes.length] in Hr; lia).
  now left.
Qed.

(** Under the invariant no valid move has the same pile as source and
    destination. *)
Lemma valid_move_distinct s from to n :
  pilesOK s -> isValidMove s from to n = Ret true -> samePile from to = false.
Proof.
  intros H Hv. apply isValidMove_true_spec in Hv.
  destruct Hv as (sp & dp & mc & Hsp & Hdp & Hmc & Hn & Hpick & Hplace).
  destruct (samePile from to) eqn:Hsame; [exfalso | reflexivity].
  rewrite (getPile_samePile s from to Hsame), Hdp in Hsp.
  assert (Heq : sp = dp) by congruence. subst sp. clear Hsp.
  pose proof (H to dp Hdp) as Hok.
  destruct (picked_run _ _ _ _ Hok Hpick Hmc) as (Hup & Hfall & Hrun & _).
  destruct Hok as (Hty & _ & _). rewrite Hty in Hplace.
  destruct (pileType to); try contradiction.
  - destruct Hplace as [_ Hp]. unfold pickUpOK in Hpick. rewrite Hty in Hpick.
    unfold canPlaceOnFoundation, Js.at_last in Hp.
    rewrite <- Hpick, Hmc in Hp. apply andb_true_iff in Hp.
    destruct Hp as [_ Hp]. apply Z.eqb_eq in Hp. lia.
  - unfold canPlaceOnTableau in Hplace.
    destruct (Js.at_last (cards dp)) as [top |] eqn:Htop.
    2:{ apply at_last_None in Htop. rewrite Htop in Hmc.
        apply index_range in Hmc. unfold Js.len in Hmc.
        cbn [Datatypes.length] in Hmc. lia. }
    destruct (faceUp top); cbn [negb] in Hplace; [| discriminate].
    apply andb_true_iff in Hplace. destruct Hplace as [_ Hp].
    apply Z.eqb_eq in Hp.
    pose proof (at_last_in_suffix _ _ _ _ Hmc Htop) as Hin.
    rewrite Hrun in Hin, Hfall.
    pose proof (falling_head_max _ _ _ Hfall Hin). lia.
Qed.

Lemma pileOK_receive t dp mc moved :
  pileOK t dp ->
  Forall deckCard moved ->
  Forall (fun c => faceUp c = true) moved ->
  fallingRanks moved ->
  (forall b, In b moved -> rank b <= rank mc) ->
  match t with
  | stock_t | waste_t => False
  | foundation_t => moved = [mc] /\ canPlaceOnFoundation mc dp = true
  | tableau_t => canPlaceOnTableau mc dp = true
  end ->
  pileOK t (set_cards dp (cards dp ++ moved)).
Proof.
  intros (Hty & Hd & Hshape) Hmd Hmu Hmf Hle Hplace.
  split; [exact Hty |]. cbn [set_cards cards].
  split; [apply Forall_app; now split |].
  destruct t; try contradiction.
  - destruct Hshape as [Hup Hord]. destruct Hplace as [-> Hp].
    split; [apply Forall_app; now split |].
    now apply (foundationOrdered_push (cards dp) dp mc).
  - apply columnOrdered_push; auto.
    unfold canPlaceOnTableau in Hplace.
    destruct (Js.at_last (cards dp)) as [top |] eqn:Htop.
    2:{ left. now apply at_last_None. }
    right. exists top. destruct (faceUp top); cbn [negb] in Hplace;
      [| discriminate].
    apply andb_true_iff in Hplace. destruct Hplace as [_ Hp].
    apply Z.eqb_eq in Hp. repeat split; auto.
    intros b Hb. specialize (Hle b Hb). lia.
Qed.

Lemma pileOK_give t sp i n mc (flipped : bool) :
  pileOK t sp -> pickUpOK sp i ->
  Js.index (cards sp) i = Some mc ->
  (flipped = true -> t = tableau_t) ->
  pileOK t (set_cards sp (if flipped
                          then topFaceUp (leftCards (cards sp) i n)
                          else leftCards (cards sp) i n)).
Proof.
  intros Hok Hpick Hmc Hfl.
  destruct (picked_run _ _ _ _ Hok Hpick Hmc) as (Hup & Hfall & Hrun & Hone).
  destruct Hok as (Hty & Hd & Hshape).
  split; [exact Hty |]. cbn [set_cards cards]. unfold leftCards.
  assert (Hd' : Forall deckCard
                  (firstn (Z.to_nat i) (cards sp)
                   ++ skipn (Z.to_nat n) (skipn (Z.to_nat i) (cards sp))))
    by now apply Forall_cut.
  split.
  { destruct flipped; [| exact Hd'].
    apply Forall_topFaceUp; [| exact Hd']. intros c. apply deckCard_flip. }
  destruct t; try (unfold pickUpOK in Hpick; rewrite Hty in Hpick; contradiction).
  - destruct flipped; [specialize (Hfl eq_refl); discriminate |].
    now apply Forall_cut.
  - destruct flipped; [specialize (Hfl eq_refl); discriminate |].
    destruct Hshape as [Hu Hord]. split; [now apply Forall_cut |].
    rewrite Hrun, Hone by discriminate.
    destruct (Z.to_nat n) as [| k]; cbn [skipn].
    + rewrite <- Hone, <- Hrun by discriminate. now rewrite firstn_skipn.
    + rewrite skipn_nil, app_nil_r.
      rewrite <- (firstn_skipn (Z.to_nat i) (cards sp)) in Hord.
      eapply foundationOrdered_prefix; eassumption.
  - pose proof (columnOrdered_cut _ (Z.to_nat i) (Z.to_nat n) Hshape Hup) as Hc.
    destruct flipped; [now apply columnOrdered_topFaceUp | exact Hc].
Qed.

Lemma in_firstn_in {A} (x : A) n l : In x (firstn n l) -> In x l.
Proof.
  intros H. rewrite <- (firstn_skipn n l). apply in_or_app. now left.
Qed.

Lemma samePile_type a b : samePile a b = true -> pileType a = pileType b.
Proof.
  unfold samePile. destruct (pileType a), (pileType b); auto; discriminate.
Qed.

Lemma executeMove_success_valid now s from to n r s' :
  executeMove now s from to n = Ret r -> result_state r = Some s' ->
  isValidMove s from to n = Ret true.
Proof.
  intros Hr Hs. destruct (isValidMove s from to n) as [[|] | e] eqn:E.
  - reflexivity.
  - rewrite (executeMove_invalid now s from to n E) in Hr.
    injection Hr as <-. discriminate.
  - rewrite (executeMove_raises now s from to n e E) in Hr. discriminate.
Qed.

Lemma executeMove_pilesOK now s from to n r s' :
  executeMove now s from to n = Ret r -> result_state r = Some s' ->
  pilesOK s -> pilesOK s'.
Proof.
  intros Hr Hs H.
  pose proof (executeMove_success_valid _ _ _ _ _ _ _ Hr Hs) as Hv.
  pose proof (valid_move_distinct _ _ _ _ H Hv) as Hdiff.
  destruct (executeMove_distinct_effect now s from to n Hv Hdiff)
    as (sp & dp & s2 & m & Hsp & Hdp & He & Hto & Hfrom & Hother & Hflip & _).
  rewrite Hr in He. injection He as ->. cbn [result_state] in Hs.
  assert (Heq : s2 = s') by congruence. subst s2. clear Hs.
  apply isValidMove_true_spec in Hv.
  destruct Hv as (sp' & dp' & mc & Hsp' & Hdp' & Hmc & Hn & Hpick & Hplace).
  assert (Heq : sp' = sp) by congruence. subst sp'. clear Hsp'.
  assert (Heq : dp' = dp) by congruence. subst dp'. clear Hdp'.
  pose proof (H from sp Hsp) as Hsok. pose proof (H to dp Hdp) as Hdok.
  destruct (picked_run _ _ _ _ Hsok Hpick Hmc) as (Hup & Hfall & Hrun & Hone).
  intros loc p Hp.
  destruct (samePile to loc) eqn:Hst.
  { rewrite <- (getPile_samePile s' to loc Hst), Hto in Hp. injection Hp as <-.
    rewrite <- (samePile_type _ _ Hst).
    apply (pileOK_receive _ dp mc); auto; unfold movedCards.
    - apply Forall_take. now destruct Hsok as (_ & Hd & _).
    - now apply Forall_firstn_skipn.
    - now apply SSorted_firstn_skipn.
    - intros b Hb. apply (falling_head_max mc (skipn (Z.to_nat (cardIndex from + 1)) (cards sp))).
      + now rewrite <- Hrun.
      + rewrite <- Hrun. eapply in_firstn_in; eassumption.
    - destruct Hdok as (Hty & _). rewrite Hty in Hplace.
      destruct (pileType to); auto.
      destruct Hplace as [-> Hp]. split; [| exact Hp].
      now rewrite Hrun. }
  destruct (samePile from loc) eqn:Hsf.
  { rewrite <- (getPile_samePile s' from loc Hsf), Hfrom in Hp. injection Hp as <-.
    rewrite <- (samePile_type _ _ Hsf).
    apply (pileOK_give _ sp _ _ mc); auto.
    rewrite Hflip. unfold autoFlips. intros Hf.
    apply andb_true_iff in Hf. destruct Hf as [Hf _].
    apply andb_true_iff in Hf. destruct Hf as [Hf _].
    apply PileType_eqb_eq in Hf. destruct Hsok as (Hty & _). congruence. }
  rewrite Hother in Hp by assumption. auto.
Qed.

(** ** Reachable tables are in order *)

Lemma reachable_pilesOK cfg seed s : reachable cfg seed s -> pilesOK s.
Proof.
  induction 1 as [s E | now s _ IH | s _ IH | now s from to n r s' _ IH Hr Hs
                  | now s i r s' _ IH Hr Hs | now s from r s' _ IH Hr Hs
                  | now s s' _ IH Hr].
  - eapply createInitialState_pilesOK; eassumption.
  - now apply drawFromStock_pilesOK.
  - now apply resetStock_pilesOK.
  - eapply executeMove_pilesOK; eassumption.
  - eapply flipTableauCard_pilesOK; eassumption.
  - destruct (autoMoveToFoundation_executes _ _ _ _ _ Hr Hs) as (to & n & He).
    eapply executeMove_pilesOK; eassumption.
  - destruct (autoCompleteStep_executes _ _ _ Hr) as (from & to & r & He & Hs).
    eapply executeMove_pilesOK; eassumption.
Qed.

Lemma reachable_wellFormed cfg seed s : reachable cfg seed s -> wellFormed s.
Proof.
  intros H. split; [eapply reachable_pilesOK | eapply reachable_cardIds];
    eassumption.
Qed.

Lemma NoDup_app_parts {A : Type} (l1 l2 : list A) :
  NoDup (l1 ++ l2) ->
  NoDup l1 /\ NoDup l2 /\ (forall x, In x l1 -> In x l2 -> False).
Proof.
  induction l1 as [| a l1 IH]; cbn [app]; intros H.
  - repeat split; [constructor | exact H | contradiction].
  - inversion H as [| ? ? Hn Hd]; subst. destruct (IH Hd) as (H1 & H2 & H3).
    repeat split; auto.
    + constructor; [| exact H1]. intros Hin. apply Hn. apply in_or_app. now left.
    + intros x [<- | Hx] Hx2; [apply Hn; apply in_or_app; now right | eauto].
Qed.

Lemma NoDup_map_inj {A B : Type} (f : A -> B) l a b :
  NoDup (map f l) -> In a l -> In b l -> f a = f b -> a = b.
Proof.
  induction l as [| x l IH]; cbn [map]; intros H Ha Hb E; [contradiction |].
  inversion H as [| ? ? Hn Hd]; subst.
  destruct Ha as [<- | Ha], Hb as [<- | Hb]; auto.
  - exfalso. apply Hn. rewrite E. now apply in_map.
  - exfalso. apply Hn. rewrite <- E. now apply in_map.
Qed.

Lemma flat_map_disjoint {A B : Type} (f : A -> list B) ps :
  NoDup (flat_map f ps) ->
  forall j1 j2 p1 p2 x,
    nth_error ps j1 = Some p1 -> nth_error ps j2 = Some p2 -> j1 <> j2 ->
    In x (f p1) -> In x (f p2) -> False.
Proof.
  induction ps as [| p ps IH]; cbn [flat_map]; intros H j1 j2 p1 p2 x H1 H2 Hne X1 X2.
  - destruct j1; discriminate.
  - apply NoDup_app_parts in H. destruct H as (_ & Hd & Hdis).
    destruct j1 as [| j1], j2 as [| j2]; cbn [nth_error] in H1, H2.
    + congruence.
    + injection H1 as <-. apply (Hdis x X1). apply in_flat_map.
      exists p2. split; [eapply nth_error_In; eassumption | exact X2].
    + injection H2 as <-. apply (Hdis x X2). apply in_flat_map.
      exists p1. split; [eapply nth_error_In; eassumption | exact X1].
    + apply (IH Hd j1 j2 p1 p2 x); auto.
Qed.

Lemma map_flat_map {A B C : Type} (g : B -> C) (f : A -> list B)
  (ps : list A) :
  map g (flat_map f ps) = flat_map (fun p => map g (f p)) ps.
Proof.
  induction ps as [| p ps IH]; cbn [flat_map map]; [reflexivity |].
  now rewrite map_app, IH.
Qed.

Lemma min_rank_exists (l : list Card) :
  l <> [] -> exists c, In c l /\ forall d, In d l -> rank c <= rank d.
Proof.
  induction l as [| a l IH]; [contradiction |]. intros _.
  destruct l as [| b l'].
  - exists a. split; [now left |]. intros d [<- | []]. lia.
  - destruct IH as (c & Hc & Hmin); [discriminate |].
    destruct (Z.le_gt_cases (rank a) (rank c)).
    + exists a. split; [now left |].
      intros d [<- | Hd]; [lia | specialize (Hmin d Hd); lia].
    + exists c. split; [now right |]. intros d [<- | Hd]; [lia | auto].
Qed.

(** ** Where the cards of a table are *)

Lemma in_t7_list {A : Type} (t : Tuple7 A) (p : A) :
  In p (t7_list t) <-> exists i, t7_get t i = Some p.
Proof.
  split.
  - intros H. apply In_nth_error in H. destruct H as (j & Hj).
    exists (Z.of_nat j). now rewrite t7_get_nth.
  - intros (i & Hi). pose proof (t7_get_range _ _ _ Hi) as Hr.
    rewrite <- (Z2Nat.id i) in Hi by lia. rewrite t7_get_nth in Hi.
    eapply nth_error_In; eassumption.
Qed.

Lemma in_t4_list {A : Type} (t : Tuple4 A) (p : A) :
  In p (t4_list t) <-> exists i, t4_get t i = Some p.
Proof.
  split.
  - intros H. apply In_nth_error in H. destruct H as (j & Hj).
    exists (Z.of_nat j). now rewrite t4_get_nth.
  - intros (i & Hi). pose proof (t4_get_range _ _ _ Hi) as Hr.
    rewrite <- (Z2Nat.id i) in Hi by lia. rewrite t4_get_nth in Hi.
    eapply nth_error_In; eassumption.
Qed.

Lemma in_tableau_cards s c :
  In c (flat_map cards (t7_list (tableau s))) <->
  exists i col, t7_get (tableau s) i = Some col /\ In c (cards col).
Proof.
  rewrite in_flat_map. split.
  - intros (col & Hcol & Hc). apply in_t7_list in Hcol.
    destruct Hcol as (i & Hi). eauto.
  - intros (i & col & Hi & Hc). exists col. split; [| exact Hc].
    apply in_t7_list. eauto.
Qed.

Lemma in_foundation_cards s c :
  In c (flat_map cards (t4_list (foundations s))) <->
  exists j f, t4_get (foundations s) j = Some f /\ In c (cards f).
Proof.
  rewrite in_flat_map. split.
  - intros (f & Hf & Hc). apply in_t4_list in Hf.
    destruct Hf as (i & Hi). eauto.
  - intros (i & f & Hi & Hc). exists f. split; [| exact Hc].
    apply in_t4_list. eauto.
Qed.

Lemma wellFormed_NoDup s : wellFormed s -> NoDup (map id (getAllCards s)).
Proof.
  intros [_ Hp]. apply (Permutation_NoDup (Permutation_sym Hp)).
  apply createDeck_ids_NoDup.
Qed.

Lemma wellFormed_length s : wellFormed s -> length (getAllCards s) = 52%nat.
Proof.
  intros [_ Hp]. apply Permutation_length in Hp. unfold cardIds in Hp.
  rewrite !length_map in Hp. now rewrite Hp.
Qed.

(** No card identity is both on a foundation and in the tableau. *)
Lemma foundation_tableau_disjoint s c d :
  wellFormed s ->
  In c (flat_map cards (t4_list (foundations s))) ->
  In d (flat_map cards (t7_list (tableau s))) ->
  id c <> id d.
Proof.
  intros Hw Hc Hd E. apply wellFormed_NoDup in Hw. unfold getAllCards in Hw.
  rewrite !map_app in Hw.
  apply NoDup_app_parts in Hw. destruct Hw as (_ & Hw & _).
  apply NoDup_app_parts in Hw. destruct Hw as (_ & Hw & _).
  apply NoDup_app_parts in Hw. destruct Hw as (_ & _ & Hdis).
  apply (Hdis (id c)); [now apply in_map | rewrite E; now apply in_map].
Qed.

(** No card identity is on two foundations. *)
Lemma foundations_disjoint s j1 j2 f1 f2 c d :
  wellFormed s ->
  t4_get (foundations s) j1 = Some f1 -> t4_get (foundations s) j2 = Some f2 ->
  j1 <> j2 -> In c (cards f1) -> In d (cards f2) -> id c <> id d.
Proof.
  intros Hw H1 H2 Hne Hc Hd E. apply wellFormed_NoDup in Hw.
  unfold getAllCards in Hw. rewrite !map_app in Hw.
  apply NoDup_app_parts in Hw. destruct Hw as (_ & Hw & _).
  apply NoDup_app_parts in Hw. destruct Hw as (_ & Hw & _).
  apply NoDup_app_parts in Hw. destruct Hw as (Hw & _ & _).
  rewrite map_flat_map in Hw.
  pose proof (t4_get_range _ _ _ H1) as R1.
  pose proof (t4_get_range _ _ _ H2) as R2.
  rewrite <- (Z2Nat.id j1) in H1 by lia. rewrite t4_get_nth in H1.
  rewrite <- (Z2Nat.id j2) in H2 by lia. rewrite t4_get_nth in H2.
  apply (flat_map_disjoint _ _ Hw (Z.to_nat j1) (Z.to_nat j2) f1 f2 (id c));
    auto; [lia | now apply in_map | rewrite E; now apply in_map].
Qed.

(** Every card of a table in order is a deck card. *)
Lemma wellFormed_deckCard s loc p c :
  wellFormed s -> getPile s loc = Some p -> In c (cards p) -> deckCard c.
Proof.
  intros [Hp _] Hloc Hc. destruct (Hp loc p Hloc) as (_ & Hd & _).
  rewrite Forall_forall in Hd. auto.
Qed.

(** Deck cards with the same identity have the same suit and rank. *)
Lemma deckCard_id_inj c d :
  deckCard c -> deckCard d -> id c = id d ->
  suit c = suit d /\ rank c = rank d.
Proof.
  intros Hc Hd E. unfold deckCard in *.
  assert (Heq : faceDownCard c = faceDownCard d).
  { apply (NoDup_map_inj id createDeck); auto using createDeck_ids_NoDup.
    unfold faceDownCard. now rewrite !flipCard_id. }
  rewrite !faceDownCard_fields in Heq. injection Heq as _ Hs Hr. auto.
Qed.

(** ** rules.ts and game.ts: auto-complete *)

Lemma canAutoComplete_spec s :
  canAutoComplete s = true <->
  (forall i col, t7_get (tableau s) i = Some col ->
                 Forall (fun c => faceUp c = true) (cards col))
  /\ cards (stock s) = [] /\ cards (waste s) = [].
Proof.
  unfold canAutoComplete.
  destruct (forallb (fun column => forallb faceUp (cards column))
                    (t7_list (tableau s))) eqn:Hall; cbn [negb].
  - rewrite forallb_forall in Hall.
    assert (Hcols : forall i col, t7_get (tableau s) i = Some col ->
                      Forall (fun c => faceUp c = true) (cards col)).
    { intros i col Hi. apply forallb_faceUp_Forall, Hall, in_t7_list. eauto. }
    destruct (Js.len (cards (stock s)) >? 0) eqn:Hs.
    { apply len_pos_nonempty in Hs. split; [discriminate |]. tauto. }
    destruct (Js.len (cards (waste s)) >? 0) eqn:Hw.
    { apply len_pos_nonempty in Hw. split; [discriminate |]. tauto. }
    split; [intros _ | reflexivity]. repeat split; [exact Hcols | |].
    + destruct (cards (stock s)); [reflexivity |].
      assert ((Js.len (c :: l) >? 0) = true) by (apply len_pos_nonempty; discriminate).
      congruence.
    + destruct (cards (waste s)); [reflexivity |].
      assert ((Js.len (c :: l) >? 0) = true) by (apply len_pos_nonempty; discriminate).
      congruence.
  - split; [discriminate |]. intros (Hcols & _).
    assert (Hall' : forallb (fun column => forallb faceUp (cards column))
                            (t7_list (tableau s)) = true).
    { apply forallb_forall. intros col Hcol. apply in_t7_list in Hcol.
      destruct Hcol as (i & Hi). apply forallb_faceUp_Forall. eauto. }
    congruence.
Qed.

Lemma findFoundationFor_None c : forall fs j,
  findFoundationFor c fs j = None <->
  forall f, In f fs -> canPlaceOnFoundation c f = false.
Proof.
  induction fs as [| f fs IH]; intros j; cbn [findFoundationFor].
  - split; [intros _ f [] | reflexivity].
  - destruct (canPlaceOnFoundation c f) eqn:E.
    + split; [discriminate |]. intros H.
      specialize (H f (or_introl eq_refl)). congruence.
    + rewrite IH. split.
      * intros H g [<- | Hg]; auto.
      * intros H g Hg. apply H. now right.
Qed.

Lemma findFoundationFor_Some c : forall fs j to,
  findFoundationFor c fs j = Some to ->
  exists k f,
    nth_error fs k = Some f
    /\ canPlaceOnFoundation c f = true
    /\ to = mkLoc foundation_t (j + Z.of_nat k) (Js.len (cards f))
    /\ forall k' f', (k' < k)%nat -> nth_error fs k' = Some f' ->
                     canPlaceOnFoundation c f' = false.
Proof.
  induction fs as [| f fs IH]; intros j to; cbn [findFoundationFor];
    [discriminate |].
  destruct (canPlaceOnFoundation c f) eqn:E.
  - intros [= <-]. exists 0%nat, f. repeat split; auto.
    + now rewrite Z.add_0_r.
    + intros k' f' Hk. lia.
  - intros H. destruct (IH _ _ H) as (k & g & Hk & Hg & -> & Hfirst).
    exists (S k), g. repeat split; auto.
    + f_equal. lia.
    + intros [| k'] f' Hlt Hn; cbn [nth_error] in Hn.
      * now injection Hn as <-.
      * apply (Hfirst k'); [lia | exact Hn].
Qed.

Lemma findAutoCompleteLoop_None s : forall ts i,
  findAutoCompleteLoop s ts i = None <->
  forall col top, In col ts -> Js.at_last (cards col) = Some top ->
    forall f, In f (t4_list (foundations s)) ->
              canPlaceOnFoundation top f = false.
Proof.
  induction ts as [| col ts IH]; intros i; cbn [findAutoCompleteLoop].
  - split; [intros _ col top [] | reflexivity].
  - destruct (Js.at_last (cards col)) as [top |] eqn:Htop.
    + destruct (findFoundationFor top (t4_list (foundations s)) 0)
        as [to |] eqn:Hf.
      * split; [discriminate |]. intros H.
        assert (Hn : findFoundationFor top (t4_list (foundations s)) 0 = None).
        { apply findFoundationFor_None. apply (H col top); auto. now left. }
        congruence.
      * rewrite IH. rewrite findFoundationFor_None in Hf. split.
        -- intros H c t [<- | Hc] Ht; [| now apply (H c t)].
           rewrite Htop in Ht. injection Ht as <-. exact Hf.
        -- intros H c t Hc. apply H. now right.
    + rewrite IH. split.
      * intros H c t [<- | Hc] Ht; [congruence | now apply (H c t)].
      * intros H c t Hc. apply H. now right.
Qed.

Lemma findAutoCompleteLoop_Some s : forall ts i from to,
  findAutoCompleteLoop s ts i = Some (from, to) ->
  exists k col top,
    nth_error ts k = Some col
    /\ Js.at_last (cards col) = Some top
    /\ from = mkLoc tableau_t (i + Z.of_nat k) (Js.len (cards col) - 1)
    /\ findFoundationFor top (t4_list (foundations s)) 0 = Some to
    /\ forall k' col' top', (k' < k)%nat -> nth_error ts k' = Some col' ->
         Js.at_last (cards col') = Some top' ->
         findFoundationFor top' (t4_list (foundations s)) 0 = None.
Proof.
  induction ts as [| col ts IH]; intros i from to; cbn [findAutoCompleteLoop];
    [discriminate |].
  assert (Hshift : findAutoCompleteLoop s ts (i + 1) = Some (from, to) ->
    (forall top', Js.at_last (cards col) = Some top' ->
       findFoundationFor top' (t4_list (foundations s)) 0 = None) ->
    exists k col0 top,
      nth_error (col :: ts) k = Some col0
      /\ Js.at_last (cards col0) = Some top
      /\ from = mkLoc tableau_t (i + Z.of_nat k) (Js.len (cards col0) - 1)
      /\ findFoundationFor top (t4_list (foundations s)) 0 = Some to
      /\ forall k' col' top', (k' < k)%nat ->
           nth_error (col :: ts) k' = Some col' ->
           Js.at_last (cards col') = Some top' ->
           findFoundationFor top' (t4_list (foundations s)) 0 = None).
  { intros H Hhere.
    destruct (IH _ _ _ H) as (k & c & t & Hk & Ht & -> & Hf & Hfirst).
    exists (S k), c, t. repeat split; auto.
    - f_equal. lia.
    - intros [| k'] col' top' Hlt Hn Ht'; cbn [nth_error] in Hn.
      + injection Hn as <-. auto.
      + apply (Hfirst k' col'); auto. lia. }
  destruct (Js.at_last (cards col)) as [top |] eqn:Htop.
  - destruct (findFoundationFor top (t4_list (foundations s)) 0)
      as [to' |] eqn:Hf.
    + intros [= <- <-]. exists 0%nat, col, top. repeat split; auto.
      * now rewrite Z.add_0_r.
      * intros k' col' top' Hlt. lia.
    + intros H. apply Hshift; [exact H |]. now intros top' [= <-].
  - intros H. apply Hshift; [exact H |]. discriminate.
Qed.

(** A column of face-up cards only has falling ranks throughout. *)
Lemma column_all_up cs :
  columnOrdered cs -> Forall (fun c => faceUp c = true) cs -> fallingRanks cs.
Proof.
  intros (down & up & -> & Hd & Hu & Hs) Hall.
  destruct down as [| d down]; [exact Hs |].
  apply Forall_inv in Hd. apply Forall_inv in Hall. congruence.
Qed.

Lemma risingFrom_nth su : forall l r p x,
  risingFrom su r l -> nth_error l p = Some x ->
  suit x = su /\ rank x = r + Z.of_nat p.
Proof.
  induction l as [| c l IH]; intros r p x H Hp; [destruct p; discriminate |].
  destruct H as (Hs & Hr & H). destruct p as [| p]; cbn [nth_error] in Hp.
  - injection Hp as <-. split; [auto | lia].
  - destruct (IH _ _ _ H Hp) as [? ?]. split; [auto | lia].
Qed.

Lemma four_suits (a b0 b1 b2 b3 : Suit) :
  b0 <> a -> b1 <> a -> b2 <> a -> b3 <> a ->
  b0 <> b1 -> b0 <> b2 -> b0 <> b3 -> b1 <> b2 -> b1 <> b3 -> b2 <> b3 ->
  False.
Proof. destruct a, b0, b1, b2, b3; congruence. Qed.

Lemma foundation_head f :
  pileOK foundation_t f ->
  cards f = [] \/ exists a, In a (cards f) /\ rank a = 1.
Proof.
  intros (_ & _ & _ & Ho). destruct (cards f) as [| a l]; [now left | right].
  exists a. split; [now left |]. cbn [foundationOrdered risingFrom] in Ho. tauto.
Qed.

Lemma getPile_foundation s j : getPile s (mkLoc foundation_t j 0) = t4_get (foundations s) j.
Proof. reflexivity. Qed.

Lemma getPile_tableau s i k : getPile s (mkLoc tableau_t i k) = t7_get (tableau s) i.
Proof. reflexivity. Qed.

Lemma wellFormed_foundation s j f :
  wellFormed s -> t4_get (foundations s) j = Some f -> pileOK foundation_t f.
Proof. intros [H _] Hf. exact (H (mkLoc foundation_t j 0) f Hf). Qed.

Lemma wellFormed_column s i col :
  wellFormed s -> t7_get (tableau s) i = Some col -> pileOK tableau_t col.
Proof. intros [H _] Hf. exact (H (mkLoc tableau_t i 0) col Hf). Qed.

(** With an Ace in the tableau, one of the four foundations is empty. *)
Lemma empty_foundation_for_ace s top :
  wellFormed s ->
  In top (flat_map cards (t7_list (tableau s))) -> deckCard top ->
  rank top = 1 ->
  exists f, In f (t4_list (foundations s)) /\ cards f = [].
Proof.
  intros Hw Htop Hdt Hr.
  assert (Hcase : forall j, 0 <= j < 4 ->
            (exists f, In f (t4_list (foundations s)) /\ cards f = [])
            \/ exists f a, t4_get (foundations s) j = Some f
                           /\ In a (cards f) /\ rank a = 1 /\ deckCard a
                           /\ suit a <> suit top).
  { intros j Hj. destruct (t4_get_in_range (foundations s) j Hj) as (f & Hf).
    destruct (foundation_head f (wellFormed_foundation s j f Hw Hf))
      as [He | (a & Ha & Hra)].
    - left. exists f. split; [apply in_t4_list; eauto | exact He].
    - right. exists f, a.
      assert (Hda : deckCard a).
      { eapply (wellFormed_deckCard s (mkLoc foundation_t j 0)); eauto. }
      repeat split; auto. intros Hs.
      apply (foundation_tableau_disjoint s a top Hw); auto.
      + apply in_foundation_cards. eauto.
      + apply deckCard_same_id; auto. congruence. }
  destruct (Hcase 0) as [H0 | (f0 & a0 & G0 & I0 & R0 & D0 & S0)]; [lia | exact H0 |].
  destruct (Hcase 1) as [H1 | (f1 & a1 & G1 & I1 & R1 & D1 & S1)]; [lia | exact H1 |].
  destruct (Hcase 2) as [H2 | (f2 & a2 & G2 & I2 & R2 & D2 & S2)]; [lia | exact H2 |].
  destruct (Hcase 3) as [H3 | (f3 & a3 & G3 & I3 & R3 & D3 & S3)]; [lia | exact H3 |].
  exfalso.
  assert (Hpair : forall j1 j2 g1 g2 x y,
            t4_get (foundations s) j1 = Some g1 ->
            t4_get (foundations s) j2 = Some g2 -> j1 <> j2 ->
            In x (cards g1) -> In y (cards g2) ->
            rank x = 1 -> rank y = 1 -> deckCard x -> deckCard y ->
            suit x <> suit y).
  { intros j1 j2 g1 g2 x y Hg1 Hg2 Hne Hx Hy Rx Ry Dx Dy Hs.
    apply (foundations_disjoint s j1 j2 g1 g2 x y Hw); auto.
    apply deckCard_same_id; auto. congruence. }
  apply (four_suits (suit top) (suit a0) (suit a1) (suit a2) (suit a3)); auto.
  - apply (Hpair 0 1 f0 f1); auto. lia.
  - apply (Hpair 0 2 f0 f2); auto. lia.
  - apply (Hpair 0 3 f0 f3); auto. lia.
  - apply (Hpair 1 2 f1 f2); auto. lia.
  - apply (Hpair 1 3 f1 f3); auto. lia.
  - apply (Hpair 2 3 f2 f3); auto. lia.
Qed.

(** With every remaining card face-up in the tableau, some column's top card
    goes on some foundation: the top card of lowest rank does. *)
Lemma autoComplete_move_exists s :
  wellFormed s -> canAutoComplete s = true ->
  flat_map cards (t7_list (tableau s)) <> [] ->
  exists col top f,
    In col (t7_list (tableau s)) /\ Js.at_last (cards col) = Some top
    /\ In f (t4_list (foundations s))
    /\ canPlaceOnFoundation top f = true.
Proof.
  intros Hw Hac Hne. apply canAutoComplete_spec in Hac.
  destruct Hac as (Hall & Hstock & Hwaste).
  destruct (min_rank_exists _ Hne) as (c & Hc & Hmin).
  pose proof Hc as Hc'. apply in_tableau_cards in Hc'.
  destruct Hc' as (i & col & Hcol & Hcin).
  pose proof (wellFormed_column s i col Hw Hcol) as (_ & Hdeck & Hord).
  pose proof (column_all_up _ Hord (Hall i col Hcol)) as Hfall.
  destruct (snoc_cases (cards col)) as [E | (front & top & E)].
  { rewrite E in Hcin. contradiction. }
  assert (Htin : In top (cards col)).
  { rewrite E. apply in_or_app. right. now left. }
  assert (HtT : In top (flat_map cards (t7_list (tableau s)))).
  { apply in_tableau_cards. eauto. }
  assert (Hle : rank top <= rank c).
  { rewrite E in Hfall, Hcin. now apply (falling_last_min front top c). }
  assert (Hmin' : forall d, In d (flat_map cards (t7_list (tableau s))) ->
                            rank top <= rank d).
  { intros d Hd. specialize (Hmin d Hd). lia. }
  assert (Hdt : deckCard top).
  { rewrite Forall_forall in Hdeck. auto. }
  assert (Hlast : Js.at_last (cards col) = Some top).
  { rewrite E. apply at_last_snoc. }
  exists col, top.
  assert (Hcolin : In col (t7_list (tableau s))) by (apply in_t7_list; eauto).
  pose proof (proj1 (deckCard_spec top) Hdt) as [Hrange Hid].
  destruct (Z.eq_dec (rank top) 1) as [Hace | Hnot].
  - destruct (empty_foundation_for_ace s top Hw HtT Hdt Hace) as (f & Hf & He).
    exists f. repeat split; auto.
    unfold canPlaceOnFoundation. rewrite He, at_last_nil. now apply Z.eqb_eq.
  - set (e := createCard (suit top) (rank top - 1) false).
    assert (He : In e createDeck).
    { apply createDeck_cards. exists (suit top), (rank top - 1).
      split; [lia | reflexivity]. }
    assert (Hide : In (id e) (cardIds s)).
    { destruct Hw as [_ Hp].
      apply (Permutation_in _ (Permutation_sym Hp)). now apply in_map. }
    unfold cardIds in Hide. apply in_map_iff in Hide.
    destruct Hide as (d & Hid_d & Hd).
    unfold getAllCards in Hd. rewrite Hstock, Hwaste in Hd. cbn [app] in Hd.
    apply in_app_or in Hd. destruct Hd as [HdF | HdT].
    + pose proof HdF as HdF'. apply in_foundation_cards in HdF'.
      destruct HdF' as (j & f & Hf & Hdin).
      assert (Hdd : deckCard d).
      { eapply (wellFormed_deckCard s (mkLoc foundation_t j 0)); eauto. }
      destruct (deckCard_id_inj d e Hdd (deckCard_of_deck e He) Hid_d)
        as [Hsd Hrd].
      cbn [e createCard suit rank] in Hsd, Hrd.
      pose proof (wellFormed_foundation s j f Hw Hf) as (_ & Hfd & _ & Ho).
      apply foundationOrdered_iff in Ho. destruct Ho as (su & Ho).
      destruct (In_nth_error _ _ Hdin) as (p & Hp).
      destruct (risingFrom_nth _ _ _ _ _ Ho Hp) as [Hsu Hrp].
      exists f. repeat split; auto; [apply in_t4_list; eauto |].
      destruct (nth_error (cards f) (S p)) as [x |] eqn:Hx.
      * exfalso. destruct (risingFrom_nth _ _ _ _ _ Ho Hx) as [Hsx Hrx].
        assert (Hxin : In x (cards f)) by (eapply nth_error_In; eassumption).
        apply (foundation_tableau_disjoint s x top Hw); auto.
        -- apply in_foundation_cards. eauto.
        -- apply deckCard_same_id; auto.
           ++ rewrite Forall_forall in Hfd. auto.
           ++ congruence.
           ++ lia.
      * apply nth_error_None in Hx.
        assert (Hlen : length (cards f) = S p).
        { assert (p < length (cards f))%nat
            by (apply nth_error_Some; congruence). lia. }
        unfold canPlaceOnFoundation, Js.at_last, Js.index, Js.len.
        rewrite Hlen.
        destruct (Z.ltb_spec (Z.of_nat (S p) - 1) 0) as [Hneg | _]; [lia |].
        replace (Z.to_nat (Z.of_nat (S p) - 1)) with p by lia.
        rewrite Hp. apply andb_true_iff. split.
        -- apply Suit_eqb_eq. congruence.
        -- apply Z.eqb_eq. lia.
    + specialize (Hmin' d HdT).
      assert (Hdd : deckCard d).
      { pose proof HdT as HdT'. apply in_tableau_cards in HdT'.
        destruct HdT' as (i' & col' & Hcol' & Hdin).
        eapply (wellFormed_deckCard s (mkLoc tableau_t i' 0)); eauto. }
      destruct (deckCard_id_inj d e Hdd (deckCard_of_deck e He) Hid_d)
        as [_ Hrd].
      cbn [e createCard rank] in Hrd. lia.
Qed.

Lemma foundationCount_sum s :
  foundationCount s
  = Js.len (cards (t4_0 (foundations s))) + Js.len (cards (t4_1 (foundations s)))
    + Js.len (cards (t4_2 (foundations s))) + Js.len (cards (t4_3 (foundations s))).
Proof.
  unfold foundationCount. cbn [t4_list flat_map].
  rewrite !len_app, len_nil. lia.
Qed.

Lemma checkWinCondition_count s :
  checkWinCondition s = (foundationCount s =? 52).
Proof.
  rewrite foundationCount_sum. unfold checkWinCondition.
  cbn [t4_list fold_left]. f_equal.
Qed.

Lemma movedCards_top front top :
  movedCards (front ++ [top]) (Js.len (front ++ [top]) - 1) 1 = [top].
Proof.
  unfold movedCards. rewrite len_app, len_cons, len_nil.
  replace (Z.to_nat (Js.len front + (1 + 0) - 1)) with (length front)
    by (unfold Js.len; lia).
  rewrite skipn_app, Nat.sub_diag, skipn_all. reflexivity.
Qed.

(** A table of face-up cards with empty stock and waste: the foundations
    hold what the tableau does not. *)
Lemma autoComplete_count s :
  wellFormed s -> canAutoComplete s = true ->
  foundationCount s + Js.len (flat_map cards (t7_list (tableau s))) = 52.
Proof.
  intros Hw Hac. apply canAutoComplete_spec in Hac.
  destruct Hac as (_ & Hstock & Hwaste).
  pose proof (wellFormed_length s Hw) as Hlen. unfold getAllCards in Hlen.
  rewrite Hstock, Hwaste in Hlen. cbn [app] in Hlen.
  rewrite length_app in Hlen. unfold foundationCount, Js.len. lia.
Qed.

(** One step of auto-complete on a table where it is on offer. *)
Lemma autoCompleteStep_progress now s from to :
  wellFormed s -> canAutoComplete s = true ->
  findAutoCompleteMove s = Some (from, to) ->
  exists s',
    autoCompleteStep now s = Ret (Some s')
    /\ wellFormed s' /\ canAutoComplete s' = true
    /\ foundationCount s' = foundationCount s + 1
    /\ isWon s' = (checkWinCondition s' || isWon s).
Proof.
  intros Hw Hac Hfind. pose proof Hac as Hac'.
  apply canAutoComplete_spec in Hac'. destruct Hac' as (Hall & Hstock & Hwaste).
  unfold findAutoCompleteMove in Hfind.
  destruct (findAutoCompleteLoop_Some _ _ _ _ _ Hfind)
    as (k & col & top & Hk & Htop & Hfrom & Hff & _).
  destruct (findFoundationFor_Some _ _ _ _ Hff)
    as (j & f & Hj & Hplace & Hto & _).
  rewrite <- t7_get_nth in Hk. rewrite <- t4_get_nth in Hj.
  rewrite Z.add_0_l in Hfrom, Hto.
  pose proof (wellFormed_column _ _ _ Hw Hk) as Hcok.
  pose proof (wellFormed_foundation _ _ _ Hw Hj) as Hfok.
  assert (Hsp : getPile s from = Some col) by (subst from; exact Hk).
  assert (Hdp : getPile s to = Some f) by (subst to; exact Hj).
  assert (Hdiff : samePile from to = false) by (subst from to; reflexivity).
  assert (Hv : isValidMove s from to 1 = Ret true).
  { apply isValidMove_true_spec. exists col, f, top.
    split; [exact Hsp |]. split; [exact Hdp |].
    subst from. cbn [cardIndex]. split; [exact Htop |]. split; [lia |].
    destruct Hcok as (-> & _). destruct Hfok as (-> & _).
    split; [| split; [reflexivity | exact Hplace]].
    apply Forall_firstn_skipn. eauto. }
  destruct (executeMove_distinct_effect now s from to 1 Hv Hdiff)
    as (sp & dp & s' & m & Hsp' & Hdp' & He & Hgto & Hgfrom & Hother & Hflip
        & _ & _ & _ & _ & _ & _ & _ & Hwon & _).
  assert (Heq : sp = col) by congruence. subst sp. clear Hsp'.
  assert (Heq : dp = f) by congruence. subst dp. clear Hdp'.
  exists s'. split.
  { unfold autoCompleteStep, findAutoCompleteMove. rewrite Hfind, He.
    reflexivity. }
  assert (Hw' : wellFormed s').
  { destruct Hw as [Hp Hperm]. split.
    - eapply executeMove_pilesOK; [exact He | reflexivity | exact Hp].
    - rewrite <- Hperm. eapply executeMove_cardIds; [exact He | reflexivity]. }
  split; [exact Hw' |]. split; [| split; [| exact Hwon]].
  - apply canAutoComplete_spec. split; [| split].
    + intros i c Hc.
      destruct (samePile from (mkLoc tableau_t i 0)) eqn:Hs.
      * rewrite <- getPile_tableau with (k := 0) in Hc.
        rewrite <- (getPile_samePile s' _ _ Hs), Hgfrom in Hc.
        injection Hc as <-. cbn [set_cards cards].
        assert (Hleft : Forall (fun c => faceUp c = true)
                          (leftCards (cards col) (cardIndex from) 1)).
        { unfold leftCards. apply Forall_cut. eauto. }
        destruct (flippedCard m); [| exact Hleft].
        apply Forall_topFaceUp; [| exact Hleft].
        intros x _. apply flipCard_faceUp.
      * rewrite <- getPile_tableau with (k := 0) in Hc.
        rewrite Hother in Hc;
          [exact (Hall i c Hc) | exact Hs | subst to; reflexivity].
    + assert (Hst : getPile s' (mkLoc stock_t 0 0) = getPile s (mkLoc stock_t 0 0)).
      { apply Hother; subst from to; reflexivity. }
      unfold getPile in Hst. cbn [pileType] in Hst. injection Hst as ->.
      exact Hstock.
    + assert (Hst : getPile s' (mkLoc waste_t 0 0) = getPile s (mkLoc waste_t 0 0)).
      { apply Hother; subst from to; reflexivity. }
      unfold getPile in Hst. cbn [pileType] in Hst. injection Hst as ->.
      exact Hwaste.
  - assert (Hmoved : movedCards (cards col) (cardIndex from) 1 = [top]).
    { apply at_last_Some in Htop. destruct Htop as (front & Hcards).
      subst from. cbn [cardIndex]. rewrite Hcards. apply movedCards_top. }
    rewrite Hmoved in Hgto.
    assert (Hget : forall j', t4_get (foundations s') j'
              = if j' =? Z.of_nat j
                then Some (set_cards f (cards f ++ [top]))
                else t4_get (foundations s) j').
    { intros j'. rewrite <- !getPile_foundation.
      destruct (Z.eqb_spec j' (Z.of_nat j)) as [-> | Hne].
      - rewrite <- Hgto. apply getPile_samePile. subst to. cbn.
        apply Z.eqb_refl.
      - apply Hother; subst from to; cbn; [reflexivity |].
        apply Z.eqb_neq. congruence. }
    pose proof (t4_get_range _ _ _ Hj) as Hjr.
    pose proof (Hget 0) as G0. pose proof (Hget 1) as G1.
    pose proof (Hget 2) as G2. pose proof (Hget 3) as G3.
    rewrite !foundationCount_sum.
    unfold t4_get in G0, G1, G2, G3, Hj.
    cbn [Z.eqb Pos.eqb] in G0, G1, G2, G3.
    destruct (Z.eqb_spec 0 (Z.of_nat j)) as [E0 | N0].
    { rewrite <- E0 in *. cbn [Z.eqb Pos.eqb] in *.
      injection G0 as ->. injection G1 as ->. injection G2 as ->.
      injection G3 as ->. injection Hj as ->.
      cbn [set_cards cards]. rewrite len_app, len_cons, len_nil. lia. }
    destruct (Z.eqb_spec 1 (Z.of_nat j)) as [E1 | N1].
    { rewrite <- E1 in *. cbn [Z.eqb Pos.eqb] in *.
      injection G0 as ->. injection G1 as ->. injection G2 as ->.
      injection G3 as ->. injection Hj as ->.
      cbn [set_cards cards]. rewrite len_app, len_cons, len_nil. lia. }
    destruct (Z.eqb_spec 2 (Z.of_nat j)) as [E2 | N2].
    { rewrite <- E2 in *. cbn [Z.eqb Pos.eqb] in *.
      injection G0 as ->. injection G1 as ->. injection G2 as ->.
      injection G3 as ->. injection Hj as ->.
      cbn [set_cards cards]. rewrite len_app, len_cons, len_nil. lia. }
    destruct (Z.eqb_spec 3 (Z.of_nat j)) as [E3 | N3].
    { rewrite <- E3 in *. cbn [Z.eqb Pos.eqb] in *.
      injection G0 as ->. injection G1 as ->. injection G2 as ->.
      injection G3 as ->. injection Hj as ->.
      cbn [set_cards cards]. rewrite len_app, len_cons, len_nil. lia. }
    lia.
Qed.

(** When auto-complete finds no move on such a table, the tableau is empty
    and the game is won. *)
Lemma autoComplete_done s :
  wellFormed s -> canAutoComplete s = true ->
  findAutoCompleteMove s = None ->
  flat_map cards (t7_list (tableau s)) = [] /\ checkWinCondition s = true.
Proof.
  intros Hw Hac Hnone.
  assert (Hempty : flat_map cards (t7_list (tableau s)) = []).
  { destruct (flat_map cards (t7_list (tableau s))) eqn:E; [reflexivity |].
    exfalso.
    destruct (autoComplete_move_exists s Hw Hac)
      as (col & top & f & Hcol & Htop & Hf & Hplace).
    { rewrite E. discriminate. }
    unfold findAutoCompleteMove in Hnone.
    rewrite findAutoCompleteLoop_None in Hnone.
    rewrite (Hnone col top Hcol Htop f Hf) in Hplace. discriminate. }
  split; [exact Hempty |].
  pose proof (autoComplete_count s Hw Hac) as Hc.
  rewrite Hempty, len_nil in Hc.
  rewrite checkWinCondition_count. apply Z.eqb_eq. lia.
Qed.

Lemma autoCompleteRun_wins clock : forall fuel s,
  wellFormed s -> canAutoComplete s = true ->
  52 - foundationCount s <= Z.of_nat fuel ->
  exists s',
    autoCompleteRun fuel clock s = Ret s'
    /\ checkWinCondition s' = true
    /\ flat_map cards (t7_list (tableau s')) = []
    /\ (s' = s \/ isWon s' = true).
Proof.
  induction fuel as [| fuel IH]; intros s Hw Hac Hfuel.
  - pose proof (autoComplete_count s Hw Hac) as Hc.
    pose proof (len_nonneg (flat_map cards (t7_list (tableau s)))) as Hnn.
    exists s. split; [reflexivity |].
    rewrite checkWinCondition_count. split; [apply Z.eqb_eq; lia |].
    split; [apply len_zero_nil; lia | now left].
  - cbn [autoCompleteRun]. unfold autoCompleteStep at 1.
    destruct (findAutoCompleteMove s) as [[from to] |] eqn:Hfind.
    + destruct (autoCompleteStep_progress (clock fuel) s from to Hw Hac Hfind)
        as (s1 & Hstep & Hw1 & Hac1 & Hcount & Hwon).
      unfold autoCompleteStep in Hstep. rewrite Hfind in Hstep.
      rewrite Hstep. cbn [bind].
      destruct (IH s1 Hw1 Hac1) as (s' & Hrun & Hcheck & Hempty & Hs'); [lia |].
      exists s'. repeat split; auto. right.
      destruct Hs' as [-> | Hs']; [| exact Hs'].
      rewrite Hwon, Hcheck. reflexivity.
    + destruct (autoComplete_done s Hw Hac Hfind) as [Hempty Hcheck].
      exists s. cbn [bind]. repeat split; auto.
Qed.

Lemma executeMove_won now s from to n r s' :
  pilesOK s ->
  executeMove now s from to n = Ret r -> result_state r = Some s' ->
  isWon s' = (checkWinCondition s' || isWon s).
Proof.
  intros H Hr Hs.
  pose proof (executeMove_success_valid _ _ _ _ _ _ _ Hr Hs) as Hv.
  pose proof (valid_move_distinct _ _ _ _ H Hv) as Hdiff.
  destruct (executeMove_distinct_effect now s from to n Hv Hdiff)
    as (sp & dp & s2 & m & _ & _ & He & _ & _ & _ & _
        & _ & _ & _ & _ & _ & _ & _ & Hwon & _).
  rewrite Hr in He. injection He as ->. cbn [result_state] in Hs.
  assert (Heq : s2 = s') by congruence. now subst s2.
Qed.

(** On the tables of a game, a full foundation row has the won flag set. *)
Lemma reachable_won cfg seed s :
  reachable cfg seed s -> checkWinCondition s = true -> isWon s = true.
Proof.
  induction 1 as [s E | now s _ IH | s _ IH | now s from to n r s' Hre IH Hr Hs
                  | now s i r s' _ IH Hr Hs | now s from r s' Hre IH Hr Hs
                  | now s s' Hre IH Hr].
  - intros Hc. exfalso. revert Hc.
    destruct (createInitialState_deck cfg seed s E) as (deck & Ed & Hperm).
    pose proof (deck_length deck Hperm) as Hlen.
    clear Hperm. destruct deck as [| d0 deck]; [discriminate |].
    do 27 (destruct deck as [| ? deck]; [discriminate |]).
    rewrite (createInitialState_explicit _ _ _ _ _ _ _ _ _ _ _ _ _ _ _ _ _ _
               _ _ _ _ _ _ _ _ _ _ _ _ _ Ed) in E.
    injection E as <-. discriminate.
  - destruct (cards (stock s)) as [| c0 cs0] eqn:Hst.
    { now rewrite drawFromStock_noop. }
    destruct (drawFromStock_draws now s) as (base & top & _ & _ & _ & ->);
      [rewrite Hst; discriminate |].
    exact IH.
  - destruct (cards (waste s)) as [| c0 cs0] eqn:Hw0.
    { now rewrite resetStock_noop by auto. }
    destruct (resetPermitted s) eqn:Hp.
    2:{ now rewrite resetStock_noop by auto. }
    rewrite resetStock_recycles by (rewrite ?Hw0; auto; discriminate).
    exact IH.
  - intros Hc.
    rewrite (executeMove_won _ _ _ _ _ _ _ (reachable_pilesOK _ _ _ Hre) Hr Hs).
    now rewrite Hc.
  - destruct (flipTableauCard_spec now s i) as (r' & Hr' & _ & Hfail & Hok).
    rewrite Hr in Hr'. injection Hr' as <-.
    destruct (success r) eqn:Hsucc.
    2:{ destruct (Hfail eq_refl) as [Hn _]. congruence. }
    destruct (Hok eq_refl) as (col & front & top & _ & _ & _ & Hres & _).
    rewrite Hres in Hs. injection Hs as <-. exact IH.
  - destruct (autoMoveToFoundation_executes _ _ _ _ _ Hr Hs) as (to & n & He).
    intros Hc.
    rewrite (executeMove_won _ _ _ _ _ _ _ (reachable_pilesOK _ _ _ Hre) He Hs).
    now rewrite Hc.
  - destruct (autoCompleteStep_executes _ _ _ Hr) as (from & to & r & He & Hs).
    intros Hc.
    rewrite (executeMove_won _ _ _ _ _ _ _ (reachable_pilesOK _ _ _ Hre) He Hs).
    now rewrite Hc.
Qed.

(** ** game.ts: validateState *)

Lemma app_nil_iff {A : Type} (l1 l2 : list A) :
  l1 ++ l2 = [] <-> l1 = [] /\ l2 = [].
Proof.
  split; [apply app_eq_nil | intros [-> ->]; reflexivity].
Qed.

Lemma duplicateErrors_nil : forall cs seen,
  duplicateErrors seen cs = [] <->
  NoDup (map id cs) /\ (forall c, In c cs -> ~ In (id c) seen).
Proof.
  induction cs as [| c cs IH]; intros seen; cbn [duplicateErrors map].
  - split; [intros _; split; [constructor | intros c []] | reflexivity].
  - rewrite app_nil_iff, IH.
    assert (Hex : existsb (String.eqb (id c)) seen = true <-> In (id c) seen).
    { rewrite existsb_exists. split.
      - intros (x & Hx & E). apply String.eqb_eq in E. now subst.
      - intros H. exists (id c). split; [exact H | apply String.eqb_refl]. }
    split.
    + intros (Hc & Hnd & Hseen).
      assert (Hnot : ~ In (id c) seen).
      { destruct (existsb (String.eqb (id c)) seen); [discriminate |].
        intros H. apply Hex in H. discriminate. }
      split.
      * constructor; [| exact Hnd]. intros Hin. apply in_map_iff in Hin.
        destruct Hin as (d & Hid & Hd). apply (Hseen d Hd). left. now symmetry.
      * intros d [<- | Hd]; [exact Hnot |].
        intros Hin. apply (Hseen d Hd). now right.
    + intros (Hnd & Hseen). inversion Hnd as [| ? ? Hn Hd]; subst.
      split; [| split; [exact Hd |]].
      * destruct (existsb (String.eqb (id c)) seen) eqn:E; [| reflexivity].
        exfalso. apply (Hseen c (or_introl eq_refl)). now apply Hex.
      * intros d Hd' [E | Hin].
        -- apply Hn. rewrite E. now apply in_map.
        -- apply (Hseen d); [now right | exact Hin].
Qed.

Lemma foundationErrors_Some i : forall cs p,
  foundationErrors i (Some p) cs = [] <-> risingFrom (suit p) (rank p + 1) cs.
Proof.
  induction cs as [| c cs IH]; intros p;
    cbn [foundationErrors foundationCardErrors risingFrom].
  - tauto.
  - rewrite !app_nil_iff, IH.
    destruct (Suit_eqb (suit c) (suit p)) eqn:Es;
      destruct (Z.eqb_spec (rank c) (rank p + 1)) as [Er | Er]; cbn [negb].
    + apply Suit_eqb_eq in Es. rewrite Es, Er. tauto.
    + split; [intros ((_ & H) & _); discriminate | tauto].
    + split; [intros ((H & _) & _); discriminate |].
      intros (H & _). apply Suit_eqb_eq in H. congruence.
    + split; [intros ((H & _) & _); discriminate | tauto].
Qed.

Lemma foundationErrors_None i cs :
  foundationErrors i None cs = [] <-> foundationOrdered cs.
Proof.
  destruct cs as [| c cs];
    cbn [foundationErrors foundationCardErrors foundationOrdered risingFrom].
  - tauto.
  - rewrite app_nil_iff, foundationErrors_Some.
    destruct (Z.eqb_spec (rank c) 1) as [Er | Er]; cbn [negb].
    + rewrite Er. tauto.
    + split; [intros (H & _); discriminate | tauto].
Qed.

Lemma allFoundationErrors_nil : forall fs i,
  allFoundationErrors fs i = [] <->
  forall f, In f fs -> foundationOrdered (cards f).
Proof.
  induction fs as [| f fs IH]; intros i; cbn [allFoundationErrors].
  - split; [intros _ f [] | reflexivity].
  - rewrite app_nil_iff, foundationErrors_None, IH. split.
    + intros [Hf Hfs] g [<- | Hg]; auto.
    + intros H. split; [apply H; now left |]. intros g Hg. apply H. now right.
Qed.

(** [validateState] reports a valid table exactly when it lists no error,
    that is, when the table holds 52 cards of pairwise distinct identities
    and every foundation is one suit from the Ace up, ranks rising by one. *)
Lemma validateState_spec s :
  (fst (validateState s) = true <-> snd (validateState s) = [])
  /\ (snd (validateState s) = [] <->
      length (getAllCards s) = 52%nat
      /\ NoDup (map id (getAllCards s))
      /\ forall j f, t4_get (foundations s) j = Some f ->
                     foundationOrdered (cards f)).
Proof.
  unfold validateState. cbn [fst snd]. split.
  - split.
    + intros H. apply Z.eqb_eq in H. now apply len_zero_nil.
    + intros ->. reflexivity.
  - rewrite !app_nil_iff, duplicateErrors_nil, allFoundationErrors_nil.
    assert (Hlen : (if negb (Js.len (getAllCards s) =? 52)
                    then [String.append "Expected 52 cards, found "
                            (number_toString (Js.len (getAllCards s)))]
                    else []) = []
                   <-> length (getAllCards s) = 52%nat).
    { destruct (Z.eqb_spec (Js.len (getAllCards s)) 52) as [E | E];
        cbn [negb]; unfold Js.len in E.
      - split; [lia | reflexivity].
      - split; [discriminate | lia]. }
    rewrite Hlen. split.
    + intros (H52 & (Hnd & _) & Hf). repeat split; auto.
      intros j f Hj. apply Hf. apply in_t4_list. eauto.
    + intros (H52 & Hnd & Hf). repeat split; auto.
      intros f Hin. apply in_t4_list in Hin. destruct Hin as (j & Hj). eauto.
Qed.

Lemma wellFormed_valid s : wellFormed s -> validateState s = (true, []).
Proof.
  intros Hw. destruct (validateState_spec s) as [Hfst Hsnd].
  assert (He : snd (validateState s) = []).
  { apply Hsnd. repeat split.
    - now apply wellFormed_length.
    - now apply wellFormed_NoDup.
    - intros j f Hj. now destruct (wellFormed_foundation s j f Hw Hj) as (_ & _ & _ & Ho). }
  pose proof (proj2 Hfst He) as Ht.
  destruct (validateState s) as [b e]. cbn [fst snd] in *. now subst.
Qed.

Lemma t7_get_nth_Z {A : Type} (t : Tuple7 A) i p :
  t7_get t i = Some p -> nth_error (t7_list t) (Z.to_nat i) = Some p.
Proof.
  intros H. pose proof (t7_get_range _ _ _ H) as Hr.
  rewrite <- t7_get_nth, Z2Nat.id by lia. exact H.
Qed.

Lemma t4_get_nth_Z {A : Type} (t : Tuple4 A) i p :
  t4_get t i = Some p -> nth_error (t4_list t) (Z.to_nat i) = Some p.
Proof.
  intros H. pose proof (t4_get_range _ _ _ H) as Hr.
  rewrite <- t4_get_nth, Z2Nat.id by lia. exact H.
Qed.

Lemma findAutoCompleteMove_None s :
  findAutoCompleteMove s = None <->
  forall i col top j f,
    t7_get (tableau s) i = Some col -> Js.at_last (cards col) = Some top ->
    t4_get (foundations s) j = Some f ->
    canPlaceOnFoundation top f = false.
Proof.
  unfold findAutoCompleteMove. rewrite findAutoCompleteLoop_None. split.
  - intros H i col top j f Hi Htop Hj.
    apply (H col top); auto; [apply in_t7_list | apply in_t4_list]; eauto.
  - intros H col top Hcol Htop f Hf.
    apply in_t7_list in Hcol. destruct Hcol as (i & Hi).
    apply in_t4_list in Hf. destruct Hf as (j & Hj). eauto.
Qed.

Lemma findAutoCompleteMove_Some s from to :
  findAutoCompleteMove s = Some (from, to) ->
  exists col top f,
    t7_get (tableau s) (pileIndex from) = Some col
    /\ Js.at_last (cards col) = Some top
    /\ t4_get (foundations s) (pileIndex to) = Some f
    /\ canPlaceOnFoundation top f = true
    /\ from = mkLoc tableau_t (pileIndex from) (Js.len (cards col) - 1)
    /\ to = mkLoc foundation_t (pileIndex to) (Js.len (cards f))
    /\ (forall j f', 0 <= j < pileIndex to ->
          t4_get (foundations s) j = Some f' ->
          canPlaceOnFoundation top f' = false)
    /\ (forall i col' top' j f', 0 <= i < pileIndex from ->
          t7_get (tableau s) i = Some col' ->
          Js.at_last (cards col') = Some top' ->
          t4_get (foundations s) j = Some f' ->
          canPlaceOnFoundation top' f' = false).
Proof.
  unfold findAutoCompleteMove. intros H.
  destruct (findAutoCompleteLoop_Some _ _ _ _ _ H)
    as (k & col & top & Hk & Htop & -> & Hff & Hfirst).
  destruct (findFoundationFor_Some _ _ _ _ Hff)
    as (j & f & Hj & Hplace & -> & Hlow).
  rewrite <- t7_get_nth in Hk. rewrite <- t4_get_nth in Hj.
  cbn [pileIndex]. rewrite !Z.add_0_l.
  exists col, top, f. repeat split; auto.
  - intros j' f' Hr Hj'. apply (Hlow (Z.to_nat j')); [lia |].
    now apply t4_get_nth_Z.
  - intros i col' top' j' f' Hr Hi Htop' Hj'.
    pose proof (Hfirst (Z.to_nat i) col' top') as Hn.
    rewrite findFoundationFor_None in Hn.
    apply Hn; [lia | now apply t7_get_nth_Z | exact Htop' |].
    apply in_t4_list. eauto.
Qed.

Lemma autoCompleteRun_reachable cfg seed clock : forall fuel s s',
  reachable cfg seed s -> autoCompleteRun fuel clock s = Ret s' ->
  reachable cfg seed s'.
Proof.
  induction fuel as [| fuel IH]; intros s s' Hr Hrun; cbn [autoCompleteRun] in Hrun.
  - now injection Hrun as <-.
  - destruct (autoCompleteStep (clock fuel) s) as [[s1 |] | e] eqn:Hs;
      cbn [bind] in Hrun; try discriminate.
    + apply (IH s1); [| exact Hrun]. eapply reach_autoStep; eassumption.
    + now injection Hrun as <-.
Qed.

Lemma autoComplete_reachable_wins cfg seed clock s :
  reachable cfg seed s -> canAutoComplete s = true ->
  exists s',
    autoCompleteRun 52 clock s = Ret s'
    /\ reachable cfg seed s'
    /\ checkWinCondition s' = true
    /\ isWon s' = true
    /\ flat_map cards (t7_list (tableau s')) = [].
Proof.
  intros Hr Hac. pose proof (reachable_wellFormed _ _ _ Hr) as Hw.
  destruct (autoCompleteRun_wins clock 52 s Hw Hac)
    as (s' & Hrun & Hcheck & Hempty & _).
  { pose proof (autoComplete_count s Hw Hac) as Hc.
    pose proof (len_nonneg (flat_map cards (t4_list (foundations s)))).
    unfold foundationCount in *. lia. }
  pose proof (autoCompleteRun_reachable _ _ _ _ _ _ Hr Hrun) as Hr'.
  exists s'. repeat split; auto.
  eapply reachable_won; eassumption.
Qed.

(** ** game.ts: GameHistory round trips and createWonState *)

Lemma undo_then_redo h snapshot h1 :
  undo h = Ret (Some snapshot, h1) ->
  exists entry, redo h1 = (Some entry, h) /\ previousState entry = snapshot.
Proof.
  unfold undo, canUndo.
  destruct (Z.geb_spec (currentIndex h) 0) as [Hge | Hlt]; cbn [negb];
    [| discriminate].
  destruct (Js.index (history h) (currentIndex h)) as [entry |] eqn:Hidx;
    [| discriminate].
  intros [= <- <-]. exists entry. split; [| reflexivity].
  pose proof (index_range _ _ _ Hidx) as Hr.
  unfold redo, canRedo. cbn [history currentIndex].
  destruct (Z.ltb_spec (currentIndex h - 1) (Js.len (history h) - 1));
    [| lia].
  cbn [negb]. replace (currentIndex h - 1 + 1) with (currentIndex h) by lia.
  rewrite Hidx. now destruct h.
Qed.

Lemma redo_then_undo h entry h1 :
  hist_inv h -> redo h = (Some entry, h1) ->
  undo h1 = Ret (Some (previousState entry), h).
Proof.
  intros [Hc _]. unfold redo, canRedo.
  destruct (Z.ltb_spec (currentIndex h) (Js.len (history h) - 1)) as [Hlt | Hge];
    cbn [negb]; [| discriminate].
  cbn [history currentIndex]. intros [= Hidx <-].
  unfold undo, canUndo. cbn [history currentIndex].
  destruct (Z.geb_spec (currentIndex h + 1) 0); [| lia]. cbn [negb].
  rewrite Hidx. replace (currentIndex h + 1 - 1) with (currentIndex h) by lia.
  now destruct h.
Qed.

Lemma wonFoundation_ok su i : pileOK foundation_t (wonFoundation su i).
Proof.
  split; [reflexivity |]. cbn [wonFoundation cards]. split; [| split].
  - apply Forall_forall. intros c Hc. apply in_map_iff in Hc.
    destruct Hc as (r & <- & Hr). apply deckCard_spec. cbn [rank suit id].
    split; [cbn [In] in Hr; lia | reflexivity].
  - apply Forall_forall. intros c Hc. apply in_map_iff in Hc.
    now destruct Hc as (r & <- & _).
  - cbn. repeat split; reflexivity.
Qed.

Lemma createWonState_wellFormed now1 now2 cfg :
  wellFormed (createWonState now1 now2 cfg).
Proof.
  split.
  - apply pilesOK_parts. unfold createWonState.
    cbn [stock waste foundations tableau].
    split; [| split; [| split]].
    + now apply pileOK_empty.
    + now apply pileOK_empty.
    + intros i p Hp. unfold t4_get in Hp.
      eqb_cases; try discriminate; injection Hp as <-; apply wonFoundation_ok.
    + intros i p Hp. unfold t7_get in Hp.
      eqb_cases; try discriminate; injection Hp as <-; now apply pileOK_empty.
  - assert (E : cardIds (createWonState now1 now2 cfg) = map id createDeck)
      by reflexivity.
    now rewrite E.
Qed.

(** ** game.ts: canAutoMove and autoMoveToFoundation *)

Lemma firstValidFoundation_Some s from : forall fs i to,
  firstValidFoundation s from fs i = Ret (Some to) ->
  isValidMove s from to 1 = Ret true.
Proof.
  induction fs as [| f fs IH]; intros i to; cbn [firstValidFoundation];
    [discriminate |].
  destruct (isValidMove s from (mkLoc foundation_t i (Js.len (cards f))) 1)
    as [[|] | e] eqn:E; cbn [bind]; [| apply IH | discriminate].
  now intros [= <-].
Qed.

Lemma firstEmptyTableau_Some : forall ts i to,
  firstEmptyTableau ts i = Some to ->
  exists k col, nth_error ts k = Some col /\ cards col = []
                /\ to = mkLoc tableau_t (i + Z.of_nat k) 0.
Proof.
  induction ts as [| t ts IH]; intros i to; cbn [firstEmptyTableau];
    [discriminate |].
  destruct (Z.eqb_spec (Js.len (cards t)) 0) as [E | _].
  - intros [= <-]. exists 0%nat, t. repeat split.
    + now apply len_zero_nil.
    + now rewrite Z.add_0_r.
  - intros H. destruct (IH _ _ H) as (k & col & Hk & Hc & ->).
    exists (S k), col. repeat split; auto. f_equal. lia.
Qed.

(** A King run taken from a column goes onto the first empty column. *)
Lemma king_to_empty_valid s from sp card to n :
  pilesOK s ->
  getPile s from = Some sp ->
  Js.index (cards sp) (cardIndex from) = Some card ->
  rank card = 13 ->
  pickUpOK sp (cardIndex from) ->
  n <= Js.len (cards sp) - cardIndex from ->
  firstEmptyTableau (t7_list (tableau s)) 0 = Some to ->
  isValidMove s from to n = Ret true.
Proof.
  intros Hok Hsp Hcard Hk Hpick Hn Hto.
  destruct (firstEmptyTableau_Some _ _ _ Hto) as (k & col & Hcol & Hempty & ->).
  rewrite <- t7_get_nth in Hcol. rewrite Z.add_0_l.
  apply isValidMove_true_spec. exists sp, col, card.
  split; [exact Hsp |]. split; [exact Hcol |]. split; [exact Hcard |].
  split; [exact Hn |]. split; [exact Hpick |].
  destruct (Hok (mkLoc tableau_t (Z.of_nat k) 0) col Hcol) as (-> & _).
  unfold canPlaceOnTableau. rewrite Hempty, at_last_nil. now apply Z.eqb_eq.
Qed.

(** On a table in order, for a card in the tableau or on top of its pile,
    a destination offered by [canAutoMove] is where [autoMoveToFoundation]
    moves the card. *)
Lemma canAutoMove_autoMove now s from sp dest :
  pilesOK s ->
  getPile s from = Some sp ->
  pileType from = tableau_t \/ cardIndex from = Js.len (cards sp) - 1 ->
  canAutoMove s from = Ret (Some dest) ->
  exists s' m,
    autoMoveToFoundation now s from
    = Ret (mkResult true (Some s') None (Some m))
    /\ move_from m = from /\ move_to m = dest.
Proof.
  intros Hok Hsp Hwhere. unfold canAutoMove, autoMoveToFoundation.
  rewrite Hsp.
  destruct (Js.index (cards sp) (cardIndex from)) as [card |] eqn:Hcard;
    [| discriminate].
  pose proof (index_range _ _ _ Hcard) as Hr.
  destruct (faceUp card) eqn:Hup; cbn [negb andb]; [| discriminate].
  pose proof (Hok from sp Hsp) as Hsok.
  assert (Hfin : forall to n, isValidMove s from to n = Ret true ->
            exists s' m,
              executeMove now s from to n
              = Ret (mkResult true (Some s') None (Some m))
              /\ move_from m = from /\ move_to m = to).
  { intros to n Hv.
    destruct (executeMove_valid now s from to n Hv)
      as (s' & m & He & _ & _ & _ & _ & _ & M1 & M2 & _). eauto. }
  destruct (Z.eqb_spec (cardIndex from) (Js.len (cards sp) - 1)) as [Etop | Ntop];
    cbn [negb].
  - destruct (firstValidFoundation s from (t4_list (foundations s)) 0)
      as [[to |] | e] eqn:Hf; cbn [bind]; [| | discriminate].
    + intros [= <-]. apply Hfin. eapply firstValidFoundation_Some; eassumption.
    + destruct (Z.eqb_spec (rank card) 13) as [Hk | _]; [| discriminate].
      destruct (firstEmptyTableau (t7_list (tableau s)) 0) as [to |] eqn:Hto;
        [| discriminate].
      intros [= <-]. apply Hfin.
      apply (king_to_empty_valid s from sp card); auto; [| lia].
      destruct Hsok as (Hty & _ & Hshape). unfold pickUpOK. rewrite Hty.
      destruct (pileType from); auto.
      * exfalso. rewrite Forall_forall in Hshape.
        assert (Hin : In card (cards sp)).
        { rewrite <- (firstn_skipn (Z.to_nat (cardIndex from)) (cards sp)),
            (index_skipn _ _ _ Hcard).
          apply in_or_app. right. now left. }
        specialize (Hshape card Hin). congruence.
      * rewrite (index_skipn _ _ _ Hcard), skipn_all2
          by (unfold Js.len in *; lia).
        constructor; [exact Hup | constructor].
  - destruct Hwhere as [Htab | Htop]; [| contradiction].
    destruct (Z.eqb_spec (rank card) 13) as [Hk | _]; [| discriminate].
    rewrite allFaceUpFrom_nonneg by lia. cbn [bind].
    destruct (forallb faceUp (skipn (Z.to_nat (cardIndex from)) (cards sp)))
      eqn:Hall; cbn [negb]; [| discriminate].
    destruct (firstEmptyTableau (t7_list (tableau s)) 0) as [to |] eqn:Hto;
      [| discriminate].
    intros [= <-]. apply Hfin.
    apply (king_to_empty_valid s from sp card); auto; [| lia].
    destruct Hsok as (Hty & _). unfold pickUpOK. rewrite Hty, Htab.
    now apply forallb_faceUp_Forall.
Qed.

(** ** useGame.ts: the reducer *)

Lemma undo_after_push h entry :
  hist_inv h ->
  undo (push h entry)
  = Ret (Some (previousState entry),
         mkHistory (history (push h entry)) (currentIndex (push h entry) - 1)).
Proof.
  intros Hi. destruct (push_cursor h entry Hi) as (H0 & Hidx & _).
  unfold undo, canUndo.
  destruct (Z.geb_spec (currentIndex (push h entry)) 0); [| lia].
  cbn [negb]. now rewrite Hidx.
Qed.

(** A recorded action either leaves game and history alone or pushes an
    entry that holds the game before it. *)
Lemma reducer_recorded now now2 st a st1 :
  recorded a = true ->
  gameReducer now now2 st a = Ret st1 ->
  (game st1 = game st /\ r_history st1 = r_history st)
  \/ exists entry, r_history st1 = push (r_history st) entry
                   /\ previousState entry = game st.
Proof.
  intros Hrec.
  destruct a as [ | | from to n | from | | i | | g | cfg];
    try discriminate; cbn [gameReducer]; rewrite ?cloneState_id.
  - destruct (Js.len (cards (stock (game st))) =? 0).
    + intros [= <-]. now left.
    + intros [= <-]. right. cbn [r_history]. eauto.
  - destruct (Js.len (cards (waste (game st))) =? 0).
    + intros [= <-]. now left.
    + intros [= <-]. right. cbn [r_history]. eauto.
  - destruct (executeMove now (game st) from to n) as [r | e];
      cbn [bind]; [| discriminate].
    destruct (success r), (result_state r), (result_move r);
      intros [= <-]; cbn [game r_history]; eauto.
  - destruct (autoMoveToFoundation now (game st) from) as [r | e];
      cbn [bind]; [| discriminate].
    destruct (success r), (result_state r), (result_move r);
      intros [= <-]; cbn [game r_history]; eauto.
  - destruct (flipTableauCard now (game st) i) as [r | e];
      cbn [bind]; [| discriminate].
    destruct (success r), (result_state r);
      try (intros [= <-]; cbn [game r_history]; now eauto).
    destruct (t7_get (tableau (game st)) i); [| discriminate].
    intros [= <-]. cbn [game r_history]. eauto.
Qed.

Lemma autoCompleteSteps_history clock : forall k st st',
  autoCompleteSteps k clock st = Ret st' -> r_history st' = r_history st.
Proof.
  induction k as [| k IH]; intros st st'; cbn [autoCompleteSteps].
  - now intros [= <-].
  - cbn [gameReducer].
    destruct (autoCompleteStep (clock k) (game st)) as [[g |] | e]; cbn [bind];
      try discriminate; intros H; now rewrite (IH _ _ H).
Qed.

Lemma reducer_undo_restores now1 now2 clock now3 now4 st a st1 k st2 :
  hist_inv (r_history st) ->
  recorded a = true ->
  gameReducer now1 now2 st a = Ret st1 ->
  autoCompleteSteps k clock st1 = Ret st2 ->
  (game st1 = game st /\ r_history st1 = r_history st)
  \/ exists st3, gameReducer now3 now4 st2 UNDO = Ret st3
                 /\ game st3 = game st
                 /\ lastMoveResult st3 = None
                 /\ size (r_history st3) = size (r_history st1)
                 /\ currentIndex (r_history st3)
                    = currentIndex (r_history st1) - 1.
Proof.
  intros Hi Hrec Ha Hk.
  destruct (reducer_recorded _ _ _ _ _ Hrec Ha) as [Hsame | (entry & Hh & Hp)];
    [now left | right].
  pose proof (autoCompleteSteps_history _ _ _ _ Hk) as Hh2.
  cbn [gameReducer]. rewrite Hh2, Hh, undo_after_push by exact Hi.
  cbn [bind]. eexists. split; [reflexivity |]. cbn [game lastMoveResult r_history].
  repeat split; auto.
Qed.

(** ** Bookkeeping along a game *)

Lemma createInitialState_fields cfg seed s :
  createInitialState cfg seed = Ret (Proper s) ->
  config s = mergeConfig cfg /\ moves s = 0 /\ stockPasses s = 0
  /\ isWon s = false /\ endTime s = None /\ startTime s = None.
Proof.
  intros E.
  destruct (createInitialState_deck cfg seed s E) as (deck & Ed & Hperm).
  pose proof (deck_length deck Hperm) as Hlen.
  clear Hperm. destruct deck as [| d0 deck]; [discriminate |].
  do 27 (destruct deck as [| ? deck]; [discriminate |]).
  rewrite (createInitialState_explicit _ _ _ _ _ _ _ _ _ _ _ _ _ _ _ _ _ _
             _ _ _ _ _ _ _ _ _ _ _ _ _ Ed) in E.
  injection E as <-. repeat split; reflexivity.
Qed.

Lemma executeMove_bookkeeping now s from to n r s' :
  pilesOK s ->
  executeMove now s from to n = Ret r -> result_state r = Some s' ->
  config s' = config s /\ stockPasses s' = stockPasses s
  /\ moves s' = moves s + 1
  /\ isWon s' = (checkWinCondition s' || isWon s)
  /\ endTime s' = (if checkWinCondition s' then Some now else endTime s).
Proof.
  intros H Hr Hs.
  pose proof (executeMove_success_valid _ _ _ _ _ _ _ Hr Hs) as Hv.
  pose proof (valid_move_distinct _ _ _ _ H Hv) as Hdiff.
  destruct (executeMove_distinct_effect now s from to n Hv Hdiff)
    as (sp & dp & s2 & m & _ & _ & He & _ & _ & _ & _
        & _ & _ & _ & _ & _ & Hm & _ & Hwon & Hend & Hp & Hc).
  rewrite Hr in He. injection He as ->. cbn [result_state] in Hs.
  assert (Heq : s2 = s') by congruence. subst s2. auto.
Qed.

Lemma booked_move cfg now s from to n r s' :
  pilesOK s -> booked cfg s ->
  executeMove now s from to n = Ret r -> result_state r = Some s' ->
  booked cfg s'.
Proof.
  intros Hok (Hc & Hp & Hm & Hv & Hw) Hr Hs.
  destruct (executeMove_bookkeeping _ _ _ _ _ _ _ Hok Hr Hs)
    as (Hc' & Hp' & Hm' & Hw' & He').
  unfold booked. rewrite Hc', Hp', Hm', Hw', He'.
  repeat split; auto; try lia.
  - destruct (checkWinCondition s'); cbn [orb]; [discriminate | tauto].
  - destruct (checkWinCondition s'); cbn [orb]; [reflexivity | tauto].
Qed.

Lemma reachable_booked cfg seed s : reachable cfg seed s -> booked cfg s.
Proof.
  induction 1 as [s E | now s _ IH | s _ IH | now s from to n r s' Hre IH Hr Hs
                  | now s i r s' _ IH Hr Hs | now s from r s' Hre IH Hr Hs
                  | now s s' Hre IH Hr].
  - destruct (createInitialState_fields cfg seed s E)
      as (Hc & Hm & Hp & Hw & He & _).
    unfold booked. rewrite Hc, Hm, Hp, Hw, He.
    repeat split; try lia; try discriminate. intros H; now contradiction H.
  - destruct (cards (stock s)) as [| c0 cs0] eqn:Hst.
    { now rewrite drawFromStock_noop. }
    destruct (drawFromStock_draws now s) as (base & top & _ & _ & _ & ->);
      [rewrite Hst; discriminate |].
    destruct IH as (Hc & Hp & Hm & Hv & Hw). unfold booked.
    cbn [config stockPasses moves isWon endTime]. repeat split; auto; try lia;
      apply Hw.
  - destruct (cards (waste s)) as [| c0 cs0] eqn:Hw0.
    { now rewrite resetStock_noop by auto. }
    destruct (resetPermitted s) eqn:Hperm.
    2:{ now rewrite resetStock_noop by auto. }
    rewrite resetStock_recycles by (rewrite ?Hw0; auto; discriminate).
    destruct IH as (Hc & Hp & Hm & Hv & Hw). unfold booked.
    cbn [config stockPasses moves isWon endTime].
    repeat split; auto; try lia; try apply Hw.
    intros Hveg Hlim. unfold resetPermitted in Hperm.
    rewrite Hveg, Hlim in Hperm. cbn [negb andb] in Hperm.
    apply negb_true_iff in Hperm.
    destruct (Z.geb_spec (stockPasses s) 3); [discriminate | lia].
  - eapply booked_move; [eapply reachable_pilesOK | | |]; eassumption.
  - destruct (flipTableauCard_spec now s i) as (r' & Hr' & _ & Hfail & Hok).
    rewrite Hr in Hr'. injection Hr' as <-.
    destruct (success r) eqn:Hsucc.
    2:{ destruct (Hfail eq_refl) as [Hn _]. congruence. }
    destruct (Hok eq_refl) as (col & front & top & _ & _ & _ & Hres & _).
    rewrite Hres in Hs. injection Hs as <-. exact IH.
  - destruct (autoMoveToFoundation_executes _ _ _ _ _ Hr Hs) as (to & n & He).
    eapply booked_move; [eapply reachable_pilesOK | | |]; eassumption.
  - destruct (autoCompleteStep_executes _ _ _ Hr) as (from & to & r & He & Hs).
    eapply booked_move; [eapply reachable_pilesOK | | |]; eassumption.
Qed.



(** ** Lines of play *)

Lemma play_reachable cfg seed : forall acts s s',
  reachable cfg seed s -> play acts s = Some s' -> reachable cfg seed s'.
Proof.
  induction acts as [| a acts IH]; intros s s' Hr Hp; cbn [play] in Hp.
  - now injection Hp as <-.
  - destruct (act a s) as [s1 |] eqn:Ha; [| discriminate].
    apply (IH s1); [| exact Hp].
    destruct a as [now | | now from to n | now i]; cbn [act] in Ha.
    + injection Ha as <-. now apply reach_draw.
    + injection Ha as <-. now apply reach_reset.
    + destruct (executeMove now s from to n) as [r | e] eqn:He; [| discriminate].
      eapply reach_move; eassumption.
    + destruct (flipTableauCard now s i) as [r | e] eqn:He; [| discriminate].
      eapply reach_flip; eassumption.
Qed.

Lemma played42_reachable : reachable defaultPartial 42 played42.
Proof.
  apply (play_reachable _ _ line42 (dealt defaultPartial 42)).
  - apply reach_init. vm_compute. reflexivity.
  - vm_compute. reflexivity.
Qed.

Lemma played42_canAutoComplete : canAutoComplete played42 = true.
Proof. vm_compute. reflexivity. Qed.

(** * Tables in play *)

Lemma won42_run : autoCompleteRun 52 (fun _ => 1000) played42 = Ret won42.
Proof. vm_compute. reflexivity. Qed.

Lemma won42_reachable : reachable defaultPartial 42 won42.
Proof.
  exact (autoCompleteRun_reachable _ _ _ _ _ _ played42_reachable won42_run).
Qed.

Lemma dealt42_reachable : reachable defaultPartial 42 (dealt defaultPartial 42).
Proof. apply reach_init. vm_compute. reflexivity. Qed.

(** X12: let [createInitialState(config, seed)] -- any configuration, the
    seed any number or absent -- return a table of cards: it did not raise
    and put no [undefined] into the stock (X28 says when, X26 and X29 for
    which seeds at least).  On that table and on every table reached from
    it by any calls of [drawFromStock], [resetStock], [executeMove],
    [flipTableauCard], [autoMoveToFoundation] and [autoCompleteStep], every
    pile carries the type tag of its place and holds deck cards only (rank
    1..13, identity [suit-rank]); the stock is face-down throughout, the
    waste face-up throughout; every foundation is face-up, of one suit, and
    runs from the Ace up with ranks rising by one; every tableau column is a
    run of face-down cards below a run of face-up cards whose ranks fall
    strictly from the bottom up. *)
Theorem X12_reachable_piles_in_order (cfg : PartialConfig) (seed : Seed)
  (s : GameState) :
  reachable cfg seed s ->
  forall loc p, getPile s loc = Some p ->
    type p = pileType loc
    /\ Forall deckCard (cards p)
    /\ match pileType loc with
       | stock_t => Forall (fun c => faceUp c = false) (cards p)
       | waste_t => Forall (fun c => faceUp c = true) (cards p)
       | foundation_t =>
           Forall (fun c => faceUp c = true) (cards p)
           /\ foundationOrdered (cards p)
       | tableau_t => columnOrdered (cards p)
       end.
Proof. intros Hr loc p Hp. exact (reachable_pilesOK cfg seed s Hr loc p Hp). Qed.

Lemma X12_reachable_piles_in_order_witness :
  reachable defaultPartial 42 played42
  /\ getPile played42 (mkLoc tableau_t 1 0) = Some (t7_1 (tableau played42))
  /\ pileOK tableau_t (t7_1 (tableau played42)).
Proof.
  split; [exact played42_reachable |]. split; [reflexivity |].
  exact (X12_reachable_piles_in_order defaultPartial 42 played42
           played42_reachable (mkLoc tableau_t 1 0) _ eq_refl).
Defined.

(** X13: on the tables of a game no move that [isValidMove] accepts has the
    same pile as source and destination: a valid move always takes cards
    from one pile to another. *)
Theorem X13_valid_move_between_piles (cfg : PartialConfig) (seed : Seed)
  (s : GameState) (from to : CardLocation) (n : Z) :
  reachable cfg seed s ->
  isValidMove s from to n = Ret true ->
  samePile from to = false.
Proof.
  intros Hr Hv.
  exact (valid_move_distinct s from to n (reachable_pilesOK cfg seed s Hr) Hv).
Qed.

Lemma X13_valid_move_between_piles_witness :
  reachable defaultPartial 42 (dealt defaultPartial 42)
  /\ isValidMove (dealt defaultPartial 42)
                 (mkLoc tableau_t 0 0) (mkLoc tableau_t 6 7) 1 = Ret true
  /\ samePile (mkLoc tableau_t 0 0) (mkLoc tableau_t 6 7) = false.
Proof.
  assert (Hv : isValidMove (dealt defaultPartial 42)
                 (mkLoc tableau_t 0 0) (mkLoc tableau_t 6 7) 1 = Ret true)
    by (vm_compute; reflexivity).
  split; [exact dealt42_reachable |]. split; [exact Hv |].
  exact (X13_valid_move_between_piles defaultPartial 42 _ _ _ 1
           dealt42_reachable Hv).
Defined.

(** X14: [validateState] answers [valid: true] exactly when its error list
    is empty, and the list is empty exactly when the table holds 52 cards,
    no two of them with the same identity, and every foundation starts with
    an Ace and continues in one suit with ranks rising by one.  (Nothing
    else is checked: not the faces, not the tableau, not that identities
    match suit and rank.) *)
Theorem X14_validateState_spec (s : GameState) :
  (fst (validateState s) = true <-> snd (validateState s) = [])
  /\ (snd (validateState s) = [] <->
      length (getAllCards s) = 52%nat
      /\ NoDup (map id (getAllCards s))
      /\ forall j f, t4_get (foundations s) j = Some f ->
                     foundationOrdered (cards f)).
Proof. exact (validateState_spec s). Qed.

(** X15: let [createInitialState(config, seed)] -- any configuration, the
    seed any number or absent -- return a table of cards: it did not raise
    and put no [undefined] into the stock.  Then [validateState] finds
    nothing wrong with that table or with any table reached from it by the
    six state transitions: it returns [{ valid: true, errors: [] }].  (A
    deal with [undefined] in its stock, as the seeds of C2 give, is no
    table of cards and is not covered.) *)
Theorem X15_validateState_reachable (cfg : PartialConfig) (seed : Seed)
  (s : GameState) :
  reachable cfg seed s -> validateState s = (true, []).
Proof.
  intros Hr. apply wellFormed_valid. exact (reachable_wellFormed cfg seed s Hr).
Qed.

Lemma X15_validateState_reachable_witness :
  reachable defaultPartial 42 played42 /\ validateState played42 = (true, []).
Proof.
  split; [exact played42_reachable |].
  exact (X15_validateState_reachable defaultPartial 42 played42
           played42_reachable).
Defined.

(** X16: [findAutoCompleteMove] returns [null] exactly when no foundation
    accepts the last card of any column.  Otherwise it returns the last card
    of the leftmost column whose last card some foundation accepts, and the
    lowest-numbered foundation that accepts it, with that foundation's size
    as the destination index.  It does not look at the card's face. *)
Theorem X16_findAutoCompleteMove_spec (s : GameState) :
  (findAutoCompleteMove s = None <->
   forall i col top j f,
     t7_get (tableau s) i = Some col -> Js.at_last (cards col) = Some top ->
     t4_get (foundations s) j = Some f ->
     canPlaceOnFoundation top f = false)
  /\ (forall from to,
        findAutoCompleteMove s = Some (from, to) ->
        exists col top f,
          t7_get (tableau s) (pileIndex from) = Some col
          /\ Js.at_last (cards col) = Some top
          /\ t4_get (foundations s) (pileIndex to) = Some f
          /\ canPlaceOnFoundation top f = true
          /\ from = mkLoc tableau_t (pileIndex from) (Js.len (cards col) - 1)
          /\ to = mkLoc foundation_t (pileIndex to) (Js.len (cards f))
          /\ (forall j f', 0 <= j < pileIndex to ->
                t4_get (foundations s) j = Some f' ->
                canPlaceOnFoundation top f' = false)
          /\ (forall i col' top' j f', 0 <= i < pileIndex from ->
                t7_get (tableau s) i = Some col' ->
                Js.at_last (cards col') = Some top' ->
                t4_get (foundations s) j = Some f' ->
                canPlaceOnFoundation top' f' = false)).
Proof.
  split; [apply findAutoCompleteMove_None |].
  intros from to. apply findAutoCompleteMove_Some.
Qed.

(** X17: auto-complete finishes the game.  On any table of a game for which
    [canAutoComplete] answers [true] (every tableau card face-up, stock and
    waste empty), calling [autoCompleteStep] again and again on its own
    result never raises and returns a table until, after at most 52 calls,
    all 52 cards lie on the foundations: the final table satisfies
    [checkWinCondition], has [isWon] set and an empty tableau. *)
Theorem X17_autoComplete_wins (cfg : PartialConfig) (seed : Seed)
  (clock : nat -> Z) (s : GameState) :
  reachable cfg seed s ->
  canAutoComplete s = true ->
  exists s',
    autoCompleteRun 52 clock s = Ret s'
    /\ reachable cfg seed s'
    /\ checkWinCondition s' = true
    /\ isWon s' = true
    /\ flat_map cards (t7_list (tableau s')) = [].
Proof. exact (autoComplete_reachable_wins cfg seed clock s). Qed.

Lemma X17_autoComplete_wins_witness :
  reachable defaultPartial 42 played42
  /\ canAutoComplete played42 = true
  /\ exists s',
       autoCompleteRun 52 (fun _ => 1000) played42 = Ret s'
       /\ reachable defaultPartial 42 s'
       /\ checkWinCondition s' = true
       /\ isWon s' = true
       /\ flat_map cards (t7_list (tableau s')) = [].
Proof.
  split; [exact played42_reachable |].
  split; [exact played42_canAutoComplete |].
  exact (X17_autoComplete_wins defaultPartial 42 (fun _ => 1000) played42
           played42_reachable played42_canAutoComplete).
Defined.

(** X18: on the tables of a game, when the foundations hold 52 cards
    ([checkWinCondition]) the won flag is set and stock, waste and tableau
    are empty. *)
Theorem X18_won_table (cfg : PartialConfig) (seed : Seed) (s : GameState) :
  reachable cfg seed s ->
  checkWinCondition s = true ->
  isWon s = true
  /\ cards (stock s) = [] /\ cards (waste s) = []
  /\ flat_map cards (t7_list (tableau s)) = [].
Proof.
  intros Hr Hc. split; [exact (reachable_won cfg seed s Hr Hc) |].
  pose proof (wellFormed_length s (reachable_wellFormed cfg seed s Hr)) as Hlen.
  rewrite checkWinCondition_count in Hc. apply Z.eqb_eq in Hc.
  unfold foundationCount, Js.len in Hc. unfold getAllCards in Hlen.
  rewrite !length_app in Hlen.
  repeat split; apply length_zero_iff_nil; lia.
Qed.

Lemma X18_won_table_witness :
  reachable defaultPartial 42 won42
  /\ checkWinCondition won42 = true
  /\ isWon won42 = true
  /\ cards (stock won42) = [] /\ cards (waste won42) = []
  /\ flat_map cards (t7_list (tableau won42)) = [].
Proof.
  assert (Hc : checkWinCondition won42 = true) by (vm_compute; reflexivity).
  split; [exact won42_reachable |]. split; [exact Hc |].
  exact (X18_won_table defaultPartial 42 won42 won42_reachable Hc).
Defined.

(** X19: on the tables of a game, for a card that lies in the tableau or on
    top of its pile, [canAutoMove] and [autoMoveToFoundation] agree:
    [canAutoMove] offers a destination exactly when [autoMoveToFoundation]
    succeeds and moves the card there.  (For a card below the top of the
    waste or of a foundation they can differ.) *)
Theorem X19_canAutoMove_autoMove_agree (cfg : PartialConfig) (seed : Seed)
  (now : Z) (s : GameState) (from : CardLocation) (sp : Pile)
  (dest : CardLocation) :
  reachable cfg seed s ->
  getPile s from = Some sp ->
  pileType from = tableau_t \/ cardIndex from = Js.len (cards sp) - 1 ->
  (canAutoMove s from = Ret (Some dest) <->
   exists s' m,
     autoMoveToFoundation now s from
     = Ret (mkResult true (Some s') None (Some m))
     /\ move_from m = from /\ move_to m = dest).
Proof.
  intros Hr Hsp Hwhere. split.
  - apply (canAutoMove_autoMove now s from sp dest); auto.
    exact (reachable_pilesOK cfg seed s Hr).
  - intros (s' & m & Ha & _ & <-).
    destruct (autoMove_success_canAutoMove now s from _ Ha eq_refl)
      as (m' & Hm & Hc).
    cbn [result_move] in Hm. injection Hm as <-. exact Hc.
Qed.

Lemma X19_canAutoMove_autoMove_agree_witness :
  reachable defaultPartial 42 played42
  /\ getPile played42 (mkLoc tableau_t 1 10) = Some (t7_1 (tableau played42))
  /\ (canAutoMove played42 (mkLoc tableau_t 1 10)
      = Ret (Some (mkLoc foundation_t 3 2)) <->
      exists s' m,
        autoMoveToFoundation 1000 played42 (mkLoc tableau_t 1 10)
        = Ret (mkResult true (Some s') None (Some m))
        /\ move_from m = mkLoc tableau_t 1 10
        /\ move_to m = mkLoc foundation_t 3 2).
Proof.
  split; [exact played42_reachable |]. split; [reflexivity |].
  exact (X19_canAutoMove_autoMove_agree defaultPartial 42 1000 played42
           (mkLoc tableau_t 1 10) _ (mkLoc foundation_t 3 2)
           played42_reachable eq_refl (or_introl eq_refl)).
Defined.

(** X20: undo and redo of a [GameHistory] are inverse to each other on
    every history obtained from [new GameHistory()] by its methods: after an
    [undo] that returned a snapshot, [redo] returns the entry holding that
    snapshot and puts the object back as it was; after a [redo] that
    returned an entry, [undo] returns that entry's snapshot and puts the
    object back as it was. *)
Theorem X20_history_undo_redo (h : GameHistory) :
  hist_reachable h ->
  (forall snapshot h1,
      undo h = Ret (Some snapshot, h1) ->
      exists entry, redo h1 = (Some entry, h)
                    /\ previousState entry = snapshot)
  /\ (forall entry h1,
        redo h = (Some entry, h1) ->
        undo h1 = Ret (Some (previousState entry), h)).
Proof.
  intros Hr. split.
  - intros snapshot h1. apply undo_then_redo.
  - intros entry h1. apply redo_then_undo. now apply hist_reachable_inv.
Qed.

Lemma X20_history_undo_redo_witness :
  hist_reachable (push newHistory sampleEntry)
  /\ (forall snapshot h1,
        undo (push newHistory sampleEntry) = Ret (Some snapshot, h1) ->
        exists entry, redo h1 = (Some entry, push newHistory sampleEntry)
                      /\ previousState entry = snapshot).
Proof.
  assert (Hr : hist_reachable (push newHistory sampleEntry))
    by (apply hist_push, hist_new).
  split; [exact Hr |].
  exact (proj1 (X20_history_undo_redo (push newHistory sampleEntry) Hr)).
Defined.

(** X21: [createWonState] returns, for every configuration, a table in
    order that holds the 52 deck cards, all of them face-up on the four
    foundations (hearts, diamonds, clubs, spades); [checkWinCondition] and
    [validateState] accept it, its won flag is set, and auto-complete finds
    nothing left to move. *)
Theorem X21_createWonState (now1 now2 : Z) (cfg : PartialConfig) :
  wellFormed (createWonState now1 now2 cfg)
  /\ checkWinCondition (createWonState now1 now2 cfg) = true
  /\ isWon (createWonState now1 now2 cfg) = true
  /\ validateState (createWonState now1 now2 cfg) = (true, [])
  /\ canAutoComplete (createWonState now1 now2 cfg) = true
  /\ findAutoCompleteMove (createWonState now1 now2 cfg) = None
  /\ config (createWonState now1 now2 cfg) = mergeConfig cfg.
Proof.
  pose proof (createWonState_wellFormed now1 now2 cfg) as Hw.
  split; [exact Hw |]. split; [reflexivity |]. split; [reflexivity |].
  split; [now apply wellFormed_valid |].
  split; [reflexivity |]. split; reflexivity.
Qed.

(** X22: undo in the reducer.  Let the history of the reducer state be one
    a [GameHistory] can be in.  Then a [DRAW], [RESET_STOCK], [MOVE],
    [AUTO_MOVE] or [FLIP_CARD] action either leaves game and history as they
    were, or it is recorded, and then -- also after any number of
    [AUTO_COMPLETE_STEP] actions, which are not recorded -- [UNDO] puts back
    the game as it was before the recorded action, clears
    [lastMoveResult], keeps the size of the history and moves its cursor one
    entry back. *)
Theorem X22_reducer_undo (now1 now2 : Z) (clock : nat -> Z) (now3 now4 : Z)
  (st : GameReducerState) (a : GameAction) (st1 : GameReducerState)
  (k : nat) (st2 : GameReducerState) :
  hist_reachable (r_history st) ->
  recorded a = true ->
  gameReducer now1 now2 st a = Ret st1 ->
  autoCompleteSteps k clock st1 = Ret st2 ->
  (game st1 = game st /\ r_history st1 = r_history st)
  \/ exists st3, gameReducer now3 now4 st2 UNDO = Ret st3
                 /\ game st3 = game st
                 /\ lastMoveResult st3 = None
                 /\ size (r_history st3) = size (r_history st1)
                 /\ currentIndex (r_history st3)
                    = currentIndex (r_history st1) - 1.
Proof.
  intros Hr. apply reducer_undo_restores. now apply hist_reachable_inv.
Qed.

Lemma X22_reducer_undo_witness :
  hist_reachable (r_history initial42)
  /\ recorded DRAW = true
  /\ gameReducer 1000 1000 initial42 DRAW = Ret drawn42
  /\ autoCompleteSteps 1 (fun _ => 2000) drawn42 = Ret drawn42
  /\ ((game drawn42 = game initial42
       /\ r_history drawn42 = r_history initial42)
      \/ exists st3, gameReducer 3000 3000 drawn42 UNDO = Ret st3
                     /\ game st3 = game initial42
                     /\ lastMoveResult st3 = None
                     /\ size (r_history st3) = size (r_history drawn42)
                     /\ currentIndex (r_history st3)
                        = currentIndex (r_history drawn42) - 1).
Proof.
  assert (H1 : gameReducer 1000 1000 initial42 DRAW = Ret drawn42)
    by (vm_compute; reflexivity).
  assert (H2 : autoCompleteSteps 1 (fun _ => 2000) drawn42 = Ret drawn42)
    by (vm_compute; reflexivity).
  split; [exact hist_new |]. split; [reflexivity |].
  split; [exact H1 |]. split; [exact H2 |].
  exact (X22_reducer_undo 1000 1000 (fun _ => 2000) 3000 3000 initial42 DRAW
           drawn42 1 drawn42 hist_new eq_refl H1 H2).
Defined.

(** X23: the bookkeeping of a game.  On every table of a game started with
    [createInitialState(config, seed)] the configuration is the merged
    configuration the game was started with; [stockPasses] and [moves] are
    never negative; in vegas mode with limited passes [stockPasses] never
    exceeds 3; and the won flag is set exactly when an end time is
    recorded. *)
Theorem X23_bookkeeping (cfg : PartialConfig) (seed : Seed) (s : GameState) :
  reachable cfg seed s ->
  config s = mergeConfig cfg
  /\ 0 <= stockPasses s
  /\ 0 <= moves s
  /\ (scoringMode (config s) = vegas -> unlimitedPasses (config s) = false ->
      stockPasses s <= 3)
  /\ (isWon s = true <-> endTime s <> None).
Proof. exact (reachable_booked cfg seed s). Qed.

Lemma X23_bookkeeping_witness :
  reachable defaultPartial 42 played42
  /\ config played42 = mergeConfig defaultPartial
  /\ 0 <= stockPasses played42
  /\ 0 <= moves played42.
Proof.
  split; [exact played42_reachable |].
  destruct (X23_bookkeeping defaultPartial 42 played42 played42_reachable)
    as (H1 & H2 & H3 & _).
  split; [exact H1 |]. split; [exact H2 | exact H3].
Defined.



